(** * EchOcean: the client-side cache, lock, validation and retry layer,
      and the DriftBottle ledger, embedded in Rocq.

    Every definition below is a transcription of one function of the
    repository.  Milliseconds (the values of [Date.now()]) are integers
    of [Z]; JavaScript [Map]s keyed by strings and Solidity mappings are
    finite maps of stdpp; a JavaScript [Map] whose insertion order is
    observed is an association list; asynchronous functions thread the
    state of the page explicitly, and the points where they are
    suspended ([await]) are the points where other tasks of the page may
    run. *)

From Stdlib Require Import ZArith Lia List Ascii String Sorted.
From stdpp Require Import gmap strings pretty list.

Local Open Scope Z_scope.

(** ** Outcomes of JavaScript calls: a value or a thrown exception. *)

Inductive Outcome (E A : Type) : Type :=
| Ret (a : A)
| Throw (e : E).
Arguments Ret {E A} a.
Arguments Throw {E A} e.

(* ================================================================== *)
(** ** [src/lib/cacheLock.ts]: the in-memory lock manager *)
(* ================================================================== *)

Module CacheLock.

(** [interface CacheLock]. *)
Record CacheLock : Type := mkLock {
  key : string;
  timestamp : Z;
  expiry : Z
}.

(** [private readonly defaultExpiry = 30000]. *)
Definition defaultExpiry : Z := 30000.

Section Manager.
(** [S] is whatever else the page owns and cache operations work on
    (localStorage, the memory cache); [E] the thrown values. *)
Context {S E : Type}.

(** The page as one task sees it between two suspension points:
    the clock, the singleton manager's [locks] and the rest. *)
Record World : Type := mkWorld {
  now : Z;
  locks : gmap string CacheLock;
  app : S
}.

Definition set_locks (f : gmap string CacheLock → gmap string CacheLock)
    (w : World) : World :=
  {| now := now w; locks := f (locks w); app := app w |}.

Definition set_now (t : Z) (w : World) : World :=
  {| now := t; locks := locks w; app := app w |}.

(** [acquireLock(key, expiryMs)]: its body has no [await], so it runs
    to completion when called. *)
Definition acquireLock (k : string) (expiryMs : Z) (w : World) : bool * World :=
  let existingLock := locks w !! k in
  match existingLock with
  | Some l =>
      if now w <? expiry l            (* existingLock.expiry > now *)
      then (false, w)
      else (true, set_locks (insert k (mkLock k (now w) (now w + expiryMs))) w)
  | None =>
      (true, set_locks (insert k (mkLock k (now w) (now w + expiryMs))) w)
  end.

(** [releaseLock(key)]. *)
Definition releaseLock (k : string) (w : World) : World :=
  set_locks (delete k) w.

(** [isLocked(key)]: an expired lock is removed on the way. *)
Definition isLocked (k : string) (w : World) : bool * World :=
  match locks w !! k with
  | None => (false, w)
  | Some l =>
      if expiry l <=? now w
      then (false, set_locks (delete k) w)
      else (true, w)
  end.

(** [clearAllLocks()]. *)
Definition clearAllLocks (w : World) : World :=
  set_locks (fun _ => ∅) w.

(** The body of the [setInterval] callback of [startCleanup]. *)
Definition cleanupExpired (w : World) : World :=
  set_locks (filter (fun kl => now w < expiry kl.2)) w.

(** What the rest of the page can do to the manager while this task
    is suspended: time passes, and other tasks call the manager's
    public methods. *)
Inductive Action : Type :=
| Tick (dt : N)
| OtherAcquire (k : string) (expiryMs : Z)
| OtherRelease (k : string)
| OtherIsLocked (k : string)
| OtherClearAll
| PeriodicCleanup.

Definition run_action (a : Action) (w : World) : World :=
  match a with
  | Tick dt => set_now (now w + Z.of_N dt) w
  | OtherAcquire k e => (acquireLock k e w).2
  | OtherRelease k => releaseLock k w
  | OtherIsLocked k => (isLocked k w).2
  | OtherClearAll => clearAllLocks w
  | PeriodicCleanup => cleanupExpired w
  end.

(** One suspension of the task: what happened meanwhile, in order. *)
Definition Pause : Type := list Action.

Definition run_pause (p : Pause) (w : World) : World :=
  fold_left (fun w a => run_action a w) p w.

(** The task's state: the pauses still to come (one per suspension
    point it reaches, in order) and the world. *)
Definition St : Type := (list Pause * World)%type.

(** [await p] on a promise that is already settled: the task resumes
    after the other ready tasks had their turn. *)
Definition suspend (s : St) : St :=
  match s.1 with
  | [] => s
  | p :: ps => (ps, run_pause p s.2)
  end.

(** [await new Promise(resolve => setTimeout(resolve, ms))]: the task
    resumes no sooner than [ms] after it went to sleep. *)
Definition sleep (ms : Z) (s : St) : St :=
  let s' := suspend s in
  (s'.1, set_now (Z.max (now s'.2) (now s.2 + ms)) s'.2).

(** The [while] loop of [waitForLock]; [fuel] bounds the number of
    times the loop condition is evaluated. *)
Fixpoint waitLoop (fuel : nat) (k : string) (startTime maxWaitMs pollIntervalMs : Z)
    (s : St) : option (bool * St) :=
  match fuel with
  | O => None
  | Datatypes.S fuel' =>
      if now s.2 - startTime <? maxWaitMs then
        let '(held, w1) := isLocked k s.2 in
        if negb held then Some (true, (s.1, w1))
        else waitLoop fuel' k startTime maxWaitMs pollIntervalMs
               (sleep pollIntervalMs (s.1, w1))
      else Some (false, s)
  end.

(** Evaluations of the loop condition that any run can need. *)
Definition wait_fuel (maxWaitMs pollIntervalMs : Z) : nat :=
  Z.to_nat (maxWaitMs / pollIntervalMs) + 2.

(** [waitForLock(key, maxWaitMs = 5000, pollIntervalMs = 100)]. *)
Definition waitForLock (k : string) (maxWaitMs pollIntervalMs : Z) (s : St)
    : option (bool * St) :=
  let startTime := now s.2 in
  waitLoop (wait_fuel maxWaitMs pollIntervalMs) k startTime maxWaitMs pollIntervalMs s.

(** [withLock(key, fn, { expiryMs, maxWaitMs })].  A JavaScript value
    of type [T | null] is an [option T]. *)
Definition withLock {T : Type} (k : string)
    (fn : St → Outcome E (option T) * St)
    (expiryMs maxWaitMs : Z) (s : St) : option (Outcome E (option T) * St) :=
  match waitForLock k maxWaitMs 100 s with
  | None => None
  | Some (lockAvailable, s1) =>
      let s1 := suspend s1 in                       (* await waitForLock *)
      if negb lockAvailable then Some (Ret None, s1)
      else
        let '(acquired, w2) := acquireLock k expiryMs s1.2 in
        let s2 := suspend (s1.1, w2) in             (* await acquireLock *)
        if negb acquired then Some (Ret None, s2)
        else
          let '(result, s3) := fn s2 in             (* await fn() *)
          (* finally *)
          Some (result, (s3.1, releaseLock k s3.2))
  end.

(** The [options] argument of [safeCacheOperation]; [None] is a field
    left [undefined]. *)
Record Options (T : Type) : Type := mkOptions {
  lockKey : option string;
  expiryMs : option Z;
  maxWaitMs : option Z;
  fallbackValue : option T
}.
Arguments lockKey {T}.
Arguments expiryMs {T}.
Arguments maxWaitMs {T}.
Arguments fallbackValue {T}.

(** [safeCacheOperation(cacheKey, operation, options)]. *)
Definition safeCacheOperation {T : Type} (cacheKey : string)
    (operation : St → Outcome E (option T) * St)
    (options : Options T) (s : St) : option (Outcome E (option T) * St) :=
  let lockKey := default ("cache_" +:+ cacheKey) (lockKey options) in
  let expiryMs := default 30000 (expiryMs options) in
  let maxWaitMs := default 5000 (maxWaitMs options) in
  match withLock lockKey operation expiryMs maxWaitMs s with
  | None => None
  | Some (Ret result, s') =>
      let s' := suspend s' in                       (* await withLock *)
      match result, fallbackValue options with
      | None, Some fb => Some (Ret (Some fb), s')
      | _, _ => Some (Ret result, s')
      end
  | Some (Throw error, s') =>
      let s' := suspend s' in
      match fallbackValue options with
      | Some fb => Some (Ret (Some fb), s')
      | None => Some (Throw error, s')
      end
  end.

End Manager.

Arguments World : clear implicits.
Arguments St : clear implicits.
Arguments Options : clear implicits.
Arguments lockKey {T} _.
Arguments expiryMs {T} _.
Arguments maxWaitMs {T} _.
Arguments fallbackValue {T} _.

End CacheLock.

(* ================================================================== *)
(** ** [lib/security]: content validation and rate limiting *)
(* ================================================================== *)

Module Security.

(** A JavaScript string is its sequence of UTF-16 code units; [length]
    is [String.prototype.length]. *)
Definition jsstring : Type := list N.

(** [WhiteSpace] and [LineTerminator] of ECMAScript, the code units
    [String.prototype.trim] strips. *)
Definition isWhiteSpace (c : N) : bool :=
  ((9 <=? c) && (c <=? 13) || (c =? 32) || (c =? 160) || (c =? 5760)
   || (8192 <=? c) && (c <=? 8202) || (c =? 8232) || (c =? 8233)
   || (c =? 8239) || (c =? 8287) || (c =? 12288) || (c =? 65279))%N.

Fixpoint trimStart (s : jsstring) : jsstring :=
  match s with
  | c :: s' => if isWhiteSpace c then trimStart s' else s
  | [] => []
  end.

Definition trimEnd (s : jsstring) : jsstring := rev (trimStart (rev s)).

Definition trim (s : jsstring) : jsstring := trimEnd (trimStart s).

(** [const MAX_LENGTHS]. *)
Module Max.
Record Lengths : Type := { content : Z; reply : Z; address : Z; txHash : Z }.
End Max.
Definition MAX_LENGTHS : Max.Lengths :=
  {| Max.content := 500; Max.reply := 500; Max.address := 42; Max.txHash := 66 |}.

(** A regular expression with the [g] flag, as [DANGEROUS_PATTERNS]
    holds eleven of: [exec s i] is what the matcher finds in [s] when
    the search starts at index [i], the index at which the leftmost
    match ends, or nothing. *)
Definition Exec : Type := jsstring → nat → option nat.

(** [RegExp.prototype.test] on such a pattern.  The pattern object
    keeps its [lastIndex] from one call to the next: the search starts
    there, a match moves it to the end of the match, a failure puts it
    back to 0.  The result is the verdict and the new [lastIndex]. *)
Definition test (exec : Exec) (s : jsstring) (lastIndex : nat) : bool * nat :=
  if (length s <? lastIndex)%nat then (false, 0%nat)
  else
    match exec s lastIndex with
    | Some e => (true, e)
    | None => (false, 0%nat)
    end.

(** [for (const pattern of DANGEROUS_PATTERNS) if (pattern.test(s))
    throw ...]: whether some pattern tested true, the loop stopping at
    the first one that did.  [lastIndexes] holds the [lastIndex] of the
    patterns in the order of the array; a pattern past the end of the
    list has [lastIndex] 0, and the list that is returned has an entry
    for every pattern that was tested. *)
Fixpoint testDangerous (patterns : list Exec) (s : jsstring) (lastIndexes : list nat)
    : bool * list nat :=
  match patterns with
  | [] => (false, [])
  | exec :: patterns' =>
      let '(found, e) := test exec s (hd 0%nat lastIndexes) in
      if found then (true, e :: tl lastIndexes)
      else
        let '(found', rest) := testDangerous patterns' s (tl lastIndexes) in
        (found', e :: rest)
  end.

(** What the sanitizers leave to the regular-expression engine and to
    DOMPurify.  [DANGEROUS_PATTERNS] : the matchers of the eleven
    patterns of that array, all with the [g] flag; [matchesContent] and
    [matchesReply] : [VALIDATION_PATTERNS.content] and [.reply], which
    have no [g] flag, test true; [purify] : [DOMPurify.sanitize] with
    no tag allowed. *)
Record Engine : Type := {
  DANGEROUS_PATTERNS : list Exec;
  matchesContent : jsstring → bool;
  matchesReply : jsstring → bool;
  purify : jsstring → jsstring
}.

(** The errors the sanitizers throw, by message:
    [Empty] '内容不能为空' / '回复内容不能为空',
    [TooLong n] '内容长度不能超过 n 个字符' / '回复长度不能超过 n 个字符',
    [Unsafe] '…包含不安全的代码…', [Unsupported] '…包含不支持的字符…'. *)
Inductive ContentError : Type :=
| Empty
| TooLong (max : Z)
| Unsafe
| Unsupported.

(** [sanitizeBottleContent(content)], called when the patterns of
    [DANGEROUS_PATTERNS] have the given [lastIndexes]: what it returns
    or throws, and the [lastIndexes] it leaves. *)
Definition sanitizeBottleContent (g : Engine) (content : jsstring) (lastIndexes : list nat)
    : Outcome ContentError jsstring * list nat :=
  if bool_decide (content = []) then (Throw Empty, lastIndexes)          (* !content *)
  else
    let trimmed := trim content in
    if Z.of_nat (length trimmed) =? 0 then (Throw Empty, lastIndexes)
    else if Z.of_nat (length trimmed) >? Max.content MAX_LENGTHS
    then (Throw (TooLong (Max.content MAX_LENGTHS)), lastIndexes)
    else
      let '(dangerous, lastIndexes) :=
        testDangerous (DANGEROUS_PATTERNS g) trimmed lastIndexes in
      if dangerous then (Throw Unsafe, lastIndexes)
      else if negb (matchesContent g trimmed) then (Throw Unsupported, lastIndexes)
      else (Ret (purify g trimmed), lastIndexes).

(** [sanitizeReplyContent(content)]. *)
Definition sanitizeReplyContent (g : Engine) (content : jsstring) (lastIndexes : list nat)
    : Outcome ContentError jsstring * list nat :=
  if bool_decide (content = []) then (Throw Empty, lastIndexes)
  else
    let trimmed := trim content in
    if Z.of_nat (length trimmed) =? 0 then (Throw Empty, lastIndexes)
    else if Z.of_nat (length trimmed) >? Max.reply MAX_LENGTHS
    then (Throw (TooLong (Max.reply MAX_LENGTHS)), lastIndexes)
    else
      let '(dangerous, lastIndexes) :=
        testDangerous (DANGEROUS_PATTERNS g) trimmed lastIndexes in
      if dangerous then (Throw Unsafe, lastIndexes)
      else if negb (matchesReply g trimmed) then (Throw Unsupported, lastIndexes)
      else (Ret (purify g trimmed), lastIndexes).

(** [Number.MAX_SAFE_INTEGER]. *)
Definition MAX_SAFE_INTEGER : Z := 9007199254740991.

(** [validateBottleId(id)] on an integral [number]: its decimal
    rendering is all digits exactly when it is not negative (and below
    1e21), and the parsed value must not exceed [MAX_SAFE_INTEGER]. *)
Definition validateBottleId (id : Z) : bool :=
  (0 <=? id) && (id <=? MAX_SAFE_INTEGER).

(** [class RateLimiter]: [attempts : Map<string, number[]>]. *)
Definition RateLimiter : Type := gmap string (list Z).

(** [isAllowed(identifier, maxAttempts = 5, windowMs = 60000)] at the
    time [now] that [Date.now()] returns. *)
Definition isAllowed (identifier : string) (maxAttempts windowMs : Z) (now : Z)
    (attempts : gmap string (list Z)) : bool * gmap string (list Z) :=
  let windowStart := now - windowMs in
  let attempts :=
    match attempts !! identifier with
    | None => <[identifier := []]> attempts
    | Some _ => attempts
    end in
  let userAttempts := default [] (attempts !! identifier) in
  let validAttempts := filter (fun timestamp => windowStart < timestamp) userAttempts in
  let attempts := <[identifier := validAttempts]> attempts in
  if Z.of_nat (length validAttempts) >=? maxAttempts
  then (false, attempts)
  else (true, <[identifier := validAttempts ++ [now]]> attempts).

(** [reset(identifier)]. *)
Definition reset (identifier : string) (attempts : gmap string (list Z))
    : gmap string (list Z) :=
  delete identifier attempts.

(** The calls [isAllowed(identifier, maxAttempts, windowMs)] made at
    the times [times], one after the other: the times of the calls that
    were allowed. *)
Fixpoint allowedTimes (identifier : string) (maxAttempts windowMs : Z) (times : list Z)
    (attempts : gmap string (list Z)) : list Z :=
  match times with
  | [] => []
  | now :: times' =>
      let '(allowed, attempts') := isAllowed identifier maxAttempts windowMs now attempts in
      (if allowed then [now] else [])
        ++ allowedTimes identifier maxAttempts windowMs times' attempts'
  end.

End Security.

(* ================================================================== *)
(** ** [lib/dataCache]: the per-user cache in localStorage *)
(* ================================================================== *)

Module DataCache.

Record BottleData : Type := {
  id : Z;
  content : string;
  timestamp : Z;
  replyCount : Z;
  isActive : bool;
  sender : string
}.

Record ReplyData : Type := {
  reply_id : Z;
  reply_content : string;
  reply_timestamp : Z;
  replier : string
}.

Record CachedBottleState : Type := {
  bottles : list BottleData;
  replies : gmap Z (list ReplyData);
  canReplyTo : gmap Z bool;
  lastUpdated : Z;
  userAddress : string
}.

Definition CACHE_KEY_PREFIX : string := "drift-bottle-data".
Definition CACHE_EXPIRY_TIME : Z := 1000 * 60 * 30.

(** [String.prototype.toLowerCase] on the ASCII text of an address. *)
Definition lowerAscii (c : ascii) : ascii :=
  let n := N_of_ascii c in
  if ((65 <=? n) && (n <=? 90))%N then ascii_of_N (n + 32) else c.

Fixpoint toLowerCase (s : string) : string :=
  match s with
  | EmptyString => EmptyString
  | String c s' => String (lowerAscii c) (toLowerCase s')
  end.

(** [getCacheKey(address)]. *)
Definition getCacheKey (address : string) : string :=
  CACHE_KEY_PREFIX +:+ "-" +:+ toLowerCase address.

(** An item of localStorage as [JSON.parse] reads it: the text of a
    cached state, or text on which reading it throws. *)
Inductive Item : Type :=
| Json (data : CachedBottleState)
| Malformed.

(** The browser side [loadBottleDataFromCache] touches. *)
Record Browser : Type := {
  window : bool;                       (* typeof window !== 'undefined' *)
  now : Z;                             (* Date.now() *)
  localStorage : gmap string Item
}.

Definition removeItem (k : string) (b : Browser) : Browser :=
  {| window := window b; now := now b; localStorage := delete k (localStorage b) |}.

(** [loadBottleDataFromCache(address)]; [None] is [null]. *)
Definition loadBottleDataFromCache (address : string) (b : Browser)
    : option CachedBottleState * Browser :=
  if negb (window b) then (None, b)
  else
    match localStorage b !! getCacheKey address with
    | None => (None, b)
    | Some Malformed => (None, b)                 (* catch (error) *)
    | Some (Json data) =>
        if now b - lastUpdated data >? CACHE_EXPIRY_TIME
        then (None, removeItem (getCacheKey address) b)
        else if negb (bool_decide (userAddress data = toLowerCase address))
        then (None, b)
        else (Some data, b)
    end.

(** [clearBottleDataCache(address)]. *)
Definition clearBottleDataCache (address : string) (b : Browser) : Browser :=
  if negb (window b) then b else removeItem (getCacheKey address) b.

End DataCache.

(* ================================================================== *)
(** ** [src/hooks/useDriftBottle.ts]: the contract hook *)
(* ================================================================== *)

Module Hook.
Import Security.

(** [String.prototype.includes] on ASCII text. *)
Fixpoint includes (s sub : string) : bool :=
  String.prefix sub s ||
  match s with
  | EmptyString => false
  | String _ s' => includes s' sub
  end.

(** The wagmi account as [useAccount()] returns it. *)
Inductive Status : Type := connected | connecting | reconnecting | disconnected.

#[global] Instance Status_eq_dec : EqDecision Status.
Proof. solve_decision. Defined.

Record Account : Type := {
  address : option string;              (* undefined when there is none *)
  isConnected : bool;
  isConnecting : bool;
  isReconnecting : bool;
  status : Status
}.

(** [actuallyConnected], the [useMemo] at the top of the hook. *)
Definition actuallyConnected (a : Account) : bool :=
  let hasValidAddress :=
    match address a with
    | Some s => negb (bool_decide (s = "")) && negb (bool_decide (s = "0x"))
                && (String.length s =? 42)%nat
    | None => false
    end in
  let isProperlyConnected := isConnected a && bool_decide (status a = connected) in
  let isNotConnecting := negb (isConnecting a) && negb (isReconnecting a) in
  hasValidAddress && isProperlyConnected && isNotConnecting.

(** [address || 'anonymous']. *)
Definition addressOrAnonymous (a : Account) : string :=
  match address a with
  | Some s => if bool_decide (s = "") then "anonymous" else s
  | None => "anonymous"
  end.

(** An error value caught from wagmi: [error?.message], [error?.code]
    and [String(error)]. *)
Record JsError : Type := {
  message : string;
  code : option string;
  asString : string
}.

(** What the hook hands to wagmi. *)
Inductive Arg : Type :=
| ArgText (s : jsstring)
| ArgUint (n : Z).

Inductive Effect : Type :=
| WriteContract (functionName : string) (args : list Arg)
| ReadContract (functionName : string) (args : list Arg)
| SetTimeout (ms : Z).

(** The errors the hook's actions throw, by the code they are created
    with; [Rethrown] is an error of wagmi passed on as it is. *)
Inductive HookError : Type :=
| NotConnected                           (* '请先连接钱包并等待连接稳定' *)
| NotConfigured                          (* 'Contract address not configured' *)
| INVALID_BOTTLE_ID
| SEND_RATE_LIMIT
| REPLY_RATE_LIMIT
| SKIP_RATE_LIMIT                        (* '跳过操作过于频繁，请稍后再试' *)
| CONTENT_VALIDATION_FAILED (e : ContentError)
| REPLY_VALIDATION_FAILED (e : ContentError)
| BOTTLE_SEND_FAILED
| BOTTLE_REPLY_FAILED
| Rethrown (e : JsError).

Definition isRateLimitError (e : HookError) : bool :=
  match e with
  | SEND_RATE_LIMIT | REPLY_RATE_LIMIT | SKIP_RATE_LIMIT => true
  | _ => false
  end.

(** [{ data, timestamp }], the values of [bottleDataCache]. *)
Record CacheEntry (D : Type) : Type := mkEntry {
  data : D;
  timestamp : Z
}.
Arguments mkEntry {D} _ _.
Arguments data {D} _.
Arguments timestamp {D} _.

(** A JavaScript [Map] with string keys, in insertion order. *)
Abbreviation JsMap V := (list (string * V)).

Definition map_has {V} (k : string) (m : JsMap V) : bool :=
  existsb (fun kv => bool_decide (kv.1 = k)) m.

Fixpoint map_get {V} (k : string) (m : JsMap V) : option V :=
  match m with
  | [] => None
  | (k', v) :: m' => if bool_decide (k' = k) then Some v else map_get k m'
  end.

Definition map_delete {V} (k : string) (m : JsMap V) : JsMap V :=
  filter (fun kv => kv.1 ≠ k) m.

(** [Map.prototype.set]: a present key keeps its place. *)
Fixpoint originalSet {V} (k : string) (v : V) (m : JsMap V) : JsMap V :=
  match m with
  | [] => [(k, v)]
  | (k', v') :: m' =>
      if bool_decide (k' = k) then (k, v) :: m' else (k', v') :: originalSet k v m'
  end.

Definition MAX_CACHE_SIZE : Z := 100.

(** [cache.set], as the hook overrides it. *)
Definition cache_set {V} (k : string) (v : V) (cache : JsMap V) : JsMap V :=
  let cache :=
    if Z.of_nat (length cache) >=? MAX_CACHE_SIZE then
      match cache with
      | (firstKey, _) :: _ => map_delete firstKey cache
      | [] => cache
      end
    else cache in
  originalSet k v cache.

Section Actions.
(** [Raw], [RawReply]: what [readContract] resolves to for [getBottle]
    and [getReply]; [VB], [VR]: the validated records of
    [lib/typeValidation]; [D], [DR]: the records [sanitizeForDisplay]
    builds. *)
Context {Raw RawReply VB VR D DR : Type}.

(** What a cache entry holds under [data]: the hook keeps bottles and
    reply lists in the one [Map<string, any>]. *)
Inductive Cached : Type :=
| CachedBottle (d : D)
| CachedReplies (l : list DR).

(** Everything the hook's actions depend on and do not own: the wallet
    and the configuration, the regular-expression engine, the
    validators of [lib/typeValidation] (no property below depends on
    what they accept), and what the chain answers.  A read is asked
    with the retry count of the attempt that makes it, so that
    successive attempts may be answered differently. *)
Record Env : Type := {
  account : Account;
  connectionStable : bool;
  DRIFT_BOTTLE_CONTRACT_ADDRESS : option string;   (* None: not configured *)
  engine : Engine;
  validateBottleData : Raw → option VB;
  validateReplyDataArray : list RawReply → list VR;
  sanitizeForDisplay : VB → D;
  sanitizeReplyForDisplay : VR → DR;
  writeContract : string → list Arg → option JsError;       (* Some: it throws *)
  getBottle : Z → nat → Outcome JsError (option Raw);
  getBottleReplies : Z → nat → Outcome JsError (list Z);
  getReply : Z → Outcome JsError (option RawReply)
}.

(** What the hook owns: the clock it reads, the module's [rateLimiter],
    [bottleDataCache], [isLoading], the calls and timers it has issued
    so far, oldest first, and the [lastIndex] of the patterns of
    [DANGEROUS_PATTERNS], which the sanitizers it calls leave behind.
    (The hook's [estimateReplyGas], which is not among the actions
    below, runs [sanitizeReplyContent] on the same patterns.) *)
Record State : Type := mkState {
  now : Z;
  attempts : gmap string (list Z);
  bottleDataCache : JsMap (CacheEntry Cached);
  isLoading : bool;
  effects : list Effect;
  lastIndexes : list nat
}.

Definition set_attempts (a : gmap string (list Z)) (st : State) : State :=
  mkState (now st) a (bottleDataCache st) (isLoading st) (effects st) (lastIndexes st).
Definition set_cache (c : JsMap (CacheEntry Cached)) (st : State) : State :=
  mkState (now st) (attempts st) c (isLoading st) (effects st) (lastIndexes st).
Definition setIsLoading (b : bool) (st : State) : State :=
  mkState (now st) (attempts st) (bottleDataCache st) b (effects st) (lastIndexes st).
Definition emit (e : Effect) (st : State) : State :=
  mkState (now st) (attempts st) (bottleDataCache st) (isLoading st) (effects st ++ [e])
    (lastIndexes st).
Definition advance (ms : Z) (st : State) : State :=
  mkState (now st + ms) (attempts st) (bottleDataCache st) (isLoading st) (effects st)
    (lastIndexes st).
Definition set_lastIndexes (l : list nat) (st : State) : State :=
  mkState (now st) (attempts st) (bottleDataCache st) (isLoading st) (effects st) l.

(** [sendBottle(content)]. *)
Definition sendBottle (env : Env) (content : jsstring) (st : State)
    : Outcome HookError () * State :=
  if negb (actuallyConnected (account env)) || negb (connectionStable env)
  then (Throw NotConnected, st)
  else if negb (bool_decide (is_Some (DRIFT_BOTTLE_CONTRACT_ADDRESS env)))
  then (Throw NotConfigured, st)
  else
    let '(allowed, att) :=
      isAllowed (addressOrAnonymous (account env)) 5 60000 (now st) (attempts st) in
    let st := set_attempts att st in
    if negb allowed then (Throw SEND_RATE_LIMIT, st)
    else
      let '(sanitized, lastIndexes) :=
        sanitizeBottleContent (engine env) content (lastIndexes st) in
      let st := set_lastIndexes lastIndexes st in
      match sanitized with
      | Throw e => (Throw (CONTENT_VALIDATION_FAILED e), st)
      | Ret sanitizedContent =>
          let st := setIsLoading true st in
          let st := emit (WriteContract "sendBottle" [ArgText sanitizedContent]) st in
          match writeContract env "sendBottle" [ArgText sanitizedContent] with
          | Some _ => (Throw BOTTLE_SEND_FAILED, setIsLoading false st)
          | None => (Ret (), setIsLoading false st)
          end
      end.

(** [replyToBottle(bottleId, content)]. *)
Definition replyToBottle (env : Env) (bottleId : Z) (content : jsstring) (st : State)
    : Outcome HookError () * State :=
  if negb (actuallyConnected (account env)) || negb (connectionStable env)
  then (Throw NotConnected, st)
  else if negb (bool_decide (is_Some (DRIFT_BOTTLE_CONTRACT_ADDRESS env)))
  then (Throw NotConfigured, st)
  else if negb (validateBottleId bottleId) then (Throw INVALID_BOTTLE_ID, st)
  else
    let '(allowed, att) :=
      isAllowed (addressOrAnonymous (account env) +:+ "_reply") 10 60000
        (now st) (attempts st) in
    let st := set_attempts att st in
    if negb allowed then (Throw REPLY_RATE_LIMIT, st)
    else
      let '(sanitized, lastIndexes) :=
        sanitizeReplyContent (engine env) content (lastIndexes st) in
      let st := set_lastIndexes lastIndexes st in
      match sanitized with
      | Throw e => (Throw (REPLY_VALIDATION_FAILED e), st)
      | Ret sanitizedContent =>
          let st := setIsLoading true st in
          let st := emit (WriteContract "replyToBottle"
                            [ArgUint bottleId; ArgText sanitizedContent]) st in
          match writeContract env "replyToBottle"
                  [ArgUint bottleId; ArgText sanitizedContent] with
          | Some _ => (Throw BOTTLE_REPLY_FAILED, setIsLoading false st)
          | None => (Ret (), setIsLoading false st)
          end
      end.

(** [skipBottle(bottleId)]. *)
Definition skipBottle (env : Env) (bottleId : Z) (st : State)
    : Outcome HookError () * State :=
  if negb (actuallyConnected (account env)) || negb (connectionStable env)
  then (Throw NotConnected, st)
  else if negb (bool_decide (is_Some (DRIFT_BOTTLE_CONTRACT_ADDRESS env)))
  then (Throw NotConfigured, st)
  else if negb (validateBottleId bottleId) then (Throw INVALID_BOTTLE_ID, st)
  else
    let '(allowed, att) :=
      isAllowed (addressOrAnonymous (account env) +:+ "_skip") 20 60000
        (now st) (attempts st) in
    let st := set_attempts att st in
    if negb allowed then (Throw SKIP_RATE_LIMIT, st)
    else
      let st := setIsLoading true st in
      let st := emit (WriteContract "skipBottle" [ArgUint bottleId]) st in
      match writeContract env "skipBottle" [ArgUint bottleId] with
      | Some err => (Throw (Rethrown err), setIsLoading false st)
      | None => (Ret (), setIsLoading false st)
      end.

(** [errorMsg = error?.message || String(error)]. *)
Definition errorMsg (error : JsError) : string :=
  if bool_decide (message error = "") then asString error else message error.

(** The first test of the [catch] block of [readBottleData]. *)
Definition isContractRevert (error : JsError) : bool :=
  includes (errorMsg error) "Bottle does not exist"
  || includes (errorMsg error) "execution reverted"
  || includes (errorMsg error) "invalid bottle"
  || bool_decide (code error = Some "CALL_EXCEPTION").

(** [isNetworkError]. *)
Definition isNetworkError (error : JsError) : bool :=
  includes (errorMsg error) "network"
  || includes (errorMsg error) "timeout"
  || includes (errorMsg error) "connection"
  || includes (errorMsg error) "fetch"
  || bool_decide (code error = Some "NETWORK_ERROR")
  || bool_decide (code error = Some "TIMEOUT").

(** The cache look-up both readers start with: an entry younger than
    [ttl] is returned, any other entry under the key is deleted. *)
Definition cacheLookup (cacheKey : string) (ttl : Z) (st : State)
    : option Cached * State :=
  if map_has cacheKey (bottleDataCache st) then
    match map_get cacheKey (bottleDataCache st) with
    | Some cached =>
        if negb (timestamp cached =? 0) && (now st - timestamp cached <? ttl)
        then (Some (data cached), st)
        else (None, set_cache (map_delete cacheKey (bottleDataCache st)) st)
    | None => (None, set_cache (map_delete cacheKey (bottleDataCache st)) st)
    end
  else (None, st).

(** [readBottleData(bottleId, retryCount = 0)]; [None] is [null].
    [fuel] bounds the depth of the recursion. *)
Fixpoint readBottleData_rec (fuel : nat) (env : Env) (bottleId : Z) (retryCount : nat)
    (st : State) : option (option Cached * State) :=
  match fuel with
  | O => None
  | S fuel' =>
      if bottleId <=? 0 then Some (None, st)
      else if negb (bool_decide (is_Some (DRIFT_BOTTLE_CONTRACT_ADDRESS env)))
      then Some (None, st)
      else if negb (actuallyConnected (account env)) || negb (connectionStable env)
      then Some (None, st)
      else
        let cacheKey := "bottle_" +:+ pretty bottleId in
        match cacheLookup cacheKey (5 * 60 * 1000) st with
        | (Some d, st) => Some (Some d, st)
        | (None, st) =>
            let st := emit (ReadContract "getBottle" [ArgUint bottleId]) st in
            match getBottle env bottleId retryCount with
            | Ret None => Some (None, st)
            | Ret (Some result) =>
                match validateBottleData env result with
                | None => Some (None, st)
                | Some validatedResult =>
                    let displayData := sanitizeForDisplay env validatedResult in
                    let cacheData := mkEntry (CachedBottle displayData) (now st) in
                    Some (Some (CachedBottle displayData),
                          set_cache (cache_set cacheKey cacheData (bottleDataCache st)) st)
                end
            | Throw error =>
                if isContractRevert error then Some (None, st)
                else if (retryCount <? 3)%nat && isNetworkError error then
                  let delay := Z.min (2 ^ Z.of_nat retryCount * 1000) 8000 in
                  let st := advance delay (emit (SetTimeout delay) st) in
                  readBottleData_rec fuel' env bottleId (retryCount + 1) st
                else Some (None, st)
            end
        end
  end.

(** The recursion is entered once, and once more per retry that is
    still to come. *)
Definition readBottleData (env : Env) (bottleId : Z) (retryCount : nat) (st : State)
    : option (option Cached * State) :=
  readBottleData_rec (S (3 - retryCount)) env bottleId retryCount st.

(** [readBottleReplies(bottleId, retryCount = 0)]. *)
Fixpoint readBottleReplies_rec (fuel : nat) (env : Env) (bottleId : Z) (retryCount : nat)
    (st : State) : option (Cached * State) :=
  match fuel with
  | O => None
  | S fuel' =>
      if bottleId <=? 0 then Some (CachedReplies [], st)
      else if negb (bool_decide (is_Some (DRIFT_BOTTLE_CONTRACT_ADDRESS env)))
      then Some (CachedReplies [], st)
      else if negb (actuallyConnected (account env)) || negb (connectionStable env)
      then Some (CachedReplies [], st)
      else
        let repliesCacheKey := "replies_" +:+ pretty bottleId in
        match cacheLookup repliesCacheKey (3 * 60 * 1000) st with
        | (Some d, st) => Some (d, st)
        | (None, st) =>
            let st := emit (ReadContract "getBottleReplies" [ArgUint bottleId]) st in
            match getBottleReplies env bottleId retryCount with
            | Ret [] =>
                Some (CachedReplies [],
                      set_cache (cache_set repliesCacheKey
                                   (mkEntry (CachedReplies []) (now st))
                                   (bottleDataCache st)) st)
            | Ret replyIds =>
                let st := fold_left
                            (fun st replyId => emit (ReadContract "getReply" [ArgUint replyId]) st)
                            replyIds st in
                let replies :=                    (* the reads that gave a reply *)
                  omap (fun replyId =>
                          match getReply env replyId with
                          | Ret reply => reply
                          | Throw _ => None
                          end) replyIds in
                let validatedReplies := validateReplyDataArray env replies in
                let displayReplies := map (sanitizeReplyForDisplay env) validatedReplies in
                Some (CachedReplies displayReplies,
                      set_cache (cache_set repliesCacheKey
                                   (mkEntry (CachedReplies displayReplies) (now st))
                                   (bottleDataCache st)) st)
            | Throw error =>
                if (retryCount <? 2)%nat && isNetworkError error then
                  let delay := Z.min (2 ^ Z.of_nat retryCount * 1000) 4000 in
                  let st := advance delay (emit (SetTimeout delay) st) in
                  readBottleReplies_rec fuel' env bottleId (retryCount + 1) st
                else Some (CachedReplies [], st)
            end
        end
  end.

Definition readBottleReplies (env : Env) (bottleId : Z) (retryCount : nat) (st : State)
    : option (Cached * State) :=
  readBottleReplies_rec (S (2 - retryCount)) env bottleId retryCount st.

End Actions.

Arguments Cached : clear implicits.
Arguments Env : clear implicits.
Arguments State : clear implicits.

(** What an effect log shows: the delays of the timers set, and the
    contract reads and writes issued. *)
Definition timersOf (l : list Effect) : list Z :=
  omap (fun e => match e with SetTimeout ms => Some ms | _ => None end) l.

Definition isRead (e : Effect) : bool :=
  match e with ReadContract _ _ => true | _ => false end.

Definition isWrite (e : Effect) : bool :=
  match e with WriteContract _ _ => true | _ => false end.

Definition readsOf (l : list Effect) : list Effect := List.filter isRead l.
Definition writesOf (l : list Effect) : list Effect := List.filter isWrite l.

Section Sessions.
Context {Raw RawReply VB VR D DR : Type}.

(** The hook as it is mounted: nothing cached, nothing attempted. *)
Definition initial (t : Z) : State D DR := mkState t ∅ [] false [] [].

(** What happens to [bottleDataCache] during a session: the page calls
    the two readers, in any order, under whatever the wallet and the
    chain are at that moment, and time passes in between. *)
Inductive Call : Type :=
| CallReadBottleData (env : Env Raw RawReply VB VR D DR) (bottleId : Z)
| CallReadBottleReplies (env : Env Raw RawReply VB VR D DR) (bottleId : Z)
| TimePasses (ms : Z).

Definition run_call (c : Call) (st : State D DR) : State D DR :=
  match c with
  | CallReadBottleData env bottleId =>
      match readBottleData env bottleId 0 st with
      | Some (_, st') => st'
      | None => st
      end
  | CallReadBottleReplies env bottleId =>
      match readBottleReplies env bottleId 0 st with
      | Some (_, st') => st'
      | None => st
      end
  | TimePasses ms => advance ms st
  end.

Definition run_calls (calls : list Call) (st : State D DR) : State D DR :=
  fold_left (fun st c => run_call c st) calls st.

End Sessions.

Arguments Call : clear implicits.

(** The three actions that the limiter guards, with the number of
    attempts it lets each make in 60 s and the key it counts them
    under. *)
Inductive Limited : Type := sends | replies | skips.

#[global] Instance Limited_eq_dec : EqDecision Limited.
Proof. solve_decision. Defined.

Definition limitOf (k : Limited) : Z :=
  match k with sends => 5 | replies => 10 | skips => 20 end.

Definition keyOf (k : Limited) (caller : string) : string :=
  match k with
  | sends => caller
  | replies => caller +:+ "_reply"
  | skips => caller +:+ "_skip"
  end.

(** How a call of an action ended, as far as the limiter goes: it was
    let through when the call returned or failed with an error that is
    thrown after the limiter has been asked. *)
Definition admitted (r : Outcome HookError ()) : bool :=
  match r with
  | Ret _ => true
  | Throw (CONTENT_VALIDATION_FAILED _ | REPLY_VALIDATION_FAILED _
          | BOTTLE_SEND_FAILED | BOTTLE_REPLY_FAILED | Rethrown _) => true
  | Throw _ => false
  end.

(** It came as far as the limiter: the wallet was connected, the
    contract configured and the bottle id valid. *)
Definition askedLimiter (r : Outcome HookError ()) : bool :=
  match r with
  | Throw (NotConnected | NotConfigured | INVALID_BOTTLE_ID) => false
  | _ => true
  end.

(** One line of the record of a session: when the call was made, which
    action it was, under which address ([address || 'anonymous']), how
    it ended, and the contract calls and timers it issued. *)
Record Attempt : Type := {
  madeAt : Z;
  action : Limited;
  caller : string;
  outcome : Outcome HookError ();
  issued : list Effect
}.

Section UserSessions.
Context {Raw RawReply VB VR D DR : Type}.

(** What the user does during a session: the three actions, each under
    whatever the wallet and the chain are at that moment, and time
    passing in between. *)
Inductive UserAction : Type :=
| DoSendBottle (env : Env Raw RawReply VB VR D DR) (content : jsstring)
| DoReplyToBottle (env : Env Raw RawReply VB VR D DR) (bottleId : Z) (content : jsstring)
| DoSkipBottle (env : Env Raw RawReply VB VR D DR) (bottleId : Z)
| Wait (ms : N).

Definition attempt (k : Limited) (env : Env Raw RawReply VB VR D DR)
    (run : State D DR → Outcome HookError () * State D DR) (st : State D DR)
    : list Attempt * State D DR :=
  ([{| madeAt := now st; action := k; caller := addressOrAnonymous (account env);
       outcome := (run st).1;
       issued := drop (length (effects st)) (effects (run st).2) |}],
   (run st).2).

Definition perform (a : UserAction) (st : State D DR) : list Attempt * State D DR :=
  match a with
  | DoSendBottle env content => attempt sends env (sendBottle env content) st
  | DoReplyToBottle env bottleId content =>
      attempt replies env (replyToBottle env bottleId content) st
  | DoSkipBottle env bottleId => attempt skips env (skipBottle env bottleId) st
  | Wait ms => ([], advance (Z.of_N ms) st)
  end.

(** The record of a session and the state it ends in. *)
Definition run_session (actions : list UserAction) (st : State D DR)
    : list Attempt * State D DR :=
  fold_left (fun log_st a => (log_st.1 ++ (perform a log_st.2).1, (perform a log_st.2).2))
    actions ([], st).

End UserSessions.

Arguments UserAction : clear implicits.

End Hook.

(* ================================================================== *)
(** ** [contract DriftBottle]: the ledger *)
(* ================================================================== *)

Module DriftBottle.

Local Open Scope N_scope.

(** [uint256] and [address] values are naturals of [N]; checked
    arithmetic reverts with a panic where it would leave [uint256]. *)
Definition MAX_UINT256 : N := 2 ^ 256 - 1.

Module Bottle.
Record t : Type := mk {
  id : N;
  sender : N;
  content : string;
  timestamp : N;
  isActive : bool;
  replyCount : N
}.
(** The value of a mapping slot that was never written. *)
Definition zero : t := mk 0 0 "" 0 false 0.
End Bottle.

Module Reply.
Record t : Type := mk {
  bottleId : N;
  replier : N;
  content : string;
  timestamp : N;
  replyToReplyId : N
}.
Definition zero : t := mk 0 0 "" 0 0.
End Reply.

Module UserBottleState.
Record t : Type := mk {
  hasViewed : bool;
  hasReplied : bool;
  hasSkipped : bool
}.
Definition zero : t := mk false false false.
End UserBottleState.

Inductive Event : Type :=
| BottleSent (bottleId sender timestamp : N)
| BottleReceived (bottleId receiver timestamp : N)
| BottleReplied (bottleId replyId replier timestamp : N)
| BottleSkipped (bottleId skipper timestamp : N).

(** The storage of the contract.  The key
    [keccak256(abi.encodePacked(user, bottleId))] of [hasUserReplied]
    is the pair [(user, bottleId)]: the packed encoding of an address
    and a [uint256] has a fixed layout, and the hash is taken to be
    free of collisions. *)
Record State : Type := mkState {
  _bottleIdCounter : N;
  _replyIdCounter : N;
  bottles : gmap N Bottle.t;
  replies : gmap N Reply.t;
  userBottles : gmap N (list N);
  userReplies : gmap N (list N);
  bottleReplies : gmap N (list N);
  userBottleStates : gmap (N * N) UserBottleState.t;
  hasUserReplied : gmap (N * N) bool;
  activeBottleIds : list N;
  activeBottleIndex : gmap N N;
  events : list Event
}.

Definition empty : State := mkState 0 0 ∅ ∅ ∅ ∅ ∅ ∅ ∅ [] ∅ [].

(** [msg.sender] and [block.timestamp] of a transaction. *)
Record Msg : Type := { msg_sender : N; block_timestamp : N }.

Inductive Revert : Type :=
| Reason (why : string)                  (* require(..., why) *)
| Panic (code : N).                      (* 0x11 arithmetic, 0x32 index *)

Definition bottle (st : State) (bottleId : N) : Bottle.t :=
  default Bottle.zero (bottles st !! bottleId).

Definition replied (st : State) (user bottleId : N) : bool :=
  default false (hasUserReplied st !! (user, bottleId)).

(** [modifier bottleExists] and [modifier replyExists]. *)
Definition bottleExists (st : State) (bottleId : N) : bool :=
  (0 <? bottleId) && (bottleId <=? _bottleIdCounter st).

Definition replyExists (st : State) (replyId : N) : bool :=
  (0 <? replyId) && (replyId <=? _replyIdCounter st).

Definition push {K} `{Countable K} (k : K) (x : N) (m : gmap K (list N)) : gmap K (list N) :=
  <[k := default [] (m !! k) ++ [x]]> m.

(** [sendBottle(content)]. *)
Definition sendBottle (m : Msg) (content : string) (st : State) : Outcome Revert State :=
  if negb (0 <? N.of_nat (String.length content))
  then Throw (Reason "Content cannot be empty")
  else if negb (N.of_nat (String.length content) <=? 1000)
  then Throw (Reason "Content too long")
  else if _bottleIdCounter st =? MAX_UINT256 then Throw (Panic 17)
  else
    let bottleId := _bottleIdCounter st + 1 in
    Ret (mkState bottleId (_replyIdCounter st)
           (<[bottleId := Bottle.mk bottleId (msg_sender m) content (block_timestamp m) true 0]>
              (bottles st))
           (replies st)
           (push (msg_sender m) bottleId (userBottles st))
           (userReplies st) (bottleReplies st) (userBottleStates st) (hasUserReplied st)
           (activeBottleIds st ++ [bottleId])
           (<[bottleId := N.of_nat (length (activeBottleIds st ++ [bottleId])) - 1]>
              (activeBottleIndex st))
           (events st ++ [BottleSent bottleId (msg_sender m) (block_timestamp m)])).

Definition addReplyCount (b : Bottle.t) : Bottle.t :=
  Bottle.mk (Bottle.id b) (Bottle.sender b) (Bottle.content b) (Bottle.timestamp b)
    (Bottle.isActive b) (Bottle.replyCount b + 1).

Definition deactivate (b : Bottle.t) : Bottle.t :=
  Bottle.mk (Bottle.id b) (Bottle.sender b) (Bottle.content b) (Bottle.timestamp b)
    false (Bottle.replyCount b).

(** [replyToBottle(bottleId, content)]. *)
Definition replyToBottle (m : Msg) (bottleId : N) (content : string) (st : State)
    : Outcome Revert State :=
  if negb (bottleExists st bottleId) then Throw (Reason "Bottle does not exist")
  else if negb (0 <? N.of_nat (String.length content))
  then Throw (Reason "Reply content cannot be empty")
  else if negb (N.of_nat (String.length content) <=? 1000)
  then Throw (Reason "Reply content too long")
  else if negb (Bottle.isActive (bottle st bottleId))
  then Throw (Reason "Bottle is not active")
  else if negb (negb (Bottle.sender (bottle st bottleId) =? msg_sender m))
  then Throw (Reason "Cannot reply to your own bottle")
  else if negb (negb (replied st (msg_sender m) bottleId))
  then Throw (Reason "Already replied to this bottle")
  else if _replyIdCounter st =? MAX_UINT256 then Throw (Panic 17)
  else if Bottle.replyCount (bottle st bottleId) =? MAX_UINT256 then Throw (Panic 17)
  else
    let replyId := _replyIdCounter st + 1 in
    Ret (mkState (_bottleIdCounter st) replyId
           (<[bottleId := addReplyCount (bottle st bottleId)]> (bottles st))
           (<[replyId := Reply.mk bottleId (msg_sender m) content (block_timestamp m) 0]>
              (replies st))
           (userBottles st)
           (push (msg_sender m) replyId (userReplies st))
           (push bottleId replyId (bottleReplies st))
           (userBottleStates st)
           (<[(msg_sender m, bottleId) := true]> (hasUserReplied st))
           (activeBottleIds st) (activeBottleIndex st)
           (events st ++ [BottleReplied bottleId replyId (msg_sender m) (block_timestamp m)])).

(** [replyToReply(replyId, content)]. *)
Definition replyToReply (m : Msg) (replyId : N) (content : string) (st : State)
    : Outcome Revert State :=
  if negb (replyExists st replyId) then Throw (Reason "Reply does not exist")
  else if negb (0 <? N.of_nat (String.length content))
  then Throw (Reason "Reply content cannot be empty")
  else if negb (N.of_nat (String.length content) <=? 1000)
  then Throw (Reason "Reply content too long")
  else
    let originalReply := default Reply.zero (replies st !! replyId) in
    if negb (negb (Reply.replier originalReply =? msg_sender m))
    then Throw (Reason "Cannot reply to your own reply")
    else
      let bottleId := Reply.bottleId originalReply in
      if negb (Bottle.isActive (bottle st bottleId))
      then Throw (Reason "Bottle is not active")
      else if _replyIdCounter st =? MAX_UINT256 then Throw (Panic 17)
      else if Bottle.replyCount (bottle st bottleId) =? MAX_UINT256 then Throw (Panic 17)
      else
        let newReplyId := _replyIdCounter st + 1 in
        Ret (mkState (_bottleIdCounter st) newReplyId
               (<[bottleId := addReplyCount (bottle st bottleId)]> (bottles st))
               (<[newReplyId :=
                    Reply.mk bottleId (msg_sender m) content (block_timestamp m) replyId]>
                  (replies st))
               (userBottles st)
               (push (msg_sender m) newReplyId (userReplies st))
               (push bottleId newReplyId (bottleReplies st))
               (userBottleStates st) (hasUserReplied st)
               (activeBottleIds st) (activeBottleIndex st)
               (events st ++
                  [BottleReplied bottleId newReplyId (msg_sender m) (block_timestamp m)])).

(** [skipBottle(bottleId)]. *)
Definition skipBottle (m : Msg) (bottleId : N) (st : State) : Outcome Revert State :=
  if negb (bottleExists st bottleId) then Throw (Reason "Bottle does not exist")
  else if negb (Bottle.isActive (bottle st bottleId))
  then Throw (Reason "Bottle is not active")
  else if negb (negb (Bottle.sender (bottle st bottleId) =? msg_sender m))
  then Throw (Reason "Cannot skip your own bottle")
  else if negb (negb (replied st (msg_sender m) bottleId))
  then Throw (Reason "Cannot skip bottle you've replied to")
  else
    let state := default UserBottleState.zero
                   (userBottleStates st !! (msg_sender m, bottleId)) in
    if negb (negb (UserBottleState.hasSkipped state))
    then Throw (Reason "Already skipped this bottle")
    else
      Ret (mkState (_bottleIdCounter st) (_replyIdCounter st) (bottles st) (replies st)
             (userBottles st) (userReplies st) (bottleReplies st)
             (<[(msg_sender m, bottleId) :=
                  UserBottleState.mk (UserBottleState.hasViewed state)
                    (UserBottleState.hasReplied state) true]> (userBottleStates st))
             (hasUserReplied st) (activeBottleIds st) (activeBottleIndex st)
             (events st ++ [BottleSkipped bottleId (msg_sender m) (block_timestamp m)])).

(** [deactivateBottle(bottleId)]. *)
Definition deactivateBottle (m : Msg) (bottleId : N) (st : State) : Outcome Revert State :=
  if negb (bottleExists st bottleId) then Throw (Reason "Bottle does not exist")
  else if negb (Bottle.sender (bottle st bottleId) =? msg_sender m)
  then Throw (Reason "Only sender can deactivate")
  else
    let index := default 0 (activeBottleIndex st !! bottleId) in
    match last (activeBottleIds st) with
    | None => Throw (Panic 17)           (* activeBottleIds.length - 1 *)
    | Some lastBottleId =>
        if negb (index <? N.of_nat (length (activeBottleIds st)))
        then Throw (Panic 50)            (* activeBottleIds[index] *)
        else
          Ret (mkState (_bottleIdCounter st) (_replyIdCounter st)
                 (<[bottleId := deactivate (bottle st bottleId)]> (bottles st))
                 (replies st) (userBottles st) (userReplies st) (bottleReplies st)
                 (userBottleStates st) (hasUserReplied st)
                 (removelast (<[N.to_nat index := lastBottleId]> (activeBottleIds st)))
                 (delete bottleId (<[lastBottleId := index]> (activeBottleIndex st)))
                 (events st))
    end.

(** [hasUserRepliedToBottle(user, bottleId)]. *)
Definition hasUserRepliedToBottle (st : State) (user bottleId : N) : bool :=
  replied st user bottleId.

(** The state-changing calls, and a chain of transactions: one that
    reverts leaves the storage as it was. *)
Inductive Call : Type :=
| SendBottle (content : string)
| ReplyToBottle (bottleId : N) (content : string)
| ReplyToReply (replyId : N) (content : string)
| SkipBottle (bottleId : N)
| DeactivateBottle (bottleId : N).

Definition execute (m : Msg) (c : Call) (st : State) : Outcome Revert State :=
  match c with
  | SendBottle content => sendBottle m content st
  | ReplyToBottle bottleId content => replyToBottle m bottleId content st
  | ReplyToReply replyId content => replyToReply m replyId content st
  | SkipBottle bottleId => skipBottle m bottleId st
  | DeactivateBottle bottleId => deactivateBottle m bottleId st
  end.

Definition transact (st : State) (tx : Msg * Call) : State :=
  match execute tx.1 tx.2 st with
  | Ret st' => st'
  | Throw _ => st
  end.

Definition run (txs : list (Msg * Call)) (st : State) : State :=
  fold_left transact txs st.

End DriftBottle.

(* ================================================================== *)
(** ** [ReceivePage]: the page that finds, shows and skips bottles *)
(* ================================================================== *)

Module ReceivePage.

(** What the hook's readers hand to the page (the records that
    [sanitizeForDisplay] builds). *)
Module Display.
Record Bottle : Type := {
  id : Z;
  content : string;
  timestamp : Z;
  sender : string;
  isActive : bool;
  replyCount : Z
}.
Record Reply : Type := {
  reply_id : Z;
  bottleId : Z;
  reply_content : string;
  reply_timestamp : Z;
  replier : string
}.
End Display.

(** [interface Reply] and [interface BottleData] of the page. *)
Module Reply.
Record t : Type := mk {
  id : Z;
  content : string;
  timestamp : Z;
  replier : string
}.
End Reply.

Module BottleData.
Record t : Type := mk {
  id : Z;
  content : string;
  timestamp : Z;
  sender : string;
  replies : option (list Reply.t)      (* replies?: Reply[] *)
}.
End BottleData.

(** The values of [replyBlockReason]: '', '不能回复自己的心声',
    '等待其他探索者的回音...'. *)
Inductive BlockReason : Type :=
| NoReason
| OwnBottle
| WaitingForOthers.

(** The toasts of [findBottle] and [fetchBottleData], by occasion. *)
Inductive Toast : Type :=
| ToastNotConnected
| ToastOwnBottleRetrying
| ToastOwnBottleShown
| ToastNoBottles
| ToastOwnBottleTryAgain
| ToastCancelled
| ToastFindFailed (message : string)
| ToastFetchFailed (bottleId : Z).

(** What the page asks of the outside, oldest first: toasts, timers,
    and calls of the functions that [useDriftBottle()] returned; and,
    as [Rejected], that the promise of a call of [findBottle] rejected
    (nothing awaits it: the call is made by a click or by a timer). *)
Inductive PageEffect : Type :=
| ShowToast (t : Toast)
| SetTimeout (ms : Z)
| GetRandomBottle
| ReadBottleData (bottleId : Z)
| ReadBottleReplies (bottleId : Z)
| EstimateReplyGas (bottleId : Z)
| ReplyToBottle (bottleId : Z)
| SkipBottle (bottleId : Z)
| Rejected.

(** The calls among them that send a transaction. *)
Definition isTransaction (e : PageEffect) : bool :=
  match e with
  | ReplyToBottle _ | SkipBottle _ => true
  | _ => false
  end.

Definition isHookCall (e : PageEffect) : bool :=
  match e with
  | ShowToast _ | SetTimeout _ | Rejected => false
  | _ => true
  end.


(** The [useState] cells of [ReceivePage], and the effects so far. *)
Record Page : Type := mkPage {
  currentBottle : option BottleData.t;
  reply : string;
  showReplyForm : bool;
  lastBottleHash : string;
  isRemoving : bool;
  isSearching : bool;
  canReply : bool;
  replyBlockReason : BlockReason;
  log : list PageEffect
}.

Definition setCurrentBottle (b : option BottleData.t) (p : Page) : Page :=
  mkPage b (reply p) (showReplyForm p) (lastBottleHash p) (isRemoving p) (isSearching p)
    (canReply p) (replyBlockReason p) (log p).
Definition setReply (r : string) (p : Page) : Page :=
  mkPage (currentBottle p) r (showReplyForm p) (lastBottleHash p) (isRemoving p)
    (isSearching p) (canReply p) (replyBlockReason p) (log p).
Definition setShowReplyForm (b : bool) (p : Page) : Page :=
  mkPage (currentBottle p) (reply p) b (lastBottleHash p) (isRemoving p) (isSearching p)
    (canReply p) (replyBlockReason p) (log p).
Definition setIsRemoving (b : bool) (p : Page) : Page :=
  mkPage (currentBottle p) (reply p) (showReplyForm p) (lastBottleHash p) b (isSearching p)
    (canReply p) (replyBlockReason p) (log p).
Definition setIsSearching (b : bool) (p : Page) : Page :=
  mkPage (currentBottle p) (reply p) (showReplyForm p) (lastBottleHash p) (isRemoving p) b
    (canReply p) (replyBlockReason p) (log p).
Definition setCanReply (b : bool) (p : Page) : Page :=
  mkPage (currentBottle p) (reply p) (showReplyForm p) (lastBottleHash p) (isRemoving p)
    (isSearching p) b (replyBlockReason p) (log p).
Definition setReplyBlockReason (r : BlockReason) (p : Page) : Page :=
  mkPage (currentBottle p) (reply p) (showReplyForm p) (lastBottleHash p) (isRemoving p)
    (isSearching p) (canReply p) r (log p).
Definition effect (e : PageEffect) (p : Page) : Page :=
  mkPage (currentBottle p) (reply p) (showReplyForm p) (lastBottleHash p) (isRemoving p)
    (isSearching p) (canReply p) (replyBlockReason p) (log p ++ [e]).

(** A value that [getRandomBottle] throws: the hook passes on
    whatever wagmi threw.  [message] is [error.message] when that is a
    string, and [None] when the value has no [message] (a string, a
    plain object, [undefined]). *)
Record Thrown : Type := {
  message : option string
}.

(** What [useDriftBottle()] gave the page for this render, and what
    its functions answer.  [getRandomBottle] is asked with the retry
    count of the search that calls it; the readers answer by bottle.
    [stripQuotes] is the [replace] that removes the quotation marks at
    both ends of a text. *)
Record Hooked : Type := {
  isConnected : bool;
  isConnectionStable : bool;
  address : option string;
  now : Z;
  getRandomBottle : nat → Outcome Thrown Z;
  readBottleData : Z → option Display.Bottle;
  readBottleReplies : Z → list Display.Reply;
  stripQuotes : string → string
}.

(** [checkReplyPermissions(bottleData)]. *)
Definition checkReplyPermissions (address : option string) (bottleData : BottleData.t)
    (p : Page) : Page :=
  let p := setReplyBlockReason NoReason (setCanReply true p) in
  if bool_decide (Some (BottleData.sender bottleData) = address)
  then setReplyBlockReason OwnBottle (setCanReply false p)
  else
    match BottleData.replies bottleData with
    | Some replies =>
        match last replies with          (* replies.length > 0 *)
        | Some lastReply =>
            if bool_decide (Some (Reply.replier lastReply) = address)
            then setReplyBlockReason WaitingForOthers (setCanReply false p)
            else setReplyBlockReason NoReason (setCanReply true p)
        | None => setReplyBlockReason NoReason (setCanReply true p)
        end
    | None => setReplyBlockReason NoReason (setCanReply true p)
    end.

(** [ts > 0 ? (ts < 1e12 ? ts * 1000 : ts) : Date.now()]. *)
Definition toMilliseconds (now ts : Z) : Z :=
  if 0 <? ts then (if ts <? 10 ^ 12 then ts * 1000 else ts) else now.

Definition orElse (s fallback : string) : string :=
  if bool_decide (s = "") then fallback else s.

(** The [parsedBottleData] of [fetchBottleData]. *)
Definition parseBottle (h : Hooked) (bottleId : Z) (bottleData : Display.Bottle)
    (bottleReplies : list Display.Reply) : BottleData.t :=
  let replies :=
    imap (fun index r =>
            Reply.mk (Z.of_nat index)
              (stripQuotes h (Display.reply_content r))
              (toMilliseconds (now h)
                 (if Display.reply_timestamp r =? 0 then now h else Display.reply_timestamp r))
              (orElse (Display.replier r) "Anonymous"))
         bottleReplies in
  BottleData.mk bottleId
    (stripQuotes h (Display.content bottleData))
    (toMilliseconds (now h) (Display.timestamp bottleData))
    (orElse (Display.sender bottleData) "Anonymous")
    (Some replies).

(** [fetchBottleData(bottleId, retryCount = 0)]; a retry is the call
    that the timer makes. *)
Fixpoint fetchBottleData_rec (fuel : nat) (h : Hooked) (bottleId : Z) (retryCount : nat)
    (p : Page) : option Page :=
  match fuel with
  | O => None
  | S fuel' =>
      let p := effect (ReadBottleData bottleId) p in
      match readBottleData h bottleId with
      | None =>
          if (retryCount <? 2)%nat then
            let delay := 2 ^ Z.of_nat retryCount * 1000 in
            fetchBottleData_rec fuel' h bottleId (retryCount + 1) (effect (SetTimeout delay) p)
          else Some (effect (ShowToast (ToastFetchFailed bottleId)) p)
      | Some bottleData =>
          let p := effect (ReadBottleReplies bottleId) p in
          let parsedBottleData :=
            parseBottle h bottleId bottleData (readBottleReplies h bottleId) in
          Some (setCurrentBottle (Some parsedBottleData)
                  (checkReplyPermissions (address h) parsedBottleData p))
      end
  end.

Definition fetchBottleData (h : Hooked) (bottleId : Z) (retryCount : nat) (p : Page)
    : option Page :=
  fetchBottleData_rec (S (2 - retryCount)) h bottleId retryCount p.

(** The [finally] block of [findBottle]. *)
Definition findBottle_finally (retryCount : nat) (p : Page) : Page :=
  if (retryCount =? 0)%nat then setIsSearching false p else p.

(** [findBottle(retryCount = 0)]; a retry is the call that the timer
    makes, one second later.  The [catch] block reads
    [error.message.includes] without a test: on a value without a
    [message] that is a TypeError thrown from the handler itself, so
    no toast is shown, the [finally] block runs and the call rejects. *)
Fixpoint findBottle_rec (fuel : nat) (h : Hooked) (retryCount : nat) (p : Page)
    : option Page :=
  match fuel with
  | O => None
  | S fuel' =>
      if negb (isConnected h) || negb (isConnectionStable h)
      then Some (effect (ShowToast ToastNotConnected) p)
      else if isSearching p && (retryCount =? 0)%nat then Some p
      else
        let p := if (retryCount =? 0)%nat then setIsSearching true p else p in
        let p := effect GetRandomBottle p in
        match getRandomBottle h retryCount with
        | Ret bottleId =>
            let p := effect (ReadBottleData bottleId) p in
            let own :=
              match readBottleData h bottleId with
              | Some bottleData =>
                  bool_decide (Some (Display.sender bottleData) = address h)
                  || bool_decide (address h = None)     (* bottleData[1] === address *)
              | None => false
              end in
            if own && (retryCount <? 3)%nat then
              let p := effect (ShowToast ToastOwnBottleRetrying) p in
              let p := effect (SetTimeout 1000) p in
              findBottle_rec fuel' h (retryCount + 1) (findBottle_finally retryCount p)
            else
              let p := if own then effect (ShowToast ToastOwnBottleShown) p else p in
              match fetchBottleData h bottleId 0 p with
              | Some p => Some (findBottle_finally retryCount p)
              | None => None
              end
        | Throw error =>
            match message error with
            | None => Some (effect Rejected (findBottle_finally retryCount p))
            | Some message =>
                if Hook.includes message "No bottles available"
                then Some (findBottle_finally retryCount (effect (ShowToast ToastNoBottles) p))
                else if Hook.includes message "Cannot view your own bottle" then
                  if (retryCount <? 3)%nat then
                    let p := effect (ShowToast ToastOwnBottleRetrying) p in
                    let p := effect (SetTimeout 1000) p in
                    findBottle_rec fuel' h (retryCount + 1) (findBottle_finally retryCount p)
                  else
                    Some (findBottle_finally retryCount
                            (effect (ShowToast ToastOwnBottleTryAgain) p))
                else if Hook.includes message "user rejected"
                then Some (findBottle_finally retryCount (effect (ShowToast ToastCancelled) p))
                else Some (findBottle_finally retryCount
                             (effect (ShowToast (ToastFindFailed message)) p))
            end
        end
  end.

Definition findBottle (h : Hooked) (retryCount : nat) (p : Page) : option Page :=
  findBottle_rec (S (3 - retryCount)) h retryCount p.

(** [handleSkip]: the click handler, and the callback of the timer it
    sets, which runs 300 ms later. *)
Definition handleSkip (p : Page) : Page :=
  match currentBottle p with
  | None => p
  | Some _ => effect (SetTimeout 300) (setIsRemoving true p)
  end.

Definition handleSkip_timeout (p : Page) : Page :=
  setIsRemoving false (setReply "" (setShowReplyForm false (setCurrentBottle None p))).

End ReceivePage.

(* ================================================================== *)
(** ** [contract DriftBottle]: the view functions *)
(* ================================================================== *)

Module DriftBottleViews.
Import DriftBottle.

Local Open Scope N_scope.

(** [getRandomBottle()].  The seed is
    [uint256(keccak256(abi.encodePacked(block.timestamp,
    block.prevrandao, msg.sender, activeBottleIds.length,
    block.number)))]: the hash is not computed here, its value is the
    argument [seed], any [uint256]. *)
Definition getRandomBottle (m : Msg) (seed : N) (st : State) : Outcome Revert N :=
  if negb (0 <? N.of_nat (length (activeBottleIds st)))
  then Throw (Reason "No bottles available")
  else
    let randomIndex := seed mod N.of_nat (length (activeBottleIds st)) in
    match activeBottleIds st !! N.to_nat randomIndex with
    | None => Throw (Panic 50)           (* activeBottleIds[randomIndex] *)
    | Some bottleId =>
        if negb (negb (Bottle.sender (bottle st bottleId) =? msg_sender m))
        then Throw (Reason "Cannot view your own bottle")
        else if negb (Bottle.isActive (bottle st bottleId))
        then Throw (Reason "Bottle is not active")
        else Ret bottleId
    end.

(** [getBottle(bottleId)], [getReply(replyId)] and
    [getBottleReplies(bottleId)]. *)
Definition getBottle (st : State) (bottleId : N) : Outcome Revert Bottle.t :=
  if negb (bottleExists st bottleId) then Throw (Reason "Bottle does not exist")
  else Ret (bottle st bottleId).

Definition getReply (st : State) (replyId : N) : Outcome Revert Reply.t :=
  if negb (replyExists st replyId) then Throw (Reason "Reply does not exist")
  else Ret (default Reply.zero (replies st !! replyId)).

Definition getBottleReplies (st : State) (bottleId : N) : Outcome Revert (list N) :=
  if negb (bottleExists st bottleId) then Throw (Reason "Bottle does not exist")
  else Ret (default [] (bottleReplies st !! bottleId)).

(** [getUserBottles(user)], [getUserReplies(user)] and
    [getUserBottleState(user, bottleId)]. *)
Definition getUserBottles (st : State) (user : N) : list N :=
  default [] (userBottles st !! user).

Definition getUserReplies (st : State) (user : N) : list N :=
  default [] (userReplies st !! user).

Definition getUserBottleState (st : State) (user bottleId : N) : UserBottleState.t :=
  default UserBottleState.zero (userBottleStates st !! (user, bottleId)).

(** [getActiveBottleCount()], [getBottleCount()] and [getReplyCount()]. *)
Definition getActiveBottleCount (st : State) : N := N.of_nat (length (activeBottleIds st)).
Definition getBottleCount (st : State) : N := _bottleIdCounter st.
Definition getReplyCount (st : State) : N := _replyIdCounter st.

End DriftBottleViews.

(* ================================================================== *)
(** ** [lib/dataCache]: saving, clearing and merging *)
(* ================================================================== *)

Module DataCacheOps.
Import CacheLock DataCache.

(** [key.startsWith(prefix)]. *)
Definition startsWith (key pre : string) : bool := String.prefix pre key.

(** What [clearOldCacheEntries] reads from an item:
    [parsed.lastUpdated || 0], and 0 when [JSON.parse] throws.  A
    stored text is taken not to be the empty string. *)
Definition lastUpdatedOf (item : Item) : Z :=
  match item with
  | Json data => lastUpdated data
  | Malformed => 0
  end.

(** [Array.prototype.sort((a, b) => a.lastUpdated - b.lastUpdated)]:
    the sort is stable. *)
Fixpoint insertEntry (e : string * Z) (l : list (string * Z)) : list (string * Z) :=
  match l with
  | [] => [e]
  | x :: l' => if e.2 <=? x.2 then e :: l else x :: insertEntry e l'
  end.

Definition sortEntries (l : list (string * Z)) : list (string * Z) :=
  foldr insertEntry [] l.

(** The [cacheEntries] of [clearOldCacheEntries]; [keys] is
    [Object.keys(localStorage)]. *)
Definition cacheEntries (keys : list string) (storage : gmap string Item)
    : list (string * Z) :=
  let cacheKeys := List.filter (fun key => startsWith key CACHE_KEY_PREFIX) keys in
  sortEntries
    (omap (fun key =>
             match storage !! key with
             | None => None                                   (* !data *)
             | Some item => Some (key, lastUpdatedOf item)
             end) cacheKeys).

(** [clearOldCacheEntries()]. *)
Definition clearOldCacheEntries (keys : list string) (storage : gmap string Item)
    : gmap string Item :=
  let entries := cacheEntries keys storage in
  let toRemove := take (length entries / 2) entries in
  fold_left (fun storage entry => delete entry.1 storage) toRemove storage.

(** [clearAllBottleDataCache()]. *)
Definition clearAllBottleDataCache (keys : list string) (b : Browser) : Browser :=
  if negb (window b) then b
  else
    fold_left (fun b key => if startsWith key CACHE_KEY_PREFIX then removeItem key b else b)
      keys b.

(** What the save path asks of the browser and this development does
    not compute: the size in bytes of the JSON text of a state, the
    length of a stored text, the order in which [Object.keys] lists
    the keys, and whether [localStorage.setItem] throws. *)
Inductive SaveError : Type :=
| QuotaExceededError                     (* DOMException, code 22 *)
| OtherError.

Record Platform : Type := {
  blobSize : CachedBottleState → Z;
  textLength : Item → Z;
  keysOf : gmap string Item → list string;
  setItem : gmap string Item → string → CachedBottleState → option SaveError
}.

(** What the operation handed to [safeCacheOperation] resolves to:
    [true], [undefined] (the early [return]) or the fallback
    [false]. *)
Inductive SaveResult : Type := Saved | Skipped | NotSaved.

(** [{ ...data, lastUpdated: Date.now(), userAddress:
    address.toLowerCase() }]. *)
Definition stamp (now : Z) (address : string) (data : CachedBottleState)
    : CachedBottleState :=
  {| bottles := bottles data;
     replies := replies data;
     canReplyTo := canReplyTo data;
     lastUpdated := now;
     userAddress := toLowerCase address |}.

Definition with_storage (storage : gmap string Item) (s : St (gmap string Item))
    : St (gmap string Item) :=
  (s.1, mkWorld (CacheLock.now s.2) (locks s.2) storage).

(** The total of [localStorage.getItem(key)?.length || 0] over the
    keys. *)
Definition totalSize (P : Platform) (storage : gmap string Item) : Z :=
  fold_left (fun size key =>
               size + match storage !! key with
                      | Some item => textLength P item
                      | None => 0
                      end) (keysOf P storage) 0.

(** The operation [saveBottleDataToCache] runs under the lock; its
    body has no [await], and the caller's [await fn()] resumes one
    turn after it has finished. *)
Definition saveOperation (P : Platform) (address : string) (data : CachedBottleState)
    (s : St (gmap string Item))
    : Outcome SaveError (option SaveResult) * St (gmap string Item) :=
  let cacheKey := getCacheKey address in
  let cacheData := stamp (CacheLock.now s.2) address data in
  if blobSize P cacheData >? 5 * (1024 * 1024)               (* sizeInMB > 5 *)
  then (Ret (Some Skipped), suspend s)
  else
    let storage :=
      if totalSize P (app s.2) >? 5 * 1024 * 1024
      then clearOldCacheEntries (keysOf P (app s.2)) (app s.2)
      else app s.2 in
    match setItem P storage cacheKey cacheData with
    | Some error => (Throw error, suspend (with_storage storage s))
    | None =>
        (Ret (Some Saved),
         suspend (with_storage (<[cacheKey := Json cacheData]> storage) s))
    end.

(** [saveBottleDataToCache(address, data)]; [window] is
    [typeof window !== 'undefined']. *)
Definition saveBottleDataToCache (P : Platform) (window : bool) (address : string)
    (data : CachedBottleState) (s : St (gmap string Item))
    : option (St (gmap string Item)) :=
  if negb window then Some s
  else
    let cacheKey := getCacheKey address in
    match safeCacheOperation cacheKey (saveOperation P address data)
            (mkOptions SaveResult (Some ("save_" +:+ cacheKey)) (Some 10000) (Some 3000)
               (Some NotSaved)) s with
    | None => None
    | Some (outcome, s') =>
        let s' := suspend s' in                                (* .catch *)
        let s' :=
          match outcome with
          | Ret _ => s'
          | Throw QuotaExceededError =>
              let storage := clearOldCacheEntries (keysOf P (app s'.2)) (app s'.2) in
              let cacheData := stamp (CacheLock.now s'.2) address data in
              match setItem P storage cacheKey cacheData with
              | Some _ => with_storage storage s'              (* catch (retryError) *)
              | None => with_storage (<[cacheKey := Json cacheData]> storage) s'
              end
          | Throw OtherError => s'
          end in
        Some (suspend s')                                      (* await *)
    end.

(** [Partial<CachedBottleState>]: [None] is a field that is left out. *)
Record PartialState : Type := {
  fresh_bottles : option (list BottleData);
  fresh_replies : option (gmap Z (list ReplyData));
  fresh_canReplyTo : option (gmap Z bool);
  fresh_lastUpdated : option Z;
  fresh_userAddress : option string
}.

(** [a || other] on strings: the empty string is falsy. *)
Definition orElse (a : option string) (other : string) : string :=
  match a with
  | Some s => if bool_decide (s = "") then other else s
  | None => other
  end.

(** [mergeBottleData(cached, fresh)] at the time [now] that
    [Date.now()] returns.  [{...a, ...b}] is the union in which [b]
    wins. *)
Definition mergeBottleData (now : Z) (cached : option CachedBottleState)
    (fresh : PartialState) : CachedBottleState :=
  match cached with
  | None =>
      {| bottles := default [] (fresh_bottles fresh);
         replies := default ∅ (fresh_replies fresh);
         canReplyTo := default ∅ (fresh_canReplyTo fresh);
         lastUpdated := now;
         userAddress := orElse (fresh_userAddress fresh) "" |}
  | Some cached =>
      {| bottles := default (bottles cached) (fresh_bottles fresh);
         replies := default ∅ (fresh_replies fresh) ∪ replies cached;
         canReplyTo := default ∅ (fresh_canReplyTo fresh) ∪ canReplyTo cached;
         lastUpdated := now;
         userAddress := orElse (fresh_userAddress fresh) (userAddress cached) |}
  end.

End DataCacheOps.

(* ================================================================== *)
(** ** [lib/dataCache]: [class DataCacheManager] *)
(* ================================================================== *)

Module DataCacheManager.
Import DataCache.

(** The manager's fields, and the refresh rounds it has run: for each
    round, whether it was forced and the time it started.  A round
    calls every registered callback, each inside its own [try]; the
    callbacks are taken not to call the manager themselves. *)
Record Manager : Type := mkManager {
  lastRefreshTime : Z;
  isRefreshing : bool;
  rounds : list (bool * Z)
}.

Definition initial : Manager := mkManager 0 false [].

(** [triggerRefresh(forceRefresh = false)] at the time [now]. *)
Definition triggerRefresh (forceRefresh : bool) (now : Z) (m : Manager) : Manager :=
  if negb forceRefresh && (now - lastRefreshTime m <? 5000) then m
  else if isRefreshing m && negb forceRefresh then m
  else mkManager now false (rounds m ++ [(forceRefresh, now)]).      (* finally *)

(** [isDataStale(lastUpdated, maxAge = CACHE_EXPIRY_TIME)] at the time
    [now]. *)
Definition isDataStale (now lastUpdated : Z) (maxAge : option Z) : bool :=
  now - lastUpdated >? default CACHE_EXPIRY_TIME maxAge.

(** The result of [getCacheStatus]; the age [None] is [Infinity]. *)
Record CacheStatus : Type := {
  exists_ : bool;
  isStale : bool;
  status_lastUpdated : Z;
  age : option Z
}.

(** [getCacheStatus(address)].  The clock is read three times: by
    [loadBottleDataFromCache] (the [now] of the browser), then for
    [age] and last by [isDataStale]. *)
Definition getCacheStatus (address : string) (b : Browser) (now2 now3 : Z)
    : CacheStatus * Browser :=
  let '(cached, b) := loadBottleDataFromCache address b in
  match cached with
  | None =>
      ({| exists_ := false; isStale := true; status_lastUpdated := 0; age := None |}, b)
  | Some cached =>
      ({| exists_ := true;
          isStale := isDataStale now3 (lastUpdated cached) None;
          status_lastUpdated := lastUpdated cached;
          age := Some (now2 - lastUpdated cached) |}, b)
  end.

End DataCacheManager.

(* ================================================================== *)
(** ** [src/lib/cacheLock.ts]: [fetchWithCacheLock] and the memory cache *)
(* ================================================================== *)

Module MemoryCache.
Import CacheLock.

(** [interface CacheEntry<T>]. *)
Module CacheEntry.
Record t (T : Type) : Type := mk {
  data : T;
  timestamp : Z;
  ttl : Z
}.
Arguments mk {T} data timestamp ttl.
Arguments data {T} _.
Arguments timestamp {T} _.
Arguments ttl {T} _.
End CacheEntry.

(** The [options] of [fetchWithCacheLock]; [None] is a field left
    [undefined]. *)
Module FetchOptions.
Record t : Type := mk {
  ttlMs : option Z;
  lockExpiryMs : option Z;
  maxWaitMs : option Z
}.
End FetchOptions.

(** [const memoryCache = new Map<string, CacheEntry<any>>()], private
    to the module: the [app] part of the lock manager's world. *)
Abbreviation memoryCache T := (gmap string (CacheEntry.t T)).

Section Fetch.
Context {T E : Type}.

(** [if (cached)]: whether a value of [T] is truthy. *)
Variable truthy : T → bool.


(** [getCachedData(key, ttlMs)]: the body reads [entry.ttl], never
    [ttlMs]. *)
Definition getCachedData (key : string) (ttlMs : Z) (w : World (memoryCache T))
    : option T * World (memoryCache T) :=
  match app w !! key with
  | None => (None, w)
  | Some entry =>
      if now w - CacheEntry.timestamp entry >? CacheEntry.ttl entry
      then (None, mkWorld (now w) (locks w) (delete key (app w)))
      else (Some (CacheEntry.data entry), w)
  end.

(** [setCachedData(key, data, ttlMs = 300000)]. *)
Definition setCachedData (key : string) (data : T) (ttlMs : option Z)
    (w : World (memoryCache T)) : World (memoryCache T) :=
  mkWorld (now w) (locks w)
    (<[key := CacheEntry.mk data (now w) (default 300000 ttlMs)]> (app w)).

(** The operation that [fetchWithCacheLock] runs under the lock.
    [fetchFn] is the caller's function together with the [await] on
    it: it may take any time and do anything to the page.  The value it
    resolves to is taken not to be [null]. *)
Definition fetchOperation (cacheKey : string)
    (fetchFn : St (memoryCache T) → Outcome E T * St (memoryCache T)) (ttlMs : Z)
    (s : St (memoryCache T)) : Outcome E (option T) * St (memoryCache T) :=
  let '(cached, w) := getCachedData cacheKey ttlMs s.2 in
  let hit :=
    match cached with
    | Some c => if truthy c then Some c else None
    | None => None
    end in
  match hit with
  | Some c => (Ret (Some c), suspend (s.1, w))
  | None =>
      let '(fetched, s1) := fetchFn (s.1, w) in               (* await fetchFn() *)
      match fetched with
      | Throw error => (Throw error, suspend s1)
      | Ret data =>
          (Ret (Some data), suspend (s1.1, setCachedData cacheKey data None s1.2))
      end
  end.

(** [fetchWithCacheLock(cacheKey, fetchFn, options)]. *)
Definition fetchWithCacheLock (cacheKey : string)
    (fetchFn : St (memoryCache T) → Outcome E T * St (memoryCache T))
    (options : FetchOptions.t) (s : St (memoryCache T))
    : option (Outcome E (option T) * St (memoryCache T)) :=
  let ttlMs := default 300000 (FetchOptions.ttlMs options) in
  let lockExpiryMs := default 30000 (FetchOptions.lockExpiryMs options) in
  let maxWaitMs := default 5000 (FetchOptions.maxWaitMs options) in
  let lockKey := "fetch_" +:+ cacheKey in
  match safeCacheOperation cacheKey (fetchOperation cacheKey fetchFn ttlMs)
          (mkOptions T (Some lockKey) (Some lockExpiryMs) (Some maxWaitMs) None) s with
  | None => None
  | Some (result, s') => Some (result, suspend s')           (* return await *)
  end.

End Fetch.

End MemoryCache.

(* ================================================================== *)
(** ** [ReceivePage]: [formatTimestamp] *)
(* ================================================================== *)

Module ReceivePageTime.

(** What [formatTimestamp] returns: '刚刚', '时间未知', 'n 分钟前',
    'n 小时前', 'n 天前', or the local date and time of the
    timestamp. *)
Inductive TimeLabel : Type :=
| JustNow
| TimeUnknown
| MinutesAgo (n : Z)
| HoursAgo (n : Z)
| DaysAgo (n : Z)
| LocalDateTime (timestamp : Z).

(** The largest time value of a [Date]. *)
Definition MAX_TIME_VALUE : Z := 8640000000000000.

(** [formatTimestamp(timestamp)] on integral milliseconds, at the time
    [now] that [Date.now()] returns.  [Math.floor] of a quotient is
    the division of [Z]. *)
Definition formatTimestamp (now timestamp : Z) : TimeLabel :=
  if timestamp <=? 0 then JustNow
  else if MAX_TIME_VALUE <? timestamp then TimeUnknown       (* isNaN(date.getTime()) *)
  else
    let diffInMinutes := (now - timestamp) / (1000 * 60) in
    if diffInMinutes <? 1 then JustNow
    else if diffInMinutes <? 60 then MinutesAgo diffInMinutes
    else if diffInMinutes <? 1440 then HoursAgo (diffInMinutes / 60)
    else if diffInMinutes <? 10080 then DaysAgo (diffInMinutes / 1440)
    else LocalDateTime timestamp.

End ReceivePageTime.

(* ================================================================== *)
(** * Properties *)
(* ================================================================== *)

(** * lib/typeValidation: what the hook accepts from the chain *)

Module TypeValidation.

(** What viem makes of the [Bottle] that [getBottle] returns: an object
    with the fields of the struct, the numbers as [bigint].  Texts are
    ASCII here, so that [String.length] is [value.length]. *)
Record RawBottle : Type := {
  id : Z;
  sender : string;
  content : string;
  timestamp : Z;
  isActive : bool;
  replyCount : Z
}.

(** [interface ValidatedBottleData]. *)
Module ValidatedBottleData.
Record t : Type := mk {
  id : Z;
  content : string;
  timestamp : Z;
  sender : string;
  isActive : bool;
  replyCount : Z
}.
End ValidatedBottleData.

Definition isHexDigit (c : ascii) : bool :=
  let n := nat_of_ascii c in
  ((48 <=? n) && (n <=? 57) || (65 <=? n) && (n <=? 70) || (97 <=? n) && (n <=? 102))%nat.

(** [isValidAddress(value)] on a string. *)
Definition isValidAddress (value : string) : bool :=
  (String.length value =? 42)%nat
  && String.prefix "0x" value
  && match value with
     | String "0" (String "x" digits) =>                 (* /^0x[a-fA-F0-9]{40}$/ *)
         (String.length digits =? 40)%nat && forallb isHexDigit (list_ascii_of_string digits)
     | _ => false
     end.

(** [isValidTimestamp(value)] on a [bigint], at the time [now] that
    [Date.now()] returns; the division of [bigint]s truncates. *)
Definition isValidTimestamp (now timestamp : Z) : bool :=
  let oneYearAgo := now - 365 * 24 * 60 * 60 * 1000 in
  let oneYearFromNow := now + 365 * 24 * 60 * 60 * 1000 in
  (oneYearAgo <=? timestamp) && (timestamp <=? oneYearFromNow)
  || (oneYearAgo ÷ 1000 <=? timestamp) && (timestamp <=? oneYearFromNow ÷ 1000).

(** [isValidContent(value)] on a string: it must hold none of the
    characters less-than, greater-than, double quote, apostrophe and
    ampersand (codes 60, 62, 34, 39, 38). *)
Definition isValidContent (value : string) : bool :=
  (0 <? String.length value)%nat
  && (String.length value <=? 1000)%nat
  && negb (existsb (fun c => bool_decide (nat_of_ascii c ∈ [60; 62; 34; 39; 38]%nat))
             (list_ascii_of_string value)).

(** [validateBottleData(data)]; [None] is [null].  The ids and counts
    are [bigint]s and the flag a boolean, which pass; [obj.content ||
    obj[1]] and the like are the named field unless that is falsy,
    and [undefined] then, which no test accepts. *)
Definition validateBottleData (now : Z) (obj : RawBottle) : option ValidatedBottleData.t :=
  if negb (isValidContent (content obj)) then None
  else if negb (negb (timestamp obj =? 0) && isValidTimestamp now (timestamp obj)) then None
  else if negb (negb (bool_decide (sender obj = "")) && isValidAddress (sender obj)) then None
  else Some (ValidatedBottleData.mk (id obj) (content obj) (timestamp obj) (sender obj)
               (isActive obj) (replyCount obj)).

(** [safeToNumber(value)] on a [bigint] that is not negative. *)
Definition safeToNumber (value : Z) : Z :=
  if value >? Security.MAX_SAFE_INTEGER then Security.MAX_SAFE_INTEGER else value.

(** [sanitizeForDisplay(data)] on a bottle. *)
Definition sanitizeForDisplay (data : ValidatedBottleData.t) : ReceivePage.Display.Bottle :=
  {| ReceivePage.Display.id := safeToNumber (ValidatedBottleData.id data);
     ReceivePage.Display.content := ValidatedBottleData.content data;
     ReceivePage.Display.timestamp := safeToNumber (ValidatedBottleData.timestamp data);
     ReceivePage.Display.sender := ValidatedBottleData.sender data;
     ReceivePage.Display.isActive := ValidatedBottleData.isActive data;
     ReceivePage.Display.replyCount := safeToNumber (ValidatedBottleData.replyCount data) |}.

End TypeValidation.

(** ** The lock manager *)

Section CacheLockFacts.
Import CacheLock.
Context {S E : Type}.
Implicit Types (w : World S) (s : St S) (k : string).

Lemma isLocked_now k w : now (isLocked k w).2 = now w.
Proof. unfold isLocked. destruct (locks w !! k); [case (_ <=? _)|]; done. Qed.

Lemma sleep_advances ms s : now s.2 + ms ≤ now (sleep ms s).2.
Proof. unfold sleep; simpl. lia. Qed.

(** The polling loop ends: each round that goes to sleep moves the
    clock by at least the polling interval. *)
Lemma waitLoop_total fuel k start maxWaitMs poll s :
  0 < poll →
  (1 ≤ fuel)%nat →
  maxWaitMs - (now s.2 - start) ≤ poll * (Z.of_nat fuel - 1) →
  is_Some (waitLoop fuel k start maxWaitMs poll s).
Proof.
  intros Hpoll. revert s.
  induction fuel as [|fuel IH]; intros s Hfuel Hleft; [lia|].
  simpl. destruct (Z.ltb_spec (now s.2 - start) maxWaitMs) as [Hlt|Hge]; [|eauto].
  destruct (isLocked k s.2) as [held w1] eqn:Hl.
  destruct held; simpl; [|eauto].
  rewrite Nat2Z.inj_succ in Hleft.
  apply IH.
  - destruct fuel; [simpl in Hleft; lia | lia].
  - pose proof (sleep_advances poll (s.1, w1)) as Hs.
    assert (now w1 = now s.2) as Hn
      by (pose proof (isLocked_now k s.2) as Hi; rewrite Hl in Hi; exact Hi).
    cbn [fst snd] in Hs. lia.
Qed.

Lemma waitForLock_total k maxWaitMs poll s :
  0 < poll → is_Some (waitForLock k maxWaitMs poll s).
Proof.
  intros Hpoll. unfold waitForLock, wait_fuel.
  apply waitLoop_total; [done|lia|].
  destruct (Z.le_gt_cases 0 maxWaitMs) as [Hm|Hm].
  - pose proof (Z.mul_succ_div_gt maxWaitMs poll Hpoll).
    pose proof (Z.div_pos maxWaitMs poll Hm Hpoll). lia.
  - assert (maxWaitMs / poll < 0) by (apply Z.div_lt_upper_bound; lia). lia.
Qed.

Lemma withLock_total {T} k (fn : St S → Outcome E (option T) * St S) e m s :
  is_Some (withLock k fn e m s).
Proof.
  unfold withLock.
  destruct (waitForLock_total k m 100 s) as [[b s1] ->]; [lia|].
  destruct b; simpl; [|eauto].
  destruct (acquireLock _ _ _) as [acq w2]. destruct acq; simpl; [|eauto].
  destruct (fn _); eauto.
Qed.

Lemma safeCacheOperation_total {T} ck (op : St S → Outcome E (option T) * St S) o s :
  is_Some (safeCacheOperation ck op o s).
Proof.
  unfold safeCacheOperation.
  destruct (withLock_total (default ("cache_" +:+ ck) (lockKey o)) op
              (default 30000 (expiryMs o)) (default 5000 (maxWaitMs o)) s)
    as [[r s'] ->].
  destruct r as [[v|]|err]; destruct (fallbackValue o); eauto.
Qed.

(** The three ways [withLock] ends, by what the wait and the
    acquisition report. *)
Lemma withLock_wait_failed {T} k (fn : St S → Outcome E (option T) * St S) e m s s1 :
  waitForLock k m 100 s = Some (false, s1) →
  withLock k fn e m s = Some (Ret None, suspend s1).
Proof. intros H. unfold withLock. by rewrite H. Qed.

Lemma withLock_acquire_failed {T} k (fn : St S → Outcome E (option T) * St S)
    e m s s1 w2 :
  waitForLock k m 100 s = Some (true, s1) →
  acquireLock k e (suspend s1).2 = (false, w2) →
  withLock k fn e m s = Some (Ret None, suspend ((suspend s1).1, w2)).
Proof. intros H1 H2. unfold withLock. rewrite H1. simpl. by rewrite H2. Qed.

Lemma withLock_acquired {T} k (fn : St S → Outcome E (option T) * St S)
    e m s s1 w2 :
  waitForLock k m 100 s = Some (true, s1) →
  acquireLock k e (suspend s1).2 = (true, w2) →
  withLock k fn e m s =
    Some ((fn (suspend ((suspend s1).1, w2))).1,
          ((fn (suspend ((suspend s1).1, w2))).2.1,
           releaseLock k (fn (suspend ((suspend s1).1, w2))).2.2)).
Proof.
  intros H1 H2. unfold withLock. rewrite H1. simpl. rewrite H2. simpl.
  by destruct (fn _).
Qed.

Lemma acquireLock_true k e w w' :
  acquireLock k e w = (true, w') →
  locks w' !! k = Some (mkLock k (now w) (now w + e)) ∧ now w' = now w.
Proof.
  unfold acquireLock. destruct (locks w !! k) as [l|].
  - case (_ <? _); intros [= <-]; simpl. by rewrite lookup_insert_eq.
  - intros [= <-]; simpl. by rewrite lookup_insert_eq.
Qed.

Lemma withLock_throw_released {T} k (fn : St S → Outcome E (option T) * St S)
    e m s err s' :
  withLock k fn e m s = Some (Throw err, s') → locks s'.2 !! k = None.
Proof.
  unfold withLock. destruct (waitForLock _ _ _ _) as [[b s1]|]; [|done].
  destruct b; simpl; [|done].
  destruct (acquireLock _ _ _) as [acq w2]. destruct acq; simpl; [|done].
  destruct (fn _) as [r s3]. intros [= -> <-]. simpl. apply lookup_delete_eq.
Qed.

(** What the rest of the page does without giving up the lock on [k]:
    anything but [releaseLock(k)] and [clearAllLocks()]. *)
Definition keeps (k : string) (a : Action) : Prop :=
  a ≠ OtherRelease k ∧ a ≠ OtherClearAll.

Lemma run_action_now (a : Action) w : now w ≤ now (run_action a w).
Proof.
  destruct a as [dt|k' e|k'|k'| |]; simpl; try lia.
  - unfold acquireLock. destruct (locks w !! k') as [l|]; [destruct (_ <? _)|]; simpl; lia.
  - rewrite isLocked_now. lia.
Qed.

Lemma run_pause_now p : ∀ w, now w ≤ now (run_pause p w).
Proof.
  unfold run_pause. induction p as [|a p IH]; intros w; simpl; [lia|].
  pose proof (run_action_now a w). pose proof (IH (run_action a w)). lia.
Qed.

Lemma run_pause_app p1 p2 w : run_pause (p1 ++ p2) w = run_pause p2 (run_pause p1 w).
Proof. unfold run_pause. apply fold_left_app. Qed.

Lemma held_lock_refuses k (l : CacheLock) w e :
  locks w !! k = Some l → now w < expiry l →
  acquireLock k e w = (false, w) ∧ isLocked k w = (true, w).
Proof.
  intros Hl Hnow. unfold acquireLock, isLocked. rewrite Hl.
  destruct (Z.ltb_spec (now w) (expiry l)); [|lia].
  by destruct (Z.leb_spec (expiry l) (now w)); [lia|].
Qed.

Lemma run_action_keeps_lock (a : Action) k (l : CacheLock) w :
  keeps k a → locks w !! k = Some l → now (run_action a w) < expiry l →
  locks (run_action a w) !! k = Some l ∧ app (run_action a w) = app w.
Proof.
  intros [Hrel Hclear] Hl Hnow. pose proof (run_action_now a w) as Hmono.
  destruct a as [dt|k' e|k'|k'| |]; simpl in *; try done.
  - destruct (decide (k' = k)) as [->|Hne].
    + by rewrite (proj1 (held_lock_refuses k l w e Hl ltac:(lia))).
    + unfold acquireLock. destruct (locks w !! k') as [l'|]; [destruct (_ <? _)|]; simpl;
        by rewrite ?lookup_insert_ne.
  - destruct (decide (k' = k)) as [->|Hne]; [done|]. by rewrite lookup_delete_ne.
  - destruct (decide (k' = k)) as [->|Hne].
    + by rewrite (proj2 (held_lock_refuses k l w 0 Hl ltac:(lia))).
    + unfold isLocked. destruct (locks w !! k') as [l'|]; [destruct (_ <=? _)|]; simpl;
        by rewrite ?lookup_delete_ne.
  - split; [|done]. apply map_lookup_filter_Some. split; [done|]. simpl. lia.
Qed.

Lemma run_pause_keeps_lock p : ∀ k (l : CacheLock) w,
  Forall (keeps k) p → locks w !! k = Some l → now (run_pause p w) < expiry l →
  locks (run_pause p w) !! k = Some l ∧ app (run_pause p w) = app w.
Proof.
  induction p as [|a p IH]; intros k l w Hp Hl Hnow; [done|].
  apply Forall_cons in Hp as [Ha Hp].
  change (run_pause (a :: p) w) with (run_pause p (run_action a w)) in *.
  pose proof (run_pause_now p (run_action a w)) as Hmono.
  destruct (run_action_keeps_lock a k l w Ha Hl ltac:(lia)) as [Hl' Happ].
  destruct (IH k l (run_action a w) Hp Hl' Hnow) as [? ?]. split; [done|congruence].
Qed.

(** The key is locked: its lock is in the table and has not expired. *)
Definition held (k : string) (w : World S) : Prop :=
  ∃ l, locks w !! k = Some l ∧ now w < expiry l.

(** The task at its [i]-th poll of [waitForLock], counted from 0, when
    the polls before it found the key locked: it has slept [i] times
    for the polling interval. *)
Fixpoint atPoll (i : nat) (s : St S) : St S :=
  match i with
  | O => s
  | Datatypes.S i' => atPoll i' (sleep 100 s)
  end.

(** No call of [acquireLock(k)] among the actions. *)
Definition leaves (k : string) (a : Action) : Prop :=
  ∀ e, a ≠ OtherAcquire k e.

Lemma isLocked_held k w : held k w → isLocked k w = (true, w).
Proof. intros (l & Hl & Hnow). by apply (held_lock_refuses k l w 0). Qed.

Lemma isLocked_free k w :
  ¬ held k w →
  (isLocked k w).1 = false ∧ locks (isLocked k w).2 !! k = None ∧
  now (isLocked k w).2 = now w ∧ app (isLocked k w).2 = app w.
Proof.
  intros Hfree. unfold isLocked. destruct (locks w !! k) as [l|] eqn:Hl; [|done].
  destruct (Z.leb_spec (expiry l) (now w)).
  - simpl. by rewrite lookup_delete_eq.
  - destruct Hfree. by exists l.
Qed.

Lemma acquireLock_held k e w : held k w → acquireLock k e w = (false, w).
Proof. intros (l & Hl & Hnow). by apply (held_lock_refuses k l w e). Qed.

Lemma acquireLock_free k e w :
  ¬ held k w →
  acquireLock k e w = (true, set_locks (insert k (mkLock k (now w) (now w + e))) w).
Proof.
  intros Hfree. unfold acquireLock. destruct (locks w !! k) as [l|] eqn:Hl; [|done].
  destruct (Z.ltb_spec (now w) (expiry l)); [|done]. destruct Hfree. by exists l.
Qed.

Lemma run_action_leaves (a : Action) k w :
  leaves k a → locks w !! k = None → locks (run_action a w) !! k = None.
Proof.
  intros Ha Hl. destruct a as [dt|k' e|k'|k'| |]; simpl; try done.
  - destruct (decide (k' = k)) as [->|Hne]; [by destruct (Ha e)|].
    unfold acquireLock. destruct (locks w !! k') as [l'|]; [destruct (_ <? _)|]; simpl;
      by rewrite ?lookup_insert_ne.
  - destruct (decide (k' = k)) as [->|Hne]; [apply lookup_delete_eq|].
    by rewrite lookup_delete_ne.
  - unfold isLocked. destruct (locks w !! k') as [l'|]; [destruct (_ <=? _)|]; simpl;
      try done.
    destruct (decide (k' = k)) as [->|Hne]; [apply lookup_delete_eq|].
    by rewrite lookup_delete_ne.
  - apply map_lookup_filter_None. by left.
Qed.

Lemma run_pause_leaves p : ∀ k w,
  Forall (leaves k) p → locks w !! k = None → locks (run_pause p w) !! k = None.
Proof.
  induction p as [|a p IH]; intros k w Hp Hl; [done|].
  apply Forall_cons in Hp as [Ha Hp].
  change (run_pause (a :: p) w) with (run_pause p (run_action a w)).
  apply IH; [done|]. by apply run_action_leaves.
Qed.

Lemma suspend_now (s : St S) : now s.2 ≤ now (suspend s).2.
Proof. unfold suspend. destruct s.1 as [|p ps]; simpl; [lia|apply run_pause_now]. Qed.

Lemma atPoll_succ i : ∀ s : St S, atPoll (Datatypes.S i) s = sleep 100 (atPoll i s).
Proof. induction i as [|i IH]; intros s; [done|]. simpl. by rewrite <- IH. Qed.

Lemma atPoll_now i : ∀ s : St S, now s.2 + 100 * Z.of_nat i ≤ now (atPoll i s).2.
Proof.
  induction i as [|i IH]; intros s; simpl; [lia|].
  pose proof (IH (sleep 100 s)). pose proof (sleep_advances 100 s). lia.
Qed.

(** The wait when the key is locked at every poll: it ends with the
    first poll that comes too late. *)
Lemma waitLoop_held k start m fuel : ∀ s : St S,
  (∀ i, now (atPoll i s).2 - start < m → held k (atPoll i s).2) →
  (1 ≤ fuel)%nat →
  m - (now s.2 - start) ≤ 100 * (Z.of_nat fuel - 1) →
  ∃ n, waitLoop fuel k start m 100 s = Some (false, atPoll n s) ∧
       m ≤ now (atPoll n s).2 - start ∧
       ∀ i, (i < n)%nat → now (atPoll i s).2 - start < m.
Proof.
  induction fuel as [|fuel IH]; intros s Hheld Hfuel Hleft; [lia|].
  simpl. destruct (Z.ltb_spec (now s.2 - start) m) as [Hlt|Hge].
  - rewrite (isLocked_held k s.2 (Hheld 0%nat Hlt)). simpl.
    replace (s.1, s.2) with s by (by destruct s).
    pose proof (sleep_advances 100 s) as Hs.
    destruct (IH (sleep 100 s)) as (n & Hrun & Hout & Hin).
    + intros i. apply (Hheld (Datatypes.S i)).
    + destruct fuel; [simpl in Hleft; lia|lia].
    + lia.
    + exists (Datatypes.S n). split; [exact Hrun|]. split; [exact Hout|].
      intros [|i] Hi; [exact Hlt|]. apply Hin. lia.
  - exists 0%nat. split; [done|]. split; [simpl; lia|]. intros i Hi. lia.
Qed.

(** The wait when the key is found free at poll [j]. *)
Lemma waitLoop_free k start m j : ∀ fuel (s : St S),
  (∀ i, (i < j)%nat → now (atPoll i s).2 - start < m ∧ held k (atPoll i s).2) →
  now (atPoll j s).2 - start < m →
  ¬ held k (atPoll j s).2 →
  (j < fuel)%nat →
  waitLoop fuel k start m 100 s
  = Some (true, ((atPoll j s).1, (isLocked k (atPoll j s).2).2)).
Proof.
  induction j as [|j IH]; intros fuel s Hbefore Hin Hfree Hfuel.
  - destruct fuel as [|fuel]; [lia|]. simpl in *.
    destruct (Z.ltb_spec (now s.2 - start) m); [|lia].
    destruct (isLocked_free k s.2 Hfree) as [Hfalse _].
    destruct (isLocked k s.2) as [b w1]. simpl in Hfalse. by subst b.
  - destruct fuel as [|fuel]; [lia|]. simpl.
    destruct (Hbefore 0%nat ltac:(lia)) as [Hin0 Hheld0]. simpl in Hin0, Hheld0.
    destruct (Z.ltb_spec (now s.2 - start) m); [|lia].
    rewrite (isLocked_held k s.2 Hheld0). simpl.
    replace (s.1, s.2) with s by (by destruct s).
    apply IH; [|done|done|lia].
    intros i Hi. apply (Hbefore (Datatypes.S i)). lia.
Qed.

(** A poll made within the wait is one the fuel of [waitForLock]
    provides for. *)
Lemma poll_within_fuel (s : St S) m j :
  now (atPoll j s).2 - now s.2 < m → (j < wait_fuel m 100)%nat.
Proof.
  intros Hin. pose proof (atPoll_now j s) as Hnow. unfold wait_fuel.
  assert (Z.of_nat j ≤ m / 100) by (apply Z.div_le_lower_bound; lia). lia.
Qed.

End CacheLockFacts.

Section CacheLockClaims.
Import CacheLock.

(** C4.  No key stays locked forever, and [withLock] gives its lock
    back.  (1) A lock whose expiry time has passed — the holder never
    released it, it is still in the table — is reported free by
    [isLocked], which drops it, and a new [acquireLock] on the key
    succeeds.  (2) Every lock [acquireLock] grants is time-boxed: it
    expires [expiryMs] after it was taken.  (3) When [withLock] has
    taken the lock, then whatever [fn] does, returns or throws, the
    lock on the key is gone when [withLock] ends; (4) in particular a
    [withLock] that ends in an exception leaves the key unlocked. *)
Theorem lock_is_time_boxed_and_released {S E T : Type} (k : string) (e : Z) :
  (∀ (w : World S) (l : CacheLock),
      locks w !! k = Some l → expiry l ≤ now w →
      (isLocked k w).1 = false ∧ locks (isLocked k w).2 !! k = None ∧
      (acquireLock k e w).1 = true) ∧
  (∀ (w w' : World S),
      acquireLock k e w = (true, w') →
      locks w' !! k = Some (mkLock k (now w) (now w + e))) ∧
  (∀ (fn : St S → Outcome E (option T) * St S) (m : Z) (s s1 : St S) (w2 : World S),
      waitForLock k m 100 s = Some (true, s1) →
      acquireLock k e (suspend s1).2 = (true, w2) →
      ∃ s', withLock k fn e m s = Some ((fn (suspend ((suspend s1).1, w2))).1, s') ∧
            locks s'.2 !! k = None) ∧
  (∀ (fn : St S → Outcome E (option T) * St S) (m : Z) (s s' : St S) (err : E),
      withLock k fn e m s = Some (Throw err, s') → locks s'.2 !! k = None).
Proof.
  split_and!.
  - intros w l Hheld Hpast. unfold isLocked, acquireLock. rewrite Hheld.
    destruct (Z.leb_spec (expiry l) (now w)); [|lia].
    destruct (Z.ltb_spec (now w) (expiry l)); [lia|].
    split_and!; [done| |done]. simpl. apply lookup_delete_eq.
  - intros w w' H. by apply acquireLock_true in H as [? _].
  - intros fn m s s1 w2 H1 H2. eexists. split.
    + by apply withLock_acquired.
    + simpl. apply lookup_delete_eq.
  - intros fn m s s' err. apply withLock_throw_released.
Qed.

(** A lock taken at time 0 for 30 s and never released, seen at time
    30000: free again. *)
Lemma lock_is_time_boxed_and_released_witness :
  (isLocked "cache_k" (mkWorld 30000 {[ "cache_k" := mkLock "cache_k" 0 30000 ]} tt)).1 = false ∧
  (acquireLock "cache_k" 30000
     (mkWorld 30000 {[ "cache_k" := mkLock "cache_k" 0 30000 ]} tt)).1 = true.
Proof.
  destruct (@lock_is_time_boxed_and_released unit unit unit "cache_k" 30000) as [H _].
  destruct (H (mkWorld 30000 {[ "cache_k" := mkLock "cache_k" 0 30000 ]} tt)
              (mkLock "cache_k" 0 30000)) as (H1 & _ & H3).
  - reflexivity.
  - simpl. lia.
  - split; [exact H1 | exact H3].
Defined.

(** C3, as the code has it.  With the lock key, expiry and wait that
    [safeCacheOperation] derives from its options, and the polls of the
    key that [waitForLock] makes, 100 ms apart or more:
    (1) the call always returns;
    (2) when the key is locked at every poll made within the wait, the
        call gives up at the first poll that comes after the wait, the
        operation is not executed (the result does not depend on it)
        and the fallback value is returned ([null] when none was
        supplied);
    (3) when the key is locked at the polls before the [j]-th and free
        at the [j]-th, made within the wait, all depends on the key
        when [acquireLock] runs, one suspension later:
        if it is still free — as it is when no other task has called
        [acquireLock] on it meanwhile — the operation is executed,
        started after the call has put its own lock on the key (which
        is still there when the operation starts, if the other tasks
        have not released it), the lock is released when it is done,
        and the call returns what the operation returned (the
        fallback, if one was supplied, when that is [null] or an
        exception);
        if another task has taken the key, the operation is not
        executed and the fallback value is returned. *)
Theorem safeCacheOperation_runs_under_lock_or_falls_back {S E T : Type}
    (cacheKey : string) (options : Options T) (s : St S) :
  let k := default ("cache_" +:+ cacheKey) (lockKey options) in
  let e := default 30000 (expiryMs options) in
  let m := default 5000 (maxWaitMs options) in
  (∀ operation : St S → Outcome E (option T) * St S,
     is_Some (safeCacheOperation cacheKey operation options s)) ∧
  ((∀ i, now (atPoll i s).2 - now s.2 < m → held k (atPoll i s).2) →
   ∃ n, m ≤ now (atPoll n s).2 - now s.2 ∧
        (∀ i, (i < n)%nat → now (atPoll i s).2 - now s.2 < m) ∧
        ∀ operation : St S → Outcome E (option T) * St S,
          safeCacheOperation cacheKey operation options s
          = Some (Ret (fallbackValue options), suspend (suspend (atPoll n s)))) ∧
  (∀ j,
     (∀ i, (i < j)%nat → now (atPoll i s).2 - now s.2 < m ∧ held k (atPoll i s).2) →
     now (atPoll j s).2 - now s.2 < m →
     ¬ held k (atPoll j s).2 →
     let s1 := suspend ((atPoll j s).1, (isLocked k (atPoll j s).2).2) in
     let w2 := set_locks (insert k (mkLock k (now s1.2) (now s1.2 + e))) s1.2 in
     (Forall (leaves k) (default [] (head (atPoll j s).1)) → ¬ held k s1.2) ∧
     (¬ held k s1.2 →
        (Forall (keeps k) (default [] (head s1.1)) →
         now (suspend (s1.1, w2)).2 < now s1.2 + e →
         locks (suspend (s1.1, w2)).2 !! k
         = Some (mkLock k (now s1.2) (now s1.2 + e))) ∧
        ∀ operation : St S → Outcome E (option T) * St S,
          let run := operation (suspend (s1.1, w2)) in
          safeCacheOperation cacheKey operation options s
          = Some (match run.1, fallbackValue options with
                  | Ret None, Some fb => Ret (Some fb)
                  | Throw _, Some fb => Ret (Some fb)
                  | result, _ => result
                  end, suspend (run.2.1, releaseLock k run.2.2)) ∧
          locks (releaseLock k run.2.2) !! k = None) ∧
     (held k s1.2 →
        ∀ operation : St S → Outcome E (option T) * St S,
          safeCacheOperation cacheKey operation options s
          = Some (Ret (fallbackValue options), suspend (suspend s1)))).
Proof.
  intros k e m. split_and!.
  - intros operation. apply safeCacheOperation_total.
  - intros Hheld.
    destruct (waitLoop_held k (now s.2) m (wait_fuel m 100) s Hheld) as (n & Hrun & Hout & Hin).
    { unfold wait_fuel. lia. }
    { unfold wait_fuel.
      destruct (Z.le_gt_cases 0 m) as [Hm|Hm].
      - pose proof (Z.mul_succ_div_gt m 100 ltac:(lia)).
        pose proof (Z.div_pos m 100 Hm ltac:(lia)). lia.
      - assert (m / 100 < 0) by (apply Z.div_lt_upper_bound; lia). lia. }
    exists n. split; [exact Hout|]. split; [exact Hin|].
    intros operation. unfold safeCacheOperation. fold k e m.
    rewrite (withLock_wait_failed k operation e m s (atPoll n s) Hrun).
    by destruct (fallbackValue options).
  - intros j Hbefore Hin Hfree s1 w2.
    pose proof (waitLoop_free k (now s.2) m j (wait_fuel m 100) s Hbefore Hin Hfree
                  (poll_within_fuel s m j Hin)) as Hwait.
    fold (waitForLock k m 100 s) in Hwait.
    destruct (isLocked_free k (atPoll j s).2 Hfree) as (_ & Hgone & _ & _).
    split_and!.
    + intros Hleaves (l & Hl & _). revert Hl. subst s1. unfold suspend. simpl.
      destruct ((atPoll j s).1) as [|pause rest]; simpl in *; [by rewrite Hgone|].
      by rewrite (run_pause_leaves pause k _ Hleaves Hgone).
    + intros Hstill. split.
      * intros Hkeeps Hnow. unfold suspend in *. simpl in *.
        destruct (s1.1) as [|pause rest]; simpl in *.
        -- subst w2. simpl. apply lookup_insert_eq.
        -- apply (run_pause_keeps_lock pause k _ w2 Hkeeps); [|exact Hnow].
           subst w2. simpl. apply lookup_insert_eq.
      * intros operation run.
        pose proof (acquireLock_free k e s1.2 Hstill) as Hacq. fold w2 in Hacq.
        split; [|simpl; apply lookup_delete_eq].
        unfold safeCacheOperation. fold k e m.
        rewrite (withLock_acquired k operation e m s _ w2 Hwait Hacq).
        fold s1. fold run.
        destruct run.1 as [[v|]|err]; by destruct (fallbackValue options).
    + intros Htaken operation.
      pose proof (acquireLock_held k e s1.2 Htaken) as Hacq.
      unfold safeCacheOperation. fold k e m.
      rewrite (withLock_acquire_failed k operation e m s _ s1.2 Hwait Hacq).
      fold s1. replace (s1.1, s1.2) with s1 by (by destruct s1).
      by destruct (fallbackValue options).
Qed.

(** Scenarios on the key ["cache_k"].  The operation counts its own
    runs in the page state and returns 1; the fallback is 7. *)
Definition counting_operation (s : St nat) : Outcome unit (option nat) * St nat :=
  (Ret (Some 1%nat), (s.1, mkWorld (now s.2) (locks s.2) (Datatypes.S (app s.2)))).

Definition fallback_seven : Options nat :=
  mkOptions nat None None None (Some 7%nat).

(** Another task holds the key until time 100000 and nothing else happens. *)
Definition held_elsewhere : St nat :=
  ([], mkWorld 0 {[ "cache_k" := mkLock "cache_k" 0 100000 ]} 0%nat).

(** Another task holds the key and releases it 150 ms after this call
    has started to wait. *)
Definition released_meanwhile : St nat :=
  ([[Tick 150; OtherRelease "cache_k"]],
   mkWorld 0 {[ "cache_k" := mkLock "cache_k" 0 100000 ]} 0%nat).

(** The key is free, but a second [safeCacheOperation] on the same key
    was started in the same turn: it passed its own first poll too, and
    its [acquireLock] runs while this task is suspended on
    [await this.waitForLock(...)]. *)
Definition two_callers : St nat :=
  ([[OtherAcquire "cache_k" 30000]], mkWorld 0 ∅ 0%nat).

(** With nothing else going on, the polls are 100 ms apart and find
    the table as it was. *)
Lemma atPoll_idle {S : Type} i : ∀ (t : Z) (table : gmap string CacheLock) (a : S),
  atPoll i ([], mkWorld t table a) = ([], mkWorld (t + 100 * Z.of_nat i) table a).
Proof.
  induction i as [|i IH]; intros t table a; simpl.
  - by rewrite Z.add_0_r.
  - unfold sleep, suspend, set_now. simpl.
    rewrite Z.max_r by lia. rewrite IH. do 2 f_equal. lia.
Qed.

(** The key held throughout: the fallback after 5 s, the operation not
    run.  The key released after 150 ms: the operation is run at the
    second poll and its result returned. *)
Lemma safeCacheOperation_runs_under_lock_or_falls_back_witness :
  (∃ s', safeCacheOperation "k" counting_operation fallback_seven held_elsewhere
           = Some (Ret (Some 7%nat), s') ∧
         app s'.2 = 0%nat ∧ now s'.2 = 5000) ∧
  (∃ s', safeCacheOperation "k" counting_operation fallback_seven released_meanwhile
           = Some (Ret (Some 1%nat), s') ∧
         app s'.2 = 1%nat ∧ now s'.2 = 150 ∧ locks s'.2 !! "cache_k" = None).
Proof.
  split.
  - destruct (@safeCacheOperation_runs_under_lock_or_falls_back nat unit nat
                "k" fallback_seven held_elsewhere) as (_ & H & _).
    destruct H as (n & Hout & Hin & Hrun).
    + intros i Hi. unfold held_elsewhere in *. rewrite atPoll_idle in *.
      cbn [snd now locks] in *.
      change (default 5000 (maxWaitMs fallback_seven)) with 5000 in Hi.
      eexists. split; [apply lookup_singleton_eq|]. cbn [expiry now]. lia.
    + assert (n = 50%nat) as ->.
      { change (default 5000 (maxWaitMs fallback_seven)) with 5000 in Hout, Hin.
        unfold held_elsewhere in Hout, Hin. rewrite atPoll_idle in Hout.
        cbn [snd now] in Hout. destruct n as [|n]; [lia|].
        specialize (Hin n (Nat.lt_succ_diag_r n)). rewrite atPoll_idle in Hin.
        cbn [snd now] in Hin. lia. }
      eexists. split; [apply Hrun|].
      unfold held_elsewhere. rewrite atPoll_idle. split; reflexivity.
  - destruct (@safeCacheOperation_runs_under_lock_or_falls_back nat unit nat
                "k" fallback_seven released_meanwhile) as (_ & _ & H).
    destruct (H 1%nat) as (_ & Hrun & _).
    + intros i Hi. assert (i = 0%nat) as -> by lia. split; [simpl; lia|].
      eexists. split; [apply lookup_singleton_eq|]. simpl. lia.
    + vm_compute. reflexivity.
    + intros (l & Hl & _). vm_compute in Hl. discriminate.
    + destruct Hrun as [_ Hrun].
      { intros (l & Hl & _). vm_compute in Hl. discriminate. }
      destruct (Hrun counting_operation) as [Hres _].
      eexists. split; [exact Hres|]. vm_compute. by split_and!.
Defined.

(** C3 as stated fails: the key is free at the first poll, well within
    the wait, and yet the operation is never executed — the call
    returns the fallback and the run counter stays 0. *)
Lemma safeCacheOperation_lock_free_but_not_run :
  (∃ s1, waitForLock "cache_k" 5000 100 two_callers = Some (true, s1)) ∧
  (∃ s', safeCacheOperation "k" counting_operation fallback_seven two_callers
           = Some (Ret (Some 7%nat), s') ∧
         app s'.2 = 0%nat).
Proof.
  split; eexists; [|split]; vm_compute; reflexivity.
Qed.

End CacheLockClaims.

(** ** Content validation *)

Section SecurityClaims.
Import Security.

Lemma trim_nil : trim [] = [].
Proof. reflexivity. Qed.

(** C1, as the code has it.  A submission whose trimmed content is
    empty or longer than 1000 code units is rejected; a submission whose
    trimmed content has between 1 and 500 code units passes the length
    validation: it is rejected neither as empty nor as too long, and
    the only rejections left are those for unsafe patterns and for
    unsupported characters; otherwise the purified trimmed content is
    returned.  This holds at every call, whatever earlier calls have
    left in the patterns. *)
Theorem sanitizeBottleContent_length_validation (g : Engine) (c : jsstring) (l : list nat) :
  (length (trim c) = 0%nat ∨ (1000 < length (trim c))%nat →
     ∃ e, (sanitizeBottleContent g c l).1 = Throw e) ∧
  ((1 ≤ length (trim c) ≤ 500)%nat →
     (sanitizeBottleContent g c l).1 ≠ Throw Empty ∧
     (∀ n, (sanitizeBottleContent g c l).1 ≠ Throw (TooLong n)) ∧
     ((sanitizeBottleContent g c l).1 = Throw Unsafe ∨
      (sanitizeBottleContent g c l).1 = Throw Unsupported ∨
      (sanitizeBottleContent g c l).1 = Ret (purify g (trim c)))).
Proof.
  unfold sanitizeBottleContent. split.
  - intros H. case_bool_decide; [simpl; eauto|].
    destruct (Z.eqb_spec (Z.of_nat (length (trim c))) 0); [simpl; eauto|].
    destruct (Z.gtb_spec (Z.of_nat (length (trim c))) (Max.content MAX_LENGTHS));
      [simpl; eauto|]. simpl in *. lia.
  - intros H. case_bool_decide as Hc.
    { subst c. rewrite trim_nil in H. simpl in H. lia. }
    destruct (Z.eqb_spec (Z.of_nat (length (trim c))) 0); [lia|].
    destruct (Z.gtb_spec (Z.of_nat (length (trim c))) (Max.content MAX_LENGTHS));
      [simpl in *; lia|].
    destruct (testDangerous (DANGEROUS_PATTERNS g) (trim c) l) as [dangerous l'].
    destruct dangerous; simpl;
      [split_and!; [discriminate | intros n'; discriminate | auto]|].
    destruct (matchesContent g (trim c)); simpl;
      (split_and!; [discriminate | intros n'; discriminate | auto]).
Qed.

(** An engine that is exact on strings of ASCII letters: no dangerous
    pattern matches such a string, the content and reply patterns accept
    it when it is not empty, and DOMPurify leaves it as it is. *)
Definition isAsciiLetter (c : N) : bool :=
  ((65 <=? c) && (c <=? 90) || (97 <=? c) && (c <=? 122))%N.

Definition letters_engine : Engine :=
  {| DANGEROUS_PATTERNS := repeat (fun _ _ => None) 11;
     matchesContent := fun s => forallb isAsciiLetter s && negb (bool_decide (s = []));
     matchesReply := fun s => forallb isAsciiLetter s && negb (bool_decide (s = []))
                              && bool_decide (length s ≤ 500)%nat;
     purify := fun s => s |}.

(** "  hi " is accepted and sent as "hi". *)
Lemma sanitizeBottleContent_length_validation_witness :
  (sanitizeBottleContent letters_engine [32; 32; 104; 105; 32]%N []).1 = Ret [104; 105]%N.
Proof.
  destruct (sanitizeBottleContent_length_validation letters_engine
              [32; 32; 104; 105; 32]%N []) as [_ H].
  destruct H as (_ & _ & [H | [H | H]]).
  - vm_compute. lia.
  - discriminate H.
  - discriminate H.
  - exact H.
Defined.

(** C1 as stated fails: 501 letters "a" are within 1..1000 after
    trimming, and are rejected for their length, whatever the engine
    and whatever earlier calls have left in the patterns. *)
Lemma sanitizeBottleContent_rejects_501 :
  length (trim (repeat 97%N 501)) = 501%nat ∧
  ∀ g l, sanitizeBottleContent g (repeat 97%N 501) l = (Throw (TooLong 500), l).
Proof. split; [|intros g l]; vm_compute; reflexivity. Qed.

End SecurityClaims.

(** ** The per-user cache *)

Section DataCacheClaims.
Import DataCache.

Lemma lowerAscii_idemp c : lowerAscii (lowerAscii c) = lowerAscii c.
Proof. destruct c as [[] [] [] [] [] [] [] []]; reflexivity. Qed.

Lemma toLowerCase_idemp s : toLowerCase (toLowerCase s) = toLowerCase s.
Proof. induction s as [|c s IH]; simpl; [done|]. by rewrite lowerAscii_idemp, IH. Qed.

(** C7, as the code has it.  A cached state is returned only when it is
    at most 30 minutes old and was saved for the same address up to
    letter case; storage is then left as it was.  An entry older than
    30 minutes is removed from storage and [null] is returned; an entry
    that is not expired and carries another address yields [null] and
    stays in storage. *)
Theorem loadBottleDataFromCache_fresh_and_owned (address : string) (b : Browser) :
  (∀ data b',
      loadBottleDataFromCache address b = (Some data, b') →
      b' = b ∧
      localStorage b !! getCacheKey address = Some (Json data) ∧
      now b - lastUpdated data ≤ 30 * 60 * 1000 ∧
      userAddress data = toLowerCase address ∧
      toLowerCase (userAddress data) = toLowerCase address) ∧
  (∀ data,
      window b = true →
      localStorage b !! getCacheKey address = Some (Json data) →
      30 * 60 * 1000 < now b - lastUpdated data →
      loadBottleDataFromCache address b = (None, removeItem (getCacheKey address) b) ∧
      localStorage (removeItem (getCacheKey address) b) !! getCacheKey address = None) ∧
  (∀ data,
      window b = true →
      localStorage b !! getCacheKey address = Some (Json data) →
      now b - lastUpdated data ≤ 30 * 60 * 1000 →
      userAddress data ≠ toLowerCase address →
      loadBottleDataFromCache address b = (None, b)).
Proof.
  unfold loadBottleDataFromCache, CACHE_EXPIRY_TIME. split_and!.
  - intros data b'. destruct (window b); simpl; [|done].
    destruct (localStorage b !! getCacheKey address) as [[d|]|]; [|done..].
    destruct (Z.gtb_spec (now b - lastUpdated d) (1000 * 60 * 30)); [done|].
    case_bool_decide as Hu; simpl; [|done].
    intros [= -> ->]. split_and!; [done..|lia|done|].
    by rewrite Hu, toLowerCase_idemp.
  - intros data -> -> Hage. simpl.
    destruct (Z.gtb_spec (now b - lastUpdated data) (1000 * 60 * 30)); [|lia].
    split; [done|]. simpl. apply lookup_delete_eq.
  - intros data -> -> Hage Hu. simpl.
    destruct (Z.gtb_spec (now b - lastUpdated data) (1000 * 60 * 30)); [lia|].
    by case_bool_decide.
Qed.

(** A state saved for 0xab at time 0, looked up as 0xAB. *)
Definition cached_ab : CachedBottleState :=
  {| bottles := []; replies := ∅; canReplyTo := ∅; lastUpdated := 0; userAddress := "0xab" |}.

Definition browser_at (t : Z) : Browser :=
  {| window := true; now := t; localStorage := {[ getCacheKey "0xAB" := Json cached_ab ]} |}.

(** One millisecond past 30 minutes the entry is dropped. *)
Lemma loadBottleDataFromCache_fresh_and_owned_witness :
  loadBottleDataFromCache "0xAB" (browser_at 1800001)
    = (None, removeItem (getCacheKey "0xAB") (browser_at 1800001)).
Proof.
  destruct (loadBottleDataFromCache_fresh_and_owned "0xAB" (browser_at 1800001))
    as (_ & H & _).
  destruct (H cached_ab) as [H1 _]; [reflexivity | reflexivity | simpl; lia | exact H1].
Defined.

(** C7 as stated fails on the boundary: a state that is exactly 30
    minutes old, not less, is still returned. *)
Lemma loadBottleDataFromCache_returns_at_30_minutes :
  loadBottleDataFromCache "0xAB" (browser_at 1800000) = (Some cached_ab, browser_at 1800000) ∧
  now (browser_at 1800000) - lastUpdated cached_ab = 30 * 60 * 1000.
Proof. split; reflexivity. Qed.

End DataCacheClaims.

(** ** The session cache of the hook *)

Section HookCacheFacts.
Import Hook.
Context {Raw RawReply VB VR D DR : Type}.
Abbreviation Env := (Hook.Env Raw RawReply VB VR D DR).
Abbreviation State := (Hook.State D DR).
Implicit Types (env : Env) (st : State).

Lemma length_map_delete {V} k (m : JsMap V) : (length (map_delete k m) ≤ length m)%nat.
Proof. apply length_filter. Qed.

Lemma length_map_delete_first {V} k v (m : JsMap V) :
  (length (map_delete k ((k, v) :: m)) ≤ length m)%nat.
Proof.
  unfold map_delete. rewrite filter_cons_False by (simpl; tauto). apply length_filter.
Qed.

Lemma length_originalSet {V} k v (m : JsMap V) :
  (length (originalSet k v m) ≤ S (length m))%nat.
Proof.
  induction m as [|[k' v'] m IH]; simpl; [lia|].
  case_bool_decide; simpl; lia.
Qed.

Lemma map_has_delete {V} k (m : JsMap V) : map_has k (map_delete k m) = false.
Proof.
  unfold map_has, map_delete. induction m as [|[k' v'] m IH]; [done|].
  destruct (decide (k' = k)) as [->|Hne].
  - rewrite filter_cons_False by (simpl; tauto). done.
  - rewrite filter_cons_True by done. simpl. rewrite IH.
    by rewrite bool_decide_eq_false_2.
Qed.

Lemma map_has_originalSet_ne {V} k k0 v (m : JsMap V) :
  k ≠ k0 → map_has k0 (originalSet k v m) = map_has k0 m.
Proof.
  intros Hne. unfold map_has. induction m as [|[k' v'] m IH]; simpl.
  - by rewrite bool_decide_eq_false_2.
  - case_bool_decide as Hk; simpl; [subst k'|by rewrite IH].
    by rewrite !bool_decide_eq_false_2.
Qed.

(** The overridden [set] never lets the map grow past 100 entries. *)
Lemma length_cache_set {V} k v (m : JsMap V) :
  (length m ≤ 100)%nat → (length (cache_set k v m) ≤ 100)%nat.
Proof.
  intros Hm. unfold cache_set, MAX_CACHE_SIZE.
  destruct (Z.geb_spec (Z.of_nat (length m)) 100) as [Hfull|Hroom].
  - destruct m as [|[k0 v0] m]; [simpl in *; lia|].
    pose proof (length_originalSet k v (map_delete k0 ((k0, v0) :: m))).
    pose proof (length_map_delete_first k0 v0 m). simpl in Hm. lia.
  - pose proof (length_originalSet k v m). lia.
Qed.

Lemma cacheLookup_length ck ttl st o st' :
  cacheLookup ck ttl st = (o, st') →
  (length (bottleDataCache st') ≤ length (bottleDataCache st))%nat.
Proof.
  unfold cacheLookup. destruct (map_has _ _); [|by intros [= _ <-]].
  destruct (map_get _ _) as [c|].
  - destruct (_ && _); intros [= _ <-]; simpl; [done|apply length_map_delete].
  - intros [= _ <-]; simpl. apply length_map_delete.
Qed.

Lemma emit_cache e st : bottleDataCache (emit e st) = bottleDataCache st.
Proof. done. Qed.

Lemma advance_cache ms st : bottleDataCache (advance ms st) = bottleDataCache st.
Proof. done. Qed.

Lemma fold_emit_cache (l : list Z) st :
  bottleDataCache
    (fold_left (fun st replyId => emit (ReadContract "getReply" [ArgUint replyId]) st) l st)
  = bottleDataCache st.
Proof. revert st; induction l as [|x l IH]; intros st; simpl; [done|]. by rewrite IH. Qed.

Lemma readBottleData_rec_cache fuel env id k st r st' :
  readBottleData_rec fuel env id k st = Some (r, st') →
  (length (bottleDataCache st) ≤ 100)%nat →
  (length (bottleDataCache st') ≤ 100)%nat.
Proof.
  revert k st. induction fuel as [|fuel IH]; intros k st; simpl; [done|].
  destruct (id <=? 0); [by intros [= _ <-]|].
  destruct (negb (bool_decide _)); [by intros [= _ <-]|].
  destruct (_ || _); [by intros [= _ <-]|].
  destruct (cacheLookup _ _ st) as [o st1] eqn:Hl. apply cacheLookup_length in Hl.
  destruct o; [intros [= _ <-] ?; lia|].
  destruct (getBottle env id k) as [[raw|]|err].
  - destruct (validateBottleData env raw); intros [= _ <-] ?; simpl;
      [apply length_cache_set|]; simpl; lia.
  - intros [= _ <-] ?; simpl; lia.
  - destruct (isContractRevert err); [intros [= _ <-] ?; simpl; lia|].
    destruct (_ && _); [|intros [= _ <-] ?; simpl; lia].
    intros Hrec ?. apply IH in Hrec; [done|simpl; lia].
Qed.

Lemma readBottleReplies_rec_cache fuel env id k st r st' :
  readBottleReplies_rec fuel env id k st = Some (r, st') →
  (length (bottleDataCache st) ≤ 100)%nat →
  (length (bottleDataCache st') ≤ 100)%nat.
Proof.
  revert k st. induction fuel as [|fuel IH]; intros k st; simpl; [done|].
  destruct (id <=? 0); [by intros [= _ <-]|].
  destruct (negb (bool_decide _)); [by intros [= _ <-]|].
  destruct (_ || _); [by intros [= _ <-]|].
  destruct (cacheLookup _ _ st) as [o st1] eqn:Hl. apply cacheLookup_length in Hl.
  destruct o; [intros [= _ <-] ?; lia|].
  destruct (getBottleReplies env id k) as [[|rid rids]|err].
  - intros [= _ <-] ?; simpl. apply length_cache_set. simpl; lia.
  - intros [= _ <-] ?; simpl. apply length_cache_set.
    rewrite fold_emit_cache. simpl; lia.
  - destruct (_ && _); [|intros [= _ <-] ?; simpl; lia].
    intros Hrec ?. apply IH in Hrec; [done|simpl; lia].
Qed.

Lemma readBottleData_rec_total fuel env id k st :
  (3 - k < fuel)%nat → is_Some (readBottleData_rec fuel env id k st).
Proof.
  revert k st. induction fuel as [|fuel IH]; intros k st Hf; simpl; [lia|].
  destruct (id <=? 0); [eauto|].
  destruct (negb (bool_decide _)); [eauto|].
  destruct (_ || _); [eauto|].
  destruct (cacheLookup _ _ st) as [[d|] st1]; [eauto|].
  destruct (getBottle env id k) as [[raw|]|err]; [|eauto|].
  - destruct (validateBottleData env raw); eauto.
  - destruct (isContractRevert err); [eauto|].
    destruct (Nat.ltb_spec k 3); simpl; [|eauto].
    destruct (isNetworkError err); [|eauto]. apply IH. lia.
Qed.

Lemma readBottleReplies_rec_total fuel env id k st :
  (2 - k < fuel)%nat → is_Some (readBottleReplies_rec fuel env id k st).
Proof.
  revert k st. induction fuel as [|fuel IH]; intros k st Hf; simpl; [lia|].
  destruct (id <=? 0); [eauto|].
  destruct (negb (bool_decide _)); [eauto|].
  destruct (_ || _); [eauto|].
  destruct (cacheLookup _ _ st) as [[d|] st1]; [eauto|].
  destruct (getBottleReplies env id k) as [[|rid rids]|err]; [eauto..|].
  destruct (Nat.ltb_spec k 2); simpl; [|eauto].
  destruct (isNetworkError err); [|eauto]. apply IH. lia.
Qed.

Lemma run_call_cache (c : Call Raw RawReply VB VR D DR) st :
  (length (bottleDataCache st) ≤ 100)%nat →
  (length (bottleDataCache (run_call c st)) ≤ 100)%nat.
Proof.
  intros Hst. destruct c as [env id|env id|ms]; simpl; [| |done].
  - unfold readBottleData.
    destruct (readBottleData_rec _ _ _ _ _) as [[r st']|] eqn:Hr; [|done].
    by eapply readBottleData_rec_cache.
  - unfold readBottleReplies.
    destruct (readBottleReplies_rec _ _ _ _ _) as [[r st']|] eqn:Hr; [|done].
    by eapply readBottleReplies_rec_cache.
Qed.

(** C10.  [bottleDataCache] never holds more than 100 entries: it is
    empty when the hook is mounted; whatever sequence of
    [readBottleData] and [readBottleReplies] calls the page makes, a
    cache within the bound stays within the bound; and an insertion into
    a cache that already holds 100 entries (or more) first deletes the
    oldest entry, the first key in insertion order, which is therefore
    gone afterwards unless it is the key being set. *)
Theorem bottleDataCache_never_exceeds_100 :
  (∀ t, bottleDataCache (@initial D DR t) = []) ∧
  (∀ (calls : list (Call Raw RawReply VB VR D DR)) st,
      (length (bottleDataCache st) ≤ 100)%nat →
      (length (bottleDataCache (run_calls calls st)) ≤ 100)%nat) ∧
  (∀ (k firstKey : string) (v v0 : CacheEntry (Cached D DR)) rest,
      (100 ≤ length ((firstKey, v0) :: rest))%nat →
      cache_set k v ((firstKey, v0) :: rest)
        = originalSet k v (map_delete firstKey ((firstKey, v0) :: rest)) ∧
      (k ≠ firstKey → map_has firstKey (cache_set k v ((firstKey, v0) :: rest)) = false)).
Proof.
  split_and!.
  - done.
  - intros calls. unfold run_calls.
    induction calls as [|c calls IH]; intros st Hst; simpl; [done|].
    apply IH. by apply run_call_cache.
  - intros k k0 v v0 rest Hfull.
    assert (cache_set k v ((k0, v0) :: rest)
            = originalSet k v (map_delete k0 ((k0, v0) :: rest))) as Heq.
    { unfold cache_set, MAX_CACHE_SIZE.
      destruct (Z.geb_spec (Z.of_nat (length ((k0, v0) :: rest))) 100); [done|lia]. }
    split; [done|]. intros Hne. rewrite Heq.
    rewrite map_has_originalSet_ne by done. apply map_has_delete.
Qed.

End HookCacheFacts.

(** ** Retries of the contract reads *)

Section HookRetryFacts.
Import Hook.
Context {Raw RawReply VB VR D DR : Type}.
Abbreviation Env' := (Hook.Env Raw RawReply VB VR D DR).
Abbreviation State' := (Hook.State D DR).
Implicit Types (env : Env') (st : State').

Lemma cacheLookup_effects ck ttl st o st' :
  cacheLookup ck ttl st = (o, st') → effects st' = effects st ∧ now st' = now st.
Proof.
  unfold cacheLookup. destruct (map_has _ _); [|by intros [= _ <-]].
  destruct (map_get _ _) as [c|]; [destruct (_ && _)|]; by intros [= _ <-].
Qed.

Lemma timersOf_app l1 l2 : timersOf (l1 ++ l2) = timersOf l1 ++ timersOf l2.
Proof. apply omap_app. Qed.

Lemma readsOf_app l1 l2 : readsOf (l1 ++ l2) = readsOf l1 ++ readsOf l2.
Proof. apply List.filter_app. Qed.

(** What one call adds to the effect log: [n] timers, with the delays
    of the retries [k], ..., [k+n-1], each after a read that failed with
    a network error, and at most [n+1] reads. *)
Lemma readBottleData_rec_trace fuel env id k st res st' :
  readBottleData_rec fuel env id k st = Some (res, st') →
  ∃ added n,
    effects st' = effects st ++ added ∧
    (n = 0 ∨ k + n ≤ 3)%nat ∧
    timersOf added = map (fun j => Z.min (2 ^ Z.of_nat j * 1000) 8000) (seq k n) ∧
    (length (readsOf added) ≤ n + 1)%nat ∧
    (∀ j, (k ≤ j < k + n)%nat →
          ∃ err, getBottle env id j = Throw err ∧
                 isNetworkError err = true ∧ isContractRevert err = false).
Proof.
  revert k st. induction fuel as [|fuel IH]; intros k st; simpl; [done|].
  assert (∀ st0 : State', st0 = st →
            ∃ added n, effects st0 = effects st ++ added ∧ (n = 0 ∨ k + n ≤ 3)%nat ∧
              timersOf added = map (fun j => Z.min (2 ^ Z.of_nat j * 1000) 8000) (seq k n) ∧
              (length (readsOf added) ≤ n + 1)%nat ∧
              (∀ j, (k ≤ j < k + n)%nat →
                 ∃ err, getBottle env id j = Throw err ∧
                        isNetworkError err = true ∧ isContractRevert err = false)) as Hnone.
  { intros st0 ->. exists [], 0%nat. rewrite app_nil_r. split_and!; auto; simpl; [lia|].
    intros j ?; lia. }
  destruct (id <=? 0); [intros [= _ <-]; by apply Hnone|].
  destruct (negb (bool_decide _)); [intros [= _ <-]; by apply Hnone|].
  destruct (_ || _); [intros [= _ <-]; by apply Hnone|].
  destruct (cacheLookup _ _ st) as [o st1] eqn:Hl.
  apply cacheLookup_effects in Hl as [Hl _].
  destruct o.
  { intros [= _ <-]. exists [], 0%nat. rewrite app_nil_r. split_and!; auto; simpl; [lia|].
    intros j ?; lia. }
  assert (∀ st2 : State',
            effects st2 = effects st ++ [ReadContract "getBottle" [ArgUint id]] →
            ∃ added n, effects st2 = effects st ++ added ∧ (n = 0 ∨ k + n ≤ 3)%nat ∧
              timersOf added = map (fun j => Z.min (2 ^ Z.of_nat j * 1000) 8000) (seq k n) ∧
              (length (readsOf added) ≤ n + 1)%nat ∧
              (∀ j, (k ≤ j < k + n)%nat →
                 ∃ err, getBottle env id j = Throw err ∧
                        isNetworkError err = true ∧ isContractRevert err = false)) as Hone.
  { intros st2 Hst2. exists [ReadContract "getBottle" [ArgUint id]], 0%nat.
    split_and!; auto. intros j ?; lia. }
  destruct (getBottle env id k) as [[raw|]|err] eqn:Hget.
  - destruct (validateBottleData env raw); intros [= _ <-]; apply Hone; simpl;
      by rewrite Hl.
  - intros [= _ <-]; apply Hone; simpl; by rewrite Hl.
  - destruct (isContractRevert err) eqn:Hrev;
      [intros [= _ <-]; apply Hone; simpl; by rewrite Hl|].
    destruct (Nat.ltb_spec k 3) as [Hk|Hk]; simpl;
      [|intros [= _ <-]; apply Hone; simpl; by rewrite Hl].
    destruct (isNetworkError err) eqn:Hnet;
      [|intros [= _ <-]; apply Hone; simpl; by rewrite Hl].
    intros Hrec. apply IH in Hrec as (added & n & He & Hn & Ht & Hr & Herr).
    simpl in He. rewrite Hl in He.
    exists ([ReadContract "getBottle" [ArgUint id];
             SetTimeout (Z.min (2 ^ Z.of_nat k * 1000) 8000)] ++ added), (S n).
    split_and!.
    + rewrite He. by rewrite <- !app_assoc.
    + right. lia.
    + rewrite timersOf_app, Ht. simpl. by rewrite Nat.add_1_r.
    + rewrite readsOf_app, length_app. simpl. lia.
    + intros j Hj. destruct (decide (j = k)) as [->|Hne]; [eauto|].
      apply Herr. lia.
Qed.

(** C8.  [readBottleData] called as the page calls it (retry count 0):
    (1) it returns, having set [n ≤ 3] timers, of 1 s, 2 s and 4 s in
    this order, and made at most [n + 1 ≤ 4] contract reads; each of
    the [n] retries follows a read that failed with an error classified
    as a network error (and not as a contract revert).
    (2) An attempt whose read fails with an error that is not a network
    error, or is a contract revert, or that is already the third retry,
    returns [null], and that read is the last thing the call does.
    (3) An attempt before the third retry whose read fails with a
    network error waits [min(2^k * 1000, 8000)] ms and goes on as
    attempt [k + 1]. *)
Theorem readBottleData_retries_are_bounded env (bottleId : Z) st :
  (∃ res st' added n,
      readBottleData env bottleId 0 st = Some (res, st') ∧
      effects st' = effects st ++ added ∧
      (n ≤ 3)%nat ∧
      timersOf added = take n [1000; 2000; 4000] ∧
      (length (readsOf added) ≤ n + 1)%nat ∧
      (∀ j, (j < n)%nat →
            ∃ err, getBottle env bottleId j = Throw err ∧
                   isNetworkError err = true ∧ isContractRevert err = false)) ∧
  (∀ k st1 err,
      0 < bottleId →
      is_Some (DRIFT_BOTTLE_CONTRACT_ADDRESS env) →
      actuallyConnected (account env) = true → connectionStable env = true →
      cacheLookup ("bottle_" +:+ pretty bottleId) (5 * 60 * 1000) st = (None, st1) →
      getBottle env bottleId k = Throw err →
      (isNetworkError err = false ∨ isContractRevert err = true ∨ (3 ≤ k)%nat →
         readBottleData env bottleId k st
           = Some (None, emit (ReadContract "getBottle" [ArgUint bottleId]) st1)) ∧
      (isNetworkError err = true → isContractRevert err = false → (k < 3)%nat →
         readBottleData env bottleId k st
           = readBottleData env bottleId (k + 1)
               (advance (Z.min (2 ^ Z.of_nat k * 1000) 8000)
                  (emit (SetTimeout (Z.min (2 ^ Z.of_nat k * 1000) 8000))
                     (emit (ReadContract "getBottle" [ArgUint bottleId]) st1))))).
Proof.
  split.
  - destruct (readBottleData_rec_total 4 env bottleId 0 st) as [[res st'] Hr]; [lia|].
    destruct (readBottleData_rec_trace _ _ _ _ _ _ _ Hr) as (added & n & He & Hn & Ht & Hl & Herr).
    exists res, st', added, n. split_and!; [done|done|lia| |done|].
    + rewrite Ht. destruct Hn as [->|Hn]; [done|].
      destruct n as [|[|[|[|n]]]]; [done..|simpl in Hn; lia].
    + intros j Hj. apply Herr. lia.
  - intros k st1 err Hid Hcfg Hconn Hstable Hlook Hget.
    assert (∀ fuel, readBottleData_rec (S fuel) env bottleId k st =
              if isContractRevert err
              then Some (None, emit (ReadContract "getBottle" [ArgUint bottleId]) st1)
              else if (k <? 3)%nat && isNetworkError err
                   then readBottleData_rec fuel env bottleId (k + 1)
                          (advance (Z.min (2 ^ Z.of_nat k * 1000) 8000)
                             (emit (SetTimeout (Z.min (2 ^ Z.of_nat k * 1000) 8000))
                                (emit (ReadContract "getBottle" [ArgUint bottleId]) st1)))
                   else Some (None, emit (ReadContract "getBottle" [ArgUint bottleId]) st1))
      as Hstep.
    { intros fuel. simpl.
      destruct (Z.leb_spec bottleId 0); [lia|].
      rewrite (bool_decide_eq_true_2 _ Hcfg), Hconn, Hstable. simpl.
      by rewrite Hlook, Hget. }
    split.
    + intros Hwhy. unfold readBottleData. rewrite Hstep.
      destruct (isContractRevert err); [done|].
      destruct (Nat.ltb_spec k 3); simpl; [|done].
      destruct (isNetworkError err); [|done].
      destruct Hwhy as [?|[?|?]]; [done|done|lia].
    + intros Hnet Hrev Hk. unfold readBottleData. rewrite Hstep, Hrev, Hnet.
      replace (k <? 3)%nat with true by (symmetry; apply Nat.ltb_lt; lia).
      cbn [andb]. by replace (S (3 - (k + 1))) with (3 - k)%nat by lia.
Qed.

End HookRetryFacts.

(** ** Two sessions of the hook, run *)

Section HookScenarios.
Import Hook Security.

Definition wallet : Account :=
  {| address := Some "0x00000000000000000000000000000000000000aa";
     isConnected := true; isConnecting := false; isReconnecting := false;
     status := connected |}.

Definition network_down : JsError :=
  {| message := "network request failed"; code := None;
     asString := "Error: network request failed" |}.

(** A connected wallet in front of a chain that answers [getBottle] as
    [answer] says; bottles are numbers here, and every one is valid. *)
Definition session (answer : Z → nat → Outcome JsError (option Z)) : Env Z Z Z Z Z Z :=
  {| account := wallet;
     connectionStable := true;
     DRIFT_BOTTLE_CONTRACT_ADDRESS := Some "0x00000000000000000000000000000000000000cc";
     engine := letters_engine;
     validateBottleData := Some;
     validateReplyDataArray := fun l => l;
     sanitizeForDisplay := fun b => b;
     sanitizeReplyForDisplay := fun r => r;
     writeContract := fun _ _ => None;
     getBottle := answer;
     getBottleReplies := fun _ _ => Ret [];
     getReply := fun _ => Ret None |}.

Definition offline : Env Z Z Z Z Z Z := session (fun _ _ => Throw network_down).
Definition online : Env Z Z Z Z Z Z := session (fun bottleId _ => Ret (Some bottleId)).

(** The fourth attempt on a dead network gives up at once. *)
Lemma readBottleData_retries_are_bounded_witness :
  readBottleData offline 7 3 (initial 0)
    = Some (None, emit (ReadContract "getBottle" [ArgUint 7]) (initial 0)).
Proof.
  destruct (readBottleData_retries_are_bounded offline 7 (initial 0)) as [_ H].
  destruct (H 3%nat (initial 0) network_down) as [H1 _];
    [lia | by eexists | reflexivity | reflexivity | reflexivity | reflexivity |].
  apply H1. right; right. lia.
Defined.

(** A whole call on a dead network: four reads, 1 s, 2 s and 4 s apart. *)
Example readBottleData_offline :
  ∃ st', readBottleData offline 7 0 (initial 0) = Some (None, st') ∧
         effects st' = [ReadContract "getBottle" [ArgUint 7]; SetTimeout 1000;
                        ReadContract "getBottle" [ArgUint 7]; SetTimeout 2000;
                        ReadContract "getBottle" [ArgUint 7]; SetTimeout 4000;
                        ReadContract "getBottle" [ArgUint 7]] ∧
         now st' = 7000.
Proof. eexists. split_and!; vm_compute; reflexivity. Qed.

(** Reading bottles 1 to 101, each for the first time. *)
Definition hundred_and_one : list (Call Z Z Z Z Z Z) :=
  map (fun i => CallReadBottleData online (Z.of_nat i)) (seq 1 101).

Lemma bottleDataCache_never_exceeds_100_witness :
  (length (bottleDataCache (run_calls hundred_and_one (initial 0))) ≤ 100)%nat.
Proof.
  destruct (@bottleDataCache_never_exceeds_100 Z Z Z Z Z Z) as (_ & H & _).
  apply H. simpl. lia.
Defined.

(** The cache is then full, bottle 1 is the one that went, and bottle 2
    is the oldest left. *)
Example bottleDataCache_after_101 :
  length (bottleDataCache (run_calls hundred_and_one (initial 0))) = 100%nat ∧
  map_has "bottle_1" (bottleDataCache (run_calls hundred_and_one (initial 0))) = false ∧
  fst <$> head (bottleDataCache (run_calls hundred_and_one (initial 0))) = Some "bottle_2".
Proof. split_and!; vm_compute; reflexivity. Qed.

End HookScenarios.

(** ** The rate limiter *)

Section RateLimiterFacts.
Import Security.
Variables (identifier : string) (maxAttempts windowMs : Z).

(** The attempts on record that still count at time [t]. *)
Local Abbreviation recent t l := (filter (fun a : Z => t - windowMs < a) l).
Local Abbreviation within t l := (filter (fun a : Z => t - windowMs < a ∧ a ≤ t) l).

Lemma filter_length_mono (P Q : Z → Prop) `{!∀ x, Decision (P x)} `{!∀ x, Decision (Q x)}
    (l : list Z) :
  (∀ x, x ∈ l → P x → Q x) → (length (filter P l) ≤ length (filter Q l))%nat.
Proof.
  induction l as [|x l IH]; intros HPQ; [done|].
  rewrite !filter_cons.
  assert (∀ y, y ∈ l → P y → Q y) as HPQ' by (intros y Hy; apply HPQ; by right).
  specialize (IH HPQ').
  destruct (decide (P x)) as [HP|HP].
  - rewrite decide_True by (apply HPQ; [by left|done]). simpl. lia.
  - destruct (decide (Q x)); simpl; lia.
Qed.

Lemma recent_recent t t' (l : list Z) : t ≤ t' → recent t' (recent t l) = recent t' l.
Proof.
  intros Ht. rewrite list_filter_filter. apply list_filter_iff. intros x. lia.
Qed.

(** What one call does, read off the code. *)
Lemma isAllowed_spec now (attempts : gmap string (list Z)) :
  isAllowed identifier maxAttempts windowMs now attempts =
    (bool_decide (Z.of_nat (length (recent now (default [] (attempts !! identifier))))
                  < maxAttempts),
     (isAllowed identifier maxAttempts windowMs now attempts).2) ∧
  default [] ((isAllowed identifier maxAttempts windowMs now attempts).2 !! identifier) =
    recent now (default [] (attempts !! identifier))
    ++ (if bool_decide (Z.of_nat (length (recent now (default [] (attempts !! identifier))))
                        < maxAttempts)
        then [now] else []).
Proof.
  unfold isAllowed.
  set (att1 := match attempts !! identifier with
               | Some _ => attempts | None => <[identifier:=[]]> attempts end).
  assert (default [] (att1 !! identifier) = default [] (attempts !! identifier)) as ->.
  { unfold att1. destruct (attempts !! identifier) eqn:Hl; [by rewrite Hl|].
    by rewrite lookup_insert_eq. }
  set (valid := recent now (default [] (attempts !! identifier))).
  destruct (Z.geb_spec (Z.of_nat (length valid)) maxAttempts) as [Hfull|Hroom].
  - rewrite bool_decide_eq_false_2 by lia. simpl.
    rewrite lookup_insert_eq. simpl. by rewrite app_nil_r.
  - rewrite bool_decide_eq_true_2 by lia. simpl.
    by rewrite lookup_insert_eq.
Qed.

(** A call on one identifier leaves the record of every other alone. *)
Lemma isAllowed_other other now (attempts : gmap string (list Z)) :
  other ≠ identifier →
  default [] ((isAllowed identifier maxAttempts windowMs now attempts).2 !! other)
    = default [] (attempts !! other).
Proof.
  intros Hne. unfold isAllowed.
  destruct (attempts !! identifier) eqn:Hl;
    destruct (_ >=? _); simpl; by rewrite ?lookup_insert_ne by done.
Qed.

(** The record agrees with the history [H] of allowed calls on all that
    matters from time [τ] on, and no window holds too many of them. *)
Definition tracks (τ : Z) (H : list Z) (attempts : gmap string (list Z)) : Prop :=
  (∀ a, a ∈ H → a ≤ τ) ∧
  (∀ t, τ ≤ t → recent t (default [] (attempts !! identifier)) = recent t H) ∧
  (∀ t, Z.of_nat (length (within t H)) ≤ maxAttempts).

Lemma tracks_step τ H attempts now :
  tracks τ H attempts → τ ≤ now →
  tracks now
    (H ++ (if (isAllowed identifier maxAttempts windowMs now attempts).1 then [now] else []))
    (isAllowed identifier maxAttempts windowMs now attempts).2.
Proof.
  intros (Hle & Hrec & Hwin) Hnow.
  destruct (isAllowed_spec now attempts) as [Hres Hatt].
  rewrite Hres at 1. simpl. rewrite (Hrec now Hnow) in *.
  case_bool_decide as Hroom; simpl in *.
  - split_and!.
    + intros a [Ha| ->%list_elem_of_singleton]%elem_of_app; [|lia].
      specialize (Hle a Ha). lia.
    + intros t Ht. rewrite Hatt, !filter_app. f_equal. by apply recent_recent.
    + intros t. rewrite filter_app, length_app, filter_cons, filter_nil.
      destruct (decide (t - windowMs < now ∧ now ≤ t)) as [Hin|Hout]; simpl.
      * assert (length (within t H) ≤ length (recent now H))%nat
          by (apply filter_length_mono; intros x _; lia).
        lia.
      * specialize (Hwin t). lia.
  - rewrite app_nil_r in *. split_and!.
    + intros a Ha. specialize (Hle a Ha). lia.
    + intros t Ht. rewrite Hatt. by apply recent_recent.
    + done.
Qed.

Lemma tracks_later τ τ' H (attempts : gmap string (list Z)) :
  tracks τ H attempts → τ ≤ τ' → tracks τ' H attempts.
Proof.
  intros (Hle & Hrec & Hwin) Hτ. split_and!; [|intros t ?; apply Hrec; lia|done].
  intros a Ha. specialize (Hle a Ha). lia.
Qed.

Lemma tracks_allowedTimes times : ∀ τ H attempts,
  tracks τ H attempts → Sorted Z.le (τ :: times) →
  ∀ t, Z.of_nat (length (within t
         (H ++ allowedTimes identifier maxAttempts windowMs times attempts))) ≤ maxAttempts.
Proof.
  induction times as [|now times IH]; intros τ H attempts Htr Hs; simpl.
  - rewrite app_nil_r. apply Htr.
  - apply Sorted_inv in Hs as [Hs Hnow]. apply HdRel_inv in Hnow.
    pose proof (tracks_step τ H attempts now Htr Hnow) as Htr'.
    destruct (isAllowed identifier maxAttempts windowMs now attempts) as [ok att'].
    simpl in Htr'. rewrite app_assoc. by apply (IH now).
Qed.

End RateLimiterFacts.

Section HookRateLimitClaims.
Import Security Hook.
Context {Raw RawReply VB VR D DR : Type}.
Implicit Types (env : Hook.Env Raw RawReply VB VR D DR) (st : Hook.State D DR).


(** The decision of the limiter, and the record it leaves, in the
    shape the three actions use it. *)
Lemma isAllowed_cases identifier maxAttempts now (attempts : gmap string (list Z)) :
  let seen := filter (fun a : Z => now - 60000 < a) (default [] (attempts !! identifier)) in
  ∃ att',
    isAllowed identifier maxAttempts 60000 now attempts
      = (bool_decide (Z.of_nat (length seen) < maxAttempts), att') ∧
    default [] (att' !! identifier)
      = seen ++ (if bool_decide (Z.of_nat (length seen) < maxAttempts) then [now] else []).
Proof.
  intros seen. destruct (isAllowed_spec identifier maxAttempts 60000 now attempts) as [H1 H2].
  eexists. split; [exact H1|exact H2].
Qed.

Lemma length_string_app (s t : string) :
  String.length (s +:+ t) = (String.length s + String.length t)%nat.
Proof. induction s as [|c s IH]; simpl; [done|]. by rewrite IH. Qed.

Lemma string_app_inj (a a' s s' : string) :
  String.length a = String.length a' → a +:+ s = a' +:+ s' → a = a' ∧ s = s'.
Proof.
  revert a'. induction a as [|c a IH]; intros [|c' a'].
  - intros _ Heq. split; [done|exact Heq].
  - done.
  - done.
  - change (String.length (String c a) = String.length (String c' a') →
            String c (a +:+ s) = String c' (a' +:+ s') →
            String c a = String c' a' ∧ s = s').
    intros [= Hlen] [= -> Heq]. by destruct (IH a' Hlen Heq) as [-> ->].
Qed.

Lemma string_app_nil (x : string) : x +:+ "" = x.
Proof.
  induction x as [|c x IH]; [done|].
  change (String c (x +:+ "") = String c x). by rewrite IH.
Qed.

(** Two addresses of the same length never share a key, whatever the
    actions. *)
Lemma keyOf_inj (k k' : Limited) (a a' : string) :
  String.length a = String.length a' → keyOf k a = keyOf k' a' → k = k' ∧ a = a'.
Proof.
  intros Hlen Heq.
  assert (keyOf k a = a +:+ match k with sends => "" | replies => "_reply" | skips => "_skip" end)
    as Hk by (destruct k; simpl; [by rewrite string_app_nil|done..]).
  assert (keyOf k' a' = a' +:+ match k' with sends => "" | replies => "_reply" | skips => "_skip" end)
    as Hk' by (destruct k'; simpl; [by rewrite string_app_nil|done..]).
  rewrite Hk, Hk' in Heq. apply string_app_inj in Heq as [-> Hs]; [|done].
  split; [|done]. by destruct k, k'.
Qed.

(** The wallet of a connected account has an address of 42
    characters, and that is the caller the limiter counts under. *)
Lemma actuallyConnected_caller (a : Account) :
  actuallyConnected a = true →
  address a = Some (addressOrAnonymous a) ∧ String.length (addressOrAnonymous a) = 42%nat.
Proof.
  unfold actuallyConnected, addressOrAnonymous.
  destruct (address a) as [s|]; [|done].
  intros H. apply andb_true_iff in H as [H _]. apply andb_true_iff in H as [H _].
  apply andb_true_iff in H as [H Hlen]. apply andb_true_iff in H as [Hne _].
  apply Nat.eqb_eq in Hlen. by destruct (bool_decide (s = "")).
Qed.

(** What a call of an action does to the limiter and to the clock.
    Either it does not come as far as the limiter and changes nothing;
    or it asks the limiter, under the key of its kind and caller, once,
    leaves the record the limiter leaves, and issues something only when
    it has been let through. *)
Definition limited (k : Limited) (who : string) st
    (r_st : Outcome HookError () * Hook.State D DR) : Prop :=
  (askedLimiter r_st.1 = false ∧ admitted r_st.1 = false ∧ r_st.2 = st) ∨
  (String.length who = 42%nat ∧ askedLimiter r_st.1 = true ∧
   now r_st.2 = now st ∧
   attempts r_st.2 = (isAllowed (keyOf k who) (limitOf k) 60000 (now st) (attempts st)).2 ∧
   admitted r_st.1 = (isAllowed (keyOf k who) (limitOf k) 60000 (now st) (attempts st)).1 ∧
   (admitted r_st.1 = false → effects r_st.2 = effects st)).

Lemma sendBottle_limited env content st :
  limited sends (addressOrAnonymous (account env)) st (sendBottle env content st).
Proof.
  unfold limited, sendBottle.
  destruct (actuallyConnected (account env)) eqn:Hconn; [|by left].
  destruct (connectionStable env); [|by left]. cbn [negb orb].
  destruct (negb (bool_decide _)); [by left|]. right.
  destruct (actuallyConnected_caller _ Hconn) as [_ Hlen].
  simpl. destruct (isAllowed _ 5 60000 (now st) (attempts st)) as [ok att]. simpl.
  destruct ok; simpl; [|done].
  destruct (sanitizeBottleContent _ _ _) as [[c|e] li]; simpl; [|done].
  by destruct (writeContract _ _ _).
Qed.

Lemma replyToBottle_limited env bottleId content st :
  limited replies (addressOrAnonymous (account env)) st (replyToBottle env bottleId content st).
Proof.
  unfold limited, replyToBottle.
  destruct (actuallyConnected (account env)) eqn:Hconn; [|by left].
  destruct (connectionStable env); [|by left]. cbn [negb orb].
  destruct (negb (bool_decide _)); [by left|].
  destruct (negb (validateBottleId bottleId)); [by left|]. right.
  destruct (actuallyConnected_caller _ Hconn) as [_ Hlen].
  simpl. destruct (isAllowed _ 10 60000 (now st) (attempts st)) as [ok att]. simpl.
  destruct ok; simpl; [|done].
  destruct (sanitizeReplyContent _ _ _) as [[c|e] li]; simpl; [|done].
  by destruct (writeContract _ _ _).
Qed.

Lemma skipBottle_limited env bottleId st :
  limited skips (addressOrAnonymous (account env)) st (skipBottle env bottleId st).
Proof.
  unfold limited, skipBottle.
  destruct (actuallyConnected (account env)) eqn:Hconn; [|by left].
  destruct (connectionStable env); [|by left]. cbn [negb orb].
  destruct (negb (bool_decide _)); [by left|].
  destruct (negb (validateBottleId bottleId)); [by left|]. right.
  destruct (actuallyConnected_caller _ Hconn) as [_ Hlen].
  simpl. destruct (isAllowed _ 20 60000 (now st) (attempts st)) as [ok att]. simpl.
  destruct ok; simpl; [|done].
  by destruct (writeContract _ _ _).
Qed.


(** The times of the calls of action [k] under the address [who] that
    the limiter let through. *)
Definition admittedTimes (k : Limited) (who : string) (log : list Attempt) : list Z :=
  madeAt <$> filter (fun x => action x = k ∧ caller x = who ∧ admitted (outcome x) = true) log.

Lemma length_filter_fmap_filter {A B} (f : A → B) (P : A → Prop) (Q : B → Prop)
    `{!∀ x, Decision (P x)} `{!∀ y, Decision (Q y)} (l : list A) :
  length (filter Q (f <$> filter P l)) = length (filter (fun x => P x ∧ Q (f x)) l).
Proof.
  induction l as [|x l IH]; [done|].
  rewrite !filter_cons. destruct (decide (P x)) as [HP|HP].
  - rewrite fmap_cons, filter_cons. destruct (decide (Q (f x))) as [HQ|HQ].
    + rewrite decide_True by done. simpl. by rewrite IH.
    + rewrite decide_False by tauto. done.
  - rewrite decide_False by tauto. done.
Qed.

Lemma filter_none {A} (P : A → Prop) `{!∀ x, Decision (P x)} (l : list A) :
  (∀ x, x ∈ l → ¬ P x) → filter P l = [].
Proof.
  induction l as [|x l IH]; intros Hl; [done|].
  rewrite filter_cons, decide_False by (apply Hl; by left).
  apply IH. intros y Hy. apply Hl. by right.
Qed.

(** What holds of the record of a session and the state it has
    reached: the calls let through were made by connected wallets, and
    under every key the limiter's record agrees with the calls it let
    through. *)
Definition session_ok (log : list Attempt) st : Prop :=
  (∀ x, x ∈ log → admitted (outcome x) = true → String.length (caller x) = 42%nat) ∧
  (∀ k who, String.length who = 42%nat →
     tracks (keyOf k who) (limitOf k) 60000 (now st) (admittedTimes k who log) (attempts st)).

Lemma tracks_same_record identifier maxAttempts windowMs τ H
    (attempts attempts' : gmap string (list Z)) :
  default [] (attempts' !! identifier) = default [] (attempts !! identifier) →
  tracks identifier maxAttempts windowMs τ H attempts →
  tracks identifier maxAttempts windowMs τ H attempts'.
Proof. intros Heq (? & Hrec & ?). split_and!; [done| |done]. intros t Ht. rewrite Heq. by apply Hrec. Qed.

Lemma admittedTimes_snoc k who log x :
  admittedTimes k who (log ++ [x])
  = admittedTimes k who log
    ++ (if decide (action x = k ∧ caller x = who ∧ admitted (outcome x) = true)
        then [madeAt x] else []).
Proof.
  unfold admittedTimes. rewrite filter_app, fmap_app, filter_cons, filter_nil.
  by destruct (decide _).
Qed.

Lemma session_ok_initial t0 : session_ok [] (initial t0).
Proof.
  split; [by intros x ?%elem_of_nil|]. intros k who _.
  split_and!; [by intros a ?%elem_of_nil|done|].
  intros t. simpl. by destruct k.
Qed.

Lemma session_ok_attempt k who (run : Hook.State D DR → Outcome HookError () * Hook.State D DR)
    log st x :
  session_ok log st →
  limited k who st (run st) →
  madeAt x = now st → action x = k → caller x = who → outcome x = (run st).1 →
  session_ok (log ++ [x]) (run st).2.
Proof.
  intros [Hlen Htr] Hlim Hat Hk Hwho Hout. split.
  - intros y [Hy| ->%list_elem_of_singleton]%elem_of_app Hadm; [by apply Hlen|].
    rewrite Hout in Hadm. destruct Hlim as [(_ & Hno & _)|(Hl & _)]; [congruence|].
    by rewrite Hwho.
  - intros k' who' Hlen'. rewrite admittedTimes_snoc.
    destruct Hlim as [(_ & Hno & ->)|(Hl & _ & Hnow & Hatt & Hadm & _)].
    + rewrite decide_False by (rewrite Hout; intros (_ & _ & ?); congruence).
      rewrite app_nil_r. by apply Htr.
    + destruct (decide (k' = k ∧ who' = who)) as [[-> ->]|Hne].
      * rewrite Hnow, Hatt.
        replace (if decide _ then [madeAt x] else [])
          with (if (isAllowed (keyOf k who) (limitOf k) 60000 (now st) (attempts st)).1
                then [now st] else []).
        { apply (tracks_step _ _ _ (now st)); [by apply Htr|lia]. }
        rewrite <- Hadm, <- Hout, Hat.
        destruct (admitted (outcome x)) eqn:Ha.
        -- by rewrite decide_True.
        -- rewrite decide_False; [done|]. intros (_ & _ & ?). congruence.
      * rewrite decide_False by (rewrite Hk, Hwho; intros (<- & <- & _); by apply Hne).
        rewrite app_nil_r, Hnow.
        eapply tracks_same_record; [|by apply Htr].
        rewrite Hatt. apply isAllowed_other.
        intros Heq. apply keyOf_inj in Heq as [-> ->]; [by apply Hne|congruence].
Qed.

Lemma run_session_snoc (actions : list (UserAction Raw RawReply VB VR D DR)) a st :
  run_session (actions ++ [a]) st
  = ((run_session actions st).1 ++ (perform a (run_session actions st).2).1,
     (perform a (run_session actions st).2).2).
Proof. unfold run_session. by rewrite fold_left_app. Qed.

Lemma session_ok_perform (a : UserAction Raw RawReply VB VR D DR) log st :
  session_ok log st → session_ok (log ++ (perform a st).1) (perform a st).2.
Proof.
  intros Hok. destruct a as [env content|env bottleId content|env bottleId|ms]; simpl.
  - by eapply session_ok_attempt; [|apply sendBottle_limited|..].
  - by eapply session_ok_attempt; [|apply replyToBottle_limited|..].
  - by eapply session_ok_attempt; [|apply skipBottle_limited|..].
  - rewrite app_nil_r. destruct Hok as [Hlen Htr]. split; [done|].
    intros k who Hw. eapply tracks_later; [by apply Htr|]. simpl. lia.
Qed.

Lemma session_ok_run (actions : list (UserAction Raw RawReply VB VR D DR)) t0 :
  session_ok (run_session actions (initial t0)).1 (run_session actions (initial t0)).2.
Proof.
  induction actions as [|a actions IH] using rev_ind; [apply session_ok_initial|].
  rewrite run_session_snoc. simpl. by apply session_ok_perform.
Qed.

(** What a call that the limiter does not let through issues: nothing. *)
Lemma perform_issues_nothing (a : UserAction Raw RawReply VB VR D DR) st x :
  x ∈ (perform a st).1 → admitted (outcome x) = false → issued x = [].
Proof.
  assert (∀ k who (run : Hook.State D DR → Outcome HookError () * Hook.State D DR) env,
            limited k who st (run st) → x ∈ (attempt k env run st).1 →
            admitted (outcome x) = false → issued x = []) as Hgen.
  { intros k who run env Hlim ->%list_elem_of_singleton. simpl. intros Hno.
    destruct Hlim as [(_ & _ & ->)|(_ & _ & _ & _ & _ & Heff)].
    - by rewrite drop_all.
    - rewrite (Heff Hno). by rewrite drop_all. }
  destruct a as [env content|env bottleId content|env bottleId|ms]; simpl.
  - apply (Hgen _ _ _ env (sendBottle_limited env content st)).
  - apply (Hgen _ _ _ env (replyToBottle_limited env bottleId content st)).
  - apply (Hgen _ _ _ env (skipBottle_limited env bottleId st)).
  - by intros ?%elem_of_nil.
Qed.

(** The verdict of the limiter on a call, by the calls of the session
    so far. *)
Lemma perform_verdict (a : UserAction Raw RawReply VB VR D DR) log st x :
  session_ok log st → x ∈ (perform a st).1 → askedLimiter (outcome x) = true →
  admitted (outcome x)
  = bool_decide
      (Z.of_nat (length (filter (fun y => action y = action x ∧ caller y = caller x ∧
                                          admitted (outcome y) = true ∧
                                          madeAt x - 60000 < madeAt y) log))
       < limitOf (action x)).
Proof.
  intros [Hlen Htr].
  assert (∀ k who (run : Hook.State D DR → Outcome HookError () * Hook.State D DR) env,
            who = addressOrAnonymous (account env) →
            limited k who st (run st) → x ∈ (attempt k env run st).1 →
            askedLimiter (outcome x) = true →
            admitted (outcome x)
            = bool_decide
                (Z.of_nat (length (filter (fun y => action y = action x ∧ caller y = caller x ∧
                                                    admitted (outcome y) = true ∧
                                                    madeAt x - 60000 < madeAt y) log))
                 < limitOf (action x))) as Hgen.
  { intros k who run env -> Hlim ->%list_elem_of_singleton. simpl. intros Hasked.
    destruct Hlim as [(Hno & _)|(Hl & _ & _ & _ & Hadm & _)]; [congruence|].
    rewrite Hadm.
    destruct (isAllowed_spec (keyOf k (addressOrAnonymous (account env))) (limitOf k) 60000
                (now st) (attempts st)) as [Hres _].
    rewrite Hres. simpl.
    destruct (Htr k _ Hl) as (_ & Hrec & _). rewrite (Hrec (now st)) by lia.
    unfold admittedTimes. rewrite length_filter_fmap_filter.
    apply bool_decide_ext.
    match goal with
    | |- Z.of_nat (length (filter ?P1 log)) < _ ↔ Z.of_nat (length (filter ?P2 log)) < _ =>
        rewrite (list_filter_iff P1 P2 log) by (intros y; simpl; tauto)
    end.
    done. }
  destruct a as [env content|env bottleId content|env bottleId|ms]; simpl.
  - apply (Hgen _ _ _ env eq_refl (sendBottle_limited env content st)).
  - apply (Hgen _ _ _ env eq_refl (replyToBottle_limited env bottleId content st)).
  - apply (Hgen _ _ _ env eq_refl (skipBottle_limited env bottleId st)).
  - by intros ?%elem_of_nil.
Qed.


Ltac limiter_cases id max st :=
  let att := fresh "att" in
  let Hia := fresh "Hia" in
  let Hatt := fresh "Hatt" in
  destruct (isAllowed_cases id max (now st) (attempts st)) as (att & Hia & Hatt);
  rewrite Hia; clear Hia.

(** C9.  One call.  With the wallet connected and stable and the
    contract configured, each action asks the limiter before anything
    else can reach the chain, under a key made of the caller's address
    (the wallet has one): [sendBottle] with 5 per 60 s, [replyToBottle]
    with 10 and [skipBottle] with 20 (both once the bottle id is
    valid).  [seen] being the attempts on record under that key in the
    last 60 s: when [seen] has reached the limit the action throws its
    rate-limit error, issues no contract call and leaves [seen] on
    record; when it has not, the action is not refused by the limiter
    and the attempt is added to the record.

    A session.  Whatever the user does from the moment the hook is
    mounted — the three actions in any order, with any arguments, under
    any wallets, at times that do not go back — for each action and
    each address at most 5, 10 and 20 of its calls are let through by
    the limiter in any window of 60 s; a call that is not let through
    issues nothing; and a call that comes as far as the limiter is let
    through exactly when fewer than 5, 10 or 20 calls of that action
    under that address were let through less than 60 s before it. *)
Theorem actions_are_rate_limited env st :
  actuallyConnected (account env) = true →
  connectionStable env = true →
  is_Some (DRIFT_BOTTLE_CONTRACT_ADDRESS env) →
  address (account env) = Some (addressOrAnonymous (account env)) ∧
  (∀ content,
      let key := addressOrAnonymous (account env) in
      let seen := filter (fun a : Z => now st - 60000 < a) (default [] (attempts st !! key)) in
      ∃ r st',
        sendBottle env content st = (r, st') ∧
        ((5 ≤ length seen)%nat →
           r = Throw SEND_RATE_LIMIT ∧ effects st' = effects st ∧
           default [] (attempts st' !! key) = seen) ∧
        ((length seen < 5)%nat →
           (∀ e, r = Throw e → isRateLimitError e = false) ∧
           default [] (attempts st' !! key) = seen ++ [now st])) ∧
  (∀ bottleId content,
      validateBottleId bottleId = true →
      let key := addressOrAnonymous (account env) +:+ "_reply" in
      let seen := filter (fun a : Z => now st - 60000 < a) (default [] (attempts st !! key)) in
      ∃ r st',
        replyToBottle env bottleId content st = (r, st') ∧
        ((10 ≤ length seen)%nat →
           r = Throw REPLY_RATE_LIMIT ∧ effects st' = effects st ∧
           default [] (attempts st' !! key) = seen) ∧
        ((length seen < 10)%nat →
           (∀ e, r = Throw e → isRateLimitError e = false) ∧
           default [] (attempts st' !! key) = seen ++ [now st])) ∧
  (∀ bottleId,
      validateBottleId bottleId = true →
      let key := addressOrAnonymous (account env) +:+ "_skip" in
      let seen := filter (fun a : Z => now st - 60000 < a) (default [] (attempts st !! key)) in
      ∃ r st',
        skipBottle env bottleId st = (r, st') ∧
        ((20 ≤ length seen)%nat →
           r = Throw SKIP_RATE_LIMIT ∧ effects st' = effects st ∧
           default [] (attempts st' !! key) = seen) ∧
        ((length seen < 20)%nat →
           (∀ e, r = Throw e → isRateLimitError e = false) ∧
           default [] (attempts st' !! key) = seen ++ [now st])) ∧
  (∀ (actions : list (UserAction Raw RawReply VB VR D DR)) (t0 : Z),
      let log := (run_session actions (initial t0)).1 in
      (∀ k who t,
         Z.of_nat (length (filter (fun x => action x = k ∧ caller x = who ∧
                                            admitted (outcome x) = true ∧
                                            t - 60000 < madeAt x ≤ t) log))
         ≤ limitOf k) ∧
      (∀ x, x ∈ log → admitted (outcome x) = false → issued x = []) ∧
      (∀ pre x post,
         log = pre ++ x :: post → askedLimiter (outcome x) = true →
         admitted (outcome x)
         = bool_decide
             (Z.of_nat (length (filter (fun y => action y = action x ∧ caller y = caller x ∧
                                                 admitted (outcome y) = true ∧
                                                 madeAt x - 60000 < madeAt y) pre))
              < limitOf (action x)))).
Proof.
  intros Hconn Hstable Hcfg. split_and!.
  - by destruct (actuallyConnected_caller _ Hconn).
  - intros content key seen. subst seen key. unfold sendBottle.
    rewrite Hconn, Hstable, (bool_decide_eq_true_2 _ Hcfg). cbn [negb orb].
    limiter_cases (addressOrAnonymous (account env)) 5 st.
    case_bool_decide as Hroom; simpl.
    + destruct (sanitizeBottleContent _ _ _) as [[c|e] li]; simpl.
      * destruct (writeContract _ _ _); (eexists _, _; split; [done|]);
          (split; [lia|]); intros _; (split; [by intros ? [= <-]|done]).
      * eexists _, _. split; [done|]. split; [lia|]. intros _.
        split; [by intros ? [= <-]|done].
    + eexists _, _. split; [done|]. split; [|lia]. intros _. simpl.
      by rewrite Hatt, app_nil_r.
  - intros bottleId content Hid key seen. subst seen key. unfold replyToBottle.
    rewrite Hconn, Hstable, (bool_decide_eq_true_2 _ Hcfg), Hid. cbn [negb orb].
    limiter_cases (addressOrAnonymous (account env) +:+ "_reply") 10 st.
    case_bool_decide as Hroom; simpl.
    + destruct (sanitizeReplyContent _ _ _) as [[c|e] li]; simpl.
      * destruct (writeContract _ _ _); (eexists _, _; split; [done|]);
          (split; [lia|]); intros _; (split; [by intros ? [= <-]|done]).
      * eexists _, _. split; [done|]. split; [lia|]. intros _.
        split; [by intros ? [= <-]|done].
    + eexists _, _. split; [done|]. split; [|lia]. intros _. simpl.
      by rewrite Hatt, app_nil_r.
  - intros bottleId Hid key seen. subst seen key. unfold skipBottle.
    rewrite Hconn, Hstable, (bool_decide_eq_true_2 _ Hcfg), Hid. cbn [negb orb].
    limiter_cases (addressOrAnonymous (account env) +:+ "_skip") 20 st.
    case_bool_decide as Hroom; simpl.
    + destruct (writeContract _ _ _); (eexists _, _; split; [done|]);
        (split; [lia|]); intros _; (split; [by intros ? [= <-]|done]).
    + eexists _, _. split; [done|]. split; [|lia]. intros _. simpl.
      by rewrite Hatt, app_nil_r.
  - intros actions t0 log. split_and!.
    + intros k who t. destruct (session_ok_run actions t0) as [Hlen Htr]. fold log in Hlen, Htr.
      destruct (decide (String.length who = 42%nat)) as [Hw|Hw].
      * destruct (Htr k who Hw) as (_ & _ & Hwin). specialize (Hwin t).
        unfold admittedTimes in Hwin. rewrite length_filter_fmap_filter in Hwin.
        match goal with
        | _ : Z.of_nat (length (filter ?P1 log)) ≤ _ |- Z.of_nat (length (filter ?P2 log)) ≤ _ =>
            rewrite (list_filter_iff P2 P1 log) by (intros y; simpl; tauto)
        end.
        done.
      * rewrite filter_none; [simpl; by destruct k|].
        intros x Hx (_ & <- & Hadm & _). by apply Hw, Hlen.
    + subst log. induction actions as [|a actions IH] using rev_ind.
      { by intros x ?%elem_of_nil. }
      rewrite run_session_snoc. simpl.
      intros x [Hx|Hx]%elem_of_app; [by apply IH|]. by eapply perform_issues_nothing.
    + subst log. induction actions as [|a actions IH] using rev_ind.
      { intros pre x post Heq. by destruct pre. }
      rewrite run_session_snoc. simpl. intros pre x post Heq Hasked.
      pose proof (session_ok_run actions t0) as Hok.
      destruct (perform a (run_session actions (initial t0)).2).1 as [|x' new] eqn:Hnew.
      { rewrite app_nil_r in Heq. by eapply IH. }
      assert (new = []) as -> by (destruct a; simpl in Hnew; congruence).
      destruct post as [|y post _] using rev_ind.
      * apply app_inj_tail in Heq as [<- <-].
        apply (perform_verdict a _ (run_session actions (initial t0)).2); [done| |done].
        rewrite Hnew. by left.
      * change (pre ++ x :: post ++ [y]) with (pre ++ (x :: post) ++ [y]) in Heq.
        rewrite app_assoc in Heq. apply app_inj_tail in Heq as [Heq _]. by eapply IH.
Qed.


End HookRateLimitClaims.

Section HookRateLimitScenarios.
Import Security Hook.

(** Five sends on record in the last six seconds. *)
Definition busy : State Z Z :=
  mkState 6000
    {[ "0x00000000000000000000000000000000000000aa" := [1000; 2000; 3000; 4000; 5000] ]}
    [] false [] [].

(** A sixth send within the minute is refused and leaves the record as
    it is; and in a session of six sends in a row from the start, the
    limiter lets the first five through. *)
Lemma actions_are_rate_limited_witness :
  (∃ st', sendBottle online [104; 105]%N busy = (Throw SEND_RATE_LIMIT, st') ∧
          effects st' = [] ∧
          attempts st' !! "0x00000000000000000000000000000000000000aa"
          = Some [1000; 2000; 3000; 4000; 5000]) ∧
  (admitted ∘ outcome <$>
     (run_session (repeat (DoSendBottle online [104; 105]%N) 6) (initial 0)).1)
  = [true; true; true; true; true; false].
Proof.
  destruct (actions_are_rate_limited online busy) as (_ & H & _);
    [reflexivity | reflexivity | by eexists |].
  split.
  - destruct (H [104; 105]%N) as (r & st' & Hrun & Hfull & _).
    destruct Hfull as (-> & Heff & _); [vm_compute; lia|].
    exists st'. split; [exact Hrun|]. split; [exact Heff|].
    vm_compute in Hrun. injection Hrun as <-. reflexivity.
  - vm_compute. reflexivity.
Defined.

(** Six sends in a row: five reach the contract, the sixth is refused;
    a minute later the next one goes through again. *)
Definition send_hi (st : State Z Z) : State Z Z :=
  (sendBottle online [104; 105]%N st).2.

Example sendBottle_six_in_a_row :
  length (writesOf (effects (Nat.iter 5 send_hi (initial 0)))) = 5%nat ∧
  (sendBottle online [104; 105]%N (Nat.iter 5 send_hi (initial 0))).1 = Throw SEND_RATE_LIMIT ∧
  length (writesOf (effects (Nat.iter 6 send_hi (initial 0)))) = 5%nat ∧
  (sendBottle online [104; 105]%N (advance 60000 (Nat.iter 6 send_hi (initial 0)))).1 = Ret ().
Proof. split_and!; vm_compute; reflexivity. Qed.

End HookRateLimitScenarios.

(** ** The reply guard of the ledger *)

Section LedgerFacts.
Import DriftBottle.
Local Open Scope N_scope.

(** Once [user] has replied to [bottleId]: the bottle exists, keeps its
    sender, and the guard is set. *)
Definition has_replied (user bottleId owner : N) (st : State) : Prop :=
  bottleExists st bottleId = true ∧
  Bottle.sender (bottle st bottleId) = owner ∧
  replied st user bottleId = true.

Lemma bottle_update st' st k v b :
  bottles st' = <[k := v]> (bottles st) →
  bottle st' b = if decide (k = b) then v else bottle st b.
Proof.
  intros Hb. unfold bottle. rewrite Hb.
  destruct (decide (k = b)) as [->|Hne];
    [by rewrite lookup_insert_eq | by rewrite lookup_insert_ne].
Qed.

Lemma bottleExists_mono st st' b :
  _bottleIdCounter st ≤ _bottleIdCounter st' →
  bottleExists st b = true → bottleExists st' b = true.
Proof.
  unfold bottleExists. intros Hle [H0 Hb]%andb_true_iff.
  apply N.leb_le in Hb. apply andb_true_iff. split; [done|]. apply N.leb_le. lia.
Qed.

Lemma sendBottle_keeps m content user b owner st st' :
  sendBottle m content st = Ret st' →
  has_replied user b owner st → has_replied user b owner st'.
Proof.
  unfold sendBottle. repeat (case_match; [done|]). intros [= <-] (Hex & Hs & Hr).
  split_and!.
  - eapply bottleExists_mono; [|done]. simpl. lia.
  - erewrite bottle_update by done.
    rewrite decide_False; [done|].
    unfold bottleExists in Hex. apply andb_true_iff in Hex as [_ Hb%N.leb_le]. lia.
  - done.
Qed.

Lemma replyToBottle_keeps m id content user b owner st st' :
  replyToBottle m id content st = Ret st' →
  has_replied user b owner st → has_replied user b owner st'.
Proof.
  unfold replyToBottle. repeat (case_match; [done|]). intros [= <-] (Hex & Hs & Hr).
  split_and!.
  - done.
  - erewrite bottle_update by done. by case_decide; [subst id|].
  - unfold replied in *. simpl.
    destruct (decide ((msg_sender m, id) = (user, b))) as [->|Hne];
      [by rewrite lookup_insert_eq | by rewrite lookup_insert_ne].
Qed.

Lemma replyToReply_keeps m id content user b owner st st' :
  replyToReply m id content st = Ret st' →
  has_replied user b owner st → has_replied user b owner st'.
Proof.
  unfold replyToReply. repeat (case_match; [done|]). intros [= <-] (Hex & Hs & Hr).
  split_and!; [done| |done].
  erewrite bottle_update by done. case_decide as Hid; [|done]. by rewrite Hid in *.
Qed.

Lemma skipBottle_keeps m id user b owner st st' :
  skipBottle m id st = Ret st' →
  has_replied user b owner st → has_replied user b owner st'.
Proof.
  unfold skipBottle. repeat (case_match; [done|]). by intros [= <-].
Qed.

Lemma deactivateBottle_keeps m id user b owner st st' :
  deactivateBottle m id st = Ret st' →
  has_replied user b owner st → has_replied user b owner st'.
Proof.
  unfold deactivateBottle. repeat (case_match; try done). intros [= <-] (Hex & Hs & Hr).
  split_and!; [done| |done].
  erewrite bottle_update by done. by case_decide; [subst id|].
Qed.

Lemma run_keeps txs : ∀ user b owner st,
  has_replied user b owner st → has_replied user b owner (run txs st).
Proof.
  unfold run. induction txs as [|[m c] txs IH]; intros user b owner st Hst; [done|].
  simpl. apply IH. unfold transact. simpl.
  destruct (execute m c st) as [st'|] eqn:He; [|done].
  destruct c; simpl in He;
    eauto using sendBottle_keeps, replyToBottle_keeps, replyToReply_keeps,
                skipBottle_keeps, deactivateBottle_keeps.
Qed.

(** A reply that goes through sets the guard. *)
Lemma replyToBottle_sets_guard m b content st st' :
  replyToBottle m b content st = Ret st' →
  has_replied (msg_sender m) b (Bottle.sender (bottle st b)) st' ∧
  Bottle.sender (bottle st b) ≠ msg_sender m.
Proof.
  unfold replyToBottle.
  destruct (bottleExists st b) eqn:Hex; [|done]. simpl.
  repeat (case_match; [done|]). intros [= <-]. split.
  - split_and!; [done| |].
    + erewrite bottle_update by done. by rewrite decide_True.
    + unfold replied. simpl. by rewrite lookup_insert_eq.
  - match goal with H : negb (negb (_ =? _)) = false |- _ =>
      apply negb_false_iff, negb_true_iff, N.eqb_neq in H; exact H end.
Qed.

End LedgerFacts.

(** ** One reply per user and bottle *)

Section ReplyGuardClaims.
Import DriftBottle.

Lemma checkReplyPermissions_canReply address bottleData p :
  ReceivePage.canReply (ReceivePage.checkReplyPermissions address bottleData p) = false ↔
  Some (ReceivePage.BottleData.sender bottleData) = address ∨
  ∃ replies lastReply,
    ReceivePage.BottleData.replies bottleData = Some replies ∧
    last replies = Some lastReply ∧
    Some (ReceivePage.Reply.replier lastReply) = address.
Proof.
  unfold ReceivePage.checkReplyPermissions.
  case_bool_decide as Hown; simpl; [by split; [left|]|].
  destruct (ReceivePage.BottleData.replies bottleData) as [replies|] eqn:Hr; simpl.
  - destruct (last replies) as [lastReply|] eqn:Hl; simpl.
    + case_bool_decide as Hlast; simpl.
      * split; [|done]. intros _. right. by exists replies, lastReply.
      * split; [done|]. intros [?|(rs & lr & [= <-] & Hl' & ?)]; [done|].
        rewrite Hl in Hl'. by injection Hl' as <-.
    + split; [done|]. intros [?|(rs & lr & [= <-] & Hl' & _)]; [done|].
      by rewrite Hl in Hl'.
  - split; [done|]. intros [?|(rs & lr & ? & _)]; done.
Qed.

(** C2, as the code has it.  On the ledger, once a user's
    [replyToBottle] on a bottle has gone through, then after any chain
    of later transactions, by anyone, the guard
    [hasUserRepliedToBottle] is set and every further [replyToBottle]
    of that user on that bottle reverts; it reverts with "Already
    replied to this bottle" whenever the content is 1 to 1000 bytes
    long and the bottle is still active.  On the page,
    [checkReplyPermissions] refuses exactly when the bottle is the
    user's own or the most recent of the displayed replies is the
    user's. *)
Theorem one_reply_per_user_and_bottle :
  (∀ (st st1 : State) (m : Msg) (b : N) (c : string),
      replyToBottle m b c st = Ret st1 →
      ∀ (txs : list (Msg * Call)) (m' : Msg) (c' : string),
        msg_sender m' = msg_sender m →
        hasUserRepliedToBottle (run txs st1) (msg_sender m) b = true ∧
        (∃ why, replyToBottle m' b c' (run txs st1) = Throw why) ∧
        ((0 < String.length c' ≤ 1000)%nat →
         Bottle.isActive (bottle (run txs st1) b) = true →
         replyToBottle m' b c' (run txs st1) = Throw (Reason "Already replied to this bottle"))) ∧
  (∀ (address : option string) (bottleData : ReceivePage.BottleData.t) (p : ReceivePage.Page),
      ReceivePage.canReply (ReceivePage.checkReplyPermissions address bottleData p) = false ↔
      Some (ReceivePage.BottleData.sender bottleData) = address ∨
      ∃ replies lastReply,
        ReceivePage.BottleData.replies bottleData = Some replies ∧
        last replies = Some lastReply ∧
        Some (ReceivePage.Reply.replier lastReply) = address).
Proof.
  split; [|apply checkReplyPermissions_canReply].
  intros st st1 m b c Hreply txs m' c' Hsame.
  apply replyToBottle_sets_guard in Hreply as [Hguard Hother].
  apply (run_keeps txs) in Hguard as (Hex & Hsender & Hrep).
  assert (∀ c', (0 < String.length c' ≤ 1000)%nat →
            Bottle.isActive (bottle (run txs st1) b) = true →
            replyToBottle m' b c' (run txs st1)
              = Throw (Reason "Already replied to this bottle")) as Hdup.
  { intros c0 Hlen Hact. unfold replyToBottle.
    rewrite Hex, Hact, Hsender, Hsame, Hrep. simpl.
    destruct (N.ltb_spec 0 (N.of_nat (String.length c0))); [|lia].
    destruct (N.leb_spec (N.of_nat (String.length c0)) 1000); [|lia].
    simpl. by rewrite (proj2 (N.eqb_neq _ _) Hother). }
  split_and!; [done| |apply Hdup].
  unfold replyToBottle. rewrite Hex, Hsender, Hsame, Hrep. simpl.
  repeat (case_match; eauto).
Qed.

(** Account 1 sends a bottle; 2 replies, then 3 replies, and 2 tries
    again. *)
Definition alice : Msg := {| msg_sender := 1; block_timestamp := 100 |}.
Definition bob : Msg := {| msg_sender := 2; block_timestamp := 200 |}.
Definition carol : Msg := {| msg_sender := 3; block_timestamp := 300 |}.

Definition one_bottle : State := run [(alice, SendBottle "hello")] empty.

Lemma one_reply_per_user_and_bottle_witness :
  ∃ st1, replyToBottle bob 1 "hi" one_bottle = Ret st1 ∧
         replyToBottle bob 1 "hi again" (run [(carol, ReplyToBottle 1 "me too")] st1)
           = Throw (Reason "Already replied to this bottle").
Proof.
  destruct one_reply_per_user_and_bottle as [H _].
  destruct (replyToBottle bob 1 "hi" one_bottle) as [st1|] eqn:Hfirst;
    [|vm_compute in Hfirst; discriminate].
  exists st1. split; [done|].
  destruct (H one_bottle st1 bob 1%N "hi" Hfirst [(carol, ReplyToBottle 1 "me too")]
              bob "hi again" eq_refl) as (_ & _ & Hdup).
  apply Hdup; [simpl; lia|].
  vm_compute in Hfirst. injection Hfirst as <-. vm_compute. reflexivity.
Defined.

(** C2 as stated fails on the page: the user 0xaa has replied to the
    displayed bottle, 0xcc replied after, and the page lets 0xaa reply
    again. *)
Definition thread : ReceivePage.BottleData.t :=
  ReceivePage.BottleData.mk 1 "hello" 100000 "0xbb"
    (Some [ReceivePage.Reply.mk 0 "hi" 200000 "0xaa";
           ReceivePage.Reply.mk 1 "me too" 300000 "0xcc"]).

Definition blank_page : ReceivePage.Page :=
  ReceivePage.mkPage None "" false "" false false true ReceivePage.NoReason [].

Lemma checkReplyPermissions_forgets_earlier_reply :
  ReceivePage.canReply (ReceivePage.checkReplyPermissions (Some "0xaa") thread blank_page) = true ∧
  Exists (fun r => ReceivePage.Reply.replier r = "0xaa")
    (default [] (ReceivePage.BottleData.replies thread)).
Proof. split; [reflexivity|]. by apply Exists_cons_hd. Qed.

End ReplyGuardClaims.

(** ** The receive page: searching and skipping *)

Section ReceivePageClaims.
Import ReceivePage.
Implicit Types (h : Hooked) (p : Page).
















(** Every pick is bottle 5, which the user 0xaa sent. *)
Definition always_own : Hooked :=
  {| isConnected := true; isConnectionStable := true; address := Some "0xaa";
     now := 1700000100000;
     getRandomBottle := fun _ => Ret 5;
     readBottleData := fun bottleId =>
       Some {| Display.id := bottleId; Display.content := "hello";
               Display.timestamp := 1700000000; Display.sender := "0xaa";
               Display.isActive := true; Display.replyCount := 0 |};
     readBottleReplies := fun _ => [];
     stripQuotes := fun s => s |}.


(** The whole search: four picks, three timers, and the user's own
    bottle on display with the reply button disabled. *)
Example findBottle_always_own :
  ∃ p', findBottle always_own 0 blank_page = Some p' ∧
        log p' = [GetRandomBottle; ReadBottleData 5;
                  ShowToast ToastOwnBottleRetrying; SetTimeout 1000;
                  GetRandomBottle; ReadBottleData 5;
                  ShowToast ToastOwnBottleRetrying; SetTimeout 1000;
                  GetRandomBottle; ReadBottleData 5;
                  ShowToast ToastOwnBottleRetrying; SetTimeout 1000;
                  GetRandomBottle; ReadBottleData 5; ShowToast ToastOwnBottleShown;
                  ReadBottleData 5; ReadBottleReplies 5] ∧
        (BottleData.id <$> currentBottle p') = Some 5 ∧
        canReply p' = false ∧ replyBlockReason p' = OwnBottle.
Proof. eexists. split_and!; vm_compute; reflexivity. Qed.






(** C6.  Skipping the displayed bottle sends nothing to the chain: the
    click handler only sets a timer of 300 ms, and when that has fired
    the page has called no function of the hook — in particular not
    its [skipBottle], whose every successful call does issue the
    contract write — and differs from the page before the click only
    in that no bottle is shown, the reply form is closed, the draft is
    empty and the removal animation is off.  With no bottle on display
    the handler does nothing. *)
Theorem handleSkip_sends_no_transaction p :
  (∀ b, currentBottle p = Some b →
        log (handleSkip p) = log p ++ [SetTimeout 300] ∧
        List.filter isHookCall (log (handleSkip_timeout (handleSkip p)))
          = List.filter isHookCall (log p) ∧
        List.filter isTransaction (log (handleSkip_timeout (handleSkip p)))
          = List.filter isTransaction (log p) ∧
        handleSkip_timeout (handleSkip p)
          = mkPage None "" false (lastBottleHash p) false (isSearching p)
              (canReply p) (replyBlockReason p) (log p ++ [SetTimeout 300])) ∧
  (currentBottle p = None → handleSkip p = p) ∧
  (∀ (Raw RawReply VB VR D DR : Type) (env : Hook.Env Raw RawReply VB VR D DR)
     (st st' : Hook.State D DR) (bottleId : Z),
      Hook.skipBottle env bottleId st = (Ret (), st') →
      Hook.effects st'
        = Hook.effects st ++ [Hook.WriteContract "skipBottle" [Hook.ArgUint bottleId]]).
Proof.
  split_and!.
  - intros b Hb. unfold handleSkip. rewrite Hb. simpl.
    rewrite !List.filter_app. simpl. by rewrite !app_nil_r.
  - intros Hb. unfold handleSkip. by rewrite Hb.
  - intros Raw RawReply VB VR D DR env st st' bottleId.
    unfold Hook.skipBottle. repeat (case_match; try done). by intros [= <-].
Qed.

(** The page of the example above, skipped. *)
Lemma handleSkip_sends_no_transaction_witness :
  handleSkip_timeout
    (handleSkip (setCurrentBottle (Some thread) (setReply "draft" blank_page)))
  = mkPage None "" false "" false false true NoReason [SetTimeout 300].
Proof.
  destruct (handleSkip_sends_no_transaction
              (setCurrentBottle (Some thread) (setReply "draft" blank_page))) as [H _].
  destruct (H thread eq_refl) as (_ & _ & _ & Hpage). exact Hpage.
Defined.

End ReceivePageClaims.
(** ** The ledger: what every reachable storage satisfies *)

Section LedgerInvariants.
Import DriftBottle DriftBottleViews.
Local Open Scope N_scope.

Lemma bottleExists_iff st id :
  bottleExists st id = true ↔ 0 < id ≤ _bottleIdCounter st.
Proof.
  unfold bottleExists. rewrite andb_true_iff, N.ltb_lt, N.leb_le. done.
Qed.

Lemma replyExists_iff st id :
  replyExists st id = true ↔ 0 < id ≤ _replyIdCounter st.
Proof.
  unfold replyExists. rewrite andb_true_iff, N.ltb_lt, N.leb_le. done.
Qed.

Lemma push_lookup {K} `{Countable K} (k k' : K) x (m : gmap K (list N)) :
  default [] (push k x m !! k')
  = if decide (k = k') then default [] (m !! k) ++ [x] else default [] (m !! k').
Proof.
  unfold push. destruct (decide (k = k')) as [->|Hne];
    [by rewrite lookup_insert_eq | by rewrite lookup_insert_ne].
Qed.

(** What a call that goes through has checked and written. *)
Lemma sendBottle_Ret m content st st' :
  sendBottle m content st = Ret st' →
  let bottleId := _bottleIdCounter st + 1 in
  (0 < String.length content ≤ 1000)%nat ∧
  st' = mkState bottleId (_replyIdCounter st)
          (<[bottleId := Bottle.mk bottleId (msg_sender m) content (block_timestamp m) true 0]>
             (bottles st))
          (replies st)
          (push (msg_sender m) bottleId (userBottles st))
          (userReplies st) (bottleReplies st) (userBottleStates st) (hasUserReplied st)
          (activeBottleIds st ++ [bottleId])
          (<[bottleId := N.of_nat (length (activeBottleIds st))]> (activeBottleIndex st))
          (events st ++ [BottleSent bottleId (msg_sender m) (block_timestamp m)]).
Proof.
  unfold sendBottle.
  destruct (N.ltb_spec 0 (N.of_nat (String.length content))); [|done].
  destruct (N.leb_spec (N.of_nat (String.length content)) 1000); [|done]. simpl.
  case_match; [done|]. intros [= <-]. split; [lia|].
  f_equal. f_equal. rewrite length_app. simpl. lia.
Qed.

Lemma replyToBottle_Ret m b content st st' :
  replyToBottle m b content st = Ret st' →
  let replyId := _replyIdCounter st + 1 in
  bottleExists st b = true ∧
  (0 < String.length content ≤ 1000)%nat ∧
  Bottle.isActive (bottle st b) = true ∧
  Bottle.sender (bottle st b) ≠ msg_sender m ∧
  replied st (msg_sender m) b = false ∧
  st' = mkState (_bottleIdCounter st) replyId
          (<[b := addReplyCount (bottle st b)]> (bottles st))
          (<[replyId := Reply.mk b (msg_sender m) content (block_timestamp m) 0]> (replies st))
          (userBottles st)
          (push (msg_sender m) replyId (userReplies st))
          (push b replyId (bottleReplies st))
          (userBottleStates st)
          (<[(msg_sender m, b) := true]> (hasUserReplied st))
          (activeBottleIds st) (activeBottleIndex st)
          (events st ++ [BottleReplied b replyId (msg_sender m) (block_timestamp m)]).
Proof.
  unfold replyToBottle.
  destruct (bottleExists st b); [|done]. simpl.
  destruct (N.ltb_spec 0 (N.of_nat (String.length content))); [|done].
  destruct (N.leb_spec (N.of_nat (String.length content)) 1000); [|done]. simpl.
  destruct (Bottle.isActive (bottle st b)); [|done]. simpl.
  destruct (N.eqb_spec (Bottle.sender (bottle st b)) (msg_sender m)); [done|]. simpl.
  destruct (replied st (msg_sender m) b); [done|]. simpl.
  do 2 (case_match; [done|]). intros [= <-]. split; [done|]. split; [lia|done].
Qed.

Lemma replyToReply_Ret m replyId content st st' :
  replyToReply m replyId content st = Ret st' →
  let originalReply := default Reply.zero (replies st !! replyId) in
  let bottleId := Reply.bottleId originalReply in
  let newReplyId := _replyIdCounter st + 1 in
  replyExists st replyId = true ∧
  (0 < String.length content ≤ 1000)%nat ∧
  Reply.replier originalReply ≠ msg_sender m ∧
  Bottle.isActive (bottle st bottleId) = true ∧
  st' = mkState (_bottleIdCounter st) newReplyId
          (<[bottleId := addReplyCount (bottle st bottleId)]> (bottles st))
          (<[newReplyId := Reply.mk bottleId (msg_sender m) content (block_timestamp m) replyId]>
             (replies st))
          (userBottles st)
          (push (msg_sender m) newReplyId (userReplies st))
          (push bottleId newReplyId (bottleReplies st))
          (userBottleStates st) (hasUserReplied st)
          (activeBottleIds st) (activeBottleIndex st)
          (events st ++ [BottleReplied bottleId newReplyId (msg_sender m) (block_timestamp m)]).
Proof.
  unfold replyToReply.
  destruct (replyExists st replyId); [|done]. simpl.
  destruct (N.ltb_spec 0 (N.of_nat (String.length content))); [|done].
  destruct (N.leb_spec (N.of_nat (String.length content)) 1000); [|done]. simpl.
  destruct (N.eqb_spec (Reply.replier (default Reply.zero (replies st !! replyId)))
              (msg_sender m)); [done|]. simpl.
  destruct (Bottle.isActive _); [|done]. simpl.
  do 2 (case_match; [done|]). intros [= <-]. split; [done|]. split; [lia|done].
Qed.

Lemma skipBottle_Ret m b st st' :
  skipBottle m b st = Ret st' →
  let state := default UserBottleState.zero (userBottleStates st !! (msg_sender m, b)) in
  bottleExists st b = true ∧
  Bottle.isActive (bottle st b) = true ∧
  Bottle.sender (bottle st b) ≠ msg_sender m ∧
  replied st (msg_sender m) b = false ∧
  UserBottleState.hasSkipped state = false ∧
  st' = mkState (_bottleIdCounter st) (_replyIdCounter st) (bottles st) (replies st)
          (userBottles st) (userReplies st) (bottleReplies st)
          (<[(msg_sender m, b) :=
               UserBottleState.mk (UserBottleState.hasViewed state)
                 (UserBottleState.hasReplied state) true]> (userBottleStates st))
          (hasUserReplied st) (activeBottleIds st) (activeBottleIndex st)
          (events st ++ [BottleSkipped b (msg_sender m) (block_timestamp m)]).
Proof.
  unfold skipBottle.
  destruct (bottleExists st b); [|done]. simpl.
  destruct (Bottle.isActive (bottle st b)); [|done]. simpl.
  destruct (N.eqb_spec (Bottle.sender (bottle st b)) (msg_sender m)); [done|]. simpl.
  destruct (replied st (msg_sender m) b); [done|]. simpl.
  destruct (UserBottleState.hasSkipped _); [done|]. simpl. by intros [= <-].
Qed.

Lemma deactivateBottle_Ret m b st st' :
  deactivateBottle m b st = Ret st' →
  let index := default 0 (activeBottleIndex st !! b) in
  ∃ lastBottleId,
    bottleExists st b = true ∧
    Bottle.sender (bottle st b) = msg_sender m ∧
    last (activeBottleIds st) = Some lastBottleId ∧
    (N.to_nat index < length (activeBottleIds st))%nat ∧
    st' = mkState (_bottleIdCounter st) (_replyIdCounter st)
            (<[b := deactivate (bottle st b)]> (bottles st))
            (replies st) (userBottles st) (userReplies st) (bottleReplies st)
            (userBottleStates st) (hasUserReplied st)
            (removelast (<[N.to_nat index := lastBottleId]> (activeBottleIds st)))
            (delete b (<[lastBottleId := index]> (activeBottleIndex st)))
            (events st).
Proof.
  unfold deactivateBottle.
  destruct (bottleExists st b); [|done]. simpl.
  destruct (N.eqb_spec (Bottle.sender (bottle st b)) (msg_sender m)); [|done]. simpl.
  destruct (last (activeBottleIds st)) as [l|]; [|done].
  destruct (N.ltb_spec (default 0 (activeBottleIndex st !! b))
              (N.of_nat (length (activeBottleIds st)))); [|done]. simpl.
  intros [= <-]. exists l. split_and!; try done. lia.
Qed.


Lemma lookup_removelast {A} (l : list A) (p : nat) :
  removelast l !! p = if decide (S p < length l)%nat then l !! p else None.
Proof.
  rewrite removelast_firstn_len, lookup_take.
  destruct (decide (p < Nat.pred (length l))%nat), (decide (S p < length l)%nat);
    try done; lia.
Qed.

(** The array after [activeBottleIds[index] = lastBottleId] and
    [activeBottleIds.pop()]. *)
Lemma lookup_swap_pop (l : list N) (i : nat) (x : N) (p : nat) (y : N) :
  (i < length l)%nat →
  removelast (<[i := x]> l) !! p = Some y ↔
  (S p < length l)%nat ∧ (if decide (p = i) then y = x else l !! p = Some y).
Proof.
  intros Hi. rewrite lookup_removelast, length_insert.
  destruct (decide (S p < length l)%nat) as [Hp|Hp]; [|by split; [|intros [? _]]].
  destruct (decide (p = i)) as [->|Hne].
  - rewrite list_lookup_insert_eq by done.
    split; [by intros [= <-]|by intros [_ ->]].
  - rewrite list_lookup_insert_ne by done. by split; [|intros [_ ?]].
Qed.

(** The records: a bottle or a reply is stored exactly under the ids
    the counters have handed out, a bottle under its own id, a reply
    belongs to a bottle that exists, and every stored content has 1 to
    1000 bytes. *)
Record store_ok (st : State) : Prop := {
  ok_bottles : ∀ id, is_Some (bottles st !! id) ↔ bottleExists st id = true;
  ok_bottle_id : ∀ id b, bottles st !! id = Some b → Bottle.id b = id;
  ok_bottle_content : ∀ id b,
    bottles st !! id = Some b → (0 < String.length (Bottle.content b) ≤ 1000)%nat;
  ok_replies : ∀ rid, is_Some (replies st !! rid) ↔ replyExists st rid = true;
  ok_reply_bottle : ∀ rid r,
    replies st !! rid = Some r → bottleExists st (Reply.bottleId r) = true;
  ok_reply_content : ∀ rid r,
    replies st !! rid = Some r → (0 < String.length (Reply.content r) ≤ 1000)%nat
}.

Lemma store_ok_bottle st id :
  store_ok st → bottleExists st id = true → bottles st !! id = Some (bottle st id).
Proof.
  intros Hok Hex. apply (ok_bottles _ Hok) in Hex as [b Hb]. unfold bottle. by rewrite Hb.
Qed.

Lemma store_ok_fresh_bottle st :
  store_ok st → bottles st !! (_bottleIdCounter st + 1) = None.
Proof.
  intros Hok. apply eq_None_not_Some. rewrite (ok_bottles _ Hok), bottleExists_iff. lia.
Qed.

Lemma store_ok_fresh_reply st :
  store_ok st → replies st !! (_replyIdCounter st + 1) = None.
Proof.
  intros Hok. apply eq_None_not_Some. rewrite (ok_replies _ Hok), replyExists_iff. lia.
Qed.

Lemma store_ok_reply_of st rid :
  store_ok st → replyExists st rid = true →
  replies st !! rid = Some (default Reply.zero (replies st !! rid)).
Proof.
  intros Hok Hex. apply (ok_replies _ Hok) in Hex as [r Hr]. by rewrite Hr.
Qed.

Lemma store_ok_empty : store_ok empty.
Proof.
  split; simpl.
  - intros id. rewrite lookup_empty, bottleExists_iff. simpl. split; [by intros [? ?]|lia].
  - intros id b. by rewrite lookup_empty.
  - intros id b. by rewrite lookup_empty.
  - intros id. rewrite lookup_empty, replyExists_iff. simpl. split; [by intros [? ?]|lia].
  - intros id b. by rewrite lookup_empty.
  - intros id b. by rewrite lookup_empty.
Qed.

Lemma store_ok_execute m c st st' :
  store_ok st → execute m c st = Ret st' → store_ok st'.
Proof.
  intros Hok He. destruct c; simpl in He.
  - apply sendBottle_Ret in He as [Hlen ->]. split; simpl.
    + intros id. rewrite lookup_insert_is_Some, (ok_bottles _ Hok), !bottleExists_iff. simpl.
      destruct (decide (_bottleIdCounter st + 1 = id)); intuition lia.
    + intros id b [[<- <-]|[_ Hb]]%lookup_insert_Some; [done|]. by eapply ok_bottle_id.
    + intros id b [[<- <-]|[_ Hb]]%lookup_insert_Some; [done|]. by eapply ok_bottle_content.
    + apply Hok.
    + intros rid r Hr. apply (ok_reply_bottle _ Hok) in Hr.
      apply bottleExists_iff in Hr. apply bottleExists_iff. simpl. lia.
    + apply Hok.
  - apply replyToBottle_Ret in He as (Hex & Hlen & _ & _ & _ & ->).
    pose proof (store_ok_bottle _ _ Hok Hex) as Hb0. split; simpl.
    + intros id. rewrite lookup_insert_is_Some, (ok_bottles _ Hok).
      destruct (decide (bottleId = id)) as [<-|]; intuition auto.
    + intros id b [[<- <-]|[_ Hb]]%lookup_insert_Some; [|by eapply ok_bottle_id].
      simpl. by eapply (ok_bottle_id _ Hok).
    + intros id b [[<- <-]|[_ Hb]]%lookup_insert_Some; [|by eapply ok_bottle_content].
      simpl. by eapply (ok_bottle_content _ Hok).
    + intros rid. rewrite lookup_insert_is_Some, (ok_replies _ Hok), !replyExists_iff. simpl.
      destruct (decide (_replyIdCounter st + 1 = rid)); intuition lia.
    + intros rid r [[<- <-]|[_ Hr]]%lookup_insert_Some; [done|].
      by apply (ok_reply_bottle _ Hok) in Hr.
    + intros rid r [[<- <-]|[_ Hr]]%lookup_insert_Some; [done|]. by eapply ok_reply_content.
  - apply replyToReply_Ret in He as (Hex & Hlen & _ & Hact & ->).
    set (o := default Reply.zero (replies st !! replyId)) in *.
    assert (bottleExists st (Reply.bottleId o) = true) as Hb.
    { eapply ok_reply_bottle; [done|]. by apply store_ok_reply_of. }
    pose proof (store_ok_bottle _ _ Hok Hb) as Hb0. split; simpl.
    + intros id. rewrite lookup_insert_is_Some, (ok_bottles _ Hok).
      destruct (decide (Reply.bottleId o = id)) as [<-|]; intuition auto.
    + intros id b [[<- <-]|[_ Hb']]%lookup_insert_Some; [|by eapply ok_bottle_id].
      simpl. by eapply (ok_bottle_id _ Hok).
    + intros id b [[<- <-]|[_ Hb']]%lookup_insert_Some; [|by eapply ok_bottle_content].
      simpl. by eapply (ok_bottle_content _ Hok).
    + intros rid. rewrite lookup_insert_is_Some, (ok_replies _ Hok), !replyExists_iff. simpl.
      destruct (decide (_replyIdCounter st + 1 = rid)); intuition lia.
    + intros rid r [[<- <-]|[_ Hr]]%lookup_insert_Some; [done|].
      by apply (ok_reply_bottle _ Hok) in Hr.
    + intros rid r [[<- <-]|[_ Hr]]%lookup_insert_Some; [done|]. by eapply ok_reply_content.
  - apply skipBottle_Ret in He as (_ & _ & _ & _ & _ & ->). by destruct Hok.
  - apply deactivateBottle_Ret in He as (l & Hex & _ & _ & _ & ->).
    pose proof (store_ok_bottle _ _ Hok Hex) as Hb0. split; simpl.
    + intros id. rewrite lookup_insert_is_Some, (ok_bottles _ Hok).
      destruct (decide (bottleId = id)) as [<-|]; intuition auto.
    + intros id b [[<- <-]|[_ Hb']]%lookup_insert_Some; [|by eapply ok_bottle_id].
      simpl. by eapply (ok_bottle_id _ Hok).
    + intros id b [[<- <-]|[_ Hb']]%lookup_insert_Some; [|by eapply ok_bottle_content].
      simpl. by eapply (ok_bottle_content _ Hok).
    + apply Hok.
    + apply Hok.
    + apply Hok.
Qed.

(** The threads: the reply ids listed for a bottle are those of the
    replies stored for it, each once, and [replyCount] is their
    number; a reply to a reply answers an earlier reply of the same
    bottle, written by someone else. *)
Definition answers (st : State) (replyId : N) (r : Reply.t) : Prop :=
  Reply.replyToReplyId r = 0 ∨
  ∃ p, replies st !! Reply.replyToReplyId r = Some p ∧
       Reply.bottleId p = Reply.bottleId r ∧
       Reply.replier p ≠ Reply.replier r ∧
       Reply.replyToReplyId r < replyId.

Record threads_ok (st : State) : Prop := {
  ok_thread : ∀ b rid,
    rid ∈ default [] (bottleReplies st !! b) ↔
    ∃ r, replies st !! rid = Some r ∧ Reply.bottleId r = b;
  ok_thread_nodup : ∀ b, NoDup (default [] (bottleReplies st !! b));
  ok_replyCount : ∀ b,
    Bottle.replyCount (bottle st b)
    = N.of_nat (length (default [] (bottleReplies st !! b)));
  ok_reply_parent : ∀ rid r, replies st !! rid = Some r → answers st rid r
}.

Lemma thread_of_missing_bottle st b :
  store_ok st → threads_ok st → bottleExists st b = false →
  default [] (bottleReplies st !! b) = [].
Proof.
  intros Hs Ht Hb. destruct (default [] (bottleReplies st !! b)) as [|rid l] eqn:Hl; [done|].
  assert (rid ∈ default [] (bottleReplies st !! b)) as Hin by (rewrite Hl; left).
  apply (ok_thread _ Ht) in Hin as (r & Hr & <-).
  apply (ok_reply_bottle _ Hs) in Hr. congruence.
Qed.

Lemma threads_ok_add_reply st st' b0 R :
  store_ok st → threads_ok st →
  bottles st' = <[b0 := addReplyCount (bottle st b0)]> (bottles st) →
  replies st' = <[_replyIdCounter st + 1 := R]> (replies st) →
  bottleReplies st' = push b0 (_replyIdCounter st + 1) (bottleReplies st) →
  Reply.bottleId R = b0 →
  (Reply.replyToReplyId R = 0 ∨
   ∃ p, replies st !! Reply.replyToReplyId R = Some p ∧
        Reply.bottleId p = Reply.bottleId R ∧ Reply.replier p ≠ Reply.replier R) →
  threads_ok st'.
Proof.
  intros Hs Ht Hb Hr Hbr HR Hparent. pose proof (store_ok_fresh_reply _ Hs) as Hfresh.
  assert (∀ rid r, replies st !! rid = Some r →
            rid < _replyIdCounter st + 1 ∧
            <[_replyIdCounter st + 1 := R]> (replies st) !! rid = Some r) as Hold.
  { intros rid r Hrid. assert (rid ≠ _replyIdCounter st + 1) by congruence.
    rewrite lookup_insert_ne by done. split; [|done].
    assert (replyExists st rid = true) as Hex by (by apply (ok_replies _ Hs); exists r).
    apply replyExists_iff in Hex. lia. }
  assert (∀ b, _replyIdCounter st + 1 ∉ default [] (bottleReplies st !! b)) as Hnew.
  { intros b (r & Hr' & _)%(ok_thread _ Ht). congruence. }
  split.
  - intros b rid. rewrite Hbr, Hr, push_lookup.
    destruct (decide (_replyIdCounter st + 1 = rid)) as [<-|Hne].
    + rewrite lookup_insert_eq. destruct (decide (b0 = b)) as [<-|Hb0].
      * split; [by exists R|]. intros _. apply elem_of_app. right. by left.
      * split; [by intros ?%Hnew|]. intros (r & [= <-] & ?). congruence.
    + rewrite lookup_insert_ne by done. rewrite <- (ok_thread _ Ht).
      destruct (decide (b0 = b)) as [<-|Hb0]; [|done].
      rewrite elem_of_app, list_elem_of_singleton. intuition congruence.
  - intros b. rewrite Hbr, push_lookup. destruct (decide (b0 = b)) as [<-|Hb0].
    + apply NoDup_app. split_and!; [apply Ht| |apply NoDup_singleton].
      intros x Hx ->%list_elem_of_singleton. by apply Hnew in Hx.
    + apply Ht.
  - intros b. erewrite bottle_update by done. rewrite Hbr, push_lookup.
    destruct (decide (b0 = b)) as [<-|Hb0]; [|apply Ht].
    simpl. rewrite (ok_replyCount _ Ht), length_app. simpl. lia.
  - intros rid r. unfold answers. rewrite Hr.
    intros [[<- <-]|[_ Hrid]]%lookup_insert_Some.
    + destruct Hparent as [?|(p & Hp & ? & ?)]; [by left|]. right.
      destruct (Hold _ _ Hp) as [? ?]. by exists p.
    + destruct (ok_reply_parent _ Ht _ _ Hrid) as [?|(p & Hp & ? & ? & ?)]; [by left|]. right.
      destruct (Hold _ _ Hp) as [? ?]. by exists p.
Qed.

Lemma threads_ok_empty : threads_ok empty.
Proof.
  split; simpl.
  - intros b rid. rewrite lookup_empty. simpl. split; [by intros ?%elem_of_nil|].
    intros (r & Hr & _). by rewrite lookup_empty in Hr.
  - intros b. rewrite lookup_empty. apply NoDup_nil_2.
  - intros b. unfold bottle. simpl. by rewrite !lookup_empty.
  - intros rid r. by rewrite lookup_empty.
Qed.

Lemma threads_ok_execute m c st st' :
  store_ok st → threads_ok st → execute m c st = Ret st' → threads_ok st'.
Proof.
  intros Hs Ht He. destruct c; simpl in He.
  - apply sendBottle_Ret in He as [_ ->]. split; simpl; [apply Ht|apply Ht| |apply Ht].
    intros b. erewrite bottle_update by done. simpl.
    destruct (decide (_bottleIdCounter st + 1 = b)) as [<-|]; [|apply Ht].
    rewrite thread_of_missing_bottle; [done..|].
    apply not_true_is_false. rewrite bottleExists_iff. lia.
  - apply replyToBottle_Ret in He as (_ & _ & _ & _ & _ & ->).
    eapply threads_ok_add_reply; [done|done|reflexivity..|by left].
  - apply replyToReply_Ret in He as (Hex & _ & Hother & _ & ->).
    eapply threads_ok_add_reply; [done|done|reflexivity..|]. right. simpl.
    eexists. split; [by apply store_ok_reply_of|done].
  - apply skipBottle_Ret in He as (_ & _ & _ & _ & _ & ->). by destruct Ht.
  - apply deactivateBottle_Ret in He as (l & _ & _ & _ & _ & ->).
    split; simpl; [apply Ht|apply Ht| |apply Ht].
    intros b. erewrite bottle_update by done. simpl.
    destruct (decide (bottleId = b)) as [<-|]; apply Ht.
Qed.

(** The reply guard: it is set for a user and a bottle exactly when a
    reply of that user to the bottle itself is stored, and there is at
    most one such reply. *)
Definition direct_reply (st : State) (user bottleId replyId : N) : Prop :=
  ∃ r, replies st !! replyId = Some r ∧
       Reply.bottleId r = bottleId ∧ Reply.replier r = user ∧ Reply.replyToReplyId r = 0.

Record guard_ok (st : State) : Prop := {
  ok_guard : ∀ u b, replied st u b = true ↔ ∃ rid, direct_reply st u b rid;
  ok_direct_unique : ∀ u b rid1 rid2,
    direct_reply st u b rid1 → direct_reply st u b rid2 → rid1 = rid2
}.

Lemma guard_ok_empty : guard_ok empty.
Proof.
  split.
  - intros u b. unfold replied. simpl. rewrite lookup_empty. simpl.
    split; [done|]. intros (rid & r & Hr & _). simpl in Hr. by rewrite lookup_empty in Hr.
  - intros u b rid1 rid2 (r & Hr & _). simpl in Hr. by rewrite lookup_empty in Hr.
Qed.

Lemma direct_reply_same st st' u b rid :
  replies st' = replies st → direct_reply st' u b rid ↔ direct_reply st u b rid.
Proof. unfold direct_reply. by intros ->. Qed.

Lemma guard_ok_same st st' :
  replies st' = replies st → hasUserReplied st' = hasUserReplied st →
  guard_ok st → guard_ok st'.
Proof.
  intros Hr Hh [Hg Hu]. split.
  - intros u b. unfold replied. rewrite Hh. fold (replied st u b). rewrite Hg.
    by setoid_rewrite (direct_reply_same st st').
  - intros u b rid1 rid2. rewrite !(direct_reply_same st st') by done. apply Hu.
Qed.

Lemma direct_reply_insert st st' R u b rid :
  replies st' = <[_replyIdCounter st + 1 := R]> (replies st) →
  replies st !! (_replyIdCounter st + 1) = None →
  direct_reply st' u b rid ↔
  (rid = _replyIdCounter st + 1 ∧ Reply.bottleId R = b ∧ Reply.replier R = u ∧
   Reply.replyToReplyId R = 0) ∨
  direct_reply st u b rid.
Proof.
  intros Hr Hfresh. unfold direct_reply. rewrite Hr. split.
  - intros (r & [[<- <-]|[Hne Hr']]%lookup_insert_Some & Hb & Hu & H0).
    + by left.
    + right. by exists r.
  - intros [(-> & ? & ? & ?)|(r & Hr' & ?)].
    + exists R. by rewrite lookup_insert_eq.
    + exists r. rewrite lookup_insert_ne; [done|]. intros <-. congruence.
Qed.

Lemma guard_ok_execute m c st st' :
  store_ok st → guard_ok st → execute m c st = Ret st' → guard_ok st'.
Proof.
  intros Hs Hg He. pose proof (store_ok_fresh_reply _ Hs) as Hfresh.
  destruct c; simpl in He.
  - apply sendBottle_Ret in He as [_ ->]. by apply (guard_ok_same st).
  - apply replyToBottle_Ret in He as (_ & _ & _ & _ & Hnot & ->).
    assert (∀ rid, ¬ direct_reply st (msg_sender m) bottleId rid) as Hnone.
    { intros rid Hrid. assert (replied st (msg_sender m) bottleId = true); [|congruence].
      apply (ok_guard _ Hg). by exists rid. }
    split.
    + intros u b. setoid_rewrite direct_reply_insert; [|reflexivity|done].
      unfold replied. simpl.
      destruct (decide ((msg_sender m, bottleId) = (u, b))) as [[= <- <-]|Hne].
      * rewrite lookup_insert_eq. simpl. split; [|done]. intros _. eexists. by left.
      * rewrite lookup_insert_ne by done. fold (replied st u b). rewrite (ok_guard _ Hg).
        split; [intros [rid ?]; exists rid; by right|].
        intros [rid [(_ & <- & <- & _)|?]]; [done|by exists rid].
    + intros u b rid1 rid2 H1 H2.
      eapply direct_reply_insert in H1; [|reflexivity|done].
      eapply direct_reply_insert in H2; [|reflexivity|done].
      simpl in H1, H2.
      destruct H1 as [(E1 & E2 & E3 & _)|H1], H2 as [(F1 & F2 & F3 & _)|H2].
      * congruence.
      * subst. by apply Hnone in H2.
      * subst. by apply Hnone in H1.
      * by eapply ok_direct_unique.
  - apply replyToReply_Ret in He as (Hex & _ & _ & _ & ->).
    apply replyExists_iff in Hex.
    split.
    + intros u b. setoid_rewrite direct_reply_insert; [|reflexivity|done].
      unfold replied. simpl. fold (replied st u b). rewrite (ok_guard _ Hg). split; [intros [rid ?]; exists rid; by right|].
      intros [rid [(_ & _ & _ & ?)|?]]; [lia|by exists rid].
    + intros u b rid1 rid2 H1 H2.
      eapply direct_reply_insert in H1; [|reflexivity|done].
      eapply direct_reply_insert in H2; [|reflexivity|done].
      simpl in H1, H2.
      destruct H1 as [(_ & _ & _ & ?)|H1], H2 as [(_ & _ & _ & ?)|H2]; try lia.
      by eapply ok_direct_unique.
  - apply skipBottle_Ret in He as (_ & _ & _ & _ & _ & ->). by apply (guard_ok_same st).
  - apply deactivateBottle_Ret in He as (l & _ & _ & _ & _ & ->). by apply (guard_ok_same st).
Qed.


(** The active set: [activeBottleIds] holds no id twice, the index
    map finds every listed id at its place, and every listed bottle
    exists and is active. *)
Record active_ok (st : State) : Prop := {
  ok_active_nodup : NoDup (activeBottleIds st);
  ok_active_index : ∀ p id,
    activeBottleIds st !! p = Some id → activeBottleIndex st !! id = Some (N.of_nat p);
  ok_active_live : ∀ id,
    id ∈ activeBottleIds st →
    bottleExists st id = true ∧ Bottle.isActive (bottle st id) = true
}.

Lemma active_ok_empty : active_ok empty.
Proof.
  split; simpl; [apply NoDup_nil_2|done|]. by intros id ?%elem_of_nil.
Qed.

Lemma active_ok_same st st' :
  _bottleIdCounter st' = _bottleIdCounter st →
  activeBottleIds st' = activeBottleIds st →
  activeBottleIndex st' = activeBottleIndex st →
  (∀ id, Bottle.isActive (bottle st' id) = Bottle.isActive (bottle st id)) →
  active_ok st → active_ok st'.
Proof.
  intros Hc Hi Hx Hb [Hn Hix Hl]. split; rewrite Hi; [done|by rewrite Hx|].
  intros id Hid. unfold bottleExists. rewrite Hc, Hb. by apply Hl.
Qed.

(** [deactivateBottle]'s swap and pop: what is left in the array are
    ids it held before, other than [bottleId]. *)
Lemma swap_pop_member st b l p x :
  active_ok st →
  last (activeBottleIds st) = Some l →
  (N.to_nat (default 0%N (activeBottleIndex st !! b)) < length (activeBottleIds st))%nat →
  removelast (<[N.to_nat (default 0 (activeBottleIndex st !! b)) := l]> (activeBottleIds st))
    !! p = Some x →
  x ≠ b ∧ x ∈ activeBottleIds st.
Proof.
  intros Ha Hlast Hi [Hp Hx]%lookup_swap_pop; [|done].
  rewrite last_lookup in Hlast.
  destruct (decide (p = _)) as [->|Hne].
  - subst x. split; [|by eapply list_elem_of_lookup_2].
    intros ->. apply (ok_active_index _ Ha) in Hlast. rewrite Hlast in Hp. simpl in Hp. lia.
  - split; [|by eapply list_elem_of_lookup_2].
    intros ->. apply (ok_active_index _ Ha) in Hx. rewrite Hx in Hne. simpl in Hne. lia.
Qed.

Lemma active_ok_execute m c st st' :
  store_ok st → active_ok st → execute m c st = Ret st' → active_ok st'.
Proof.
  intros Hs Ha He. destruct c; simpl in He.
  - apply sendBottle_Ret in He as [_ ->].
    assert (∀ id, id ∈ activeBottleIds st → id ≠ _bottleIdCounter st + 1) as Hold.
    { intros id Hid. apply (ok_active_live _ Ha) in Hid as [Hid _].
      apply bottleExists_iff in Hid. lia. }
    split; simpl.
    + apply NoDup_app. split_and!; [apply Ha| |apply NoDup_singleton].
      intros x Hx ->%list_elem_of_singleton. by apply Hold in Hx.
    + intros p id [Hp|[Hp Hid]]%lookup_app_Some.
      * rewrite lookup_insert_ne; [by apply Ha|].
        intros <-. by eapply Hold; [eapply list_elem_of_lookup_2|].
      * apply list_lookup_singleton_Some in Hid as [Hp0 <-].
        rewrite lookup_insert_eq. f_equal. lia.
    + intros id [Hid| ->%list_elem_of_singleton]%elem_of_app.
      * erewrite bottle_update by done. rewrite decide_False by (intros <-; by eapply Hold).
        destruct (ok_active_live _ Ha _ Hid) as [Hex ?]. apply bottleExists_iff in Hex.
        split; [|done]. apply bottleExists_iff. simpl. lia.
      * erewrite bottle_update by done. rewrite decide_True by done.
        split; [|done]. apply bottleExists_iff. simpl. lia.
  - apply replyToBottle_Ret in He as (_ & _ & _ & _ & _ & ->).
    apply (active_ok_same st); try done.
    intros id. erewrite bottle_update by done. by case_decide; [subst|].
  - apply replyToReply_Ret in He as (_ & _ & _ & _ & ->).
    apply (active_ok_same st); try done.
    intros id. erewrite bottle_update by done. by case_decide; [subst|].
  - apply skipBottle_Ret in He as (_ & _ & _ & _ & _ & ->). by apply (active_ok_same st).
  - apply deactivateBottle_Ret in He as (l & _ & _ & Hlast & Hi & ->).
    pose proof Hlast as Hl. rewrite last_lookup in Hl.
    split; simpl.
    + apply NoDup_alt. intros p q x Hp Hq.
      pose proof (ok_active_nodup _ Ha) as Hn.
      apply lookup_swap_pop in Hp as [Hp Hpx]; [|done].
      apply lookup_swap_pop in Hq as [Hq Hqx]; [|done].
      destruct (decide (p = _)) as [->|Hpi], (decide (q = _)) as [->|Hqi]; [done| | |].
      * subst x. pose proof (NoDup_lookup _ _ _ _ Hn Hl Hqx). lia.
      * subst x. pose proof (NoDup_lookup _ _ _ _ Hn Hl Hpx). lia.
      * by eapply NoDup_lookup.
    + intros p x Hx. destruct (swap_pop_member _ _ _ _ _ Ha Hlast Hi Hx) as [Hxb _].
      rewrite lookup_delete_ne by done.
      apply lookup_swap_pop in Hx as [Hp Hx]; [|done].
      destruct (decide (p = _)) as [->|Hpi].
      * subst x. rewrite lookup_insert_eq. f_equal. lia.
      * rewrite lookup_insert_ne; [by apply Ha|]. intros ->.
        pose proof (NoDup_lookup _ _ _ _ (ok_active_nodup _ Ha) Hl Hx). lia.
    + intros x [p Hx]%list_elem_of_lookup_1.
      destruct (swap_pop_member _ _ _ _ _ Ha Hlast Hi Hx) as [Hxb Hin].
      erewrite (bottle_update _ st _ _ x) by done. rewrite decide_False by done.
      by apply (ok_active_live _ Ha).
Qed.

(** The lists of a user: [userBottles] holds the ids of the bottles
    that user sent, [userReplies] the ids of the replies that user
    wrote. *)
Record lists_ok (st : State) : Prop := {
  ok_userBottles : ∀ u id,
    id ∈ default [] (userBottles st !! u) ↔
    ∃ b, bottles st !! id = Some b ∧ Bottle.sender b = u;
  ok_userBottles_nodup : ∀ u, NoDup (default [] (userBottles st !! u));
  ok_userReplies : ∀ u rid,
    rid ∈ default [] (userReplies st !! u) ↔
    ∃ r, replies st !! rid = Some r ∧ Reply.replier r = u;
  ok_userReplies_nodup : ∀ u, NoDup (default [] (userReplies st !! u))
}.

Lemma lists_ok_empty : lists_ok empty.
Proof.
  split; simpl.
  - intros u id. rewrite lookup_empty. simpl. split; [by intros ?%elem_of_nil|].
    intros (r & Hr & _). by rewrite lookup_empty in Hr.
  - intros u. rewrite lookup_empty. apply NoDup_nil_2.
  - intros u id. rewrite lookup_empty. simpl. split; [by intros ?%elem_of_nil|].
    intros (r & Hr & _). by rewrite lookup_empty in Hr.
  - intros u. rewrite lookup_empty. apply NoDup_nil_2.
Qed.

Lemma sender_of_update st b0 (f : Bottle.t → Bottle.t) id u :
  store_ok st → bottleExists st b0 = true →
  (∀ x, Bottle.sender (f x) = Bottle.sender x) →
  (∃ b, <[b0 := f (bottle st b0)]> (bottles st) !! id = Some b ∧ Bottle.sender b = u) ↔
  (∃ b, bottles st !! id = Some b ∧ Bottle.sender b = u).
Proof.
  intros Hs Hex Hf. pose proof (store_ok_bottle _ _ Hs Hex) as Hb0.
  destruct (decide (b0 = id)) as [<-|Hne].
  - rewrite lookup_insert_eq, Hb0. split.
    + intros (b & [= <-] & <-). exists (bottle st b0). by rewrite Hf.
    + intros (b & [= <-] & <-). exists (f (bottle st b0)). by rewrite Hf.
  - by rewrite lookup_insert_ne.
Qed.

Lemma userReplies_add st R u rid :
  store_ok st → lists_ok st →
  rid ∈ default [] (push (Reply.replier R) (_replyIdCounter st + 1) (userReplies st) !! u) ↔
  ∃ r, <[_replyIdCounter st + 1 := R]> (replies st) !! rid = Some r ∧ Reply.replier r = u.
Proof.
  intros Hs Hl. pose proof (store_ok_fresh_reply _ Hs) as Hfresh. rewrite push_lookup.
  destruct (decide (_replyIdCounter st + 1 = rid)) as [<-|Hne].
  - rewrite lookup_insert_eq. destruct (decide (Reply.replier R = u)) as [<-|Hu].
    + split; [by exists R|]. intros _. apply elem_of_app. right. by left.
    + split; [|by intros (r & [= <-] & ?)].
      intros (r & Hr & _)%(ok_userReplies _ Hl). congruence.
  - rewrite lookup_insert_ne by done. rewrite <- (ok_userReplies _ Hl).
    destruct (decide (Reply.replier R = u)) as [<-|Hu]; [|done].
    rewrite elem_of_app, list_elem_of_singleton. intuition congruence.
Qed.

Lemma userReplies_add_nodup st replier u :
  store_ok st → lists_ok st →
  NoDup (default [] (push replier (_replyIdCounter st + 1) (userReplies st) !! u)).
Proof.
  intros Hs Hl. pose proof (store_ok_fresh_reply _ Hs) as Hfresh. rewrite push_lookup.
  destruct (decide (replier = u)) as [<-|Hu]; [|apply Hl].
  apply NoDup_app. split_and!; [apply Hl| |apply NoDup_singleton].
  intros x Hx ->%list_elem_of_singleton.
  apply (ok_userReplies _ Hl) in Hx as (r & Hr & _). congruence.
Qed.

Lemma lists_ok_execute m c st st' :
  store_ok st → lists_ok st → execute m c st = Ret st' → lists_ok st'.
Proof.
  intros Hs Hl He. destruct c; simpl in He.
  - apply sendBottle_Ret in He as [_ ->]. split; simpl; [| |apply Hl|apply Hl].
    + pose proof (store_ok_fresh_bottle _ Hs) as Hfresh.
      intros u id. rewrite push_lookup.
      destruct (decide (_bottleIdCounter st + 1 = id)) as [<-|Hne].
      * rewrite lookup_insert_eq. destruct (decide (msg_sender m = u)) as [<-|Hu].
        -- split; [by eexists|]. intros _. apply elem_of_app. right. by left.
        -- split; [|by intros (r & [= <-] & ?)].
           intros (r & Hr & _)%(ok_userBottles _ Hl). congruence.
      * rewrite lookup_insert_ne by done. rewrite <- (ok_userBottles _ Hl).
        destruct (decide (msg_sender m = u)) as [<-|Hu]; [|done].
        rewrite elem_of_app, list_elem_of_singleton. intuition congruence.
    + pose proof (store_ok_fresh_bottle _ Hs) as Hfresh.
      intros u. rewrite push_lookup.
      destruct (decide (msg_sender m = u)) as [<-|Hu]; [|apply Hl].
      apply NoDup_app. split_and!; [apply Hl| |apply NoDup_singleton].
      intros x Hx ->%list_elem_of_singleton.
      apply (ok_userBottles _ Hl) in Hx as (r & Hr & _). congruence.
  - apply replyToBottle_Ret in He as (Hex & _ & _ & _ & _ & ->). split; simpl.
    + intros u id. rewrite (sender_of_update st bottleId addReplyCount) by done. apply Hl.
    + apply Hl.
    + intros u rid.
      by apply (userReplies_add st (Reply.mk bottleId (msg_sender m) content (block_timestamp m) 0)).
    + intros u. by apply userReplies_add_nodup.
  - apply replyToReply_Ret in He as (Hex & _ & _ & _ & ->).
    assert (bottleExists st (Reply.bottleId (default Reply.zero (replies st !! replyId))) = true).
    { eapply ok_reply_bottle; [done|]. by apply store_ok_reply_of. }
    split; simpl.
    + intros u id. rewrite (sender_of_update st _ addReplyCount) by done. apply Hl.
    + apply Hl.
    + intros u rid.
      by apply (userReplies_add st (Reply.mk _ (msg_sender m) content (block_timestamp m) replyId)).
    + intros u. by apply userReplies_add_nodup.
  - apply skipBottle_Ret in He as (_ & _ & _ & _ & _ & ->). by destruct Hl.
  - apply deactivateBottle_Ret in He as (l & Hex & _ & _ & _ & ->).
    split; simpl; [|apply Hl..].
    intros u id. rewrite (sender_of_update st bottleId deactivate) by done. apply Hl.
Qed.

(** Every storage the contract can reach from its deployment. *)
Record ledger_ok (st : State) : Prop := {
  ok_store : store_ok st;
  ok_threads : threads_ok st;
  ok_guards : guard_ok st;
  ok_active : active_ok st;
  ok_lists : lists_ok st
}.

Lemma ledger_ok_empty : ledger_ok empty.
Proof.
  split; auto using store_ok_empty, threads_ok_empty, guard_ok_empty, active_ok_empty,
    lists_ok_empty.
Qed.

Lemma ledger_ok_transact st tx : ledger_ok st → ledger_ok (transact st tx).
Proof.
  intros [Hs Ht Hg Ha Hl]. unfold transact.
  destruct (execute tx.1 tx.2 st) as [st'|] eqn:He; [|done].
  split; eauto using store_ok_execute, threads_ok_execute, guard_ok_execute,
    active_ok_execute, lists_ok_execute.
Qed.

Lemma ledger_ok_run txs : ∀ st, ledger_ok st → ledger_ok (run txs st).
Proof.
  unfold run. induction txs as [|tx txs IH]; intros st Hst; [done|].
  simpl. by apply IH, ledger_ok_transact.
Qed.

End LedgerInvariants.

(** ** The ledger: records, threads and lists *)

(** Rewrite [bottle st' b], for the storage [st'] a call has written
    from [st], into the record the call has put there. *)
Ltac bottle_after st :=
  match goal with
  | |- context [DriftBottle.bottle ?s ?b] =>
      lazymatch s with
      | st => fail
      | _ => erewrite (bottle_update s st _ _ b) by done
      end
  end.

Section LedgerRecords.
Import DriftBottle DriftBottleViews.
Local Open Scope N_scope.

Lemma getBottle_Ret st id b :
  store_ok st → getBottle st id = Ret b ↔ bottles st !! id = Some b.
Proof.
  intros Hs. unfold getBottle. destruct (bottleExists st id) eqn:Hex; simpl.
  - rewrite (store_ok_bottle _ _ Hs Hex). split; congruence.
  - split; [done|]. intros Hb.
    assert (bottleExists st id = true) by (by apply (ok_bottles _ Hs); exists b). congruence.
Qed.

Lemma getReply_Ret st rid r :
  store_ok st → getReply st rid = Ret r ↔ replies st !! rid = Some r.
Proof.
  intros Hs. unfold getReply. destruct (replyExists st rid) eqn:Hex; simpl.
  - destruct (ok_replies _ Hs rid) as [_ [r' Hr']]; [done|]. rewrite Hr'. simpl.
    split; congruence.
  - split; [done|]. intros Hb.
    assert (replyExists st rid = true) by (by apply (ok_replies _ Hs); exists r). congruence.
Qed.

(** What may change in the record of a bottle: it can be deactivated
    and its [replyCount] can grow. *)
Definition extends (b b' : Bottle.t) : Prop :=
  Bottle.id b' = Bottle.id b ∧
  Bottle.sender b' = Bottle.sender b ∧
  Bottle.content b' = Bottle.content b ∧
  Bottle.timestamp b' = Bottle.timestamp b ∧
  (Bottle.isActive b' = true → Bottle.isActive b = true) ∧
  Bottle.replyCount b ≤ Bottle.replyCount b'.

Lemma extends_refl b : extends b b.
Proof. by repeat split. Qed.

Lemma extends_trans b1 b2 b3 : extends b1 b2 → extends b2 b3 → extends b1 b3.
Proof.
  intros (? & ? & ? & ? & ? & ?) (? & ? & ? & ? & ? & ?).
  repeat split; try congruence; [auto|lia].
Qed.

Lemma execute_extends m c st st' b :
  execute m c st = Ret st' → bottleExists st b = true →
  bottleExists st' b = true ∧ extends (bottle st b) (bottle st' b).
Proof.
  intros He Hb. destruct c; simpl in He.
  - apply sendBottle_Ret in He as [_ ->]. apply bottleExists_iff in Hb. split.
    + apply bottleExists_iff. simpl. lia.
    + bottle_after st. rewrite decide_False by lia. apply extends_refl.
  - apply replyToBottle_Ret in He as (_ & _ & _ & _ & _ & ->). split; [done|].
    bottle_after st.
    destruct (decide (bottleId = b)) as [<-|]; [|apply extends_refl].
    repeat split; simpl; [done|lia].
  - apply replyToReply_Ret in He as (_ & _ & _ & _ & ->). split; [done|].
    bottle_after st.
    destruct (decide (_ = b)) as [<-|]; [|apply extends_refl].
    repeat split; simpl; [done|lia].
  - apply skipBottle_Ret in He as (_ & _ & _ & _ & _ & ->). split; [done|apply extends_refl].
  - apply deactivateBottle_Ret in He as (l & _ & _ & _ & _ & ->). split; [done|].
    bottle_after st.
    destruct (decide (bottleId = b)) as [<-|]; [|apply extends_refl].
    repeat split; simpl; [done|lia].
Qed.

Lemma run_extends txs : ∀ st b,
  bottleExists st b = true →
  bottleExists (run txs st) b = true ∧ extends (bottle st b) (bottle (run txs st) b).
Proof.
  unfold run. induction txs as [|[m c] txs IH]; intros st b Hb; simpl.
  - split; [done|apply extends_refl].
  - assert (bottleExists (transact st (m, c)) b = true ∧
            extends (bottle st b) (bottle (transact st (m, c)) b)) as [Hb' Hext].
    { unfold transact. simpl. destruct (execute m c st) as [st'|] eqn:He.
      - by eapply execute_extends.
      - split; [done|apply extends_refl]. }
    destruct (IH _ b Hb') as [? ?]. split; [done|]. by eapply extends_trans.
Qed.

Lemma execute_keeps_reply m c st st' rid :
  execute m c st = Ret st' → replyExists st rid = true →
  replyExists st' rid = true ∧ replies st' !! rid = replies st !! rid.
Proof.
  intros He Hr. pose proof Hr as Hr'. apply replyExists_iff in Hr'. destruct c; simpl in He.
  - by apply sendBottle_Ret in He as [_ ->].
  - apply replyToBottle_Ret in He as (_ & _ & _ & _ & _ & ->). split.
    + apply replyExists_iff. simpl. lia.
    + simpl. apply lookup_insert_ne. lia.
  - apply replyToReply_Ret in He as (_ & _ & _ & _ & ->). split.
    + apply replyExists_iff. simpl. lia.
    + simpl. apply lookup_insert_ne. lia.
  - by apply skipBottle_Ret in He as (_ & _ & _ & _ & _ & ->).
  - by apply deactivateBottle_Ret in He as (l & _ & _ & _ & _ & ->).
Qed.

Lemma run_keeps_reply txs : ∀ st rid,
  replyExists st rid = true →
  replyExists (run txs st) rid = true ∧ replies (run txs st) !! rid = replies st !! rid.
Proof.
  unfold run. induction txs as [|[m c] txs IH]; intros st rid Hr; simpl; [done|].
  assert (replyExists (transact st (m, c)) rid = true ∧
          replies (transact st (m, c)) !! rid = replies st !! rid) as [Hr' Heq].
  { unfold transact. simpl. destruct (execute m c st) as [st'|] eqn:He; [|done].
    by eapply execute_keeps_reply. }
  destruct (IH _ rid Hr') as [? ?]. split; [done|]. congruence.
Qed.

(** Three accounts, and a ledger on which the first two have sent a
    bottle each. *)
Definition anna : Msg := {| msg_sender := 11; block_timestamp := 1000 |}.
Definition ben : Msg := {| msg_sender := 12; block_timestamp := 2000 |}.
Definition cleo : Msg := {| msg_sender := 13; block_timestamp := 3000 |}.

Definition two_bottles : list (Msg * Call) :=
  [(anna, SendBottle "from anna"); (ben, SendBottle "from ben")].

(** X1.  On every storage the contract reaches from its deployment,
    [getBottle(id)] returns a record exactly for the ids 1 to
    [getBottleCount()], the record stored under [id], which carries
    [id] itself and a content of 1 to 1000 bytes; for any other id it
    reverts with "Bottle does not exist" and nothing is stored there.
    [getReply] does the same for the ids 1 to [getReplyCount()]: the
    reply belongs to a bottle that exists, has a content of 1 to 1000
    bytes, and is either a reply to the bottle or answers an earlier
    reply of the same bottle written by someone else. *)
Theorem getBottle_serves_the_allocated_ids (txs : list (Msg * Call)) :
  let st := run txs empty in
  (∀ id,
     match getBottle st id with
     | Ret b =>
         0 < id ≤ getBottleCount st ∧ bottles st !! id = Some b ∧ Bottle.id b = id ∧
         (0 < String.length (Bottle.content b) ≤ 1000)%nat
     | Throw e =>
         e = Reason "Bottle does not exist" ∧ ¬ (0 < id ≤ getBottleCount st) ∧
         bottles st !! id = None
     end) ∧
  (∀ rid,
     match getReply st rid with
     | Ret r =>
         0 < rid ≤ getReplyCount st ∧ replies st !! rid = Some r ∧
         bottleExists st (Reply.bottleId r) = true ∧
         (0 < String.length (Reply.content r) ≤ 1000)%nat ∧
         answers st rid r
     | Throw e =>
         e = Reason "Reply does not exist" ∧ ¬ (0 < rid ≤ getReplyCount st) ∧
         replies st !! rid = None
     end).
Proof.
  intros st. destruct (ledger_ok_run txs empty ledger_ok_empty) as [Hs Ht _ _ _].
  fold st in Hs, Ht. split.
  - intros id. unfold getBottle, getBottleCount.
    destruct (bottleExists st id) eqn:Hex; simpl.
    + pose proof (store_ok_bottle _ _ Hs Hex) as Hb.
      split; [by apply bottleExists_iff|].
      split; [done|]. split; [by eapply ok_bottle_id|by eapply ok_bottle_content].
    + split; [done|]. split.
      * rewrite <- bottleExists_iff. congruence.
      * apply eq_None_not_Some. rewrite (ok_bottles _ Hs). congruence.
  - intros rid. unfold getReply, getReplyCount.
    destruct (replyExists st rid) eqn:Hex; simpl.
    + pose proof (store_ok_reply_of _ _ Hs Hex) as Hr.
      split; [by apply replyExists_iff|].
      split; [done|]. split; [by eapply ok_reply_bottle|].
      split; [by eapply ok_reply_content|by eapply ok_reply_parent].
    + split; [done|]. split.
      * rewrite <- replyExists_iff. congruence.
      * apply eq_None_not_Some. rewrite (ok_replies _ Hs). congruence.
Qed.

(** X2.  A record, once stored, stays: whatever transactions follow,
    a bottle that exists keeps its id, sender, content and timestamp,
    is never reactivated once it is inactive, and its [replyCount]
    never decreases; a reply that exists is never changed at all. *)
Theorem stored_records_are_permanent (st : State) (txs : list (Msg * Call)) :
  (∀ b, bottleExists st b = true →
        bottleExists (run txs st) b = true ∧
        extends (bottle st b) (bottle (run txs st) b)) ∧
  (∀ rid, replyExists st rid = true →
          replyExists (run txs st) rid = true ∧
          replies (run txs st) !! rid = replies st !! rid).
Proof. split; [apply run_extends|apply run_keeps_reply]. Qed.

Lemma stored_records_are_permanent_witness :
  let st := run (two_bottles ++ [(ben, ReplyToBottle 1 "hello anna")]) empty in
  let later := [(cleo, ReplyToBottle 1 "hi"); (anna, DeactivateBottle 1);
                (ben, ReplyToReply 2 "too late")] in
  bottleExists st 1 = true ∧ replyExists st 1 = true ∧
  extends (bottle st 1) (bottle (run later st) 1) ∧
  Bottle.isActive (bottle (run later st) 1) = false ∧
  replies (run later st) !! 1 = replies st !! 1.
Proof.
  intros st later.
  destruct (stored_records_are_permanent st later) as [Hb Hr].
  assert (bottleExists st 1 = true) as H1 by reflexivity.
  assert (replyExists st 1 = true) as H2 by reflexivity.
  split_and!; [done|done|apply (Hb 1 H1)|reflexivity|apply (Hr 1 H2)].
Defined.

(** X3.  On every reachable storage the [replyCount] of a bottle is
    the length of [bottleReplies] for it, that list holds no id twice,
    and it lists exactly the replies [getReply] returns for that
    bottle: replies to the bottle and replies to its replies alike. *)
Theorem replyCount_is_the_length_of_the_thread (txs : list (Msg * Call)) (b : N) :
  let st := run txs empty in
  let thread := default [] (bottleReplies st !! b) in
  Bottle.replyCount (bottle st b) = N.of_nat (length thread) ∧
  NoDup thread ∧
  (∀ rid, rid ∈ thread ↔ ∃ r, getReply st rid = Ret r ∧ Reply.bottleId r = b) ∧
  (bottleExists st b = false → thread = []).
Proof.
  intros st thread. destruct (ledger_ok_run txs empty ledger_ok_empty) as [Hs Ht _ _ _].
  fold st in Hs, Ht. split_and!.
  - apply Ht.
  - apply Ht.
  - intros rid. unfold thread. rewrite (ok_thread _ Ht).
    by setoid_rewrite (getReply_Ret st _ _ Hs).
  - by apply thread_of_missing_bottle.
Qed.

(** X4.  On every reachable storage [getUserBottles(user)] lists,
    each once, exactly the bottles whose sender is [user], and
    [getUserReplies(user)] exactly the replies whose replier is
    [user]. *)
Theorem getUserBottles_lists_what_the_user_sent (txs : list (Msg * Call)) (user : N) :
  let st := run txs empty in
  NoDup (getUserBottles st user) ∧
  (∀ id, id ∈ getUserBottles st user ↔
         ∃ b, getBottle st id = Ret b ∧ Bottle.sender b = user) ∧
  NoDup (getUserReplies st user) ∧
  (∀ rid, rid ∈ getUserReplies st user ↔
          ∃ r, getReply st rid = Ret r ∧ Reply.replier r = user).
Proof.
  intros st. destruct (ledger_ok_run txs empty ledger_ok_empty) as [Hs _ _ _ Hl].
  fold st in Hs, Hl. unfold getUserBottles, getUserReplies. split_and!.
  - apply Hl.
  - intros id. rewrite (ok_userBottles _ Hl). by setoid_rewrite (getBottle_Ret st _ _ Hs).
  - apply Hl.
  - intros rid. rewrite (ok_userReplies _ Hl). by setoid_rewrite (getReply_Ret st _ _ Hs).
Qed.

(** X5.  On every reachable storage [hasUserRepliedToBottle(user,
    bottleId)] holds exactly when a reply of [user] to the bottle
    itself ([replyToReplyId] 0) is stored, and at most one such reply
    is stored for a user and a bottle.  Replies made through
    [replyToReply] are not counted. *)
Theorem at_most_one_direct_reply (txs : list (Msg * Call)) (user bottleId : N) :
  let st := run txs empty in
  (hasUserRepliedToBottle st user bottleId = true ↔
   ∃ rid, direct_reply st user bottleId rid) ∧
  (∀ rid1 rid2,
     direct_reply st user bottleId rid1 → direct_reply st user bottleId rid2 →
     rid1 = rid2).
Proof.
  intros st. destruct (ledger_ok_run txs empty ledger_ok_empty) as [_ _ Hg _ _].
  split; [apply Hg|apply Hg].
Qed.

End LedgerRecords.

(** ** The ledger: skipping *)

Section LedgerSkips.
Import DriftBottle DriftBottleViews.
Local Open Scope N_scope.

Definition skipped (st : State) (user bottleId : N) : bool :=
  UserBottleState.hasSkipped (getUserBottleState st user bottleId).

Lemma execute_keeps_skipped m c st st' user b :
  execute m c st = Ret st' → skipped st user b = true → skipped st' user b = true.
Proof.
  intros He Hsk. destruct c; simpl in He.
  - by apply sendBottle_Ret in He as [_ ->].
  - by apply replyToBottle_Ret in He as (_ & _ & _ & _ & _ & ->).
  - by apply replyToReply_Ret in He as (_ & _ & _ & _ & ->).
  - apply skipBottle_Ret in He as (_ & _ & _ & _ & _ & ->).
    unfold skipped, getUserBottleState in *. simpl.
    destruct (decide ((msg_sender m, bottleId) = (user, b))) as [->|Hne];
      [by rewrite lookup_insert_eq | by rewrite lookup_insert_ne].
  - by apply deactivateBottle_Ret in He as (l & _ & _ & _ & _ & ->).
Qed.

Lemma run_keeps_skipped txs : ∀ st user b,
  skipped st user b = true → skipped (run txs st) user b = true.
Proof.
  unfold run. induction txs as [|[m c] txs IH]; intros st user b Hsk; [done|].
  simpl. apply IH. unfold transact. simpl.
  destruct (execute m c st) as [st'|] eqn:He; [|done]. by eapply execute_keeps_skipped.
Qed.

(** X6.  A bottle is skipped once.  After a [skipBottle] that went
    through, and whatever transactions follow, [getUserBottleState]
    reports [hasSkipped] for that user and bottle and every further
    [skipBottle] of the user on the bottle reverts; it reverts with
    "Already skipped this bottle" when the bottle is still active and
    the user has not replied to it in between. *)
Theorem skipBottle_only_once (st st1 : State) (m m' : Msg) (b : N)
    (txs : list (Msg * Call)) :
  skipBottle m b st = Ret st1 →
  msg_sender m' = msg_sender m →
  let st2 := run txs st1 in
  UserBottleState.hasSkipped (getUserBottleState st2 (msg_sender m) b) = true ∧
  (∃ why, skipBottle m' b st2 = Throw why) ∧
  (Bottle.isActive (bottle st2 b) = true →
   hasUserRepliedToBottle st2 (msg_sender m) b = false →
   skipBottle m' b st2 = Throw (Reason "Already skipped this bottle")).
Proof.
  intros Hskip Hsame st2.
  apply skipBottle_Ret in Hskip as (Hex & _ & Hown & _ & _ & ->).
  match goal with st2 := run txs ?s |- _ => set (st1 := s) in * end.
  assert (skipped st1 (msg_sender m) b = true) as Hsk.
  { unfold skipped, getUserBottleState, st1. simpl. by rewrite lookup_insert_eq. }
  apply (run_keeps_skipped txs) in Hsk. fold st2 in Hsk.
  destruct (run_extends txs st1 b Hex) as [Hex2 (_ & Hsender & _)]. fold st2 in Hex2, Hsender.
  assert ((Bottle.sender (bottle st2 b) =? msg_sender m') = false) as Hne.
  { apply N.eqb_neq. rewrite Hsender, Hsame. exact Hown. }
  assert (∀ st, skipped st (msg_sender m) b = true →
            UserBottleState.hasSkipped
              (default UserBottleState.zero (userBottleStates st !! (msg_sender m', b))) = true)
    as Hflag by (intros ?; by rewrite Hsame).
  split; [exact Hsk|]. split.
  - unfold skipBottle. rewrite Hex2, Hne, (Hflag _ Hsk). simpl.
    repeat (case_match; eauto).
  - intros Hact Hrep. unfold skipBottle.
    rewrite Hex2, Hact, Hne, Hsame. unfold hasUserRepliedToBottle in Hrep.
    rewrite Hrep. rewrite <- Hsame, (Hflag _ Hsk). reflexivity.
Qed.

Lemma skipBottle_only_once_witness :
  let st := run two_bottles empty in
  ∃ st1, skipBottle cleo 1 st = Ret st1 ∧
         skipBottle cleo 1 (run [(ben, ReplyToBottle 1 "hello")] st1)
           = Throw (Reason "Already skipped this bottle").
Proof.
  intros st.
  destruct (skipBottle cleo 1 st) as [st1|] eqn:Hfirst; [|vm_compute in Hfirst; discriminate].
  exists st1. split; [done|].
  destruct (skipBottle_only_once st st1 cleo cleo 1 [(ben, ReplyToBottle 1 "hello")]
              Hfirst eq_refl) as (_ & _ & Hagain).
  apply Hagain; vm_compute in Hfirst; injection Hfirst as <-; vm_compute; reflexivity.
Defined.

(** The storage outside the per-user skip state and the event log. *)
Definition same_ledger (st st' : State) : Prop :=
  _bottleIdCounter st' = _bottleIdCounter st ∧
  _replyIdCounter st' = _replyIdCounter st ∧
  bottles st' = bottles st ∧
  replies st' = replies st ∧
  userBottles st' = userBottles st ∧
  userReplies st' = userReplies st ∧
  bottleReplies st' = bottleReplies st ∧
  hasUserReplied st' = hasUserReplied st ∧
  activeBottleIds st' = activeBottleIds st ∧
  activeBottleIndex st' = activeBottleIndex st.

(** Two storages that differ by one skip and by nothing else: the
    second has, besides what the first has, what the user's
    [skipBottle] of the bottle at time [timestamp] has written — the
    state kept for that user and bottle, and that one event in the
    log. *)
Definition one_skip_apart (user bottleId timestamp : N) (st st' : State) : Prop :=
  same_ledger st st' ∧
  (∀ user' bottleId', (user', bottleId') ≠ (user, bottleId) →
     userBottleStates st' !! (user', bottleId') = userBottleStates st !! (user', bottleId')) ∧
  ∃ before after,
    events st = before ++ after ∧
    events st' = before ++ BottleSkipped bottleId user timestamp :: after.

Ltac by_cases :=
  repeat match goal with
    | |- context [if ?c then _ else _] => destruct c; simpl
    | |- context [match last ?l with _ => _ end] => destruct (last l); simpl
    end;
  try done.

Lemma one_skip_apart_execute user bottleId timestamp m c st st' :
  one_skip_apart user bottleId timestamp st st' →
  (∀ b, c = SkipBottle b → (msg_sender m, b) ≠ (user, bottleId)) →
  match execute m c st, execute m c st' with
  | Ret a, Ret a' => one_skip_apart user bottleId timestamp a a'
  | Throw e, Throw e' => e = e'
  | _, _ => False
  end.
Proof.
  destruct st, st'. unfold one_skip_apart, same_ledger. simpl.
  intros ((-> & -> & -> & -> & -> & -> & -> & -> & -> & ->) & Hstates
          & before & after & -> & ->) Hc.
  assert (∀ e, ∃ before0 after0,
            (before ++ after) ++ [e] = before0 ++ after0 ∧
            (before ++ BottleSkipped bottleId user timestamp :: after) ++ [e]
            = before0 ++ BottleSkipped bottleId user timestamp :: after0) as Hlog.
  { intros e. exists before, (after ++ [e]). by rewrite <- !app_assoc. }
  destruct c as [content|b content|r content|b|b]; simpl.
  - unfold sendBottle. simpl. by_cases; by repeat split.
  - unfold replyToBottle, bottleExists, bottle, replied. simpl. by_cases; by repeat split.
  - unfold replyToReply, replyExists, bottle. simpl. by_cases; by repeat split.
  - specialize (Hc b eq_refl).
    unfold skipBottle, bottleExists, bottle, replied. simpl.
    rewrite (Hstates _ _ Hc).
    by_cases; [].
    split; [by repeat split|]. split; [|done].
    intros user' bottleId' Hne.
    destruct (decide ((msg_sender m, b) = (user', bottleId'))) as [->|Hne'].
    + by rewrite !lookup_insert_eq.
    + rewrite !lookup_insert_ne by done. by apply Hstates.
  - unfold deactivateBottle, bottleExists, bottle. simpl.
    by_cases; (split; [by repeat split|]; split; [done|]; by exists before, after).
Qed.

Lemma one_skip_apart_run user bottleId timestamp txs : ∀ st st',
  one_skip_apart user bottleId timestamp st st' →
  Forall (fun tx => ∀ b, tx.2 = SkipBottle b → (msg_sender tx.1, b) ≠ (user, bottleId)) txs →
  one_skip_apart user bottleId timestamp (run txs st) (run txs st').
Proof.
  unfold run. induction txs as [|[m c] txs IH]; intros st st' Hst Htxs; [done|].
  apply Forall_cons in Htxs as [Htx Htxs]. simpl. apply IH; [|done].
  pose proof (one_skip_apart_execute user bottleId timestamp m c st st' Hst Htx) as Hstep.
  unfold transact. simpl.
  destruct (execute m c st), (execute m c st'); done.
Qed.

(** X7.  Skipping restricts nothing but skipping again.  A
    [skipBottle] that goes through sets the skip flag that the
    contract keeps for that user and bottle, leaving the other two
    flags of that state as they were, and adds one [BottleSkipped]
    event to the log; it writes nothing else: the state kept for
    every other user and bottle, and all the rest of the storage, are
    as before.  Afterwards every call other than that user's
    [skipBottle] of that bottle — by anyone, [skipBottle] by other
    users and on other bottles included — succeeds or reverts exactly
    as it would have without the skip, with the same reason, and
    leaves the two storages one skip apart again; so any chain of
    such calls ends in storages that differ by that skip only.
    [getRandomBottle] answers the same: the contract still hands the
    skipped bottle to the user who skipped it, and lets that user
    reply to it. *)
Theorem skipBottle_restricts_nothing_else (st st1 : State) (m : Msg) (b : N) :
  skipBottle m b st = Ret st1 →
  let old := getUserBottleState st (msg_sender m) b in
  st1 = mkState (_bottleIdCounter st) (_replyIdCounter st) (bottles st) (replies st)
          (userBottles st) (userReplies st) (bottleReplies st)
          (<[(msg_sender m, b) :=
               UserBottleState.mk (UserBottleState.hasViewed old)
                 (UserBottleState.hasReplied old) true]> (userBottleStates st))
          (hasUserReplied st) (activeBottleIds st) (activeBottleIndex st)
          (events st ++ [BottleSkipped b (msg_sender m) (block_timestamp m)]) ∧
  UserBottleState.hasSkipped old = false ∧
  (∀ user' b', (user', b') ≠ (msg_sender m, b) →
     getUserBottleState st1 user' b' = getUserBottleState st user' b') ∧
  same_ledger st st1 ∧
  (∀ m' seed, getRandomBottle m' seed st1 = getRandomBottle m' seed st) ∧
  (∀ m' c, (∀ b', c = SkipBottle b' → (msg_sender m', b') ≠ (msg_sender m, b)) →
     match execute m' c st, execute m' c st1 with
     | Ret a, Ret a1 => one_skip_apart (msg_sender m) b (block_timestamp m) a a1
     | Throw e, Throw e1 => e = e1
     | _, _ => False
     end) ∧
  (∀ txs,
     Forall (fun tx => ∀ b', tx.2 = SkipBottle b' →
                       (msg_sender tx.1, b') ≠ (msg_sender m, b)) txs →
     one_skip_apart (msg_sender m) b (block_timestamp m) (run txs st) (run txs st1)).
Proof.
  intros Hskip old.
  assert (st1 = mkState (_bottleIdCounter st) (_replyIdCounter st) (bottles st) (replies st)
          (userBottles st) (userReplies st) (bottleReplies st)
          (<[(msg_sender m, b) :=
               UserBottleState.mk (UserBottleState.hasViewed old)
                 (UserBottleState.hasReplied old) true]> (userBottleStates st))
          (hasUserReplied st) (activeBottleIds st) (activeBottleIndex st)
          (events st ++ [BottleSkipped b (msg_sender m) (block_timestamp m)]) ∧
          UserBottleState.hasSkipped old = false) as [Hst1 Hold].
  { revert Hskip. unfold skipBottle. subst old. unfold getUserBottleState.
    repeat (case_match; try done). intros [= <-]. split; [done|].
    by destruct (UserBottleState.hasSkipped _). }
  assert (one_skip_apart (msg_sender m) b (block_timestamp m) st st1) as Hapart.
  { rewrite Hst1. split; [by repeat split|]. split.
    - intros user' b' Hne. simpl. by rewrite lookup_insert_ne.
    - exists (events st), []. simpl. by rewrite app_nil_r. }
  split; [exact Hst1|]. split; [exact Hold|]. split.
  { intros user' b' Hne. unfold getUserBottleState.
    destruct Hapart as (_ & Hstates & _). by rewrite (Hstates _ _ Hne). }
  split; [by destruct Hapart|]. split; [by rewrite Hst1|]. split.
  - intros m' c Hc. by apply one_skip_apart_execute.
  - intros txs Htxs. by apply one_skip_apart_run.
Qed.

(** Cleo skips Ben's bottle: the contract still draws it for her and
    takes her reply; and Anna's skip of the same bottle goes through
    as it would have. *)
Lemma skipBottle_restricts_nothing_else_witness :
  let st := run two_bottles empty in
  ∃ st1 st2 st3, skipBottle cleo 2 st = Ret st1 ∧
                 getRandomBottle cleo 1 st1 = Ret 2 ∧
                 replyToBottle cleo 2 "on second thought" st1 = Ret st2 ∧
                 skipBottle anna 2 st1 = Ret st3.
Proof.
  intros st.
  destruct (skipBottle cleo 2 st) as [st1|] eqn:Hfirst; [|vm_compute in Hfirst; discriminate].
  destruct (skipBottle_restricts_nothing_else st st1 cleo 2 Hfirst)
    as (_ & _ & _ & _ & Hrandom & Hcalls & _).
  pose proof (Hcalls cleo (ReplyToBottle 2 "on second thought")) as Hreply.
  pose proof (Hcalls anna (SkipBottle 2)) as Hskip. simpl in Hreply, Hskip.
  destruct (replyToBottle cleo 2 "on second thought" st1) as [st2|] eqn:Hr; cycle 1.
  { exfalso. revert Hreply.
    replace (replyToBottle cleo 2 "on second thought" st) with
      (Ret (E := Revert) (run [(cleo, ReplyToBottle 2 "on second thought")] st))
      by (vm_compute; reflexivity).
    intros Hreply. apply Hreply. discriminate. }
  destruct (skipBottle anna 2 st1) as [st3|] eqn:Hs; cycle 1.
  { exfalso. revert Hskip.
    replace (skipBottle anna 2 st) with
      (Ret (E := Revert) (run [(anna, SkipBottle 2)] st))
      by (vm_compute; reflexivity).
    intros Hskip. apply Hskip. intros b' [= <-]. discriminate. }
  exists st1, st2, st3. split; [done|]. split; [|done]. rewrite Hrandom. reflexivity.
Defined.

End LedgerSkips.

(** ** The ledger: the active set *)

Section LedgerActiveSet.
Import DriftBottle DriftBottleViews.
Local Open Scope N_scope.

Lemma ledger_ok_reachable txs : ledger_ok (run txs empty).
Proof. apply ledger_ok_run, ledger_ok_empty. Qed.

Lemma randomIndex_in_range (seed : N) (l : list N) :
  l ≠ [] → is_Some (l !! N.to_nat (seed mod N.of_nat (length l))).
Proof.
  intros Hl. apply lookup_lt_is_Some.
  assert (N.of_nat (length l) ≠ 0) by (destruct l; simpl; [done|lia]).
  pose proof (N.mod_upper_bound seed (N.of_nat (length l))). lia.
Qed.

(** X8.  On every reachable storage the active set holds no bottle
    twice, and [getRandomBottle], whatever the seed, either returns a
    bottle of the active set that exists, is active and was sent by
    someone other than the caller, or reverts with "No bottles
    available" (the set is empty) or "Cannot view your own bottle"
    (the pick is the caller's); it never fails with "Bottle is not
    active" or an index out of range. *)
Theorem getRandomBottle_returns_an_active_foreign_bottle
    (txs : list (Msg * Call)) (m : Msg) (seed : N) :
  let st := run txs empty in
  NoDup (activeBottleIds st) ∧
  match getRandomBottle m seed st with
  | Ret id =>
      id ∈ activeBottleIds st ∧ bottleExists st id = true ∧
      Bottle.isActive (bottle st id) = true ∧ Bottle.sender (bottle st id) ≠ msg_sender m
  | Throw e =>
      (e = Reason "No bottles available" ∧ activeBottleIds st = []) ∨
      (e = Reason "Cannot view your own bottle" ∧
       ∃ id, id ∈ activeBottleIds st ∧ Bottle.sender (bottle st id) = msg_sender m)
  end.
Proof.
  intros st. destruct (ledger_ok_reachable txs) as [_ _ _ Ha _]. fold st in Ha.
  split; [apply Ha|]. unfold getRandomBottle.
  destruct (activeBottleIds st) as [|id0 ids] eqn:Hids; [by left|].
  rewrite <- Hids.
  replace (0 <? N.of_nat (length (activeBottleIds st))) with true
    by (symmetry; apply N.ltb_lt; rewrite Hids; simpl; lia).
  simpl.
  destruct (randomIndex_in_range seed (activeBottleIds st)) as [id Hid]; [by rewrite Hids|].
  rewrite Hid. apply list_elem_of_lookup_2 in Hid.
  destruct (ok_active_live _ Ha _ Hid) as [Hex Hact].
  destruct (N.eqb_spec (Bottle.sender (bottle st id)) (msg_sender m)) as [Hown|Hother]; simpl.
  - right. split; [done|]. by exists id.
  - by rewrite Hact.
Qed.

(** X9.  [getRandomBottle] cannot serve a caller whose own bottles
    are the only active ones: with a non-empty active set in which
    every bottle was sent by the caller it reverts with "Cannot view
    your own bottle" for every seed, so no retry can succeed; with an
    empty active set it reverts with "No bottles available". *)
Theorem getRandomBottle_with_only_own_bottles (st : State) (m : Msg) (seed : N) :
  (∀ id, id ∈ activeBottleIds st → Bottle.sender (bottle st id) = msg_sender m) →
  getRandomBottle m seed st =
    Throw (Reason (if decide (activeBottleIds st = [])
                   then "No bottles available" else "Cannot view your own bottle")).
Proof.
  intros Hown. unfold getRandomBottle.
  destruct (decide (activeBottleIds st = [])) as [Hnil|Hne]; [by rewrite Hnil|].
  replace (0 <? N.of_nat (length (activeBottleIds st))) with true
    by (symmetry; apply N.ltb_lt; destruct (activeBottleIds st); simpl; [done|lia]).
  simpl. destruct (randomIndex_in_range seed (activeBottleIds st) Hne) as [id Hid].
  rewrite Hid. apply list_elem_of_lookup_2 in Hid.
  by rewrite (Hown _ Hid), N.eqb_refl.
Qed.

Lemma getRandomBottle_with_only_own_bottles_witness :
  let st := run [(anna, SendBottle "one"); (anna, SendBottle "two")] empty in
  getRandomBottle anna 0 st = Throw (Reason "Cannot view your own bottle") ∧
  getRandomBottle anna 1 st = Throw (Reason "Cannot view your own bottle") ∧
  getRandomBottle anna 0 empty = Throw (Reason "No bottles available").
Proof.
  intros st.
  assert (∀ id, id ∈ activeBottleIds st → Bottle.sender (bottle st id) = msg_sender anna)
    as Hown.
  { intros id Hid. change (activeBottleIds st) with [1; 2] in Hid.
    apply elem_of_cons in Hid as [->|Hid]; [reflexivity|].
    apply list_elem_of_singleton in Hid as ->. reflexivity. }
  split; [exact (getRandomBottle_with_only_own_bottles st anna 0 Hown)|].
  split; [exact (getRandomBottle_with_only_own_bottles st anna 1 Hown)|].
  apply (getRandomBottle_with_only_own_bottles empty anna 0).
  intros id Hid. by apply elem_of_nil in Hid.
Defined.

Lemma active_member_position st b :
  active_ok st → b ∈ activeBottleIds st →
  ∃ p, activeBottleIds st !! p = Some b ∧
       default 0 (activeBottleIndex st !! b) = N.of_nat p ∧
       (p < length (activeBottleIds st))%nat.
Proof.
  intros Ha [p Hp]%list_elem_of_lookup_1. exists p. split; [done|].
  rewrite (ok_active_index _ Ha _ _ Hp). split; [done|]. by eapply lookup_lt_Some.
Qed.

Lemma last_is_Some {A} (l : list A) : l ≠ [] → is_Some (last l).
Proof.
  intros Hl. rewrite last_lookup. apply lookup_lt_is_Some.
  destruct l; simpl; [done|lia].
Qed.

(** X10.  On a reachable storage, [deactivateBottle] by the sender of
    a bottle of the active set goes through and removes exactly that
    bottle from the set: the other ids stay, the count drops by one,
    the bottle is inactive, and [getRandomBottle] never returns it
    again, whatever transactions follow. *)
Theorem deactivateBottle_removes_exactly_that_bottle
    (txs : list (Msg * Call)) (m : Msg) (b : N) :
  let st := run txs empty in
  b ∈ activeBottleIds st →
  Bottle.sender (bottle st b) = msg_sender m →
  ∃ st', deactivateBottle m b st = Ret st' ∧
    (∀ id, id ∈ activeBottleIds st' ↔ id ∈ activeBottleIds st ∧ id ≠ b) ∧
    getActiveBottleCount st' + 1 = getActiveBottleCount st ∧
    Bottle.isActive (bottle st' b) = false ∧
    (∀ txs' m' seed, getRandomBottle m' seed (run txs' st') ≠ Ret b).
Proof.
  intros st Hin Hsender. pose proof (ledger_ok_reachable txs) as Hok. fold st in Hok.
  pose proof (ok_active _ Hok) as Ha.
  destruct (ok_active_live _ Ha _ Hin) as [Hex _].
  destruct (active_member_position _ _ Ha Hin) as (p & Hp & Hidx & Hlt).
  destruct (last_is_Some (activeBottleIds st)) as [l Hlast];
    [by intros Hnil; rewrite Hnil in Hin; apply elem_of_nil in Hin|].
  assert (N.to_nat (default 0 (activeBottleIndex st !! b)) = p) as Hpos by lia.
  destruct (deactivateBottle m b st) as [st'|e] eqn:Hd.
  2: { exfalso. revert Hd. unfold deactivateBottle.
       rewrite Hex, Hsender, N.eqb_refl, Hlast. simpl.
       replace (default 0 (activeBottleIndex st !! b) <? N.of_nat (length (activeBottleIds st)))
         with true by (symmetry; apply N.ltb_lt; lia).
       done. }
  exists st'. split; [done|].
  assert (ledger_ok st') as Hok'.
  { pose proof (ledger_ok_transact st (m, DeactivateBottle b) Hok) as Ht.
    unfold transact in Ht. simpl in Ht. by rewrite Hd in Ht. }
  pose proof Hd as Hd'.
  apply deactivateBottle_Ret in Hd as (l' & _ & _ & Hlast' & Hi & ->).
  rewrite Hlast in Hlast'. injection Hlast' as <-.
  pose proof Hlast as Hl. rewrite last_lookup in Hl.
  split_and!.
  - intros id. simpl. split.
    + intros [q Hq]%list_elem_of_lookup_1.
      destruct (swap_pop_member _ _ _ _ _ Ha Hlast Hi Hq) as [? ?]. done.
    + intros [[q Hq]%list_elem_of_lookup_1 Hne]. rewrite Hpos.
      assert (q ≠ p) as Hqp by (intros ->; congruence).
      destruct (decide (S q < length (activeBottleIds st))%nat) as [Hq'|Hq'].
      * apply (list_elem_of_lookup_2 _ q). apply lookup_swap_pop; [done|].
        split; [done|]. by rewrite decide_False.
      * assert (id = l) as ->.
        { apply lookup_lt_Some in Hq as Hq2.
          replace q with (Nat.pred (length (activeBottleIds st))) in Hq by lia. congruence. }
        apply (list_elem_of_lookup_2 _ p). apply lookup_swap_pop; [done|].
        apply lookup_lt_Some in Hq as Hq2. split; [lia|]. by rewrite decide_True.
  - unfold getActiveBottleCount. simpl.
    rewrite removelast_firstn_len, length_take, length_insert. lia.
  - bottle_after st. by rewrite decide_True.
  - intros txs' m' seed Hret.
    match type of Hret with getRandomBottle _ _ (run _ ?s) = _ => set (st' := s) in * end.
    pose proof (ledger_ok_run txs' st' Hok') as Hok2.
    assert (Bottle.isActive (bottle st' b) = false) as Hoff.
    { unfold st'. bottle_after st. by rewrite decide_True. }
    assert (bottleExists st' b = true) as Hex' by done.
    destruct (run_extends txs' st' b Hex') as [_ (_ & _ & _ & _ & Hstay & _)].
    assert (b ∈ activeBottleIds (run txs' st')) as Hin2.
    { revert Hret. unfold getRandomBottle.
      repeat (case_match; try done). intros [= <-]. by eapply list_elem_of_lookup_2. }
    destruct (ok_active_live _ (ok_active _ Hok2) _ Hin2) as [_ Hact].
    apply Hstay in Hact. congruence.
Qed.

Lemma deactivateBottle_removes_exactly_that_bottle_witness :
  let st := run (two_bottles ++ [(cleo, SendBottle "from cleo")]) empty in
  ∃ st', deactivateBottle anna 1 st = Ret st' ∧
         (∀ id, id ∈ activeBottleIds st' ↔ id ∈ [1; 2; 3] ∧ id ≠ 1) ∧
         getActiveBottleCount st' = 2.
Proof.
  intros st.
  assert (1 ∈ activeBottleIds st) as Hin by (change (activeBottleIds st) with [1; 2; 3]; left).
  destruct (deactivateBottle_removes_exactly_that_bottle
              (two_bottles ++ [(cleo, SendBottle "from cleo")]) anna 1 Hin eq_refl)
    as (st' & Hd & Hset & Hcount & _).
  exists st'. split; [exact Hd|]. split; [exact Hset|].
  change (getActiveBottleCount (run (two_bottles ++ [(cleo, SendBottle "from cleo")]) empty))
    with 3 in Hcount. lia.
Defined.

(** X11.  [deactivateBottle] does not check that the bottle is still
    active.  When the sender of a bottle deactivates it a second time
    (the first call has deleted its index entry, so the index read is
    0), the call goes through whenever the active set is not empty,
    and it removes the bottle at position 0 of the active set, a
    different bottle: that bottle keeps its record, stays active, and
    is no longer in the set, so [getRandomBottle] does not return
    it. *)
Theorem deactivateBottle_twice_removes_another_bottle
    (txs : list (Msg * Call)) (m : Msg) (b : N) (st1 : State) (first : N) (rest : list N) :
  deactivateBottle m b (run txs empty) = Ret st1 →
  activeBottleIds st1 = first :: rest →
  ∃ st2, deactivateBottle m b st1 = Ret st2 ∧
    first ≠ b ∧
    (first ∉ activeBottleIds st2) ∧
    length (activeBottleIds st2) = length rest ∧
    bottle st2 first = bottle st1 first ∧
    Bottle.isActive (bottle st2 first) = true ∧
    (∀ m' seed, getRandomBottle m' seed st2 ≠ Ret first).
Proof.
  intros Hd Hids. pose proof (ledger_ok_reachable txs) as Hok.
  assert (ledger_ok st1) as Hok1.
  { pose proof (ledger_ok_transact _ (m, DeactivateBottle b) Hok) as Ht.
    unfold transact in Ht. simpl in Ht. by rewrite Hd in Ht. }
  pose proof (ok_active _ Hok1) as Ha1.
  apply deactivateBottle_Ret in Hd as (l0 & Hex & Hsender & _ & _ & Hst1).
  assert (activeBottleIndex st1 !! b = None) as Hidx
    by (rewrite Hst1; simpl; apply lookup_delete_eq).
  assert (bottle st1 b = deactivate (bottle (run txs empty) b)) as Hb1.
  { rewrite Hst1. bottle_after (run txs empty). by rewrite decide_True. }
  assert (bottleExists st1 b = true) as Hex1 by (by rewrite Hst1).
  assert (first ∈ activeBottleIds st1) as Hin by (rewrite Hids; left).
  destruct (ok_active_live _ Ha1 _ Hin) as [_ Hact].
  assert (first ≠ b) as Hne by (intros ->; rewrite Hb1 in Hact; done).
  destruct (last_is_Some (activeBottleIds st1)) as [l Hlast]; [by rewrite Hids|].
  destruct (deactivateBottle m b st1) as [st2|e] eqn:Hd2.
  2: { exfalso. revert Hd2. unfold deactivateBottle.
       rewrite Hex1, Hb1. simpl. rewrite Hsender, N.eqb_refl, Hlast, Hidx, Hids. done. }
  exists st2. split; [done|].
  apply deactivateBottle_Ret in Hd2 as (l' & _ & _ & Hlast' & Hi & Hst2).
  rewrite Hlast in Hlast'. injection Hlast' as <-. rewrite Hidx in Hst2, Hi. simpl in Hst2, Hi.
  pose proof Hlast as Hl. rewrite last_lookup in Hl.
  assert (first ∉ activeBottleIds st2) as Hout.
  { rewrite Hst2. simpl. intros [q Hq]%list_elem_of_lookup_1.
    apply lookup_swap_pop in Hq as [Hq Hfirst]; [|done].
    assert (activeBottleIds st1 !! 0%nat = Some first) as H0 by (by rewrite Hids).
    destruct (decide (q = _)) as [->|Hq0].
    - subst l. pose proof (NoDup_lookup _ _ _ _ (ok_active_nodup _ Ha1) Hl H0). lia.
    - by pose proof (NoDup_lookup _ _ _ _ (ok_active_nodup _ Ha1) Hfirst H0). }
  assert (bottle st2 first = bottle st1 first) as Hkeep.
  { rewrite Hst2. bottle_after st1. by rewrite decide_False. }
  split_and!; [done|done| |done|by rewrite Hkeep|].
  - rewrite Hst2. simpl. rewrite removelast_firstn_len, length_take, length_insert, Hids.
    simpl. lia.
  - intros m' seed Hret. apply Hout. revert Hret. unfold getRandomBottle.
    repeat (case_match; try done). intros [= <-]. by eapply list_elem_of_lookup_2.
Qed.

Lemma deactivateBottle_twice_removes_another_bottle_witness :
  ∃ st1 st2,
    deactivateBottle ben 2 (run two_bottles empty) = Ret st1 ∧
    deactivateBottle ben 2 st1 = Ret st2 ∧
    activeBottleIds st2 = [] ∧
    Bottle.isActive (bottle st2 1) = true ∧
    getRandomBottle cleo 0 st2 = Throw (Reason "No bottles available").
Proof.
  destruct (deactivateBottle ben 2 (run two_bottles empty)) as [st1|] eqn:Hd1;
    [|vm_compute in Hd1; discriminate].
  assert (activeBottleIds st1 = [1]) as Hids
    by (vm_compute in Hd1; injection Hd1 as <-; reflexivity).
  destruct (deactivateBottle_twice_removes_another_bottle two_bottles ben 2 st1 1 [] Hd1 Hids)
    as (st2 & Hd2 & _ & _ & Hlen & _ & Hact & _).
  exists st1, st2. split; [done|]. split; [done|].
  assert (activeBottleIds st2 = []) as Hnil by (by destruct (activeBottleIds st2)).
  split; [done|]. split; [done|].
  unfold getRandomBottle. by rewrite Hnil.
Defined.

End LedgerActiveSet.

(** ** The dangerous patterns: what [lastIndex] does to the check *)

Section SecurityPatterns.
Import Security.
Implicit Types (ps : list Exec) (s : jsstring) (l : list nat).

(** Every pattern is at [lastIndex] 0, as when the page is loaded. *)
Definition untouched (l : list nat) : Prop := Forall (fun i => i = 0%nat) l.

(** The pattern has no match in [s]: a search from the start of [s]
    fails. *)
Definition silent (s : jsstring) (exec : Exec) : Prop := exec s 0%nat = None.

Lemma untouched_hd l : untouched l → hd 0%nat l = 0%nat.
Proof. by intros [|? ? ->]. Qed.

Lemma untouched_tl l : untouched l → untouched (tl l).
Proof. intros [|? ? ? ?]; [constructor|done]. Qed.

Lemma untouched_repeat n : untouched (repeat 0%nat n).
Proof. induction n; constructor; done. Qed.

Lemma test_at_0 exec s : test exec s 0 = match exec s 0%nat with
                                        | Some e => (true, e)
                                        | None => (false, 0%nat)
                                        end.
Proof. unfold test. by destruct s. Qed.

(** A check that finds nothing has put every pattern back to 0. *)
Lemma testDangerous_false ps s : ∀ l,
  (testDangerous ps s l).1 = false → (testDangerous ps s l).2 = repeat 0%nat (length ps).
Proof.
  induction ps as [|exec ps IH]; intros l; simpl; [done|].
  unfold test. destruct (_ <? _)%nat.
  - specialize (IH (tl l)). destruct (testDangerous ps s (tl l)) as [found rest]. simpl in *.
    intros Hf. by rewrite (IH Hf).
  - destruct (exec s (hd 0%nat l)) as [e|]; [done|].
    specialize (IH (tl l)). destruct (testDangerous ps s (tl l)) as [found rest]. simpl in *.
    intros Hf. by rewrite (IH Hf).
Qed.

(** With every pattern at 0 the check is exact: it finds something
    exactly when some pattern matches somewhere in the text. *)
Lemma testDangerous_untouched ps s : ∀ l,
  untouched l →
  (testDangerous ps s l).1 = false ↔ Forall (silent s) ps.
Proof.
  induction ps as [|exec ps IH]; intros l Hl; simpl.
  { split; [constructor|done]. }
  rewrite (untouched_hd l Hl), test_at_0. unfold silent at 1.
  specialize (IH (tl l) (untouched_tl l Hl)).
  destruct (exec s 0%nat) as [e|] eqn:He.
  - split; [done|]. intros [Hs _]%Forall_cons. unfold silent in Hs. congruence.
  - destruct (testDangerous ps s (tl l)) as [found rest]. simpl in *.
    rewrite IH. split; [by constructor|]. by intros [_ ?]%Forall_cons.
Qed.

(** The first check of a text in which one pattern has one match, and
    the check that follows it. *)
Lemma testDangerous_first before exec after s e : ∀ l,
  untouched l → Forall (silent s) before → exec s 0%nat = Some e →
  testDangerous (before ++ exec :: after) s l
  = (true, repeat 0%nat (length before) ++ e :: drop (S (length before)) l).
Proof.
  induction before as [|p before IH]; intros l Hl Hb He; simpl.
  - rewrite (untouched_hd l Hl), test_at_0, He. by destruct l.
  - apply Forall_cons in Hb as [Hp Hb]. unfold silent in Hp.
    rewrite (untouched_hd l Hl), test_at_0, Hp.
    rewrite (IH (tl l) (untouched_tl l Hl) Hb He). by destruct l.
Qed.

Lemma testDangerous_second before exec after s e rest :
  Forall (silent s) before → (e ≤ length s)%nat → exec s e = None →
  Forall (silent s) after → untouched rest →
  (testDangerous (before ++ exec :: after) s (repeat 0%nat (length before) ++ e :: rest)).1
  = false.
Proof.
  intros Hb He Hnone Ha Hrest.
  induction before as [|p before IH]; simpl.
  - unfold test. replace (length s <? e)%nat with false by (symmetry; apply Nat.ltb_ge; lia).
    rewrite Hnone.
    pose proof (proj2 (testDangerous_untouched after s rest Hrest) Ha) as Hafter.
    by destruct (testDangerous after s rest).
  - apply Forall_cons in Hb as [Hp Hb]. unfold silent in Hp.
    rewrite test_at_0, Hp. specialize (IH Hb).
    by destruct (testDangerous _ _ _).
Qed.

(** The matcher of a pattern that is a literal of ASCII characters
    with the flags [gi], such as [/javascript:/gi]: the end of the first
    occurrence of the literal at or after [lastIndex], letters compared
    without their case ([lit] in lower case). *)
Definition toAsciiLower (c : N) : N :=
  if ((65 <=? c) && (c <=? 90))%N then (c + 32)%N else c.

Fixpoint startsWith (lit s : jsstring) : bool :=
  match lit, s with
  | [], _ => true
  | a :: lit', b :: s' => (a =? toAsciiLower b)%N && startsWith lit' s'
  | _ :: _, [] => false
  end.

Fixpoint search (lit s : jsstring) (i : nat) : option nat :=
  if startsWith lit s then Some (i + length lit)%nat
  else match s with
       | [] => None
       | _ :: s' => search lit s' (S i)
       end.

Definition literal (lit : jsstring) : Exec :=
  fun s lastIndex => search lit (drop lastIndex s) lastIndex.

(** "javascript:". *)
Definition javascript : jsstring := [106; 97; 118; 97; 115; 99; 114; 105; 112; 116; 58]%N.

(** An engine that is exact on strings of ASCII letters and colons:
    of the eleven dangerous patterns only the second, [/javascript:/gi],
    can match such a string (each of the others needs one of the
    characters "<", "=", "(" and "/"); the content and reply patterns
    accept it when it is not empty; DOMPurify leaves it as it is. *)
Definition isLetterOrColon (c : N) : bool :=
  ((65 <=? c) && (c <=? 90) || (97 <=? c) && (c <=? 122) || (c =? 58))%N.

Definition colon_engine : Engine :=
  {| DANGEROUS_PATTERNS :=
       [fun _ _ => None; literal javascript] ++ repeat (fun _ _ => None) 9;
     matchesContent := fun s => forallb isLetterOrColon s && negb (bool_decide (s = []));
     matchesReply := fun s => forallb isLetterOrColon s && negb (bool_decide (s = []))
                              && bool_decide (length s ≤ 500)%nat;
     purify := fun s => s |}.

End SecurityPatterns.

(** ** Content validation: whitespace *)

Section SecurityWhitespace.
Import Security.

Lemma trimStart_blank (pre s : jsstring) :
  forallb isWhiteSpace pre = true → trimStart (pre ++ s) = trimStart s.
Proof.
  induction pre as [|c pre IH]; simpl; [done|].
  intros [Hc Hpre]%andb_true_iff. rewrite Hc. by apply IH.
Qed.

Lemma trimStart_nil_iff (s : jsstring) :
  trimStart s = [] ↔ forallb isWhiteSpace s = true.
Proof.
  induction s as [|c s IH]; simpl; [done|].
  destruct (isWhiteSpace c); simpl; [done|]. split; discriminate.
Qed.

Lemma trimStart_app (s t : jsstring) :
  forallb isWhiteSpace s = false → trimStart (s ++ t) = trimStart s ++ t.
Proof.
  induction s as [|c s IH]; simpl; [done|].
  destruct (isWhiteSpace c); simpl; [done|done].
Qed.

Lemma trimStart_blank_tail (s : jsstring) :
  forallb isWhiteSpace (trimStart s) = true → trimStart s = [].
Proof.
  induction s as [|c s IH]; simpl; [done|].
  destruct (isWhiteSpace c) eqn:Hc; [done|]. simpl. by rewrite Hc.
Qed.

Lemma trimStart_idemp (s : jsstring) : trimStart (trimStart s) = trimStart s.
Proof.
  induction s as [|c s IH]; simpl; [done|].
  destruct (isWhiteSpace c) eqn:Hc; [done|]. simpl. by rewrite Hc.
Qed.

Lemma forallb_rev {A} (f : A → bool) (l : list A) : forallb f (rev l) = forallb f l.
Proof.
  induction l as [|x l IH]; simpl; [done|].
  rewrite forallb_app, IH. simpl. rewrite andb_true_r. apply andb_comm.
Qed.

Lemma trimEnd_blank (s post : jsstring) :
  forallb isWhiteSpace post = true → trimEnd (s ++ post) = trimEnd s.
Proof.
  intros Hpost. unfold trimEnd. rewrite rev_app_distr, trimStart_blank; [done|].
  by rewrite forallb_rev.
Qed.

Lemma trimEnd_nil_iff (s : jsstring) :
  trimEnd s = [] ↔ forallb isWhiteSpace s = true.
Proof.
  unfold trimEnd. rewrite <- (forallb_rev _ s), <- trimStart_nil_iff.
  split; [|by intros ->]. intros H. apply (f_equal (@rev N)) in H.
  by rewrite rev_involutive in H.
Qed.

Lemma trim_nil_iff (s : jsstring) : trim s = [] ↔ forallb isWhiteSpace s = true.
Proof.
  unfold trim. rewrite trimEnd_nil_iff. split.
  - intros H. by apply trimStart_nil_iff, trimStart_blank_tail.
  - intros H. apply trimStart_nil_iff in H. by rewrite H.
Qed.

Lemma trim_padded (pre s post : jsstring) :
  forallb isWhiteSpace pre = true → forallb isWhiteSpace post = true →
  trim (pre ++ s ++ post) = trim s.
Proof.
  intros Hpre Hpost. unfold trim. rewrite trimStart_blank by done.
  destruct (forallb isWhiteSpace s) eqn:Hs.
  - rewrite (proj2 (trimStart_nil_iff s) Hs).
    rewrite (proj2 (trimStart_nil_iff (s ++ post))); [done|].
    by rewrite forallb_app, Hs, Hpost.
  - rewrite trimStart_app by done. by apply trimEnd_blank.
Qed.

(** A text of 1 to 500 code units in which one dangerous pattern has
    one match, checked twice from patterns at 0: the first call finds
    the match and leaves the pattern at its end; the second call, on
    any text with the same trimmed form, finds nothing. *)
Lemma sanitizers_resubmitted (g : Engine) (content : jsstring) (l : list nat)
    before exec after e :
  DANGEROUS_PATTERNS g = before ++ exec :: after →
  untouched l →
  (1 ≤ length (trim content) ≤ 500)%nat →
  Forall (silent (trim content)) before →
  exec (trim content) 0%nat = Some e → (e ≤ length (trim content))%nat →
  exec (trim content) e = None →
  Forall (silent (trim content)) after →
  let l1 := repeat 0%nat (length before) ++ e :: drop (S (length before)) l in
  let l2 := repeat 0%nat (length (DANGEROUS_PATTERNS g)) in
  sanitizeBottleContent g content l = (Throw Unsafe, l1) ∧
  sanitizeReplyContent g content l = (Throw Unsafe, l1) ∧
  ∀ c, trim c = trim content →
    sanitizeBottleContent g c l1
    = (if matchesContent g (trim content) then Ret (purify g (trim content))
       else Throw Unsupported, l2) ∧
    sanitizeReplyContent g c l1
    = (if matchesReply g (trim content) then Ret (purify g (trim content))
       else Throw Unsupported, l2).
Proof.
  intros Hps Hl Hlen Hb He Hle Hnone Ha l1 l2.
  assert (∀ c, trim c = trim content → c ≠ []) as Hne.
  { intros c Htrim ->. rewrite trim_nil in Htrim. rewrite <- Htrim in Hlen. simpl in Hlen. lia. }
  assert ((Z.of_nat (length (trim content)) =? 0) = false) as H0 by (apply Z.eqb_neq; lia).
  assert ((Z.of_nat (length (trim content)) >? 500) = false) as H500
    by (rewrite Z.gtb_ltb; apply Z.ltb_ge; lia).
  pose proof (testDangerous_first before exec after _ e l Hl Hb He) as Hfirst.
  pose proof (testDangerous_second before exec after (trim content) e
                (drop (S (length before)) l) Hb Hle Hnone Ha
                (Forall_drop _ _ _ Hl)) as Hsecond.
  pose proof (testDangerous_false (before ++ exec :: after) (trim content) l1 Hsecond) as Hleft.
  fold l1 in Hfirst, Hsecond, Hleft. subst l2.
  split_and!.
  - unfold sanitizeBottleContent.
    rewrite (bool_decide_eq_false_2 _ (Hne content eq_refl)), H0. simpl. rewrite H500, Hps.
    destruct (testDangerous _ _ l) as [found l']. by inversion Hfirst.
  - unfold sanitizeReplyContent.
    rewrite (bool_decide_eq_false_2 _ (Hne content eq_refl)), H0. simpl. rewrite H500, Hps.
    destruct (testDangerous _ _ l) as [found l']. by inversion Hfirst.
  - intros c Htrim. unfold sanitizeBottleContent, sanitizeReplyContent.
    rewrite (bool_decide_eq_false_2 _ (Hne c Htrim)), Htrim, H0. simpl. rewrite H500, Hps.
    destruct (testDangerous _ _ l1) as [found l']. simpl in Hsecond, Hleft. subst found l'.
    by destruct (matchesContent g _), (matchesReply g _).
Qed.

(** X12.  At a call, the sanitizers look at the trimmed text and at
    the [lastIndex] that earlier calls have left in the dangerous
    patterns, and at nothing else.  Called with the patterns in the
    same state, a content with white space (any ECMAScript WhiteSpace
    or LineTerminator code unit) before and after it gets the same
    verdict and the same text back, and leaves the patterns in the same
    state, for [sanitizeBottleContent] and [sanitizeReplyContent] alike
    and whatever the patterns and DOMPurify do.  A content is rejected
    as empty exactly when it consists of white space only (the empty
    string included), and then the patterns are left as they were.
    The verdict does depend on that state.  With every pattern at
    [lastIndex] 0, a text of 1 to 500 code units in which one dangerous
    pattern has a match, and only one, is rejected as unsafe; called
    again with the same text, padded or not, the sanitizer no longer
    finds it unsafe: it returns the purified text when the content
    (reply) pattern accepts it. *)
Theorem sanitizers_ignore_surrounding_whitespace (g : Engine) (content : jsstring)
    (l : list nat) :
  (∀ pre post,
      forallb isWhiteSpace pre = true → forallb isWhiteSpace post = true →
      sanitizeBottleContent g (pre ++ content ++ post) l = sanitizeBottleContent g content l ∧
      sanitizeReplyContent g (pre ++ content ++ post) l = sanitizeReplyContent g content l) ∧
  ((sanitizeBottleContent g content l).1 = Throw Empty ↔
     forallb isWhiteSpace content = true) ∧
  ((sanitizeReplyContent g content l).1 = Throw Empty ↔
     forallb isWhiteSpace content = true) ∧
  (forallb isWhiteSpace content = true →
     sanitizeBottleContent g content l = (Throw Empty, l) ∧
     sanitizeReplyContent g content l = (Throw Empty, l)) ∧
  (∀ before exec after e,
     DANGEROUS_PATTERNS g = before ++ exec :: after →
     untouched l →
     (1 ≤ length (trim content) ≤ 500)%nat →
     Forall (silent (trim content)) before →
     exec (trim content) 0%nat = Some e → (e ≤ length (trim content))%nat →
     exec (trim content) e = None →
     Forall (silent (trim content)) after →
     ∃ l1,
       sanitizeBottleContent g content l = (Throw Unsafe, l1) ∧
       sanitizeReplyContent g content l = (Throw Unsafe, l1) ∧
       ∀ pre post,
         forallb isWhiteSpace pre = true → forallb isWhiteSpace post = true →
         (sanitizeBottleContent g (pre ++ content ++ post) l1).1
         = (if matchesContent g (trim content) then Ret (purify g (trim content))
            else Throw Unsupported) ∧
         (sanitizeReplyContent g (pre ++ content ++ post) l1).1
         = (if matchesReply g (trim content) then Ret (purify g (trim content))
            else Throw Unsupported)).
Proof.
  assert (∀ c : jsstring, (Z.of_nat (length (trim c)) =? 0) = forallb isWhiteSpace c) as Hblank.
  { intros c. destruct (forallb isWhiteSpace c) eqn:Hc.
    - apply trim_nil_iff in Hc. by rewrite Hc.
    - apply Z.eqb_neq. intros Hlen. assert (trim c = []) as Ht by (apply nil_length_inv; lia).
      apply trim_nil_iff in Ht. congruence. }
  split_and!.
  - intros pre post Hpre Hpost.
    unfold sanitizeBottleContent, sanitizeReplyContent.
    rewrite (trim_padded pre content post Hpre Hpost).
    case_bool_decide as Hall; case_bool_decide as Hc; try done.
    + by destruct pre, content.
    + subst content. by rewrite trim_nil.
  - unfold sanitizeBottleContent. case_bool_decide as Hc; [by subst|].
    rewrite Hblank. destruct (forallb isWhiteSpace content); [done|].
    split; [|done].
    destruct (_ >? _); [done|]. destruct (testDangerous _ _ _) as [[] ?]; [done|].
    by destruct (negb _).
  - unfold sanitizeReplyContent. case_bool_decide as Hc; [by subst|].
    rewrite Hblank. destruct (forallb isWhiteSpace content); [done|].
    split; [|done].
    destruct (_ >? _); [done|]. destruct (testDangerous _ _ _) as [[] ?]; [done|].
    by destruct (negb _).
  - intros Hws. unfold sanitizeBottleContent, sanitizeReplyContent.
    rewrite Hblank, Hws. by case_bool_decide.
  - intros before exec after e Hps Hl Hlen Hb He Hle Hnone Ha.
    destruct (sanitizers_resubmitted g content l before exec after e
                Hps Hl Hlen Hb He Hle Hnone Ha) as (Hfirst & Hfirst' & Hagain).
    eexists. split_and!; [exact Hfirst|exact Hfirst'|].
    intros pre post Hpre Hpost.
    destruct (Hagain (pre ++ content ++ post) (trim_padded _ _ _ Hpre Hpost)) as [-> ->].
    done.
Qed.

(** A tab, "hi", a no-break space and a line feed: sent as "hi";
    three spaces: refused as empty; "javascript:" is refused, and
    goes through when it is sent again between two spaces. *)
Lemma sanitizers_ignore_surrounding_whitespace_witness :
  (sanitizeBottleContent letters_engine ([9] ++ [104; 105] ++ [160; 10])%N []).1
    = Ret [104; 105]%N ∧
  (sanitizeReplyContent letters_engine [32; 32; 32]%N []).1 = Throw Empty ∧
  ∃ l1,
    sanitizeBottleContent colon_engine javascript [] = (Throw Unsafe, l1) ∧
    (sanitizeBottleContent colon_engine ([32]%N ++ javascript ++ [32]%N) l1).1
      = Ret javascript.
Proof.
  destruct (sanitizers_ignore_surrounding_whitespace letters_engine [104; 105]%N [])
    as (Hpad & _ & _).
  destruct (Hpad [9]%N [160; 10]%N eq_refl eq_refl) as [-> _].
  destruct (sanitizers_ignore_surrounding_whitespace letters_engine [32; 32; 32]%N [])
    as (_ & _ & Hempty & _).
  split; [reflexivity|]. split; [by apply Hempty|].
  destruct (sanitizers_ignore_surrounding_whitespace colon_engine javascript [])
    as (_ & _ & _ & _ & Hagain).
  destruct (Hagain [fun _ _ => None] (literal javascript) (repeat (fun _ _ => None) 9) 11%nat)
    as (l1 & Hfirst & _ & Hsecond).
  - reflexivity.
  - constructor.
  - vm_compute. lia.
  - by repeat constructor.
  - reflexivity.
  - vm_compute. lia.
  - reflexivity.
  - by repeat constructor.
  - exists l1. split; [exact Hfirst|].
    destruct (Hsecond [32]%N [32]%N eq_refl eq_refl) as [-> _]. reflexivity.
Defined.

End SecurityWhitespace.

(** ** The hook: what the actions hand to the wallet *)

Section HookWrites.
Import Security Hook.
Context {Raw RawReply VB VR D DR : Type}.
Implicit Types (env : Hook.Env Raw RawReply VB VR D DR) (st : Hook.State D DR).

Lemma sanitizeBottleContent_Ret g content l s l' :
  sanitizeBottleContent g content l = (Ret s, l') →
  s = purify g (trim content) ∧
  (1 ≤ length (trim content) ≤ 500)%nat ∧
  testDangerous (DANGEROUS_PATTERNS g) (trim content) l = (false, l') ∧
  matchesContent g (trim content) = true.
Proof.
  unfold sanitizeBottleContent. case_bool_decide; [done|].
  destruct (Z.eqb_spec (Z.of_nat (length (trim content))) 0); [done|].
  destruct (Z.gtb_spec (Z.of_nat (length (trim content))) (Max.content MAX_LENGTHS)); [done|].
  destruct (testDangerous _ _ _) as [[] l1]; [done|].
  destruct (matchesContent g (trim content)); [|done].
  simpl in *. intros [= <- <-]. split_and!; try done; lia.
Qed.

Lemma sanitizeReplyContent_Ret g content l s l' :
  sanitizeReplyContent g content l = (Ret s, l') →
  s = purify g (trim content) ∧
  (1 ≤ length (trim content) ≤ 500)%nat ∧
  testDangerous (DANGEROUS_PATTERNS g) (trim content) l = (false, l') ∧
  matchesReply g (trim content) = true.
Proof.
  unfold sanitizeReplyContent. case_bool_decide; [done|].
  destruct (Z.eqb_spec (Z.of_nat (length (trim content))) 0); [done|].
  destruct (Z.gtb_spec (Z.of_nat (length (trim content))) (Max.reply MAX_LENGTHS)); [done|].
  destruct (testDangerous _ _ _) as [[] l1]; [done|].
  destruct (matchesReply g (trim content)); [|done].
  simpl in *. intros [= <- <-]. split_and!; try done; lia.
Qed.

(** What a check that found nothing says about the text. *)
Lemma testDangerous_passed ps s l l' :
  testDangerous ps s l = (false, l') →
  (untouched l → Forall (silent s) ps) ∧ untouched l'.
Proof.
  intros Hrun. split.
  - intros Hl. apply (testDangerous_untouched ps s l Hl). by rewrite Hrun.
  - pose proof (testDangerous_false ps s l) as Hleft. rewrite Hrun in Hleft.
    simpl in Hleft. rewrite Hleft by done. apply untouched_repeat.
Qed.

(** Two calls in a row at the same time, with room for both. *)
Lemma isAllowed_twice identifier maxAttempts now (attempts : gmap string (list Z)) :
  Z.of_nat (length (default [] (attempts !! identifier))) + 2 ≤ maxAttempts →
  (isAllowed identifier maxAttempts 60000 now attempts).1 = true ∧
  (isAllowed identifier maxAttempts 60000 now
     (isAllowed identifier maxAttempts 60000 now attempts).2).1 = true.
Proof.
  intros Hroom.
  destruct (isAllowed_cases identifier maxAttempts now attempts) as (att1 & H1 & Hrec1).
  pose proof (length_filter (fun a : Z => now - 60000 < a)
                (default [] (attempts !! identifier))) as Hlen.
  rewrite H1. simpl.
  destruct (isAllowed_cases identifier maxAttempts now att1) as (att2 & H2 & _).
  rewrite H2. simpl. rewrite Hrec1.
  rewrite (bool_decide_eq_true_2 _) by lia.
  split; [done|]. apply bool_decide_eq_true_2.
  pose proof (length_filter (fun a : Z => now - 60000 < a)
                (filter (fun a : Z => now - 60000 < a) (default [] (attempts !! identifier))
                 ++ [now])) as Hlen2.
  rewrite length_app in Hlen2. simpl in Hlen2. lia.
Qed.

(** X13.  What reaches the wallet.  Each action adds at most one
    contract write to what the hook has issued, and adds it exactly
    when it returns normally or fails with the error of the write
    itself ([BOTTLE_SEND_FAILED], [BOTTLE_REPLY_FAILED]; for
    [skipBottle] the wallet's error passed on).  The write of
    [sendBottle] and [replyToBottle] carries the purified trimmed
    content, which has 1 to 500 code units and matches the content
    (reply) pattern, and in which the check of the dangerous patterns,
    run from the [lastIndex] that earlier calls have left in them,
    found nothing; that check leaves every pattern at [lastIndex] 0.
    When every pattern was at 0 before the call, the content matches no
    dangerous pattern.  The bottle id of [replyToBottle] and
    [skipBottle] is a non-negative safe integer; and the wallet was
    connected and stable and the contract configured.  A call refused
    for any other reason (not connected, not configured, invalid id,
    rate limit, validation) issues nothing.
    The guarantee about the dangerous patterns does not hold from
    every state.  A content of 1 to 500 code units that the content
    (reply) pattern accepts and in which one dangerous pattern has a
    match, and only one, is refused as unsafe when every pattern is at
    0, and issues nothing; the same call made again, with room left in
    the rate limit, hands that content to the wallet. *)
Theorem actions_write_only_validated_arguments env st :
  (∀ content r st',
      sendBottle env content st = (r, st') →
      match r with
      | Ret _ | Throw BOTTLE_SEND_FAILED =>
          effects st' = effects st ++
            [WriteContract "sendBottle" [ArgText (purify (engine env) (trim content))]] ∧
          (1 ≤ length (trim content) ≤ 500)%nat ∧
          testDangerous (DANGEROUS_PATTERNS (engine env)) (trim content) (lastIndexes st)
            = (false, lastIndexes st') ∧
          untouched (lastIndexes st') ∧
          (untouched (lastIndexes st) →
             Forall (silent (trim content)) (DANGEROUS_PATTERNS (engine env))) ∧
          matchesContent (engine env) (trim content) = true ∧
          actuallyConnected (account env) = true ∧ connectionStable env = true ∧
          is_Some (DRIFT_BOTTLE_CONTRACT_ADDRESS env)
      | Throw _ => effects st' = effects st
      end) ∧
  (∀ bottleId content r st',
      replyToBottle env bottleId content st = (r, st') →
      match r with
      | Ret _ | Throw BOTTLE_REPLY_FAILED =>
          effects st' = effects st ++
            [WriteContract "replyToBottle"
               [ArgUint bottleId; ArgText (purify (engine env) (trim content))]] ∧
          (1 ≤ length (trim content) ≤ 500)%nat ∧
          testDangerous (DANGEROUS_PATTERNS (engine env)) (trim content) (lastIndexes st)
            = (false, lastIndexes st') ∧
          untouched (lastIndexes st') ∧
          (untouched (lastIndexes st) →
             Forall (silent (trim content)) (DANGEROUS_PATTERNS (engine env))) ∧
          matchesReply (engine env) (trim content) = true ∧
          0 ≤ bottleId ≤ MAX_SAFE_INTEGER ∧
          actuallyConnected (account env) = true ∧ connectionStable env = true ∧
          is_Some (DRIFT_BOTTLE_CONTRACT_ADDRESS env)
      | Throw _ => effects st' = effects st
      end) ∧
  (∀ bottleId r st',
      skipBottle env bottleId st = (r, st') →
      match r with
      | Ret _ | Throw (Rethrown _) =>
          effects st' = effects st ++ [WriteContract "skipBottle" [ArgUint bottleId]] ∧
          lastIndexes st' = lastIndexes st ∧
          0 ≤ bottleId ≤ MAX_SAFE_INTEGER ∧
          actuallyConnected (account env) = true ∧ connectionStable env = true ∧
          is_Some (DRIFT_BOTTLE_CONTRACT_ADDRESS env)
      | Throw _ => effects st' = effects st
      end) ∧
  (∀ content before exec after e,
      actuallyConnected (account env) = true → connectionStable env = true →
      is_Some (DRIFT_BOTTLE_CONTRACT_ADDRESS env) →
      DANGEROUS_PATTERNS (engine env) = before ++ exec :: after →
      untouched (lastIndexes st) →
      (1 ≤ length (trim content) ≤ 500)%nat →
      Forall (silent (trim content)) before →
      exec (trim content) 0%nat = Some e → (e ≤ length (trim content))%nat →
      exec (trim content) e = None →
      Forall (silent (trim content)) after →
      (matchesContent (engine env) (trim content) = true →
       (length (default [] (attempts st !! addressOrAnonymous (account env))) ≤ 3)%nat →
       let first := sendBottle env content st in
       let second := sendBottle env content first.2 in
       first.1 = Throw (CONTENT_VALIDATION_FAILED Unsafe) ∧
       effects first.2 = effects st ∧
       (second.1 = Ret () ∨ second.1 = Throw BOTTLE_SEND_FAILED) ∧
       effects second.2 = effects st ++
         [WriteContract "sendBottle" [ArgText (purify (engine env) (trim content))]]) ∧
      (∀ bottleId,
       matchesReply (engine env) (trim content) = true →
       0 ≤ bottleId ≤ MAX_SAFE_INTEGER →
       (length (default [] (attempts st
                              !! (addressOrAnonymous (account env) +:+ "_reply"))) ≤ 8)%nat →
       let first := replyToBottle env bottleId content st in
       let second := replyToBottle env bottleId content first.2 in
       first.1 = Throw (REPLY_VALIDATION_FAILED Unsafe) ∧
       effects first.2 = effects st ∧
       (second.1 = Ret () ∨ second.1 = Throw BOTTLE_REPLY_FAILED) ∧
       effects second.2 = effects st ++
         [WriteContract "replyToBottle"
            [ArgUint bottleId; ArgText (purify (engine env) (trim content))]])).
Proof.
  assert (∀ id, validateBottleId id = true → 0 ≤ id ≤ MAX_SAFE_INTEGER) as Hid.
  { intros id [?%Z.leb_le ?%Z.leb_le]%andb_true_iff. done. }
  split_and!.
  - intros content r st'. unfold sendBottle.
    destruct (actuallyConnected (account env)); [|by intros [= <- <-]].
    destruct (connectionStable env); [|by intros [= <- <-]]. simpl.
    case_bool_decide as Hcfg; [|by intros [= <- <-]]. simpl.
    destruct (isAllowed _ _ _ _ _) as [[] att]; [|by intros [= <- <-]]. simpl.
    destruct (sanitizeBottleContent (engine env) content (lastIndexes st)) as [[s|e] l'] eqn:Hs;
      [|by intros [= <- <-]].
    apply sanitizeBottleContent_Ret in Hs as (-> & ? & Hrun & ?).
    destruct (testDangerous_passed _ _ _ _ Hrun) as [? ?].
    by destruct (writeContract env _ _); intros [= <- <-].
  - intros bottleId content r st'. unfold replyToBottle.
    destruct (actuallyConnected (account env)); [|by intros [= <- <-]].
    destruct (connectionStable env); [|by intros [= <- <-]]. simpl.
    case_bool_decide as Hcfg; [|by intros [= <- <-]]. simpl.
    destruct (validateBottleId bottleId) eqn:Hv; [|by intros [= <- <-]]. simpl.
    apply Hid in Hv.
    destruct (isAllowed _ _ _ _ _) as [[] att]; [|by intros [= <- <-]]. simpl.
    destruct (sanitizeReplyContent (engine env) content (lastIndexes st)) as [[s|e] l'] eqn:Hs;
      [|by intros [= <- <-]].
    apply sanitizeReplyContent_Ret in Hs as (-> & ? & Hrun & ?).
    destruct (testDangerous_passed _ _ _ _ Hrun) as [? ?].
    by destruct (writeContract env _ _); intros [= <- <-].
  - intros bottleId r st'. unfold skipBottle.
    destruct (actuallyConnected (account env)); [|by intros [= <- <-]].
    destruct (connectionStable env); [|by intros [= <- <-]]. simpl.
    case_bool_decide as Hcfg; [|by intros [= <- <-]]. simpl.
    destruct (validateBottleId bottleId) eqn:Hv; [|by intros [= <- <-]]. simpl.
    apply Hid in Hv.
    destruct (isAllowed _ _ _ _ _) as [[] att]; [|by intros [= <- <-]]. simpl.
    by destruct (writeContract env _ _); intros [= <- <-].
  - intros content before exec after e Hconn Hstable Hcfg Hps Hl Hlen Hb He Hle Hnone Ha.
    destruct (sanitizers_resubmitted (engine env) content (lastIndexes st) before exec after e
                Hps Hl Hlen Hb He Hle Hnone Ha) as (Hsend & Hreply & Hagain).
    destruct (Hagain content eq_refl) as [Hsend2 Hreply2].
    split.
    + intros Hok Hroom first second.
      destruct (isAllowed_twice (addressOrAnonymous (account env)) 5 (now st) (attempts st))
        as [Hfirst Hsecond]; [lia|].
      assert (first = (Throw (CONTENT_VALIDATION_FAILED Unsafe),
                       set_lastIndexes
                         (repeat 0%nat (length before) ++
                          e :: drop (S (length before)) (lastIndexes st))
                         (set_attempts
                            (isAllowed (addressOrAnonymous (account env)) 5 60000
                               (now st) (attempts st)).2 st))) as Hrun.
      { subst first. unfold sendBottle. rewrite Hconn, Hstable. simpl.
        rewrite (bool_decide_eq_true_2 _ Hcfg). simpl.
        destruct (isAllowed _ 5 60000 (now st) (attempts st)) as [ok att].
        simpl in Hfirst. subst ok. simpl. by rewrite Hsend. }
      subst second. rewrite Hrun. simpl. split; [done|]. split; [done|].
      unfold sendBottle. rewrite Hconn, Hstable. simpl.
      rewrite (bool_decide_eq_true_2 _ Hcfg). simpl.
      set (att1 := (isAllowed _ 5 60000 (now st) (attempts st)).2) in *.
      destruct (isAllowed _ 5 60000 (now st) att1) as [ok att']. simpl in Hsecond.
      subst ok. simpl. rewrite Hsend2, Hok. simpl.
      by destruct (writeContract env _ _); simpl; auto.
    + intros bottleId Hok Hbottle Hroom first second.
      assert (validateBottleId bottleId = true) as Hv
        by (unfold validateBottleId; apply andb_true_iff; split; apply Z.leb_le; lia).
      destruct (isAllowed_twice (addressOrAnonymous (account env) +:+ "_reply") 10 (now st)
                  (attempts st)) as [Hfirst Hsecond]; [lia|].
      assert (first = (Throw (REPLY_VALIDATION_FAILED Unsafe),
                       set_lastIndexes
                         (repeat 0%nat (length before) ++
                          e :: drop (S (length before)) (lastIndexes st))
                         (set_attempts
                            (isAllowed (addressOrAnonymous (account env) +:+ "_reply")
                               10 60000 (now st) (attempts st)).2 st))) as Hrun.
      { subst first. unfold replyToBottle. rewrite Hconn, Hstable. simpl.
        rewrite (bool_decide_eq_true_2 _ Hcfg), Hv. simpl.
        destruct (isAllowed _ 10 60000 (now st) (attempts st)) as [ok att].
        simpl in Hfirst. subst ok. simpl. by rewrite Hreply. }
      subst second. rewrite Hrun. simpl. split; [done|]. split; [done|].
      unfold replyToBottle. rewrite Hconn, Hstable. simpl.
      rewrite (bool_decide_eq_true_2 _ Hcfg), Hv. simpl.
      set (att1 := (isAllowed _ 10 60000 (now st) (attempts st)).2) in *.
      destruct (isAllowed _ 10 60000 (now st) att1) as [ok att']. simpl in Hsecond.
      subst ok. simpl. rewrite Hreply2, Hok. simpl.
      by destruct (writeContract env _ _); simpl; auto.
Qed.

End HookWrites.

Section HookWritesScenario.
Import Security Hook.

(** The wallet of [online] in front of the patterns of [colon_engine]. *)
Definition online_colon : Env Z Z Z Z Z Z :=
  {| account := wallet;
     connectionStable := true;
     DRIFT_BOTTLE_CONTRACT_ADDRESS := Some "0x00000000000000000000000000000000000000cc";
     engine := colon_engine;
     validateBottleData := Some;
     validateReplyDataArray := fun l => l;
     sanitizeForDisplay := fun b => b;
     sanitizeReplyForDisplay := fun r => r;
     writeContract := fun _ _ => None;
     getBottle := fun bottleId _ => Ret (Some bottleId);
     getBottleReplies := fun _ _ => Ret [];
     getReply := fun _ => Ret None |}.

(** Padded "hi" goes out as "hi"; "<hi>" goes nowhere; "javascript:"
    goes nowhere the first time and to the wallet the second time. *)
Lemma actions_write_only_validated_arguments_witness :
  effects (sendBottle online [32; 104; 105; 32]%N (initial 5)).2
    = [WriteContract "sendBottle" [ArgText [104; 105]%N]] ∧
  effects (sendBottle online [60; 104; 105; 62]%N (initial 5)).2 = [] ∧
  (sendBottle online_colon javascript (initial 5)).1
    = Throw (CONTENT_VALIDATION_FAILED Unsafe) ∧
  effects (sendBottle online_colon javascript
             (sendBottle online_colon javascript (initial 5)).2).2
    = [WriteContract "sendBottle" [ArgText javascript]].
Proof.
  destruct (actions_write_only_validated_arguments online (initial 5)) as (Hsend & _ & _).
  split; [|split].
  - destruct (sendBottle online [32; 104; 105; 32]%N (initial 5)) as [r st'] eqn:Hrun.
    specialize (Hsend _ _ _ Hrun).
    assert (r = Ret ()) as -> by (vm_compute in Hrun; congruence).
    simpl in Hsend. simpl. destruct Hsend as [-> _]. reflexivity.
  - destruct (sendBottle online [60; 104; 105; 62]%N (initial 5)) as [r st'] eqn:Hrun.
    specialize (Hsend _ _ _ Hrun).
    assert (r = Throw (CONTENT_VALIDATION_FAILED Unsupported)) as ->
      by (vm_compute in Hrun; congruence).
    simpl in Hsend. simpl. rewrite Hsend. reflexivity.
  - destruct (actions_write_only_validated_arguments online_colon (initial 5))
      as (_ & _ & _ & Hagain).
    destruct (Hagain javascript [fun _ _ => None] (literal javascript)
                (repeat (fun _ _ => None) 9) 11%nat) as [Htwice _].
    + reflexivity.
    + reflexivity.
    + by eexists.
    + reflexivity.
    + constructor.
    + vm_compute. lia.
    + by repeat constructor.
    + reflexivity.
    + vm_compute. lia.
    + reflexivity.
    + by repeat constructor.
    + destruct Htwice as (Hfirst & _ & _ & Hsecond).
      * reflexivity.
      * vm_compute. lia.
      * split; [exact Hfirst|exact Hsecond].
Defined.

End HookWritesScenario.

(** ** The hook: three separate budgets *)

Section HookBudgets.
Import Security Hook.
Context {Raw RawReply VB VR D DR : Type}.
Implicit Types (env : Hook.Env Raw RawReply VB VR D DR) (st : Hook.State D DR).

Lemma limiter_keys_differ (a : string) :
  a ≠ a +:+ "_reply" ∧ a ≠ a +:+ "_skip" ∧ a +:+ "_reply" ≠ a +:+ "_skip".
Proof.
  split_and!; intros Heq; apply (f_equal String.length) in Heq;
    rewrite ?length_string_app in Heq; simpl in Heq; lia.
Qed.

Lemma cacheLookup_attempts ck ttl st o st' :
  cacheLookup ck ttl st = (o, st') → attempts st' = attempts st.
Proof.
  unfold cacheLookup. destruct (map_has _ _); [|by intros [= _ <-]].
  destruct (map_get _ _) as [c|]; [destruct (_ && _)|]; by intros [= _ <-].
Qed.

Lemma fold_emit_attempts (l : list Z) st :
  attempts (fold_left (fun st replyId => emit (ReadContract "getReply" [ArgUint replyId]) st)
              l st) = attempts st.
Proof. revert st. induction l as [|x l IH]; intros st; simpl; [done|]. by rewrite IH. Qed.

Lemma readBottleData_rec_attempts fuel env id k st r st' :
  readBottleData_rec fuel env id k st = Some (r, st') → attempts st' = attempts st.
Proof.
  revert k st. induction fuel as [|fuel IH]; intros k st; simpl; [done|].
  destruct (id <=? 0); [by intros [= _ <-]|].
  destruct (negb (bool_decide _)); [by intros [= _ <-]|].
  destruct (_ || _); [by intros [= _ <-]|].
  destruct (cacheLookup _ _ st) as [o st1] eqn:Hl. apply cacheLookup_attempts in Hl.
  destruct o; [by intros [= _ <-]|].
  destruct (getBottle env id k) as [[raw|]|err].
  - destruct (validateBottleData env raw); by intros [= _ <-].
  - by intros [= _ <-].
  - destruct (isContractRevert err); [by intros [= _ <-]|].
    destruct (_ && _); [|by intros [= _ <-]].
    intros Hrec%IH. by rewrite Hrec.
Qed.

Lemma readBottleReplies_rec_attempts fuel env id k st r st' :
  readBottleReplies_rec fuel env id k st = Some (r, st') → attempts st' = attempts st.
Proof.
  revert k st. induction fuel as [|fuel IH]; intros k st; simpl; [done|].
  destruct (id <=? 0); [by intros [= _ <-]|].
  destruct (negb (bool_decide _)); [by intros [= _ <-]|].
  destruct (_ || _); [by intros [= _ <-]|].
  destruct (cacheLookup _ _ st) as [o st1] eqn:Hl. apply cacheLookup_attempts in Hl.
  destruct o; [by intros [= _ <-]|].
  destruct (getBottleReplies env id k) as [[|rid rids]|err].
  - by intros [= _ <-].
  - intros [= _ <-]. simpl. by rewrite fold_emit_attempts.
  - destruct (_ && _); [|by intros [= _ <-]].
    intros Hrec%IH. by rewrite Hrec.
Qed.

(** X14.  The three limits are separate budgets, and reading is free.
    [sendBottle] counts under the caller's address, [replyToBottle]
    under the address followed by "_reply", [skipBottle] under the
    address followed by "_skip"; these three keys are never equal, and
    each action leaves the record of every key but its own as it was.
    So sends never use up the reply or skip budget, nor the reverse.
    [readBottleData] and [readBottleReplies] do not touch the limiter
    at all. *)
Theorem rate_limits_are_separate_budgets env st :
  let a := addressOrAnonymous (account env) in
  (a ≠ a +:+ "_reply" ∧ a ≠ a +:+ "_skip" ∧ a +:+ "_reply" ≠ a +:+ "_skip") ∧
  (∀ content key, key ≠ a →
     default [] (attempts (sendBottle env content st).2 !! key)
       = default [] (attempts st !! key)) ∧
  (∀ bottleId content key, key ≠ a +:+ "_reply" →
     default [] (attempts (replyToBottle env bottleId content st).2 !! key)
       = default [] (attempts st !! key)) ∧
  (∀ bottleId key, key ≠ a +:+ "_skip" →
     default [] (attempts (skipBottle env bottleId st).2 !! key)
       = default [] (attempts st !! key)) ∧
  (∀ bottleId r st',
     readBottleData env bottleId 0 st = Some (r, st') → attempts st' = attempts st) ∧
  (∀ bottleId r st',
     readBottleReplies env bottleId 0 st = Some (r, st') → attempts st' = attempts st).
Proof.
  intros a. split; [apply limiter_keys_differ|]. split_and!.
  - intros content key Hkey. unfold sendBottle.
    destruct (_ || _); [done|]. destruct (negb (bool_decide _)); [done|].
    pose proof (isAllowed_other a 5 60000 key (now st) (attempts st) Hkey) as Hother.
    fold a. destruct (isAllowed a 5 60000 (now st) (attempts st)) as [[] att]; simpl in *;
      [|done].
    destruct (sanitizeBottleContent _ _ _) as [[c|e] li]; [|done].
    by destruct (writeContract _ _ _).
  - intros bottleId content key Hkey. unfold replyToBottle.
    destruct (_ || _); [done|]. destruct (negb (bool_decide _)); [done|].
    destruct (negb (validateBottleId _)); [done|].
    pose proof (isAllowed_other (a +:+ "_reply") 10 60000 key (now st) (attempts st) Hkey)
      as Hother.
    fold a. destruct (isAllowed (a +:+ "_reply") 10 60000 (now st) (attempts st))
      as [[] att]; simpl in *; [|done].
    destruct (sanitizeReplyContent _ _ _) as [[c|e] li]; [|done].
    by destruct (writeContract _ _ _).
  - intros bottleId key Hkey. unfold skipBottle.
    destruct (_ || _); [done|]. destruct (negb (bool_decide _)); [done|].
    destruct (negb (validateBottleId _)); [done|].
    pose proof (isAllowed_other (a +:+ "_skip") 20 60000 key (now st) (attempts st) Hkey)
      as Hother.
    fold a. destruct (isAllowed (a +:+ "_skip") 20 60000 (now st) (attempts st))
      as [[] att]; simpl in *; [|done].
    by destruct (writeContract _ _ _).
  - intros bottleId r st'. apply readBottleData_rec_attempts.
  - intros bottleId r st'. apply readBottleReplies_rec_attempts.
Qed.

End HookBudgets.

Section HookBudgetsScenario.
Import Security Hook.

(** With the send budget used up, a reply still goes through. *)
Lemma rate_limits_are_separate_budgets_witness :
  (sendBottle online [104; 105]%N busy).1 = Throw SEND_RATE_LIMIT ∧
  default [] (attempts (sendBottle online [104; 105]%N busy).2
                !! "0x00000000000000000000000000000000000000aa_reply") = [] ∧
  (replyToBottle online 7 [104; 105]%N (sendBottle online [104; 105]%N busy).2).1 = Ret ().
Proof.
  destruct (rate_limits_are_separate_budgets online busy) as (_ & Hsend & _).
  split; [reflexivity|]. split; [|reflexivity].
  rewrite (Hsend [104; 105]%N "0x00000000000000000000000000000000000000aa_reply");
    [reflexivity|discriminate].
Defined.

End HookBudgetsScenario.

(** ** The hook: a bottle read once is served from the cache *)

Section HookCacheRoundTrip.
Import Security Hook.
Context {Raw RawReply VB VR D DR : Type}.
Implicit Types (env : Hook.Env Raw RawReply VB VR D DR) (st : Hook.State D DR).

Lemma map_get_originalSet {V} k (v : V) (m : JsMap V) :
  map_get k (originalSet k v m) = Some v ∧ map_has k (originalSet k v m) = true.
Proof.
  induction m as [|[k' v'] m IH]; simpl.
  - by rewrite bool_decide_eq_true_2.
  - case_bool_decide as Hk; simpl.
    + by rewrite bool_decide_eq_true_2.
    + by rewrite (bool_decide_eq_false_2 _ Hk).
Qed.

Lemma map_get_cache_set {V} k (v : V) (m : JsMap V) :
  map_get k (cache_set k v m) = Some v ∧ map_has k (cache_set k v m) = true.
Proof. unfold cache_set. apply map_get_originalSet. Qed.

Lemma cacheLookup_miss ck ttl st :
  map_has ck (bottleDataCache st) = false → cacheLookup ck ttl st = (None, st).
Proof. unfold cacheLookup. by intros ->. Qed.

(** A read that finds nothing cached and returns data has put it into
    the cache, stamped with the time of its arrival. *)
Lemma readBottleData_rec_fresh fuel env id k st d st1 :
  map_has ("bottle_" +:+ pretty id) (bottleDataCache st) = false →
  readBottleData_rec fuel env id k st = Some (Some d, st1) →
  0 < id ∧ now st ≤ now st1 ∧
  bottleDataCache st1
    = cache_set ("bottle_" +:+ pretty id) (mkEntry d (now st1)) (bottleDataCache st).
Proof.
  revert k st. induction fuel as [|fuel IH]; intros k st Hmiss; simpl; [done|].
  destruct (Z.leb_spec id 0); [done|].
  destruct (negb (bool_decide _)); [done|].
  destruct (_ || _); [done|].
  rewrite (cacheLookup_miss _ _ _ Hmiss).
  destruct (getBottle env id k) as [[raw|]|err]; [|done|].
  - destruct (validateBottleData env raw); [|done]. intros [= <- <-]. simpl.
    split_and!; [lia|done|done].
  - destruct (isContractRevert err); [done|].
    destruct (_ && _); [|done].
    intros Hrec. apply IH in Hrec as (? & Hnow & Hcache); [|done].
    simpl in Hnow, Hcache. split_and!; [done| |done].
    assert (0 < Z.min (2 ^ Z.of_nat k * 1000) 8000) by (apply Z.min_glb_lt; lia).
    lia.
Qed.

(** X15.  A bottle read from the chain is served from the cache for
    five minutes.  After a [readBottleData] that found nothing cached
    for the bottle and returned its data, a further [readBottleData]
    for that bottle less than 300000 ms later (wallet connected,
    nothing else written to the cache in between) returns the same
    data, asks the chain nothing and changes nothing; from 300000 ms
    on the entry is dropped and the call goes on as if the bottle had
    never been cached. *)
Theorem readBottleData_serves_from_cache env env' (bottleId : Z) st d st1 :
  map_has ("bottle_" +:+ pretty bottleId) (bottleDataCache st) = false →
  0 < now st →
  readBottleData env bottleId 0 st = Some (Some d, st1) →
  is_Some (DRIFT_BOTTLE_CONTRACT_ADDRESS env') →
  actuallyConnected (account env') = true →
  connectionStable env' = true →
  ∀ ms, 0 ≤ ms →
    (ms < 300000 →
       readBottleData env' bottleId 0 (advance ms st1) = Some (Some d, advance ms st1)) ∧
    (300000 ≤ ms →
       readBottleData env' bottleId 0 (advance ms st1)
         = readBottleData env' bottleId 0
             (set_cache (map_delete ("bottle_" +:+ pretty bottleId) (bottleDataCache st1))
                (advance ms st1))).
Proof.
  intros Hmiss Hnow Hread Hcfg Hconn Hstable ms Hms.
  apply readBottleData_rec_fresh in Hread as (Hid & Hlater & Hcache); [|done].
  destruct (map_get_cache_set ("bottle_" +:+ pretty bottleId) (mkEntry d (now st1))
              (bottleDataCache st)) as [Hget Hhas].
  rewrite <- Hcache in Hget, Hhas.
  assert (∀ fresh : bool,
            (now st1 + ms - now st1 <? 5 * 60 * 1000) = fresh →
            cacheLookup ("bottle_" +:+ pretty bottleId) (5 * 60 * 1000) (advance ms st1)
            = if fresh then (Some d, advance ms st1)
              else (None, set_cache (map_delete ("bottle_" +:+ pretty bottleId)
                                       (bottleDataCache st1)) (advance ms st1))) as Hlook.
  { intros fresh <-. unfold cacheLookup. simpl. rewrite Hhas, Hget. simpl.
    by replace (now st1 =? 0) with false by (symmetry; apply Z.eqb_neq; lia). }
  unfold readBottleData. simpl.
  destruct (Z.leb_spec bottleId 0); [lia|].
  rewrite (bool_decide_eq_true_2 _ Hcfg), Hconn, Hstable. simpl.
  split.
  - intros Hfresh. by rewrite (Hlook true) by (apply Z.ltb_lt; lia).
  - intros Hold. rewrite (Hlook false) by (apply Z.ltb_ge; lia).
    rewrite (cacheLookup_miss _ _ (set_cache _ _)); [done|]. simpl. apply map_has_delete.
Qed.

End HookCacheRoundTrip.

Section HookCacheRoundTripScenario.
Import Security Hook.

(** Bottle 7 is read at time 5; four minutes later the network is
    down, and the bottle is still there. *)
Lemma readBottleData_serves_from_cache_witness :
  ∃ st1, readBottleData online 7 0 (initial 5) = Some (Some (CachedBottle 7), st1) ∧
         readBottleData offline 7 0 (advance 240000 st1)
           = Some (Some (CachedBottle 7), advance 240000 st1).
Proof.
  destruct (readBottleData online 7 0 (initial 5)) as [[[d|] st1]|] eqn:Hread;
    try (vm_compute in Hread; discriminate).
  assert (d = CachedBottle 7) as -> by (vm_compute in Hread; congruence).
  exists st1. split; [done|].
  destruct (readBottleData_serves_from_cache online offline 7 (initial 5) (CachedBottle 7) st1)
    with (ms := 240000) as [Hfresh _];
    [reflexivity|simpl; lia|done|by eexists|reflexivity|reflexivity|lia|].
  apply Hfresh. lia.
Defined.

End HookCacheRoundTripScenario.

(** ** The hook: retries of [readBottleReplies] *)

Section HookRepliesRetry.
Import Security Hook.
Context {Raw RawReply VB VR D DR : Type}.
Implicit Types (env : Hook.Env Raw RawReply VB VR D DR) (st : Hook.State D DR).

(** The reads of the list of reply ids in an effect log. *)
Definition isListRead (e : Effect) : bool :=
  match e with
  | ReadContract functionName _ => String.eqb functionName "getBottleReplies"
  | _ => false
  end.

Definition listReadsOf (l : list Effect) : list Effect := List.filter isListRead l.

Lemma listReadsOf_app l1 l2 : listReadsOf (l1 ++ l2) = listReadsOf l1 ++ listReadsOf l2.
Proof. apply List.filter_app. Qed.

Lemma fold_emit_effects (l : list Z) st :
  effects (fold_left (fun st replyId => emit (ReadContract "getReply" [ArgUint replyId]) st)
             l st)
  = effects st ++ map (fun replyId => ReadContract "getReply" [ArgUint replyId]) l.
Proof.
  revert st. induction l as [|x l IH]; intros st; simpl; [by rewrite app_nil_r|].
  rewrite IH. simpl. by rewrite <- app_assoc.
Qed.

Lemma getReply_reads_are_no_list_reads (l : list Z) :
  listReadsOf (map (fun replyId => ReadContract "getReply" [ArgUint replyId]) l) = [] ∧
  timersOf (map (fun replyId => ReadContract "getReply" [ArgUint replyId]) l) = [].
Proof. induction l as [|x l [IH1 IH2]]; simpl; [done|]. by rewrite IH1, IH2. Qed.

(** What one call adds to the effect log: [n] timers, with the delays
    of the retries [k], ..., [k+n-1], each after a read of the list
    that failed with a network error, and at most [n+1] reads of the
    list. *)
Lemma readBottleReplies_rec_trace fuel env id k st res st' :
  readBottleReplies_rec fuel env id k st = Some (res, st') →
  ∃ added n,
    effects st' = effects st ++ added ∧
    (n = 0 ∨ k + n ≤ 2)%nat ∧
    timersOf added = map (fun j => Z.min (2 ^ Z.of_nat j * 1000) 4000) (seq k n) ∧
    (length (listReadsOf added) ≤ n + 1)%nat ∧
    (∀ j, (k ≤ j < k + n)%nat →
          ∃ err, getBottleReplies env id j = Throw err ∧ isNetworkError err = true).
Proof.
  revert k st. induction fuel as [|fuel IH]; intros k st; simpl; [done|].
  assert (∀ added,
            timersOf added = [] → (length (listReadsOf added) ≤ 1)%nat →
            ∀ st2 : Hook.State D DR, effects st2 = effects st ++ added →
            ∃ added n, effects st2 = effects st ++ added ∧ (n = 0 ∨ k + n ≤ 2)%nat ∧
              timersOf added = map (fun j => Z.min (2 ^ Z.of_nat j * 1000) 4000) (seq k n) ∧
              (length (listReadsOf added) ≤ n + 1)%nat ∧
              (∀ j, (k ≤ j < k + n)%nat →
                 ∃ err, getBottleReplies env id j = Throw err ∧ isNetworkError err = true))
    as Hdone.
  { intros added Ht Hr st2 Hst2. exists added, 0%nat.
    split_and!; auto. intros j ?; lia. }
  destruct (id <=? 0);
    [intros [= _ <-]; apply (Hdone []); [done|simpl; lia|by rewrite app_nil_r]|].
  destruct (negb (bool_decide _));
    [intros [= _ <-]; apply (Hdone []); [done|simpl; lia|by rewrite app_nil_r]|].
  destruct (_ || _);
    [intros [= _ <-]; apply (Hdone []); [done|simpl; lia|by rewrite app_nil_r]|].
  destruct (cacheLookup _ _ st) as [o st1] eqn:Hl.
  apply cacheLookup_effects in Hl as [Hl _].
  destruct o;
    [intros [= _ <-]; apply (Hdone []); [done|simpl; lia|by rewrite app_nil_r]|].
  destruct (getBottleReplies env id k) as [[|rid rids]|err] eqn:Hget.
  - intros [= _ <-].
    apply (Hdone [ReadContract "getBottleReplies" [ArgUint id]]); [done|simpl; lia|].
    simpl. by rewrite Hl.
  - intros [= _ <-].
    apply (Hdone (ReadContract "getBottleReplies" [ArgUint id]
                    :: map (fun replyId => ReadContract "getReply" [ArgUint replyId])
                         (rid :: rids))).
    + change (?x :: ?l) with ([x] ++ l) at 1. rewrite timersOf_app.
      by rewrite (proj2 (getReply_reads_are_no_list_reads _)).
    + change (?x :: ?l) with ([x] ++ l) at 1. rewrite listReadsOf_app.
      rewrite (proj1 (getReply_reads_are_no_list_reads _)). simpl. lia.
    + cbn [effects set_cache]. rewrite fold_emit_effects. simpl. rewrite Hl.
      by rewrite <- !app_assoc.
  - destruct (Nat.ltb_spec k 2) as [Hk|Hk]; simpl.
    2: { intros [= _ <-].
         apply (Hdone [ReadContract "getBottleReplies" [ArgUint id]]); [done|simpl; lia|].
         simpl. by rewrite Hl. }
    destruct (isNetworkError err) eqn:Hnet.
    2: { intros [= _ <-].
         apply (Hdone [ReadContract "getBottleReplies" [ArgUint id]]); [done|simpl; lia|].
         simpl. by rewrite Hl. }
    intros Hrec. apply IH in Hrec as (added & n & He & Hn & Ht & Hr & Herr).
    simpl in He. rewrite Hl in He.
    exists ([ReadContract "getBottleReplies" [ArgUint id];
             SetTimeout (Z.min (2 ^ Z.of_nat k * 1000) 4000)] ++ added), (S n).
    split_and!.
    + rewrite He. by rewrite <- !app_assoc.
    + right. lia.
    + rewrite timersOf_app, Ht. simpl. by rewrite Nat.add_1_r.
    + rewrite listReadsOf_app, length_app. simpl. lia.
    + intros j Hj. destruct (decide (j = k)) as [->|Hne]; [eauto|].
      apply Herr. lia.
Qed.

(** X16.  [readBottleReplies] called as the page calls it (retry
    count 0) always returns a list, never an error: it sets [n ≤ 2]
    timers, of 1 s and 2 s in this order, and reads the list of reply
    ids at most [n + 1 ≤ 3] times, each retry following a read that
    failed with a network error.  An attempt whose read of the list
    fails with an error that is not a network error, or that is
    already the second retry, returns the empty list (as if the bottle
    had no replies), and that read is the last thing the call does;
    an earlier attempt that fails with a network error waits
    [min(2^k * 1000, 4000)] ms and goes on as attempt [k + 1]. *)
Theorem readBottleReplies_retries_are_bounded env (bottleId : Z) st :
  (∃ res st' added n,
      readBottleReplies env bottleId 0 st = Some (res, st') ∧
      effects st' = effects st ++ added ∧
      (n ≤ 2)%nat ∧
      timersOf added = take n [1000; 2000] ∧
      (length (listReadsOf added) ≤ n + 1)%nat ∧
      (∀ j, (j < n)%nat →
            ∃ err, getBottleReplies env bottleId j = Throw err ∧ isNetworkError err = true)) ∧
  (∀ k st1 err,
      0 < bottleId →
      is_Some (DRIFT_BOTTLE_CONTRACT_ADDRESS env) →
      actuallyConnected (account env) = true → connectionStable env = true →
      cacheLookup ("replies_" +:+ pretty bottleId) (3 * 60 * 1000) st = (None, st1) →
      getBottleReplies env bottleId k = Throw err →
      (isNetworkError err = false ∨ (2 ≤ k)%nat →
         readBottleReplies env bottleId k st
           = Some (CachedReplies [],
                   emit (ReadContract "getBottleReplies" [ArgUint bottleId]) st1)) ∧
      (isNetworkError err = true → (k < 2)%nat →
         readBottleReplies env bottleId k st
           = readBottleReplies env bottleId (k + 1)
               (advance (Z.min (2 ^ Z.of_nat k * 1000) 4000)
                  (emit (SetTimeout (Z.min (2 ^ Z.of_nat k * 1000) 4000))
                     (emit (ReadContract "getBottleReplies" [ArgUint bottleId]) st1))))).
Proof.
  split.
  - destruct (readBottleReplies_rec_total 3 env bottleId 0 st) as [[res st'] Hr]; [lia|].
    destruct (readBottleReplies_rec_trace _ _ _ _ _ _ _ Hr)
      as (added & n & He & Hn & Ht & Hl & Herr).
    exists res, st', added, n. split_and!; [done|done|lia| |done|].
    + rewrite Ht. destruct Hn as [->|Hn]; [done|].
      destruct n as [|[|[|n]]]; [done..|simpl in Hn; lia].
    + intros j Hj. apply Herr. lia.
  - intros k st1 err Hid Hcfg Hconn Hstable Hlook Hget.
    assert (∀ fuel, readBottleReplies_rec (S fuel) env bottleId k st =
              if (k <? 2)%nat && isNetworkError err
              then readBottleReplies_rec fuel env bottleId (k + 1)
                     (advance (Z.min (2 ^ Z.of_nat k * 1000) 4000)
                        (emit (SetTimeout (Z.min (2 ^ Z.of_nat k * 1000) 4000))
                           (emit (ReadContract "getBottleReplies" [ArgUint bottleId]) st1)))
              else Some (CachedReplies [],
                         emit (ReadContract "getBottleReplies" [ArgUint bottleId]) st1))
      as Hstep.
    { intros fuel. simpl.
      destruct (Z.leb_spec bottleId 0); [lia|].
      rewrite (bool_decide_eq_true_2 _ Hcfg), Hconn, Hstable. simpl.
      by rewrite Hlook, Hget. }
    split.
    + intros Hwhy. unfold readBottleReplies. rewrite Hstep.
      destruct (Nat.ltb_spec k 2); simpl; [|done].
      destruct (isNetworkError err); [|done].
      destruct Hwhy as [?|?]; [done|lia].
    + intros Hnet Hk. unfold readBottleReplies. rewrite Hstep, Hnet.
      replace (k <? 2)%nat with true by (symmetry; apply Nat.ltb_lt; lia).
      cbn [andb]. by replace (S (2 - (k + 1))) with (2 - k)%nat by lia.
Qed.

End HookRepliesRetry.

Section HookRepliesRetryScenario.
Import Security Hook.

(** A connected wallet in front of a chain whose list reads all fail
    with a network error. *)
Definition replies_offline : Env Z Z Z Z Z Z :=
  {| account := wallet;
     connectionStable := true;
     DRIFT_BOTTLE_CONTRACT_ADDRESS := Some "0x00000000000000000000000000000000000000cc";
     engine := letters_engine;
     validateBottleData := Some;
     validateReplyDataArray := fun l => l;
     sanitizeForDisplay := fun b => b;
     sanitizeReplyForDisplay := fun r => r;
     writeContract := fun _ _ => None;
     getBottle := fun _ _ => Throw network_down;
     getBottleReplies := fun _ _ => Throw network_down;
     getReply := fun _ => Throw network_down |}.

(** The third attempt on a dead network gives up at once, with an
    empty list. *)
Lemma readBottleReplies_retries_are_bounded_witness :
  readBottleReplies replies_offline 7 2 (initial 0)
    = Some (CachedReplies [], emit (ReadContract "getBottleReplies" [ArgUint 7]) (initial 0)).
Proof.
  destruct (readBottleReplies_retries_are_bounded replies_offline 7 (initial 0)) as [_ H].
  destruct (H 2%nat (initial 0) network_down) as [H1 _];
    [lia | by eexists | reflexivity | reflexivity | reflexivity | reflexivity |].
  apply H1. right. lia.
Defined.

End HookRepliesRetryScenario.

(** ** The lock manager: a held lock keeps the others out *)

Section CacheLockExclusion.
Import CacheLock.
Context {S E : Type}.
Implicit Types (w : World S) (k : string) (p : Pause).

(** X17.  A held lock keeps the others out.  From the moment a lock
    on [k] is in the table until its expiry time, whatever the rest of
    the page does to the manager short of [releaseLock(k)] and
    [clearAllLocks()] — time passing, locks taken, released or queried
    on other keys, the periodic cleanup, attempts on [k] itself — the
    lock stays as it is: every [acquireLock(k)] made meanwhile is
    refused and changes nothing, and afterwards [isLocked(k)] still
    answers true and a further [acquireLock(k)] is refused. *)
Theorem held_lock_excludes_others k (l : CacheLock) w p :
  locks w !! k = Some l →
  Forall (keeps k) p →
  now (run_pause p w) < expiry l →
  locks (run_pause p w) !! k = Some l ∧
  (∀ p1 e p2, p = p1 ++ OtherAcquire k e :: p2 →
     acquireLock k e (run_pause p1 w) = (false, run_pause p1 w)) ∧
  isLocked k (run_pause p w) = (true, run_pause p w) ∧
  (∀ e, acquireLock k e (run_pause p w) = (false, run_pause p w)).
Proof.
  intros Hl Hp Hnow.
  destruct (run_pause_keeps_lock p k l w Hp Hl Hnow) as [Hl' _].
  split; [done|]. split.
  - intros p1 e p2 ->. rewrite run_pause_app in Hnow.
    apply Forall_app in Hp as [Hp1 _].
    pose proof (run_pause_now (OtherAcquire k e :: p2) (run_pause p1 w)) as Hmono.
    destruct (run_pause_keeps_lock p1 k l w Hp1 Hl ltac:(lia)) as [Hl1 _].
    apply (held_lock_refuses k l); [done|lia].
  - split; [apply (held_lock_refuses k l _ 0 Hl' Hnow)|].
    intros e. apply (held_lock_refuses k l _ e Hl' Hnow).
Qed.

End CacheLockExclusion.

Section CacheLockExclusionScenario.
Import CacheLock.

(** A lock taken at time 0 for 10 s; during the next 9 s the page
    tries the key twice, takes and releases another key, and the
    cleanup runs. *)
Definition busy_page : Pause :=
  [Tick 3000; OtherAcquire "save_k" 10000; OtherAcquire "fetch_k" 30000; Tick 3000;
   PeriodicCleanup; OtherRelease "fetch_k"; Tick 3000; OtherAcquire "save_k" 10000].

Lemma held_lock_excludes_others_witness :
  let w := mkWorld 0 {[ "save_k" := mkLock "save_k" 0 10000 ]} tt in
  locks (run_pause busy_page w) !! "save_k" = Some (mkLock "save_k" 0 10000) ∧
  (acquireLock "save_k" 10000 (run_pause busy_page w)).1 = false.
Proof.
  intros w.
  destruct (@held_lock_excludes_others unit "save_k" (mkLock "save_k" 0 10000) w busy_page)
    as (Hl & _ & _ & Hacq).
  - reflexivity.
  - unfold busy_page, keeps.
    repeat (apply Forall_cons; split; [split; congruence|]). done.
  - vm_compute. reflexivity.
  - split; [exact Hl|]. by rewrite Hacq.
Defined.

End CacheLockExclusionScenario.

(** ** The per-user cache: merging, status and refresh *)

Section DataCacheMerge.
Import DataCache DataCacheOps.

Lemma orElse_idemp a other : orElse a (orElse a other) = orElse a other.
Proof. unfold orElse. destruct a as [s|]; [by case_bool_decide|done]. Qed.

Lemma orElse_nonempty a other : other ≠ "" → orElse a other ≠ "".
Proof. unfold orElse. destruct a as [s|]; [by case_bool_decide|done]. Qed.

(** The state [mergeBottleData] builds from when nothing is cached. *)
Definition blank : CachedBottleState :=
  {| bottles := []; replies := ∅; canReplyTo := ∅; lastUpdated := 0; userAddress := "" |}.

(** X18.  [mergeBottleData] with a cached state: an entry of
    [replies] or [canReplyTo] is the fresh one when the fresh data
    bring one for that bottle and the cached one otherwise, so no
    bottle the cache knew is lost; a cached address is never replaced
    by an empty one; merging the same fresh data again changes
    nothing; and merging into no cache at all is merging into a blank
    state. *)
Theorem mergeBottleData_prefers_fresh_and_keeps_the_rest
    (now : Z) (cached : CachedBottleState) (fresh : PartialState) :
  let merged := mergeBottleData now (Some cached) fresh in
  (∀ id, replies merged !! id =
         match default ∅ (fresh_replies fresh) !! id with
         | Some l => Some l
         | None => replies cached !! id
         end) ∧
  (∀ id, canReplyTo merged !! id =
         match default ∅ (fresh_canReplyTo fresh) !! id with
         | Some c => Some c
         | None => canReplyTo cached !! id
         end) ∧
  dom (replies cached) ⊆ dom (replies merged) ∧
  (userAddress cached ≠ "" → userAddress merged ≠ "") ∧
  mergeBottleData now (Some merged) fresh = merged ∧
  mergeBottleData now None fresh = mergeBottleData now (Some blank) fresh.
Proof.
  intros merged. split_and!.
  - intros id. unfold merged. simpl. rewrite lookup_union.
    by destruct (default ∅ (fresh_replies fresh) !! id), (replies cached !! id).
  - intros id. unfold merged. simpl. rewrite lookup_union.
    by destruct (default ∅ (fresh_canReplyTo fresh) !! id), (canReplyTo cached !! id).
  - unfold merged. simpl. rewrite dom_union. set_solver.
  - unfold merged. simpl. apply orElse_nonempty.
  - unfold merged, mergeBottleData. simpl.
    rewrite orElse_idemp, !(assoc_L (∪)), !(idemp_L (∪)).
    by destruct (fresh_bottles fresh).
  - unfold mergeBottleData, blank. simpl. by rewrite !(right_id_L ∅ (∪)).
Qed.

End DataCacheMerge.

Section DataCacheStatus.
Import DataCache DataCacheManager.

(** X19.  [getCacheStatus] on a clock that does not go back.  When
    nothing is returned by [loadBottleDataFromCache] the status is
    "does not exist, stale, age infinite".  When a state is returned
    it was at most 30 minutes old when it was loaded, and it is
    reported stale exactly when it is older than 30 minutes at the
    later reading of the clock that [isDataStale] makes: a cache that
    exists is reported stale only if the 30 minutes ran out between
    the two readings, and never on a clock that stands still. *)
Theorem getCacheStatus_is_stale_only_across_the_deadline
    (address : string) (b : Browser) (now2 now3 : Z) :
  now b ≤ now2 → now2 ≤ now3 →
  let st := (getCacheStatus address b now2 now3).1 in
  (exists_ st = false →
     (loadBottleDataFromCache address b).1 = None ∧
     isStale st = true ∧ age st = None ∧ status_lastUpdated st = 0) ∧
  (exists_ st = true →
     ∃ data,
       (loadBottleDataFromCache address b).1 = Some data ∧
       status_lastUpdated st = lastUpdated data ∧
       age st = Some (now2 - lastUpdated data) ∧
       now b - lastUpdated data ≤ CACHE_EXPIRY_TIME ∧
       (isStale st = true ↔ CACHE_EXPIRY_TIME < now3 - lastUpdated data)) ∧
  (now3 = now b → exists_ st = true → isStale st = false).
Proof.
  intros H12 H23 st. unfold st, getCacheStatus.
  destruct (loadBottleDataFromCache address b) as [[data|] b'] eqn:Hload; simpl.
  2: { split_and!; done. }
  assert (now b - lastUpdated data ≤ CACHE_EXPIRY_TIME) as Hfresh.
  { revert Hload. unfold loadBottleDataFromCache.
    destruct (negb (window b)); [done|].
    destruct (localStorage b !! getCacheKey address) as [[d|]|]; [|done..].
    destruct (Z.gtb_spec (now b - lastUpdated d) CACHE_EXPIRY_TIME); [done|].
    destruct (negb (bool_decide _)); [done|]. by intros [= <- _]. }
  unfold isDataStale. simpl.
  destruct (Z.gtb_spec (now3 - lastUpdated data) CACHE_EXPIRY_TIME) as [Hold|Hyoung].
  - split_and!; [done| |intros -> _; lia].
    intros _. exists data. split_and!; try done; intros; lia.
  - split_and!; [done| |done].
    intros _. exists data. split_and!; try done; intros; lia.
Qed.

(** A state saved at time 0 for the address 0xAB, loaded exactly 30
    minutes later; the clock moves on by one millisecond before
    [isDataStale] reads it. *)
Definition saved_at_0 : CachedBottleState :=
  {| bottles := []; replies := ∅; canReplyTo := ∅; lastUpdated := 0; userAddress := "0xab" |}.

Definition half_an_hour_later : Browser :=
  {| window := true; now := 1800000;
     localStorage := {[ getCacheKey "0xAB" := Json saved_at_0 ]} |}.

Lemma getCacheStatus_is_stale_only_across_the_deadline_witness :
  let st := (getCacheStatus "0xAB" half_an_hour_later 1800000 1800001).1 in
  exists_ st = true ∧ isStale st = true ∧ age st = Some 1800000.
Proof.
  intros st.
  destruct (getCacheStatus_is_stale_only_across_the_deadline
              "0xAB" half_an_hour_later 1800000 1800001) as (_ & Hex & _);
    [simpl; lia|lia|].
  destruct Hex as (data & Hload & _ & Hage & _ & Hstale); [reflexivity|].
  assert (data = saved_at_0) as ->
    by (vm_compute in Hload; injection Hload as <-; vm_compute; reflexivity).
  split; [reflexivity|]. split; [|exact Hage].
  apply Hstale. vm_compute. reflexivity.
Defined.

End DataCacheStatus.

Section RefreshDebounce.
Import DataCacheManager.

(** The calls [triggerRefresh(forceRefresh)] made at the given times,
    one after the other. *)
Definition run_refreshes (calls : list (bool * Z)) (m : Manager) : Manager :=
  fold_left (fun m call => triggerRefresh call.1 call.2 m) calls m.

Lemma run_refreshes_snoc calls call m :
  run_refreshes (calls ++ [call]) m
  = triggerRefresh call.1 call.2 (run_refreshes calls m).
Proof. unfold run_refreshes. by rewrite fold_left_app. Qed.

(** X20.  The refresh rounds of a manager, whatever calls it gets.
    Every forced call runs a round.  An unforced call runs one only
    if at least 5000 ms have passed since the round before (and, for
    the very first, since time 0): two rounds of which the second is
    unforced are at least 5 s apart.  The rounds are calls that were
    made, in their order; between calls the manager is never left
    refreshing, and [lastRefreshTime] is the time of the last
    round. *)
Theorem triggerRefresh_debounces (calls : list (bool * Z)) :
  let m := run_refreshes calls initial in
  isRefreshing m = false ∧
  lastRefreshTime m = default 0 (snd <$> last (rounds m)) ∧
  sublist (rounds m) calls ∧
  (∀ t, (true, t) ∈ calls → (true, t) ∈ rounds m) ∧
  (∀ t, head (rounds m) = Some (false, t) → 5000 ≤ t) ∧
  (∀ i f1 t1 t2,
     rounds m !! i = Some (f1, t1) → rounds m !! S i = Some (false, t2) →
     5000 ≤ t2 - t1).
Proof.
  induction calls as [|[force now] calls IH] using rev_ind; simpl.
  { by split_and!. }
  rewrite run_refreshes_snoc. simpl.
  destruct IH as (Hidle & Hlast & Hsub & Hforced & Hfirst & Hgap).
  set (m := run_refreshes calls initial) in *.
  unfold triggerRefresh. rewrite Hidle. simpl.
  destruct (negb force && (now - lastRefreshTime m <? 5000)) eqn:Hskip.
  - apply andb_true_iff in Hskip as [Hf _]. destruct force; [done|].
    split_and!; try done.
    + by apply sublist_inserts_r.
    + intros t [Ht|Ht%list_elem_of_singleton]%elem_of_app; [by apply Hforced|done].
  - assert (force = false → 5000 ≤ now - lastRefreshTime m) as Hfar.
    { intros ->. simpl in Hskip. apply Z.ltb_ge in Hskip. lia. }
    simpl. split_and!.
    + done.
    + by rewrite last_snoc.
    + by apply sublist_app.
    + intros t [Ht|Ht%list_elem_of_singleton]%elem_of_app.
      * apply elem_of_app. left. by apply Hforced.
      * injection Ht as <- <-. apply elem_of_app. right. by left.
    + intros t. destruct (rounds m) as [|r rs] eqn:Hr; simpl.
      * intros [= -> <-]. rewrite Hlast in Hfar. simpl in Hfar. lia.
      * intros [= ->]. by apply Hfirst.
    + intros i f1 t1 t2 H1 H2.
      apply lookup_app_Some in H2 as [H2|[Hlen H2]].
      * apply lookup_lt_Some in H2 as Hlt.
        rewrite lookup_app_l in H1 by lia. by eapply Hgap.
      * apply list_lookup_singleton_Some in H2 as [Hi [= -> <-]].
        assert (i = Nat.pred (length (rounds m))) as -> by lia.
        rewrite lookup_app_l in H1 by lia.
        rewrite <- last_lookup in H1. rewrite Hlast, H1 in Hfar. simpl in Hfar. lia.
Qed.

(** Five clicks on "refresh", two seconds apart, from time 10000:
    the first, the fourth (six seconds later) run; a forced one runs
    at once. *)
Lemma triggerRefresh_debounces_witness :
  rounds (run_refreshes [(false, 10000); (false, 12000); (false, 14000); (false, 16000);
                         (true, 17000); (false, 18000)] initial)
    = [(false, 10000); (false, 16000); (true, 17000)] ∧
  6000 ≤ 16000 - 10000.
Proof.
  destruct (triggerRefresh_debounces
              [(false, 10000); (false, 12000); (false, 14000); (false, 16000);
               (true, 17000); (false, 18000)]) as (_ & _ & _ & _ & _ & Hgap).
  split; [reflexivity|].
  pose proof (Hgap 0%nat false 10000 16000 eq_refl eq_refl). lia.
Defined.

End RefreshDebounce.

(** ** The per-user cache: saving *)

Section LockManagerFrame.
Import CacheLock.
Context {S : Type}.
Implicit Types (w : World S) (s : St S) (k : string).

(** The lock manager and the passing of time leave the rest of the
    page alone. *)
Lemma run_action_app (a : Action) w : app (run_action a w) = app w.
Proof.
  destruct a as [dt|k e|k|k| |]; simpl; try done.
  - unfold acquireLock. by destruct (locks w !! k) as [l|]; [destruct (_ <? _)|].
  - unfold isLocked. by destruct (locks w !! k) as [l|]; [destruct (_ <=? _)|].
Qed.

Lemma run_pause_app_kept (p : Pause) : ∀ w, app (run_pause p w) = app w.
Proof.
  unfold run_pause. induction p as [|a p IH]; intros w; simpl; [done|].
  by rewrite IH, run_action_app.
Qed.

Lemma suspend_app s : app (suspend s).2 = app s.2.
Proof. unfold suspend. destruct s.1; simpl; [done|apply run_pause_app_kept]. Qed.

Lemma sleep_app ms s : app (sleep ms s).2 = app s.2.
Proof. unfold sleep. simpl. apply suspend_app. Qed.

Lemma isLocked_app k w : app (isLocked k w).2 = app w.
Proof. unfold isLocked. by destruct (locks w !! k) as [l|]; [destruct (_ <=? _)|]. Qed.

Lemma acquireLock_app k e w : app (acquireLock k e w).2 = app w.
Proof. unfold acquireLock. by destruct (locks w !! k) as [l|]; [destruct (_ <? _)|]. Qed.

Lemma waitLoop_app fuel k start maxWaitMs poll : ∀ s r s',
  waitLoop fuel k start maxWaitMs poll s = Some (r, s') → app s'.2 = app s.2.
Proof.
  induction fuel as [|fuel IH]; intros s r s'; simpl; [done|].
  destruct (_ <? _); [|by intros [= _ <-]].
  destruct (isLocked k s.2) as [held w1] eqn:Hl.
  assert (app w1 = app s.2) as Hw1
    by (pose proof (isLocked_app k s.2) as H; by rewrite Hl in H).
  destruct held; simpl; [|by intros [= _ <-]].
  intros Hrec%IH. rewrite Hrec, sleep_app. done.
Qed.

Lemma waitForLock_app k maxWaitMs poll s r s' :
  waitForLock k maxWaitMs poll s = Some (r, s') → app s'.2 = app s.2.
Proof. apply waitLoop_app. Qed.

(** With a fallback value, [safeCacheOperation] resolves to a value:
    it neither rejects nor resolves to [null]. *)
Lemma safeCacheOperation_with_fallback {E T : Type} cacheKey
    (operation : St S → Outcome E (option T) * St S) (options : Options T) s fb :
  fallbackValue options = Some fb →
  ∃ v s', safeCacheOperation cacheKey operation options s = Some (Ret (Some v), s').
Proof.
  intros Hfb. destruct (safeCacheOperation_total cacheKey operation options s) as [[r s'] Hr].
  revert Hr. unfold safeCacheOperation. rewrite Hfb.
  destruct (withLock _ _ _ _ _) as [[[[v|]|err] s0]|]; [| | |done]; intros [= <- <-]; eauto.
Qed.

End LockManagerFrame.

Section SaveToCache.
Import CacheLock DataCache DataCacheOps.
Implicit Types (P : Platform) (s : St (gmap string Item)).

Abbreviation saveOptions address :=
  (mkOptions SaveResult (Some ("save_" +:+ getCacheKey address)) (Some 10000) (Some 3000)
     (Some NotSaved)).

(** X21.  [saveBottleDataToCache] always completes and never
    rejects: because it hands [safeCacheOperation] the fallback
    [false], that call resolves to a value whatever happens, so the
    [.catch] that would clear old entries and retry after a quota
    error never runs.  Without a window it does nothing.  When the
    lock "save_<key>" does not come free within 3 s, or the JSON text
    is larger than 5 MB, local storage is left exactly as it was. *)
Theorem saveBottleDataToCache_never_rejects P (window : bool) (address : string)
    (data : CachedBottleState) s :
  (window = false → saveBottleDataToCache P window address data s = Some s) ∧
  (window = true →
     ∃ v s0,
       safeCacheOperation (getCacheKey address) (saveOperation P address data)
         (saveOptions address) s = Some (Ret (Some v), s0) ∧
       saveBottleDataToCache P window address data s = Some (suspend (suspend s0)) ∧
       (∀ s1, waitForLock ("save_" +:+ getCacheKey address) 3000 100 s = Some (false, s1) →
              v = NotSaved ∧ app s0.2 = app s.2) ∧
       (∀ s1 w2,
          waitForLock ("save_" +:+ getCacheKey address) 3000 100 s = Some (true, s1) →
          acquireLock ("save_" +:+ getCacheKey address) 10000 (suspend s1).2 = (true, w2) →
          5 * (1024 * 1024)
            < blobSize P (stamp (CacheLock.now (suspend ((suspend s1).1, w2)).2) address data) →
          v = Skipped ∧ app s0.2 = app s.2)).
Proof.
  split; [by intros ->|]. intros ->.
  destruct (safeCacheOperation_with_fallback (getCacheKey address)
              (saveOperation P address data) (saveOptions address) s NotSaved eq_refl)
    as (v & s0 & Hsafe).
  exists v, s0. split; [done|]. split.
  - unfold saveBottleDataToCache. simpl. by rewrite Hsafe.
  - split.
    + intros s1 Hwait. revert Hsafe. unfold safeCacheOperation. simpl.
      rewrite (withLock_wait_failed _ _ _ _ _ _ Hwait). intros [= <- <-].
      split; [done|]. rewrite !suspend_app. by eapply waitForLock_app.
    + intros s1 w2 Hwait Hacq Hbig. revert Hsafe. unfold safeCacheOperation. simpl.
      rewrite (withLock_acquired _ _ _ _ _ _ _ Hwait Hacq).
      unfold saveOperation.
      set (s2 := suspend ((suspend s1).1, w2)) in *.
      replace (blobSize P (stamp (CacheLock.now s2.2) address data) >? 5 * (1024 * 1024))
        with true by (symmetry; apply Z.gtb_lt; lia).
      simpl. intros [= <- <-]. split; [done|]. simpl.
      rewrite !suspend_app. simpl. unfold s2. rewrite suspend_app. simpl.
      pose proof (acquireLock_app ("save_" +:+ getCacheKey address) 10000 (suspend s1).2) as Ha.
      rewrite Hacq in Ha. simpl in Ha.
      rewrite suspend_app. simpl. rewrite Ha, suspend_app. by eapply waitForLock_app.
Qed.

(** X22.  What is saved can be loaded.  When [saveBottleDataToCache]
    gets its lock, the JSON text is not larger than 5 MB and
    [localStorage.setItem] does not throw, the state is stored under
    the key of the lower-cased address, stamped with the time of the
    save and that address (after [clearOldCacheEntries], if local
    storage held more than 5 MB of text).  From then on, as long as
    nothing else writes that key, [loadBottleDataFromCache] returns
    exactly this stamped state, for the address in any spelling of
    upper and lower case, up to and including 30 minutes after the
    save. *)
Theorem saveBottleDataToCache_then_load P (address : string) (data : CachedBottleState)
    s s1 w2 :
  waitForLock ("save_" +:+ getCacheKey address) 3000 100 s = Some (true, s1) →
  acquireLock ("save_" +:+ getCacheKey address) 10000 (suspend s1).2 = (true, w2) →
  let saved := stamp (CacheLock.now (suspend ((suspend s1).1, w2)).2) address data in
  let storage :=
    if totalSize P (app s.2) >? 5 * 1024 * 1024
    then clearOldCacheEntries (keysOf P (app s.2)) (app s.2)
    else app s.2 in
  blobSize P saved ≤ 5 * (1024 * 1024) →
  setItem P storage (getCacheKey address) saved = None →
  ∃ s',
    saveBottleDataToCache P true address data s = Some s' ∧
    app s'.2 = <[getCacheKey address := Json saved]> storage ∧
    ∀ (address' : string) (t : Z),
      toLowerCase address' = toLowerCase address →
      t - lastUpdated saved ≤ CACHE_EXPIRY_TIME →
      loadBottleDataFromCache address'
        {| window := true; now := t; localStorage := app s'.2 |}
      = (Some saved, {| window := true; now := t; localStorage := app s'.2 |}).
Proof.
  intros Hwait Hacq saved storage Hsmall Hset.
  set (s2 := suspend ((suspend s1).1, w2)) in *.
  assert (app s2.2 = app s.2) as Happ.
  { unfold s2. rewrite suspend_app. simpl.
    pose proof (acquireLock_app ("save_" +:+ getCacheKey address) 10000 (suspend s1).2) as Ha.
    rewrite Hacq in Ha. simpl in Ha. rewrite Ha, suspend_app. by eapply waitForLock_app. }
  assert (saveOperation P address data s2
          = (Ret (Some Saved),
             suspend (with_storage (<[getCacheKey address := Json saved]> storage) s2)))
    as Hop.
  { unfold saveOperation. fold saved.
    replace (blobSize P saved >? 5 * (1024 * 1024)) with false
      by (symmetry; rewrite Z.gtb_ltb; apply Z.ltb_ge; lia).
    rewrite Happ. fold storage. by rewrite Hset. }
  eexists. split; [|split].
  - unfold saveBottleDataToCache, safeCacheOperation. simpl.
    rewrite (withLock_acquired _ _ _ _ _ _ _ Hwait Hacq). fold s2. rewrite Hop. simpl.
    reflexivity.
  - rewrite !suspend_app. simpl. by rewrite suspend_app.
  - intros address' t Hsame Hfresh. unfold loadBottleDataFromCache. simpl.
    rewrite !suspend_app. simpl. rewrite suspend_app. simpl.
    assert (getCacheKey address' = getCacheKey address) as ->
      by (unfold getCacheKey; by rewrite Hsame).
    rewrite lookup_insert_eq.
    replace (t - lastUpdated saved >? CACHE_EXPIRY_TIME) with false
      by (symmetry; rewrite Z.gtb_ltb; apply Z.ltb_ge; lia).
    rewrite bool_decide_eq_true_2; [done|]. by rewrite Hsame.
Qed.

End SaveToCache.

Section SaveToCacheScenario.
Import CacheLock DataCache DataCacheOps.

(** A browser with room to spare. *)
Definition roomy : Platform :=
  {| blobSize := fun _ => 200;
     textLength := fun _ => 200;
     keysOf := fun storage => (map_to_list storage).*1;
     setItem := fun _ _ _ => None |}.

Definition nothing_cached : CachedBottleState :=
  {| bottles := []; replies := ∅; canReplyTo := ∅; lastUpdated := 0; userAddress := "" |}.

(** Saved for 0xAB at time 1000 on an idle page, loaded for 0xab
    30 minutes later. *)
Lemma saveBottleDataToCache_then_load_witness :
  ∃ s', saveBottleDataToCache roomy true "0xAB" nothing_cached ([], mkWorld 1000 ∅ ∅) = Some s' ∧
        (loadBottleDataFromCache "0xab"
           {| window := true; now := 1801000; localStorage := app s'.2 |}).1
        = Some (stamp 1000 "0xAB" nothing_cached).
Proof.
  destruct (saveBottleDataToCache_then_load roomy "0xAB" nothing_cached
              ([], mkWorld 1000 ∅ ∅) ([], mkWorld 1000 ∅ ∅)
              (mkWorld 1000 {[ "save_drift-bottle-data-0xab"
                                 := mkLock "save_drift-bottle-data-0xab" 1000 11000 ]} ∅))
    as (s' & Hsave & _ & Hload).
  - vm_compute. reflexivity.
  - vm_compute. reflexivity.
  - simpl. lia.
  - reflexivity.
  - exists s'. split; [exact Hsave|].
    rewrite (Hload "0xab" 1801000); [reflexivity|reflexivity|].
    vm_compute. discriminate.
Defined.

End SaveToCacheScenario.

(** ** The per-user cache: clearing old entries *)

Section ClearOldEntries.
Import DataCache DataCacheOps.

Abbreviation older := (fun a b : string * Z => a.2 ≤ b.2).

Lemma insertEntry_perm e l : insertEntry e l ≡ₚ e :: l.
Proof.
  induction l as [|x l IH]; simpl; [done|].
  destruct (e.2 <=? x.2); [done|]. rewrite IH. apply Permutation_swap.
Qed.

Lemma sortEntries_perm l : sortEntries l ≡ₚ l.
Proof.
  induction l as [|x l IH]; simpl; [done|]. by rewrite insertEntry_perm, IH.
Qed.

Lemma insertEntry_sorted e l :
  StronglySorted older l → StronglySorted older (insertEntry e l).
Proof.
  induction l as [|x l IH]; simpl; intros Hs.
  - by repeat constructor.
  - apply StronglySorted_inv in Hs as [Hl Hx].
    destruct (Z.leb_spec e.2 x.2) as [Hle|Hgt].
    + constructor; [by constructor|]. constructor; [done|].
      eapply Forall_impl; [exact Hx|]. simpl. intros; lia.
    + constructor; [by apply IH|].
      rewrite insertEntry_perm. constructor; [simpl; lia|done].
Qed.

Lemma sortEntries_sorted l : StronglySorted older (sortEntries l).
Proof.
  induction l as [|x l IH]; simpl; [constructor|]. by apply insertEntry_sorted.
Qed.

Lemma sorted_app_older (l1 l2 : list (string * Z)) e1 e2 :
  StronglySorted older (l1 ++ l2) → e1 ∈ l1 → e2 ∈ l2 → e1.2 ≤ e2.2.
Proof.
  induction l1 as [|x l1 IH]; simpl; intros Hs H1 H2; [by apply elem_of_nil in H1|].
  apply StronglySorted_inv in Hs as [Hl Hx].
  apply elem_of_cons in H1 as [->|H1]; [|by apply IH].
  rewrite Forall_forall in Hx. apply Hx. apply elem_of_app. by right.
Qed.

Lemma lookup_delete_all (removed : list (string * Z)) : ∀ (storage : gmap string Item) k,
  fold_left (fun storage entry => delete entry.1 storage) removed storage !! k
  = if bool_decide (k ∈ removed.*1) then None else storage !! k.
Proof.
  induction removed as [|e removed IH]; intros storage k.
  - rewrite bool_decide_eq_false_2; [done|]. apply not_elem_of_nil.
  - change (fold_left (fun storage entry => delete entry.1 storage) (e :: removed) storage)
      with (fold_left (fun storage entry => delete entry.1 storage) removed
              (delete e.1 storage)).
    rewrite IH, fmap_cons.
    destruct (decide (k = e.1)) as [->|Hne].
    + rewrite (bool_decide_eq_true_2 (e.1 ∈ e.1 :: removed.*1)) by left.
      rewrite lookup_delete_eq. by case_bool_decide.
    + rewrite lookup_delete_ne by done.
      destruct (decide (k ∈ removed.*1)) as [Hin|Hout].
      * rewrite !bool_decide_eq_true_2; [done|by right|done].
      * rewrite !bool_decide_eq_false_2; [done| |done].
        by intros [?|?]%elem_of_cons.
Qed.

Lemma cacheEntries_spec keys (storage : gmap string Item) key t :
  (key, t) ∈ cacheEntries keys storage ↔
  key ∈ keys ∧ startsWith key CACHE_KEY_PREFIX = true ∧
  ∃ item, storage !! key = Some item ∧ t = lastUpdatedOf item.
Proof.
  unfold cacheEntries. rewrite sortEntries_perm, list_elem_of_omap.
  split.
  - intros (k & Hk & Hsome). apply list_elem_of_In, filter_In in Hk as [Hk Hpre].
    apply list_elem_of_In in Hk.
    destruct (storage !! k) as [item|] eqn:Hitem; [|done].
    injection Hsome as <- <-. eauto.
  - intros (Hk & Hpre & item & Hitem & ->). exists key. split.
    + apply list_elem_of_In, filter_In. split; [by apply list_elem_of_In|done].
    + by rewrite Hitem.
Qed.

Lemma cacheEntries_keys_NoDup keys (storage : gmap string Item) :
  NoDup keys → NoDup (cacheEntries keys storage).*1.
Proof.
  intros Hnd. unfold cacheEntries. rewrite sortEntries_perm.
  assert (NoDup (List.filter (fun key => startsWith key CACHE_KEY_PREFIX) keys)) as Hf.
  { apply NoDup_ListNoDup, List.NoDup_filter, NoDup_ListNoDup, Hnd. }
  induction Hf as [|k l Hk Hl IH]; simpl; [constructor|].
  destruct (storage !! k) as [item|]; simpl; [|done].
  constructor; [|done]. intros Hin. apply Hk.
  apply list_elem_of_fmap in Hin as ([k' t] & -> & Hin).
  apply list_elem_of_omap in Hin as (k'' & Hk'' & Hsome).
  destruct (storage !! k''); [|done]. by injection Hsome as <- _.
Qed.

(** X23.  [clearOldCacheEntries] sorts the cache entries (the keys
    that start with "drift-bottle-data", with the [lastUpdated] of
    their state, 0 for text that cannot be read) by age and removes
    the first half, rounded down.  So: keys outside the cache are
    never touched and nothing is added or changed; every removed
    entry was updated no later than every entry that is kept; with a
    single cache entry nothing is removed at all; and, the keys being
    listed once each, the most recently updated entry always
    survives. *)
Theorem clearOldCacheEntries_removes_the_older_half
    (keys : list string) (storage : gmap string Item) :
  let entries := cacheEntries keys storage in
  let removed := take (length entries / 2) entries in
  let kept := drop (length entries / 2) entries in
  (∀ key, clearOldCacheEntries keys storage !! key
          = if bool_decide (key ∈ removed.*1) then None else storage !! key) ∧
  (∀ key, startsWith key CACHE_KEY_PREFIX = false →
          clearOldCacheEntries keys storage !! key = storage !! key) ∧
  (∀ e1 e2, e1 ∈ removed → e2 ∈ kept → e1.2 ≤ e2.2) ∧
  (length entries = 1%nat → clearOldCacheEntries keys storage = storage) ∧
  (NoDup keys →
   ∀ newest, last entries = Some newest →
     clearOldCacheEntries keys storage !! newest.1 = storage !! newest.1 ∧
     ∀ e, e ∈ entries → e.2 ≤ newest.2).
Proof.
  intros entries removed kept.
  assert (∀ key, clearOldCacheEntries keys storage !! key
                 = if bool_decide (key ∈ removed.*1) then None else storage !! key) as Hlook.
  { intros key. apply lookup_delete_all. }
  assert (StronglySorted older (removed ++ kept)) as Hsorted.
  { unfold removed, kept. rewrite take_drop. apply sortEntries_sorted. }
  split_and!.
  - done.
  - intros key Hpre. rewrite Hlook. case_bool_decide as Hin; [|done].
    apply list_elem_of_fmap in Hin as ([k t] & -> & Hin).
    apply elem_of_take in Hin as (i & Hin & _).
    apply list_elem_of_lookup_2, cacheEntries_spec in Hin as (_ & Hpre' & _).
    simpl in Hpre. congruence.
  - intros e1 e2. by apply sorted_app_older.
  - intros Hone. apply map_eq. intros key. rewrite Hlook.
    unfold removed. rewrite Hone. by simpl.
  - intros Hnd newest Hlast.
    assert (entries ≠ []) as Hne by (by intros Hnil; rewrite Hnil in Hlast).
    assert (0 < length entries)%nat as Hlen by (destruct entries; simpl; [done|lia]).
    assert (length entries / 2 < length entries)%nat as Hhalf
      by (apply Nat.div_lt; lia).
    assert (newest ∈ kept) as Hkept.
    { rewrite last_lookup in Hlast. unfold kept.
      apply (list_elem_of_lookup_2 _ (Nat.pred (length entries) - length entries / 2)).
      rewrite lookup_drop. rewrite <- Hlast. f_equal. lia. }
    split.
    + rewrite Hlook. rewrite bool_decide_eq_false_2; [done|].
      intros Hin. pose proof (cacheEntries_keys_NoDup keys storage Hnd) as Hnd'.
      fold entries in Hnd'. rewrite <- (take_drop (length entries / 2) entries) in Hnd'.
      fold removed kept in Hnd'. rewrite fmap_app in Hnd'.
      apply NoDup_app in Hnd' as (_ & Hdisj & _).
      apply (Hdisj _ Hin). apply list_elem_of_fmap. by exists newest.
    + intros e He. rewrite <- (take_drop (Nat.pred (length entries)) entries) in He.
      apply elem_of_app in He as [He|He].
      * eapply (sorted_app_older (take (Nat.pred (length entries)) entries)
                  (drop (Nat.pred (length entries)) entries)); [|done|].
        -- rewrite take_drop. apply sortEntries_sorted.
        -- rewrite last_lookup in Hlast.
           apply (list_elem_of_lookup_2 _ 0). rewrite lookup_drop. rewrite <- Hlast.
           f_equal. lia.
      * apply list_elem_of_lookup_1 in He as [i Hi]. rewrite lookup_drop in Hi.
        apply lookup_lt_Some in Hi as Hlt.
        assert (i = 0)%nat as -> by lia.
        rewrite last_lookup in Hlast.
        replace (Nat.pred (length entries) + 0)%nat with (Nat.pred (length entries)) in Hi
          by lia.
        rewrite Hlast in Hi. injection Hi as <-. lia.
Qed.

(** Three users' caches, updated at 30, 10 and 20 s, and a key of
    another feature: the one updated at 10 s goes. *)
Definition state_at (t : Z) : CachedBottleState :=
  {| bottles := []; replies := ∅; canReplyTo := ∅; lastUpdated := t; userAddress := "" |}.

Definition three_caches : gmap string Item :=
  {[ "drift-bottle-data-0xa" := Json (state_at 30000);
     "drift-bottle-data-0xb" := Json (state_at 10000);
     "drift-bottle-data-0xc" := Json (state_at 20000);
     "theme" := Malformed ]}.

Definition three_caches_keys : list string :=
  ["drift-bottle-data-0xa"; "theme"; "drift-bottle-data-0xb"; "drift-bottle-data-0xc"].

Lemma clearOldCacheEntries_removes_the_older_half_witness :
  clearOldCacheEntries three_caches_keys three_caches !! "drift-bottle-data-0xa"
    = Some (Json (state_at 30000)) ∧
  clearOldCacheEntries three_caches_keys three_caches !! "drift-bottle-data-0xb" = None ∧
  clearOldCacheEntries three_caches_keys three_caches !! "theme" = Some Malformed.
Proof.
  destruct (clearOldCacheEntries_removes_the_older_half three_caches_keys three_caches)
    as (_ & Hother & _ & _ & Hnewest).
  assert (NoDup three_caches_keys) as Hnd
    by (apply (bool_decide_unpack _); vm_compute; exact I).
  split; [|split].
  - destruct (Hnewest Hnd ("drift-bottle-data-0xa", 30000) eq_refl) as [Hkept _].
    etrans; [exact Hkept|reflexivity].
  - vm_compute. reflexivity.
  - rewrite (Hother "theme" eq_refl). reflexivity.
Defined.

End ClearOldEntries.

(** ** The per-user cache: clearing *)

Section ClearCache.
Import DataCache DataCacheOps.

Lemma getCacheKey_startsWith address :
  startsWith (getCacheKey address) CACHE_KEY_PREFIX = true.
Proof. reflexivity. Qed.

Lemma getCacheKey_lower address address' :
  toLowerCase address' = toLowerCase address → getCacheKey address' = getCacheKey address.
Proof. unfold getCacheKey. by intros ->. Qed.

Lemma clearAll_lookup keys : ∀ (b : Browser) k,
  localStorage
    (fold_left (fun b key => if startsWith key CACHE_KEY_PREFIX then removeItem key b else b)
       keys b) !! k
  = if startsWith k CACHE_KEY_PREFIX && bool_decide (k ∈ keys) then None
    else localStorage b !! k.
Proof.
  induction keys as [|key keys IH]; intros b k.
  - rewrite bool_decide_eq_false_2 by apply not_elem_of_nil. by rewrite andb_false_r.
  - change (fold_left ?f (key :: keys) b) with (fold_left f keys (f b key)).
    rewrite IH. destruct (startsWith k CACHE_KEY_PREFIX) eqn:Hk; simpl.
    + destruct (decide (k = key)) as [->|Hne].
      * rewrite (bool_decide_eq_true_2 (key ∈ key :: keys)) by left.
        rewrite Hk. simpl. rewrite lookup_delete_eq. by case_bool_decide.
      * destruct (decide (k ∈ keys)) as [Hin|Hout].
        -- by rewrite !bool_decide_eq_true_2 by (done || by right).
        -- rewrite !bool_decide_eq_false_2; [|by intros [?|?]%elem_of_cons|done].
           destruct (startsWith key CACHE_KEY_PREFIX); simpl; [|done].
           by rewrite lookup_delete_ne.
    + destruct (startsWith key CACHE_KEY_PREFIX) eqn:Hkey; simpl; [|done].
      rewrite lookup_delete_ne; [done|]. intros ->. congruence.
Qed.

(** X24.  Clearing removes what loading reads, and nothing else.
    After [clearBottleDataCache(address)], [loadBottleDataFromCache]
    returns null for that address in any spelling of upper and lower
    case, and every other key of local storage is as it was.  After
    [clearAllBottleDataCache()] (with [Object.keys] listing every key
    that is stored) it returns null for every address, and the keys
    that do not start with "drift-bottle-data" are as they were. *)
Theorem clearing_removes_what_load_reads (b : Browser) :
  window b = true →
  (∀ address address',
     toLowerCase address' = toLowerCase address →
     (loadBottleDataFromCache address' (clearBottleDataCache address b)).1 = None) ∧
  (∀ address k, k ≠ getCacheKey address →
     localStorage (clearBottleDataCache address b) !! k = localStorage b !! k) ∧
  (∀ keys, (∀ k, is_Some (localStorage b !! k) → k ∈ keys) →
     (∀ address, (loadBottleDataFromCache address (clearAllBottleDataCache keys b)).1 = None) ∧
     (∀ k, startsWith k CACHE_KEY_PREFIX = false →
        localStorage (clearAllBottleDataCache keys b) !! k = localStorage b !! k)).
Proof.
  intros Hw. split_and!.
  - intros address address' Hsame. unfold clearBottleDataCache, loadBottleDataFromCache.
    rewrite Hw. simpl. rewrite Hw. simpl.
    by rewrite (getCacheKey_lower _ _ Hsame), lookup_delete_eq.
  - intros address k Hk. unfold clearBottleDataCache. rewrite Hw. simpl.
    by rewrite lookup_delete_ne.
  - intros keys Hkeys. unfold clearAllBottleDataCache. rewrite Hw. simpl. split.
    + intros address. unfold loadBottleDataFromCache.
      destruct (negb (window _)); [done|].
      rewrite clearAll_lookup, getCacheKey_startsWith. simpl.
      case_bool_decide as Hin; [done|].
      destruct (localStorage b !! getCacheKey address) as [item|] eqn:Hitem; [|done].
      exfalso. apply Hin, Hkeys. by rewrite Hitem.
    + intros k Hk. by rewrite clearAll_lookup, Hk.
Qed.

Lemma clearing_removes_what_load_reads_witness :
  (loadBottleDataFromCache "0xab" (clearBottleDataCache "0xAB" half_an_hour_later)).1 = None ∧
  (loadBottleDataFromCache "0xab" half_an_hour_later).1 = Some saved_at_0.
Proof.
  destruct (clearing_removes_what_load_reads half_an_hour_later eq_refl) as (Hclear & _ & _).
  split; [by apply Hclear|]. vm_compute. reflexivity.
Defined.

End ClearCache.

(** ** [fetchWithCacheLock] and the memory cache *)

Section FetchWithLock.
Import CacheLock MemoryCache.
Context {T E : Type}.
Variable truthy : T → bool.
Implicit Types (s : St (memoryCache T)) (w : World (memoryCache T)).
Implicit Types (fetchFn : St (memoryCache T) → Outcome E T * St (memoryCache T)).
Implicit Types (options : FetchOptions.t) (entry : CacheEntry.t T).

(** With the lock in hand, [fetchWithCacheLock] is its operation,
    followed by the release of the lock. *)
Lemma fetchWithCacheLock_acquired cacheKey fetchFn options s s1 w2 :
  waitForLock ("fetch_" +:+ cacheKey) (default 5000 (FetchOptions.maxWaitMs options)) 100 s
    = Some (true, s1) →
  acquireLock ("fetch_" +:+ cacheKey) (default 30000 (FetchOptions.lockExpiryMs options))
    (suspend s1).2 = (true, w2) →
  ∀ r s3,
    fetchOperation truthy cacheKey fetchFn (default 300000 (FetchOptions.ttlMs options))
      (suspend ((suspend s1).1, w2)) = (r, s3) →
    ∃ s', fetchWithCacheLock truthy cacheKey fetchFn options s
          = Some (match r with Ret v => Ret v | Throw e => Throw e end, s') ∧
          app s'.2 = app s3.2.
Proof.
  intros Hwait Hacq r s3 Hop. unfold fetchWithCacheLock, safeCacheOperation. simpl.
  rewrite (withLock_acquired _ _ _ _ _ _ _ Hwait Hacq), Hop. simpl.
  destruct r as [v|e]; simpl.
  - eexists. split.
    + by destruct v.
    + rewrite !suspend_app. done.
  - eexists. split; [done|]. rewrite !suspend_app. done.
Qed.

Lemma acquired_app cacheKey (e m : Z) s s1 w2 :
  waitForLock ("fetch_" +:+ cacheKey) m 100 s = Some (true, s1) →
  acquireLock ("fetch_" +:+ cacheKey) e (suspend s1).2 = (true, w2) →
  app (suspend ((suspend s1).1, w2)).2 = app s.2.
Proof.
  intros Hwait Hacq. rewrite suspend_app. simpl.
  pose proof (acquireLock_app ("fetch_" +:+ cacheKey) e (suspend s1).2) as Ha.
  rewrite Hacq in Ha. simpl in Ha. rewrite Ha, suspend_app. by eapply waitForLock_app.
Qed.

(** X25.  [fetchWithCacheLock], once it holds the lock "fetch_<key>".
    An entry of the memory cache that is not older than its [ttl] and
    whose data are truthy is returned as it is: [fetchFn] has no part
    in the result and the cache is not written.  Otherwise [fetchFn]
    runs (an entry that has expired is deleted first).  When it
    resolves, its value is returned and stored with the time at which
    it resolved and a [ttl] of 300000 ms, whatever [options.ttlMs]
    says; [getCachedData] then serves it up to and including 300000 ms
    later, whatever [ttlMs] it is asked with.  When [fetchFn] rejects,
    the call rejects with the same error and stores nothing. *)
Theorem fetchWithCacheLock_caches_for_five_minutes cacheKey options s s1 w2 :
  waitForLock ("fetch_" +:+ cacheKey) (default 5000 (FetchOptions.maxWaitMs options)) 100 s
    = Some (true, s1) →
  acquireLock ("fetch_" +:+ cacheKey) (default 30000 (FetchOptions.lockExpiryMs options))
    (suspend s1).2 = (true, w2) →
  let s2 := suspend ((suspend s1).1, w2) in
  let fresh entry := now s2.2 - CacheEntry.timestamp entry ≤ CacheEntry.ttl entry in
  (∀ entry,
     app s.2 !! cacheKey = Some entry → fresh entry →
     truthy (CacheEntry.data entry) = true →
     ∃ s', app s'.2 = app s.2 ∧
           ∀ fetchFn, fetchWithCacheLock truthy cacheKey fetchFn options s
                      = Some (Ret (Some (CacheEntry.data entry)), s')) ∧
  (∀ fetchFn,
     (∀ entry, app s.2 !! cacheKey = Some entry → fresh entry →
               truthy (CacheEntry.data entry) = false) →
     let start :=
       (s2.1,
        mkWorld (now s2.2) (locks s2.2)
          (match app s.2 !! cacheKey with
           | Some entry =>
               if decide (fresh entry) then app s.2 else delete cacheKey (app s.2)
           | None => app s.2
           end)) in
     match fetchFn start with
     | (Ret data, s3) =>
         ∃ s', fetchWithCacheLock truthy cacheKey fetchFn options s
               = Some (Ret (Some data), s') ∧
               app s'.2 = <[cacheKey := CacheEntry.mk data (now s3.2) 300000]> (app s3.2) ∧
               ∀ (t ttlMs : Z) held,
                 t - now s3.2 ≤ 300000 →
                 getCachedData cacheKey ttlMs (mkWorld t held (app s'.2))
                 = (Some data, mkWorld t held (app s'.2))
     | (Throw error, s3) =>
         ∃ s', fetchWithCacheLock truthy cacheKey fetchFn options s = Some (Throw error, s') ∧
               app s'.2 = app s3.2
     end).
Proof.
  intros Hwait Hacq s2 fresh.
  pose proof (acquired_app _ _ _ _ _ _ Hwait Hacq) as Happ. fold s2 in Happ.
  split.
  - intros entry Hentry Hfresh Htruthy.
    assert (∀ fetchFn,
              fetchOperation truthy cacheKey fetchFn
                (default 300000 (FetchOptions.ttlMs options)) s2
              = (Ret (Some (CacheEntry.data entry)), suspend s2)) as Hop.
    { intros fetchFn. unfold fetchOperation, getCachedData. rewrite Happ, Hentry.
      replace (now s2.2 - CacheEntry.timestamp entry >? CacheEntry.ttl entry) with false
        by (symmetry; rewrite Z.gtb_ltb; apply Z.ltb_ge; exact Hfresh).
      rewrite Htruthy. by destruct s2. }
    exists (suspend (suspend ((suspend s2).1,
                              releaseLock ("fetch_" +:+ cacheKey) (suspend s2).2))).
    split.
    + rewrite !suspend_app. simpl. by rewrite suspend_app.
    + intros fetchFn. unfold fetchWithCacheLock, safeCacheOperation. simpl.
      rewrite (withLock_acquired _ _ _ _ _ _ _ Hwait Hacq). fold s2. by rewrite Hop.
  - intros fetchFn Hmiss start.
    assert (fetchOperation truthy cacheKey fetchFn
              (default 300000 (FetchOptions.ttlMs options)) s2
            = match fetchFn start with
              | (Ret data, s3) =>
                  (Ret (Some data), suspend (s3.1, setCachedData cacheKey data None s3.2))
              | (Throw error, s3) => (Throw error, suspend s3)
              end) as Hop.
    { unfold fetchOperation, getCachedData, start. rewrite Happ.
      destruct (app s.2 !! cacheKey) as [entry|] eqn:Hentry.
      - destruct (decide (fresh entry)) as [Hfresh|Hold].
        + replace (now s2.2 - CacheEntry.timestamp entry >? CacheEntry.ttl entry)
            with false by (symmetry; rewrite Z.gtb_ltb; apply Z.ltb_ge; exact Hfresh).
          rewrite (Hmiss entry eq_refl Hfresh).
          replace (mkWorld (now s2.2) (locks s2.2) (app s.2)) with s2.2
            by (rewrite <- Happ; by destruct s2.2).
          by destruct (fetchFn _) as [[data|error] s3].
        + replace (now s2.2 - CacheEntry.timestamp entry >? CacheEntry.ttl entry)
            with true by (symmetry; apply Z.gtb_lt; unfold fresh in Hold; lia).
          by destruct (fetchFn _) as [[data|error] s3].
      - replace (mkWorld (now s2.2) (locks s2.2) (app s.2)) with s2.2
          by (rewrite <- Happ; by destruct s2.2).
        by destruct (fetchFn _) as [[data|error] s3]. }
    destruct (fetchFn start) as [[data|error] s3].
    + destruct (fetchWithCacheLock_acquired _ _ _ _ _ _ Hwait Hacq _ _ Hop) as (s' & Hrun & Hs').
      exists s'. split; [done|].
      rewrite suspend_app in Hs'. simpl in Hs'. split; [done|].
      intros t ttlMs held Ht. unfold getCachedData. simpl. rewrite Hs', lookup_insert_eq. simpl.
      replace (t - now s3.2 >? 300000) with false
        by (symmetry; rewrite Z.gtb_ltb; apply Z.ltb_ge; lia).
      done.
    + destruct (fetchWithCacheLock_acquired _ _ _ _ _ _ Hwait Hacq _ _ Hop) as (s' & Hrun & Hs').
      exists s'. split; [done|]. by rewrite suspend_app in Hs'.
Qed.

(** X26.  What [fetchWithCacheLock] does not do.  The option [ttlMs]
    has no effect at all.  When the lock "fetch_<key>" does not come
    free within [maxWaitMs], or is taken by another task just before
    it is acquired, the call resolves to [null]: [fetchFn] has no part
    in the result, nothing is fetched and the memory cache is left as
    it was. *)
Theorem fetchWithCacheLock_without_the_lock cacheKey options s :
  (∀ fetchFn ttlMs,
     fetchWithCacheLock truthy cacheKey fetchFn options s
     = fetchWithCacheLock truthy cacheKey fetchFn
         (FetchOptions.mk ttlMs (FetchOptions.lockExpiryMs options)
            (FetchOptions.maxWaitMs options)) s) ∧
  (∀ s1,
     waitForLock ("fetch_" +:+ cacheKey) (default 5000 (FetchOptions.maxWaitMs options)) 100 s
       = Some (false, s1) →
     ∃ s', app s'.2 = app s.2 ∧
           ∀ fetchFn, fetchWithCacheLock truthy cacheKey fetchFn options s
                      = Some (Ret None, s')) ∧
  (∀ s1 w2,
     waitForLock ("fetch_" +:+ cacheKey) (default 5000 (FetchOptions.maxWaitMs options)) 100 s
       = Some (true, s1) →
     acquireLock ("fetch_" +:+ cacheKey) (default 30000 (FetchOptions.lockExpiryMs options))
       (suspend s1).2 = (false, w2) →
     ∃ s', app s'.2 = app s.2 ∧
           ∀ fetchFn, fetchWithCacheLock truthy cacheKey fetchFn options s
                      = Some (Ret None, s')).
Proof.
  split_and!.
  - done.
  - intros s1 Hwait. exists (suspend (suspend (suspend s1))). split.
    + rewrite !suspend_app. by eapply waitForLock_app.
    + intros fetchFn. unfold fetchWithCacheLock, safeCacheOperation. simpl.
      by rewrite (withLock_wait_failed _ _ _ _ _ _ Hwait).
  - intros s1 w2 Hwait Hacq.
    exists (suspend (suspend (suspend ((suspend s1).1, w2)))). split.
    + rewrite !suspend_app. simpl.
      pose proof (acquireLock_app ("fetch_" +:+ cacheKey)
                    (default 30000 (FetchOptions.lockExpiryMs options)) (suspend s1).2) as Ha.
      rewrite Hacq in Ha. simpl in Ha. rewrite Ha, suspend_app. by eapply waitForLock_app.
    + intros fetchFn. unfold fetchWithCacheLock, safeCacheOperation. simpl.
      by rewrite (withLock_acquire_failed _ _ _ _ _ _ _ Hwait Hacq).
Qed.

End FetchWithLock.

Section FetchWithLockScenario.
Import CacheLock MemoryCache.

(** Numbers as data, 0 being the falsy one; a fetch that takes 250 ms
    and resolves to 42; an idle page at time 1000 with an empty cache,
    and the same page while another task holds the lock on "k" for a
    minute. *)
Definition nonzero (n : Z) : bool := negb (n =? 0).

Definition slow_42 (s : St (memoryCache Z)) : Outcome unit Z * St (memoryCache Z) :=
  (Ret 42, sleep 250 s).

Definition no_options : FetchOptions.t := FetchOptions.mk None None None.

Definition idle : St (memoryCache Z) := ([], mkWorld 1000 ∅ ∅).

Definition fetching_elsewhere : St (memoryCache Z) :=
  ([], mkWorld 1000 {[ "fetch_k" := mkLock "fetch_k" 900 60900 ]} ∅).

Lemma fetchWithCacheLock_caches_for_five_minutes_witness :
  ∃ s', fetchWithCacheLock nonzero "k" slow_42 no_options idle = Some (Ret (Some 42), s') ∧
        app s'.2 !! "k" = Some (CacheEntry.mk 42 1250 300000).
Proof.
  destruct (fetchWithCacheLock_caches_for_five_minutes (E:=unit) nonzero "k" no_options idle idle
              (mkWorld 1000 {[ "fetch_k" := mkLock "fetch_k" 1000 31000 ]} ∅))
    as [_ Hmiss].
  - vm_compute. reflexivity.
  - vm_compute. reflexivity.
  - specialize (Hmiss slow_42).
    destruct Hmiss as (s' & Hrun & Hs' & _).
    + intros entry Hentry. vm_compute in Hentry. discriminate.
    + exists s'. split; [exact Hrun|]. rewrite Hs'. apply lookup_insert_eq.
Defined.

Lemma fetchWithCacheLock_without_the_lock_witness :
  ∃ s', fetchWithCacheLock nonzero "k" slow_42 no_options fetching_elsewhere
        = Some (Ret None, s') ∧ app s'.2 = ∅ ∧ now s'.2 = 6000.
Proof.
  destruct (fetchWithCacheLock_without_the_lock (T:=Z) (E:=unit) nonzero "k" no_options
              fetching_elsewhere) as (_ & Hwait & _).
  destruct (Hwait ([], mkWorld 6000 {[ "fetch_k" := mkLock "fetch_k" 900 60900 ]} ∅))
    as (s' & Hs' & Hrun).
  - vm_compute. reflexivity.
  - exists s'. split; [apply Hrun|]. split; [exact Hs'|].
    specialize (Hrun slow_42). vm_compute in Hrun. injection Hrun as <-. reflexivity.
Defined.

End FetchWithLockScenario.

(** ** The rate limiter: what counts against the budget *)

Section RateLimiterRecovery.
Import Security.
Variables (identifier : string) (maxAttempts windowMs : Z).

(** The limiter after the calls [isAllowed(identifier, maxAttempts,
    windowMs)] made at the given times, one after the other. *)
Definition attemptsAfter (times : list Z) (attempts : gmap string (list Z))
    : gmap string (list Z) :=
  fold_left (fun attempts now => (isAllowed identifier maxAttempts windowMs now attempts).2)
    times attempts.

Lemma attemptsAfter_snoc times now attempts :
  attemptsAfter (times ++ [now]) attempts
  = (isAllowed identifier maxAttempts windowMs now (attemptsAfter times attempts)).2.
Proof. unfold attemptsAfter. by rewrite fold_left_app. Qed.

Lemma allowedTimes_snoc times now : ∀ attempts,
  allowedTimes identifier maxAttempts windowMs (times ++ [now]) attempts
  = allowedTimes identifier maxAttempts windowMs times attempts
    ++ (if (isAllowed identifier maxAttempts windowMs now (attemptsAfter times attempts)).1
        then [now] else []).
Proof.
  induction times as [|t times IH]; intros attempts; simpl.
  - destruct (isAllowed _ _ _ now attempts) as [ok att']. simpl. by rewrite app_nil_r.
  - change (attemptsAfter (t :: times) attempts)
      with (attemptsAfter times (isAllowed identifier maxAttempts windowMs t attempts).2).
    destruct (isAllowed _ _ _ t attempts) as [ok att']. simpl.
    by rewrite IH, <- app_assoc.
Qed.

Lemma Sorted_snoc_inv (times : list Z) (now : Z) :
  Sorted Z.le (times ++ [now]) → Sorted Z.le times ∧ ∀ a, a ∈ times → a ≤ now.
Proof.
  intros Hs. apply Sorted_StronglySorted in Hs; [|intros x y z; lia].
  induction times as [|t times IH]; simpl in *.
  - split; [constructor|]. by intros a ?%elem_of_nil.
  - apply StronglySorted_inv in Hs as [Hs Hall]. destruct (IH Hs) as [IH1 IH2].
    split.
    + apply StronglySorted_Sorted. constructor.
      * by apply Sorted_StronglySorted; [intros x y z; lia|].
      * apply Forall_app in Hall as [Hall _]. done.
    + intros a [->|Ha]%elem_of_cons; [|by apply IH2].
      apply Forall_app in Hall as [_ Hall]. by inversion Hall.
Qed.

Lemma tracks_attemptsAfter times :
  0 ≤ maxAttempts → Sorted Z.le times →
  ∀ τ, (∀ a, a ∈ times → a ≤ τ) →
    tracks identifier maxAttempts windowMs τ
      (allowedTimes identifier maxAttempts windowMs times ∅) (attemptsAfter times ∅).
Proof.
  intros Hmax. induction times as [|now times IH] using rev_ind; intros Hs τ Hτ.
  - split_and!; [by intros a ?%elem_of_nil|done|intros t; simpl; lia].
  - apply Sorted_snoc_inv in Hs as [Hs Hnow].
    rewrite allowedTimes_snoc, attemptsAfter_snoc.
    apply (tracks_later identifier maxAttempts windowMs now);
      [|apply Hτ, elem_of_app; right; by left].
    apply (tracks_step identifier maxAttempts windowMs now); [|lia].
    by apply IH.
Qed.

(** X27.  Only the calls that were let through count against the
    budget.  After any calls of [isAllowed] for an identifier at times
    that do not go back, starting from an empty limiter, a further call
    is let through exactly when fewer than [maxAttempts] of the calls
    that were let through lie less than [windowMs] back: a refused call
    is not put on record and does not prolong the wait.  And after
    [reset(identifier)] the next call for it is let through, the
    records of the other identifiers being left alone. *)
Theorem refused_attempts_do_not_count :
  0 < maxAttempts →
  (∀ times now,
     Sorted Z.le (times ++ [now]) →
     (isAllowed identifier maxAttempts windowMs now (attemptsAfter times ∅)).1
     = bool_decide
         (Z.of_nat (length (filter (fun a : Z => now - windowMs < a)
                              (allowedTimes identifier maxAttempts windowMs times ∅)))
          < maxAttempts)) ∧
  (∀ now attempts,
     (isAllowed identifier maxAttempts windowMs now attempts).1 = false →
     default [] ((isAllowed identifier maxAttempts windowMs now attempts).2 !! identifier)
     = filter (fun a : Z => now - windowMs < a) (default [] (attempts !! identifier))) ∧
  (∀ now attempts,
     (isAllowed identifier maxAttempts windowMs now (reset identifier attempts)).1 = true) ∧
  (∀ attempts other, other ≠ identifier → reset identifier attempts !! other = attempts !! other).
Proof.
  intros Hmax. split_and!.
  - intros times now [Hs Hnow]%Sorted_snoc_inv.
    destruct (tracks_attemptsAfter times ltac:(lia) Hs now Hnow) as (_ & Hrec & _).
    destruct (isAllowed_spec identifier maxAttempts windowMs now (attemptsAfter times ∅))
      as [Hres _].
    rewrite Hres. simpl. by rewrite (Hrec now) by lia.
  - intros now attempts Hno.
    destruct (isAllowed_spec identifier maxAttempts windowMs now attempts) as [Hres Hatt].
    rewrite Hatt. rewrite Hres in Hno. simpl in Hno. rewrite Hno. by rewrite app_nil_r.
  - intros now attempts.
    destruct (isAllowed_spec identifier maxAttempts windowMs now (reset identifier attempts))
      as [Hres _].
    rewrite Hres. simpl. unfold reset. rewrite lookup_delete_eq. simpl.
    apply bool_decide_eq_true_2. lia.
  - intros attempts other Hne. unfold reset. by rewrite lookup_delete_ne.
Qed.

End RateLimiterRecovery.

Section RateLimiterRecoveryScenario.
Import Security.

(** Two per minute: of four calls in the first three seconds the
    first two pass; one minute after the first, one slot is free
    again, though the refused calls came later. *)
Lemma refused_attempts_do_not_count_witness :
  allowedTimes "0xab" 2 60000 [0; 1000; 2000; 3000] ∅ = [0; 1000] ∧
  (isAllowed "0xab" 2 60000 60500 (attemptsAfter "0xab" 2 60000 [0; 1000; 2000; 3000] ∅)).1
  = true.
Proof.
  destruct (refused_attempts_do_not_count "0xab" 2 60000) as (Hcount & _); [lia|].
  split; [vm_compute; reflexivity|].
  rewrite (Hcount [0; 1000; 2000; 3000] 60500).
  - vm_compute. reflexivity.
  - repeat constructor; lia.
Defined.

End RateLimiterRecoveryScenario.

(** ** The receive page: what a search shows and what it leaves alone *)

Section ReceivePageFrame.
Import ReceivePage.
Implicit Types (h : Hooked) (p : Page).










End ReceivePageFrame.

Section ReceivePageFetch.
Import ReceivePage.
Implicit Types (h : Hooked) (p : Page).


End ReceivePageFetch.

Section ReceivePageSearch.
Import ReceivePage.
Implicit Types (h : Hooked) (p : Page).





End ReceivePageSearch.

Section ReceivePageSearchScenario.
Import ReceivePage.





End ReceivePageSearchScenario.

(** ** The receive page: the age that is shown *)

Section ReceivePageAges.
Import ReceivePage ReceivePageTime.

(** X30.  The label [formatTimestamp] puts on a valid timestamp (a
    positive number of milliseconds that a [Date] can hold), [age]
    being the time since then.  It is '刚刚' exactly for an age below
    one minute, a timestamp in the future included; 'n 分钟前',
    'n 小时前' or 'n 天前' exactly when the age is at least n and less
    than n + 1 minutes, hours or days, with n from 1 to 59, 23 and 6;
    the local date and time exactly from 7 days on; and never
    '时间未知'.  A label therefore never overstates the age and
    understates it by less than one unit.  A chain timestamp in seconds, as
    [fetchBottleData] converts it, gets the label of its age in
    milliseconds, and a missing one (0) is shown as '刚刚' at the time
    of the fetch (on a clock that a [Date] can hold). *)
Theorem formatTimestamp_never_overstates (now timestamp : Z) :
  0 < timestamp ≤ MAX_TIME_VALUE →
  let age := now - timestamp in
  (formatTimestamp now timestamp = JustNow ↔ age < 60000) ∧
  (∀ n, formatTimestamp now timestamp = MinutesAgo n ↔
        1 ≤ n < 60 ∧ n * 60000 ≤ age < (n + 1) * 60000) ∧
  (∀ n, formatTimestamp now timestamp = HoursAgo n ↔
        1 ≤ n < 24 ∧ n * 3600000 ≤ age < (n + 1) * 3600000) ∧
  (∀ n, formatTimestamp now timestamp = DaysAgo n ↔
        1 ≤ n < 7 ∧ n * 86400000 ≤ age < (n + 1) * 86400000) ∧
  (formatTimestamp now timestamp = LocalDateTime timestamp ↔ 604800000 ≤ age) ∧
  formatTimestamp now timestamp ≠ TimeUnknown ∧
  (∀ seconds fetched,
     0 < seconds < 10 ^ 12 → timestamp = seconds * 1000 →
     formatTimestamp now (toMilliseconds fetched seconds) = formatTimestamp now timestamp) ∧
  (now ≤ MAX_TIME_VALUE → formatTimestamp now (toMilliseconds now 0) = JustNow).
Proof.
  intros [Hpos Hmax] age. unfold formatTimestamp.
  replace (timestamp <=? 0) with false by (symmetry; apply Z.leb_gt; lia).
  replace (MAX_TIME_VALUE <? timestamp) with false by (symmetry; apply Z.ltb_ge; lia).
  fold age. cbv zeta.
  pose proof (Z.div_mod age (1000 * 60) ltac:(lia)) as Hm.
  pose proof (Z.mod_pos_bound age (1000 * 60) ltac:(lia)) as Hmb.
  set (m := age / (1000 * 60)) in *.
  pose proof (Z.div_mod m 60 ltac:(lia)) as Hh.
  pose proof (Z.mod_pos_bound m 60 ltac:(lia)) as Hhb.
  pose proof (Z.div_mod m 1440 ltac:(lia)) as Hd.
  pose proof (Z.mod_pos_bound m 1440 ltac:(lia)) as Hdb.
  split_and!.
  - destruct (Z.ltb_spec m 1); [split; [lia|done]|].
    destruct (m <? 60), (m <? 1440), (m <? 10080); (split; [done|lia]).
  - intros n. destruct (Z.ltb_spec m 1); [split; [done|lia]|].
    destruct (Z.ltb_spec m 60).
    + split; [intros [= <-]; lia|]. intros ?. f_equal. nia.
    + destruct (m <? 1440), (m <? 10080); (split; [done|lia]).
  - intros n. destruct (Z.ltb_spec m 1); [split; [done|lia]|].
    destruct (Z.ltb_spec m 60); [split; [done|lia]|].
    destruct (Z.ltb_spec m 1440).
    + split; [intros [= <-]; lia|]. intros ?. f_equal. nia.
    + destruct (m <? 10080); (split; [done|lia]).
  - intros n. destruct (Z.ltb_spec m 1); [split; [done|lia]|].
    destruct (Z.ltb_spec m 60); [split; [done|lia]|].
    destruct (Z.ltb_spec m 1440); [split; [done|lia]|].
    destruct (Z.ltb_spec m 10080).
    + split; [intros [= <-]; lia|]. intros ?. f_equal. nia.
    + split; [done|lia].
  - destruct (Z.ltb_spec m 1); [split; [done|lia]|].
    destruct (Z.ltb_spec m 60); [split; [done|lia]|].
    destruct (Z.ltb_spec m 1440); [split; [done|lia]|].
    destruct (Z.ltb_spec m 10080); [split; [done|lia]|].
    split; [lia|done].
  - by destruct (m <? 1), (m <? 60), (m <? 1440), (m <? 10080).
  - intros seconds fetched Hs ->. unfold toMilliseconds.
    replace (0 <? seconds) with true by (symmetry; apply Z.ltb_lt; lia).
    replace (seconds <? 10 ^ 12) with true by (symmetry; apply Z.ltb_lt; lia).
    replace (seconds * 1000 <=? 0) with false by (symmetry; apply Z.leb_gt; lia).
    replace (MAX_TIME_VALUE <? seconds * 1000) with false by (symmetry; apply Z.ltb_ge; lia).
    done.
  - intros Hnow. unfold toMilliseconds. simpl.
    destruct (Z.leb_spec now 0); [done|].
    replace (MAX_TIME_VALUE <? now) with false by (symmetry; apply Z.ltb_ge; lia).
    by rewrite Z.sub_diag.
Qed.

(** A bottle sent at 1700000000 s, looked at 3 h 25 min later. *)
Lemma formatTimestamp_never_overstates_witness :
  formatTimestamp 1700012300000 (toMilliseconds 1700012300000 1700000000) = HoursAgo 3.
Proof.
  destruct (formatTimestamp_never_overstates 1700012300000 1700000000000)
    as (_ & _ & Hhours & _ & _ & _ & Hseconds & _).
  - unfold MAX_TIME_VALUE. lia.
  - rewrite (Hseconds 1700000000 1700012300000); [|lia|lia]. apply Hhours. lia.
Defined.

End ReceivePageAges.
